(** * cudf I/O: container parsing, the Snappy host decoder and the Avro row decoder

    A shallow embedding of
      - [cpp/src/io/comp/uncomp.cpp]: [ParseGZArchive], [OpenZipArchive],
        [io_uncompress_single_h2d] up to its call of a decompressor,
        [get_uncompressed_data], and [HostDecompressor_SNAPPY::Decompress];
      - [cpp/src/io/avro/avro_gpu.cu]: [avro_decode_zigzag_varint],
        [avro_decode_row], the per-warp loop of [gpuDecodeAvroColumnData] and
        the grid of [DecodeAvroColumnData].

    Conventions.  A buffer is a [list byte]; a pointer into it is a [Z] index.
    Fixed-width C++ integers are [Z] with the wrap-around written out ([u32],
    [u64], [s32], [s64]); [size_t] and pointers are 64 bits wide.  A load or a
    store outside its buffer is undefined in C++; here it is the outcome
    [OutOfBounds], so that "never reads past the end" is a theorem and not an
    assumption.  Loops take a fuel argument and report [OutOfFuel] when it is
    too small. *)

From stdpp Require Import base numbers list.
From Stdlib Require Import ZArith Lia.
From Stdlib.Strings Require Import Byte.

Local Open Scope Z_scope.

(** ** Outcomes of a run *)

Inductive run (A : Type) : Type :=
| Ret (a : A)
| OutOfBounds
| OutOfFuel.

Arguments Ret {A} a.
Arguments OutOfBounds {A}.
Arguments OutOfFuel {A}.

Definition bind {A B : Type} (m : run A) (k : A -> run B) : run B :=
  match m with
  | Ret a => k a
  | OutOfBounds => OutOfBounds
  | OutOfFuel => OutOfFuel
  end.

Notation "'do' x <- m ; k" := (bind m (fun x => k))
  (at level 10, x pattern, m at level 100, k at level 200,
   format "'[v' 'do'  x  <-  m ; '/' k ']'").

(** ** Machine integers *)

Definition u32 (x : Z) : Z := x mod 2 ^ 32.
Definition u64 (x : Z) : Z := x mod 2 ^ 64.
(** Reinterpretation of the low 32 (64) bits as a two's complement value. *)
Definition s32 (x : Z) : Z := (x + 2 ^ 31) mod 2 ^ 32 - 2 ^ 31.
Definition s64 (x : Z) : Z := (x + 2 ^ 63) mod 2 ^ 64 - 2 ^ 63.

(** ** Byte buffers *)

Definition byte_val (b : byte) : Z := Z.of_N (Byte.to_N b).

(** [mk_byte] is only used to write buffers down in examples. *)
Definition mk_byte (z : Z) : byte :=
  match Byte.of_N (Z.to_N (z mod 256)) with
  | Some b => b
  | None => Byte.x00
  end.

Definition mk_bytes (l : list Z) : list byte := map mk_byte l.

(** [p[0]] for a [uint8_t const*] at index [p] of buffer [m], as a byte. *)
Definition loadb (m : list byte) (p : Z) : run byte :=
  if p <? 0 then OutOfBounds
  else match m !! Z.to_nat p with
       | Some b => Ret b
       | None => OutOfBounds
       end.

Definition load (m : list byte) (p : Z) : run Z :=
  do b <- loadb m p; Ret (byte_val b).

(** [p[0] = b]. *)
Definition store (m : list byte) (p : Z) (b : byte) : run (list byte) :=
  if (0 <=? p) && (p <? Z.of_nat (length m))
  then Ret (<[Z.to_nat p := b]> m)
  else OutOfBounds.

(** Little-endian loads, as [*reinterpret_cast<const uint16_t*>(p)] and
    [*reinterpret_cast<const uint32_t*>(p)] give on the supported targets. *)
Definition load16 (m : list byte) (p : Z) : run Z :=
  do b0 <- load m p;
  do b1 <- load m (p + 1);
  Ret (Z.lor b0 (Z.shiftl b1 8)).

Definition load32 (m : list byte) (p : Z) : run Z :=
  do lo <- load16 m p;
  do hi <- load16 m (p + 2);
  Ret (Z.lor lo (Z.shiftl hi 16)).

(** Little-endian value of a run of bytes. *)
Fixpoint le_value (bs : list byte) : Z :=
  match bs with
  | [] => 0
  | b :: bs => byte_val b + 256 * le_value bs
  end.

(** The bytes [p .. p + n - 1] of a buffer. *)
Definition slice (m : list byte) (p n : Z) : list byte :=
  take (Z.to_nat n) (drop (Z.to_nat p) m).

(** The buffer holds the byte values [l] from index [p] on. *)
Definition bytes_at (m : list byte) (p : Z) (l : list Z) : Prop :=
  forall (k : nat) (z : Z), l !! k = Some z -> load m (p + Z.of_nat k) = Ret z.

(** * The Snappy host decoder *)

Module Snappy.

(** The local variables of [HostDecompressor_SNAPPY::Decompress] that live
    across iterations of the LZ77 loop, and the destination buffer. *)
Record lz_state : Type := mk_lz {
  cur : Z;
  dst_pos : Z;
  bytes_left : Z;
  dstBytes : list byte
}.

(** How one pass through the body of the [do ... while] ends: by [break], or
    at the bottom of the body.  A [Break] carries the state the pass started
    in: every [break] comes before the pass has changed [dst_pos],
    [bytes_left] or the destination, and after the loop only [bytes_left] is
    read. *)
Inductive ctl : Type :=
| Break (s : lz_state)
| Next (s : lz_state).

(** The varint length prefix.  [None] is the [return 0] on a fifth group that
    does not fit 32 bits; otherwise the decoded size and the cursor after it.
    The loop runs at most five times: once [l >= 28] a byte either returns or
    has its continuation bit clear. *)
Fixpoint read_uncompressed_size (fuel : nat) (src : list byte) (end_ : Z)
    (cur l uncompressed_size : Z) : run (option (Z * Z)) :=
  match fuel with
  | O => OutOfFuel
  | S fuel =>
    do c <- load src cur;
    let cur := cur + 1 in
    let lo7 := Z.land c 0x7f in
    if (28 <=? l) && (0xf <? c) then Ret None
    else
      let uncompressed_size := Z.lor uncompressed_size (u32 (Z.shiftl lo7 l)) in
      let l := l + 7 in
      if (0x7f <? c) && (cur <? end_)
      then read_uncompressed_size fuel src end_ cur l uncompressed_size
      else Ret (Some (uncompressed_size, cur))
  end.

(** The header of a copy element, [blen & 3 <> 0]: [None] is one of the three
    [break]s on a truncated element, otherwise [(offset, blen, cur)]. *)
Definition copy_element (src : list byte) (end_ cur blen : Z)
    : run (option (Z * Z * Z)) :=
  if negb (Z.land blen 2 =? 0) then
    (* xxxxxx1x: copy with 6-bit length, 2-byte or 4-byte offset *)
    if end_ <? cur + 2 then Ret None
    else
      do lo <- load16 src cur;
      let cur := cur + 2 in
      if negb (Z.land blen 1 =? 0) then
        if end_ <? cur + 2 then Ret None
        else
          do hi <- load16 src cur;
          Ret (Some (Z.lor lo (u32 (Z.shiftl hi 16)), Z.shiftr blen 2 + 1, cur + 2))
      else Ret (Some (lo, Z.shiftr blen 2 + 1, cur))
  else
    (* xxxxxx01.oooooooo: copy with 3-bit length, 11-bit offset *)
    if end_ <=? cur then Ret None
    else
      do b <- load src cur;
      Ret (Some (Z.lor (Z.shiftl (Z.land blen 0xe0) 3) b,
                 Z.land (Z.shiftr blen 2) 7 + 4, cur + 1)).

(** The body of [do { dstBytes[dst_pos] = dstBytes[dst_pos - offset];
    dst_pos++; } while (--blen);], run [S k] times. *)
Fixpoint copy_bytes (k : nat) (offset dst_pos : Z) (dst : list byte)
    : run (Z * list byte) :=
  do b <- loadb dst (u32 (dst_pos - offset));
  do dst <- store dst dst_pos b;
  let dst_pos := u32 (dst_pos + 1) in
  match k with
  | O => Ret (dst_pos, dst)
  | S k => copy_bytes k offset dst_pos dst
  end.

(** The header of a literal element, [blen & 3 = 0], up to and including
    [blen++]: [None] is the [break] on truncated length bytes, otherwise
    [(blen, cur)], the length of the run and the cursor at its first byte. *)
Definition literal_element (src : list byte) (end_ cur blen : Z)
    : run (option (Z * Z)) :=
  let blen := Z.shiftr blen 2 in
  if 60 <=? blen then
    let num_bytes := blen - 59 in
    if end_ <=? cur + num_bytes then Ret None
    else
      do b0 <- load src cur;
      do blen <-
        (if 1 <? num_bytes then
           do b1 <- load src (cur + 1);
           let blen := Z.lor b0 (Z.shiftl b1 8) in
           if 2 <? num_bytes then
             do b2 <- load src (cur + 2);
             let blen := Z.lor blen (Z.shiftl b2 16) in
             if 3 <? num_bytes then
               do b3 <- load src (cur + 3);
               Ret (Z.lor blen (u32 (Z.shiftl b3 24)))
             else Ret blen
           else Ret blen
         else Ret b0);
      Ret (Some (u32 (blen + 1), cur + num_bytes))
  else Ret (Some (u32 (blen + 1), cur)).

(** [memcpy(dst + dpos, src + spos, n)]. *)
Fixpoint memcpy (n : nat) (dst : list byte) (dpos : Z) (src : list byte) (spos : Z)
    : run (list byte) :=
  match n with
  | O => Ret dst
  | S n =>
    do b <- loadb src spos;
    do dst <- store dst dpos b;
    memcpy n dst (dpos + 1) src (spos + 1)
  end.

(** One pass through the body of the LZ77 loop. *)
Definition lz_step (src : list byte) (end_ : Z) (s : lz_state) : run ctl :=
  do blen <- load src (cur s);
  let cur := cur s + 1 in
  if negb (Z.land blen 3 =? 0) then
    do hdr <- copy_element src end_ cur blen;
    match hdr with
    | None => Ret (Break s)
    | Some (offset, blen, cur) =>
      if (dst_pos s <=? u32 (offset - 1)) || (bytes_left s <? blen)
      then Ret (Break s)
      else
        let bytes_left := u32 (bytes_left s - blen) in
        do r <- copy_bytes (Z.to_nat (u32 (blen - 1))) offset (dst_pos s) (dstBytes s);
        Ret (Next (mk_lz cur r.1 bytes_left r.2))
    end
  else
    do hdr <- literal_element src end_ cur blen;
    match hdr with
    | None => Ret (Break s)
    | Some (blen, cur) =>
      if (end_ <? cur + blen) || (bytes_left s <? blen) then Ret (Break s)
      else
        do dst <- memcpy (Z.to_nat blen) (dstBytes s) (dst_pos s) src cur;
        Ret (Next (mk_lz (cur + blen) (u32 (dst_pos s + blen))
                         (u32 (bytes_left s - blen)) dst))
    end.

(** [do { body } while (bytes_left && cur < end);] giving the state the loop
    is left in. *)
Fixpoint lz_loop (fuel : nat) (src : list byte) (end_ : Z) (s : lz_state)
    : run lz_state :=
  match fuel with
  | O => OutOfFuel
  | S fuel =>
    do c <- lz_step src end_ s;
    match c with
    | Break s => Ret s
    | Next s =>
      if negb (bytes_left s =? 0) && (cur s <? end_)
      then lz_loop fuel src end_ s
      else Ret s
    end
  end.

(** [HostDecompressor_SNAPPY::Decompress] up to the LZ77 loop: [None] is a
    [return 0], otherwise the declared size and the state the loop starts in.
    [dstBytes] is taken to be non-null. *)
Definition Decompress_init (dstBytes : list byte) (dstLen : Z)
    (src : list byte) (srcLen : Z) : run (option (Z * lz_state)) :=
  if srcLen <? 1 then Ret None
  else
    do r <- read_uncompressed_size 5 src srcLen 0 0 0;
    match r with
    | None => Ret None
    | Some (uncompressed_size, cur) =>
      if (uncompressed_size =? 0) || (dstLen <? uncompressed_size) || (srcLen <=? cur)
      then Ret None
      else Ret (Some (uncompressed_size, mk_lz cur 0 uncompressed_size dstBytes))
    end.

(** The whole function, together with the state it stops in: the result is
    the returned [size_t] and that state ([None] before the loop starts). *)
Definition Decompress_run (dstBytes : list byte) (dstLen : Z)
    (src : list byte) (srcLen : Z) : run (Z * option lz_state) :=
  do i <- Decompress_init dstBytes dstLen src srcLen;
  match i with
  | None => Ret (0, None)
  | Some (uncompressed_size, s) =>
    do s <- lz_loop (Z.to_nat srcLen) src srcLen s;
    Ret (if negb (bytes_left s =? 0) then 0 else uncompressed_size, Some s)
  end.

Definition Decompress (dstBytes : list byte) (dstLen : Z)
    (src : list byte) (srcLen : Z) : run Z :=
  do r <- Decompress_run dstBytes dstLen src srcLen; Ret r.1.

(** *** Vocabulary for the statements about the decoder *)

(** The loop condition [bytes_left && cur < end]. *)
Definition lz_at_head (end_ : Z) (s : lz_state) : Prop :=
  bytes_left s <> 0 /\ cur s < end_.

(** [lz_reaches src end_ s0 s]: starting the loop in [s0], the decoder is at
    the top of the loop body in state [s] after zero or more whole elements. *)
Inductive lz_reaches (src : list byte) (end_ : Z) : lz_state -> lz_state -> Prop :=
| lz_reaches_here s : lz_reaches src end_ s s
| lz_reaches_next s s1 s2 :
    lz_step src end_ s = Ret (Next s1) ->
    lz_at_head end_ s1 ->
    lz_reaches src end_ s1 s2 ->
    lz_reaches src end_ s s2.

(** [lz_final src end_ s0 s]: the loop started in [s0] is left in [s], either
    by a [break] or because the loop condition fails after an element. *)
Inductive lz_final (src : list byte) (end_ : Z) (s0 : lz_state) : lz_state -> Prop :=
| lz_final_break sh :
    lz_reaches src end_ s0 sh ->
    lz_step src end_ sh = Ret (Break sh) ->
    lz_final src end_ s0 sh
| lz_final_done sh s :
    lz_reaches src end_ s0 sh ->
    lz_step src end_ sh = Ret (Next s) ->
    ~ lz_at_head end_ s ->
    lz_final src end_ s0 s.

(** What holds of the loop state whenever control is at the top or at the
    bottom of the loop body: [u] is the declared size, [dst0] the destination
    buffer as the caller passed it. *)
Record lz_inv (u : Z) (dst0 : list byte) (s : lz_state) : Prop := mk_lz_inv {
  inv_cur : 0 <= cur s;
  inv_pos : 0 <= dst_pos s;
  inv_left : 0 <= bytes_left s;
  inv_sum : dst_pos s + bytes_left s = u;
  inv_len : length (dstBytes s) = length dst0;
  inv_frame : forall i : nat, u <= Z.of_nat i -> dstBytes s !! i = dst0 !! i
}.

(** Number of bytes a copy element occupies after its tag byte. *)
Definition copy_size (tag : Z) : Z :=
  if Z.land tag 2 =? 0 then 1 else if Z.land tag 1 =? 0 then 2 else 4.

(** The copy element tagged [tag] at the cursor of [s] cannot be honoured: it
    runs past the source, or its offset is not within [1 .. dst_pos], or its
    length exceeds the bytes still to be produced. *)
Definition copy_violation (src : list byte) (end_ : Z) (s : lz_state) (tag : Z) : Prop :=
  end_ < cur s + 1 + copy_size tag \/
  exists offset blen c,
    copy_element src end_ (cur s + 1) tag = Ret (Some (offset, blen, c)) /\
    (offset < 1 \/ dst_pos s < offset \/ bytes_left s < blen).

(** The effect of the element at the cursor of [s] when its tag [tag] has
    low bits 00.  A length field [f] below 60 stands for a run of [f + 1]
    bytes that starts right after the tag; a field of 60 to 63 is followed by
    [f - 59] length bytes, little-endian, whose value plus one (modulo 2^32)
    is the length of the run that starts after them.  The element breaks when
    the length bytes or the run do not fit the source, or the run exceeds the
    bytes still to be produced; otherwise the run is copied to the output. *)
Definition literal_run (src : list byte) (end_ : Z) (s : lz_state) (tag : Z) : Prop :=
  let field := Z.shiftr tag 2 in
  let nlen := if field <? 60 then 0 else field - 59 in
  let c := cur s + 1 + nlen in
  let n := if field <? 60 then field + 1
           else u32 (le_value (slice src (cur s + 1) nlen) + 1) in
  0 <= field <= 63 /\
  if (60 <=? field) && (end_ <=? c) || (end_ <? c + n) || (bytes_left s <? n)
  then lz_step src end_ s = Ret (Break s)
  else exists s',
         lz_step src end_ s = Ret (Next s') /\
         cur s' = c + n /\ dst_pos s' = dst_pos s + n /\
         bytes_left s' = bytes_left s - n /\
         slice (dstBytes s') (dst_pos s) n = slice src c n.

(** *** Vocabulary for the statements about the output *)

(** [out_prefix a b]: what state [a] has produced, the bytes below its
    [dst_pos], is still there in state [b], which has produced no less. *)
Definition out_prefix (a b : lz_state) : Prop :=
  dst_pos a <= dst_pos b /\
  forall i : nat, Z.of_nat i < dst_pos a -> dstBytes b !! i = dstBytes a !! i.

(** Two states of the loop that differ at most in what the destination
    holds at [dst_pos] and after, where nothing has been produced yet. *)
Definition same_output (s t : lz_state) : Prop :=
  cur t = cur s /\ dst_pos t = dst_pos s /\ bytes_left t = bytes_left s /\
  length (dstBytes t) = length (dstBytes s) /\
  forall i : nat, Z.of_nat i < dst_pos s -> dstBytes t !! i = dstBytes s !! i.

(** The effect of a copy element with the given [offset] and length [blen]
    on state [s], leaving the cursor at [c]: the output grows by [blen]
    bytes, each the byte [offset] places before it in the output, those
    just written included; what was there before stays. *)
Definition copy_run (src : list byte) (end_ : Z) (s : lz_state) (offset blen c : Z) : Prop :=
  exists s',
    lz_step src end_ s = Ret (Next s') /\
    cur s' = c /\ dst_pos s' = dst_pos s + blen /\
    bytes_left s' = bytes_left s - blen /\
    out_prefix s s' /\
    forall i : nat, dst_pos s <= Z.of_nat i < dst_pos s + blen ->
      dstBytes s' !! i = dstBytes s' !! Z.to_nat (Z.of_nat i - offset).

End Snappy.

(** * Gzip archives *)

(** The header [io_uncomp.h], which declares the flag masks of
    [GZIPHeaderFlag], is not among the sources at hand: the masks are a
    parameter of [ParseGZArchive] here.  [rfc1952] gives the values RFC 1952
    assigns to them. *)
Module GZIPHeaderFlag.
Record t : Type := mk { fhcrc : Z; fextra : Z; fname : Z; fcomment : Z }.
Definition rfc1952 : t := mk 0x02 0x04 0x08 0x10.
End GZIPHeaderFlag.

Module GZip.

(** [sizeof(gz_file_header_s)] under [#pragma pack(1)], and the offsets of
    the fields of the header that the parser reads. *)
Definition sizeof_gz_file_header_s : Z := 10.
Definition ofs_id1 : Z := 0.
Definition ofs_id2 : Z := 1.
Definition ofs_comp_mthd : Z := 2.
Definition ofs_flags : Z := 3.

(** Pointers are indices into the buffer, [None] for [nullptr]. *)
Record gz_archive_s : Type := mk_gz {
  fhdr : option Z;
  hcrc16 : Z;
  xlen : Z;
  fxtra : option Z;
  fname : option Z;
  fcomment : option Z;
  comp_data : option Z;
  comp_len : Z;
  crc32 : Z;
  isize : Z
}.

(** [memset(dst, 0, sizeof(gz_archive_s))]. *)
Definition gz_zero : gz_archive_s := mk_gz None 0 0 None None None None 0 0 0.

(** The archive under construction with the local variables [raw] and [len]. *)
Record gz_parse : Type := mk_parse {
  p_dst : gz_archive_s;
  p_raw : Z;
  p_len : Z
}.

(** [do { if (l >= len) return false; c = raw[l]; l++; } while (c != 0);]
    giving the final [l], or [None] for the [return false]. *)
Fixpoint scan_zstring (fuel : nat) (buf : list byte) (raw len l : Z) : run (option Z) :=
  match fuel with
  | O => OutOfFuel
  | S fuel =>
    if len <=? l then Ret None
    else
      do c <- load buf (raw + l);
      let l := l + 1 in
      if negb (c =? 0) then scan_zstring fuel buf raw len l else Ret (Some l)
  end.

(** The four optional fields, each guarded by its flag; [None] stands for
    [return false]. *)
Definition parse_fextra (F : GZIPHeaderFlag.t) (buf : list byte) (flags : Z)
    (p : gz_parse) : run (option gz_parse) :=
  if negb (Z.land flags (GZIPHeaderFlag.fextra F) =? 0) then
    if p_len p <? 2 then Ret None
    else
      do xlen <- load16 buf (p_raw p);
      let raw := p_raw p + 2 in
      let len := p_len p - 2 in
      if len <? xlen then Ret None
      else
        let d := p_dst p in
        let d := mk_gz (fhdr d) (hcrc16 d) (xlen mod 2 ^ 16) (Some raw) (fname d)
                       (fcomment d) (comp_data d) (comp_len d) (crc32 d) (isize d) in
        Ret (Some (mk_parse d (raw + xlen) (len - xlen)))
  else Ret (Some p).

Definition parse_fname (F : GZIPHeaderFlag.t) (buf : list byte) (flags : Z)
    (p : gz_parse) : run (option gz_parse) :=
  if negb (Z.land flags (GZIPHeaderFlag.fname F) =? 0) then
    do r <- scan_zstring (S (Z.to_nat (p_len p))) buf (p_raw p) (p_len p) 0;
    match r with
    | None => Ret None
    | Some l =>
      let d := p_dst p in
      let d := mk_gz (fhdr d) (hcrc16 d) (xlen d) (fxtra d) (Some (p_raw p))
                     (fcomment d) (comp_data d) (comp_len d) (crc32 d) (isize d) in
      Ret (Some (mk_parse d (p_raw p + l) (p_len p - l)))
    end
  else Ret (Some p).

Definition parse_fcomment (F : GZIPHeaderFlag.t) (buf : list byte) (flags : Z)
    (p : gz_parse) : run (option gz_parse) :=
  if negb (Z.land flags (GZIPHeaderFlag.fcomment F) =? 0) then
    do r <- scan_zstring (S (Z.to_nat (p_len p))) buf (p_raw p) (p_len p) 0;
    match r with
    | None => Ret None
    | Some l =>
      let d := p_dst p in
      let d := mk_gz (fhdr d) (hcrc16 d) (xlen d) (fxtra d) (fname d)
                     (Some (p_raw p)) (comp_data d) (comp_len d) (crc32 d) (isize d) in
      Ret (Some (mk_parse d (p_raw p + l) (p_len p - l)))
    end
  else Ret (Some p).

Definition parse_fhcrc (F : GZIPHeaderFlag.t) (buf : list byte) (flags : Z)
    (p : gz_parse) : run (option gz_parse) :=
  if negb (Z.land flags (GZIPHeaderFlag.fhcrc F) =? 0) then
    if p_len p <? 2 then Ret None
    else
      do h <- load16 buf (p_raw p);
      let d := p_dst p in
      let d := mk_gz (fhdr d) h (xlen d) (fxtra d) (fname d)
                     (fcomment d) (comp_data d) (comp_len d) (crc32 d) (isize d) in
      Ret (Some (mk_parse d (p_raw p + 2) (p_len p - 2)))
  else Ret (Some p).

(** [raw[k] | (raw[k+1] << 8) | (raw[k+2] << 16) | (raw[k+3] << 24)] stored
    to a [uint32_t]. *)
Definition load_le32 (buf : list byte) (p : Z) : run Z :=
  do b0 <- load buf p;
  do b1 <- load buf (p + 1);
  do b2 <- load buf (p + 2);
  do b3 <- load buf (p + 3);
  Ret (u32 (Z.lor (Z.lor (Z.lor b0 (Z.shiftl b1 8)) (Z.shiftl b2 16)) (Z.shiftl b3 24))).

(** The trailer and the result. *)
Definition parse_trailer (buf : list byte) (comp_mthd : Z) (p : gz_parse)
    : run (bool * gz_archive_s) :=
  if p_len p <? 8 then Ret (false, p_dst p)
  else
    let raw := p_raw p in
    let len := p_len p in
    do c <- load_le32 buf (raw + (len - 8));
    do i <- load_le32 buf (raw + (len - 4));
    let len := len - 8 in
    let d := p_dst p in
    let d := mk_gz (fhdr d) (hcrc16 d) (xlen d) (fxtra d) (fname d)
                   (fcomment d) (Some raw) len c i in
    Ret ((comp_mthd =? 8) && (0 <? len), d).

(** [ParseGZArchive(dst, raw, len)] for a non-null [dst]: the returned [bool]
    and the archive record as the function leaves it.  The header is read
    through [fhdr], which points at [raw] as it was passed. *)
Definition ParseGZArchive (F : GZIPHeaderFlag.t) (buf : list byte) (raw len : Z)
    : run (bool * gz_archive_s) :=
  let dst := gz_zero in
  if len <? sizeof_gz_file_header_s + 8 then Ret (false, dst)
  else
    let fhdr_ := raw in
    do id1 <- load buf (fhdr_ + ofs_id1);
    if negb (id1 =? 0x1f) then Ret (false, dst)
    else
      do id2 <- load buf (fhdr_ + ofs_id2);
      if negb (id2 =? 0x8b) then Ret (false, dst)
      else
        let dst := mk_gz (Some fhdr_) 0 0 None None None None 0 0 0 in
        let p := mk_parse dst (raw + sizeof_gz_file_header_s)
                          (len - sizeof_gz_file_header_s) in
        do flags <- load buf (fhdr_ + ofs_flags);
        do comp_mthd <- load buf (fhdr_ + ofs_comp_mthd);
        do r <- parse_fextra F buf flags p;
        match r with
        | None => Ret (false, p_dst p)
        | Some p =>
          do r <- parse_fname F buf flags p;
          match r with
          | None => Ret (false, p_dst p)
          | Some p =>
            do r <- parse_fcomment F buf flags p;
            match r with
            | None => Ret (false, p_dst p)
            | Some p =>
              do r <- parse_fhcrc F buf flags p;
              match r with
              | None => Ret (false, p_dst p)
              | Some p => parse_trailer buf comp_mthd p
              end
            end
          end
        end.

(** *** The layout the parser is meant to accept, stated on its own *)

(** A zero-terminated string of [n] bytes, terminator included, at [p]. *)
Definition zstring_at (buf : list byte) (p n : Z) : Prop :=
  0 < n /\ load buf (p + n - 1) = Ret 0 /\
  forall j, 0 <= j < n - 1 -> exists v, load buf (p + j) = Ret v /\ v <> 0.

Definition flag_set (flags mask : Z) : Prop := Z.land flags mask <> 0.

(** Each optional field, present or absent as its flag says, takes the
    bytes [p .. q - 1]. *)
Definition fextra_field (F : GZIPHeaderFlag.t) (buf : list byte) (flags p q : Z) : Prop :=
  flag_set flags (GZIPHeaderFlag.fextra F) /\
    (exists x, load16 buf p = Ret x /\ q = p + 2 + x) \/
  ~ flag_set flags (GZIPHeaderFlag.fextra F) /\ q = p.

Definition fname_field (F : GZIPHeaderFlag.t) (buf : list byte) (flags p q : Z) : Prop :=
  flag_set flags (GZIPHeaderFlag.fname F) /\
    (exists n, zstring_at buf p n /\ q = p + n) \/
  ~ flag_set flags (GZIPHeaderFlag.fname F) /\ q = p.

Definition fcomment_field (F : GZIPHeaderFlag.t) (buf : list byte) (flags p q : Z) : Prop :=
  flag_set flags (GZIPHeaderFlag.fcomment F) /\
    (exists n, zstring_at buf p n /\ q = p + n) \/
  ~ flag_set flags (GZIPHeaderFlag.fcomment F) /\ q = p.

Definition fhcrc_field (F : GZIPHeaderFlag.t) (buf : list byte) (flags p q : Z) : Prop :=
  flag_set flags (GZIPHeaderFlag.fhcrc F) /\
    (exists h, load16 buf p = Ret h /\ q = p + 2) \/
  ~ flag_set flags (GZIPHeaderFlag.fhcrc F) /\ q = p.

(** [gz_fields F buf flags p0 p4]: the optional fields selected by [flags],
    in the order extra field, name, comment, header checksum, occupy the
    bytes [p0 .. p4 - 1]. *)
Definition gz_fields (F : GZIPHeaderFlag.t) (buf : list byte) (flags p0 p4 : Z) : Prop :=
  exists p1 p2 p3,
    fextra_field F buf flags p0 p1 /\
    fname_field F buf flags p1 p2 /\
    fcomment_field F buf flags p2 p3 /\
    fhcrc_field F buf flags p3 p4.

(** [gz_accepts F buf raw len p4]: the [len] bytes at [raw] start with the
    magic, declare deflate, carry optional fields that end at [p4], and leave
    a non-empty payload between [p4] and the 8-byte trailer. *)
Definition gz_accepts (F : GZIPHeaderFlag.t) (buf : list byte) (raw len p4 : Z) : Prop :=
  sizeof_gz_file_header_s + 8 <= len /\
  load buf raw = Ret 0x1f /\ load buf (raw + 1) = Ret 0x8b /\
  load buf (raw + 2) = Ret 8 /\
  (exists flags, load buf (raw + 3) = Ret flags /\
                 gz_fields F buf flags (raw + sizeof_gz_file_header_s) p4) /\
  p4 + 8 < raw + len.

(** What [ParseGZArchive] owes its caller on the [len] bytes at [raw]: it
    returns; the [bool] is [true] exactly for an accepted layout; and then
    the payload is the span from the end of the optional fields to the
    trailer, and [crc32] and [isize] are the trailer's two little-endian
    32-bit words. *)
Definition gz_parsed (F : GZIPHeaderFlag.t) (buf : list byte) (raw len : Z) : Prop :=
  exists b gz,
    ParseGZArchive F buf raw len = Ret (b, gz) /\
    (b = true <-> exists p4, gz_accepts F buf raw len p4) /\
    (forall p4, gz_accepts F buf raw len p4 ->
       comp_data gz = Some p4 /\
       comp_len gz = raw + len - 8 - p4 /\
       crc32 gz = le_value (slice buf (raw + len - 8) 4) /\
       isize gz = le_value (slice buf (raw + len - 4) 4)).

(** A 30-byte archive with all four optional fields: extra field [x y],
    name [n], comment [c], header checksum 3412, payload [aa bb], CRC32
    04030201 and size 5. *)
Definition ex_gz_all_fields : list byte :=
  mk_bytes ([0x1f; 0x8b; 8; 0x1e; 0; 0; 0; 0; 0; 3]
            ++ [2; 0; 120; 121] ++ [110; 0] ++ [99; 0] ++ [0x12; 0x34]
            ++ [0xaa; 0xbb] ++ [1; 2; 3; 4] ++ [5; 0; 0; 0]).

(** The parser's cursor lies within the buffer. *)
Definition parse_wf (buf : list byte) (p : gz_parse) : Prop :=
  0 <= p_raw p /\ 0 <= p_len p /\ p_raw p + p_len p <= Z.of_nat (length buf).

(** How a field parser relates to the layout of its field: it fails only
    when the field does not fit what is left of the buffer, and otherwise
    moves the cursor to the one place where the field ends. *)
Definition parses (buf : list byte) (f : gz_parse -> run (option gz_parse))
    (field : Z -> Z -> Prop) : Prop :=
  forall p, parse_wf buf p ->
    (f p = Ret None /\ forall q, field (p_raw p) q -> p_raw p + p_len p < q) \/
    (exists p', f p = Ret (Some p') /\ parse_wf buf p' /\
                p_raw p' + p_len p' = p_raw p + p_len p /\
                forall q, field (p_raw p) q <-> q = p_raw p').

End GZip.

(** * Zip archives and the choice of the compressed stream *)

Module Zip.

(** Sizes of the packed structures and offsets of the fields that are read. *)
Definition sizeof_zip_eocd_s : Z := 20.
Definition sizeof_zip64_eocdl : Z := 20.
Definition sizeof_zip_cdfh_s : Z := 46.
Definition sizeof_zip_lfh_s : Z := 30.

Module eocd.
Definition sig : Z := 0.
Definition disk_id : Z := 4.
Definition start_disk : Z := 6.
Definition num_entries : Z := 8.
Definition total_entries : Z := 10.
Definition cdir_size : Z := 12.
Definition cdir_offset : Z := 16.
End eocd.

Module cdfh.
Definition sig : Z := 0.
Definition comp_method : Z := 10.
Definition comp_size : Z := 20.
Definition uncomp_size : Z := 24.
Definition fname_len : Z := 28.
Definition extra_len : Z := 30.
Definition comment_len : Z := 32.
Definition hdr_ofs : Z := 42.
End cdfh.

Module lfh.
Definition sig : Z := 0.
Definition comp_method : Z := 8.
Definition comp_size : Z := 18.
Definition uncomp_size : Z := 22.
Definition fname_len : Z := 26.
Definition extra_len : Z := 28.
End lfh.

(** Pointers into the buffer, [None] for [nullptr]. *)
Record zip_archive_s : Type := mk_zip {
  za_eocd : option Z;
  za_eocdl : option Z;
  za_cdfh : option Z
}.

(** The body of the [for] loop of [OpenZipArchive] at index [i]: the record
    with the fields this candidate sets.  The six conditions are joined by
    [&&] in the source; each reads within [raw + i .. raw + i + 21], which
    the loop bounds keep inside the [len] bytes.  The sixth compares the
    [ptrdiff_t i] plus the comment length with
    [static_cast<ptrdiff_t>(len)]. *)
Definition eocd_candidate (buf : list byte) (raw len i : Z) (dst : zip_archive_s)
    : run zip_archive_s :=
  let e := raw + i in
  do sig <- load32 buf (e + eocd.sig);
  do disk_id <- load16 buf (e + eocd.disk_id);
  do start_disk <- load16 buf (e + eocd.start_disk);
  do num_entries <- load16 buf (e + eocd.num_entries);
  do total_entries <- load16 buf (e + eocd.total_entries);
  do cdir_size <- load32 buf (e + eocd.cdir_size);
  do cdir_offset <- load32 buf (e + eocd.cdir_offset);
  do comment_len <- load16 buf (e + sizeof_zip_eocd_s);
  if (sig =? 0x06054b50) && (disk_id =? start_disk) && (num_entries =? total_entries)
     && (sizeof_zip_cdfh_s * num_entries <=? cdir_size) && (cdir_offset <? len)
     && (i + comment_len <=? s64 len)
  then
    let c := raw + cdir_offset in
    let dst := mk_zip (Some e) (za_eocdl dst) (za_cdfh dst) in
    do dst <-
      (if sizeof_zip64_eocdl <=? i then
         let l := raw + i - sizeof_zip64_eocdl in
         do lsig <- load32 buf l;
         if lsig =? 0x07064b50 then Ret (mk_zip (za_eocd dst) (Some l) (za_cdfh dst))
         else Ret dst
       else Ret dst);
    do csig <- load32 buf (c + cdfh.sig);
    if csig =? 0x02014b50 then Ret (mk_zip (za_eocd dst) (za_eocdl dst) (Some c))
    else Ret dst
  else Ret dst.

(** [for (i = ...; i + sizeof(zip_eocd_s) + 2 + 0xffff >= len && i >= 0; i--)]
    for the [ptrdiff_t i].  The left operand of [>=] is computed in [size_t];
    [i--] is only reached with [i >= 0]. *)
Fixpoint eocd_scan (fuel : nat) (buf : list byte) (raw len i : Z) (dst : zip_archive_s)
    : run zip_archive_s :=
  match fuel with
  | O => OutOfFuel
  | S fuel =>
    if (len <=? u64 (i + sizeof_zip_eocd_s + 2 + 0xffff)) && (0 <=? i) then
      do dst <- eocd_candidate buf raw len i dst;
      eocd_scan fuel buf raw len (i - 1) dst
    else Ret dst
  end.

Definition is_some {A : Type} (o : option A) : bool :=
  match o with Some _ => true | None => false end.

(** [OpenZipArchive(dst, raw, len)] for a [size_t len]: the returned [bool]
    and the archive record.  The loop index starts at
    [len - sizeof(zip_eocd_s) - 2] converted to [ptrdiff_t]. *)
Definition OpenZipArchive (buf : list byte) (raw len : Z) : run (bool * zip_archive_s) :=
  let dst := mk_zip None None None in
  do dst <-
    (if sizeof_zip_eocd_s + 2 <=? len
     then eocd_scan (S (Z.to_nat len)) buf raw len (s64 (len - sizeof_zip_eocd_s - 2)) dst
     else Ret dst);
  Ret (is_some (za_eocd dst) && is_some (za_cdfh dst), dst).

(** What [io_uncompress_single_h2d] hands to the decompressor. *)
Record stream : Type := mk_stream {
  comp_data : Z;
  comp_len : Z;
  uncomp_len : Z
}.

(** The local file header of a central directory entry that passed the first
    test: [Some] is the payload taken (followed by [break] in the source),
    [None] falls through to [cdfh_ofs += cdfh_len]. *)
Definition zip_local_file (buf : list byte) (raw src_size lfh_ofs : Z)
    : run (option stream) :=
  let l := raw + lfh_ofs in
  if src_size <? lfh_ofs + sizeof_zip_lfh_s then Ret None
  else
    do sig <- load32 buf (l + lfh.sig);
    if negb (sig =? 0x04034b50) then Ret None
    else
      do fname_len <- load16 buf (l + lfh.fname_len);
      do extra_len <- load16 buf (l + lfh.extra_len);
      if src_size <? lfh_ofs + sizeof_zip_lfh_s + fname_len + extra_len then Ret None
      else
        do comp_method <- load16 buf (l + lfh.comp_method);
        if negb (comp_method =? 8) then Ret None
        else
          do comp_size <- load32 buf (l + lfh.comp_size);
          if negb (0 <? comp_size) then Ret None
          else
            do uncomp_size <- load32 buf (l + lfh.uncomp_size);
            if negb (0 <? uncomp_size) then Ret None
            else
              let file_start := lfh_ofs + sizeof_zip_lfh_s + fname_len + extra_len in
              let file_end := file_start + comp_size in
              if file_end <=? src_size
              then Ret (Some (mk_stream (raw + file_start) comp_size uncomp_size))
              else Ret None.

(** The entry at [cdfh_ofs] passes [cdfh->comp_method == 8 &&
    cdfh->comp_size > 0 && cdfh->uncomp_size > 0]. *)
Definition cdfh_deflated (buf : list byte) (c : Z) : run bool :=
  do comp_method <- load16 buf (c + cdfh.comp_method);
  if negb (comp_method =? 8) then Ret false
  else
    do comp_size <- load32 buf (c + cdfh.comp_size);
    if negb (0 <? comp_size) then Ret false
    else
      do uncomp_size <- load32 buf (c + cdfh.uncomp_size);
      Ret (0 <? uncomp_size).

(** [for (int i = 0; i < za.eocd->num_entries; i++)] with [n] iterations to
    go: the payload of the entry the loop stops at, if any. *)
Fixpoint zip_walk (n : nat) (buf : list byte) (raw src_size za_cdfh cdir_size cdfh_ofs : Z)
    : run (option stream) :=
  match n with
  | O => Ret None
  | S n =>
    let c := za_cdfh + cdfh_ofs in
    do fname_len <- load16 buf (c + cdfh.fname_len);
    do extra_len <- load16 buf (c + cdfh.extra_len);
    do comment_len <- load16 buf (c + cdfh.comment_len);
    let cdfh_len := sizeof_zip_cdfh_s + fname_len + extra_len + comment_len in
    if cdir_size <? cdfh_ofs + cdfh_len then Ret None
    else
      do sig <- load32 buf (c + cdfh.sig);
      if negb (sig =? 0x02014b50) then Ret None
      else
        do d <- cdfh_deflated buf c;
        do r <-
          (if d then
             do lfh_ofs <- load32 buf (c + cdfh.hdr_ofs);
             zip_local_file buf raw src_size lfh_ofs
           else Ret None);
        match r with
        | Some s => Ret (Some s)
        | None => zip_walk n buf raw src_size za_cdfh cdir_size (cdfh_ofs + cdfh_len)
        end
  end.

(** [case IO_UNCOMP_STREAM_TYPE_ZIP] of [io_uncompress_single_h2d]: the
    stream chosen, [None] when [comp_data] is left null. *)
Definition io_uncompress_single_h2d_zip (buf : list byte) (raw src_size : Z)
    : run (option stream) :=
  do r <- OpenZipArchive buf raw src_size;
  match r with
  | (true, mk_zip (Some e) _ (Some c)) =>
    do num_entries <- load16 buf (e + eocd.num_entries);
    do cdir_size <- load32 buf (e + eocd.cdir_size);
    zip_walk (Z.to_nat num_entries) buf raw src_size c cdir_size 0
  | _ => Ret None
  end.

(** *** The central directory, stated on its own *)

(** The fields of a central directory file header and of a local file
    header that matter here. *)
Record zip_cdfh_s : Type := mk_cdfh {
  c_sig : Z; c_comp_method : Z; c_comp_size : Z; c_uncomp_size : Z;
  c_fname_len : Z; c_extra_len : Z; c_comment_len : Z; c_hdr_ofs : Z
}.

Record zip_lfh_s : Type := mk_lfh {
  l_sig : Z; l_comp_method : Z; l_comp_size : Z; l_uncomp_size : Z;
  l_fname_len : Z; l_extra_len : Z
}.

Definition read_cdfh (buf : list byte) (c : Z) : run zip_cdfh_s :=
  do sig <- load32 buf (c + cdfh.sig);
  do m <- load16 buf (c + cdfh.comp_method);
  do cs <- load32 buf (c + cdfh.comp_size);
  do us <- load32 buf (c + cdfh.uncomp_size);
  do fl <- load16 buf (c + cdfh.fname_len);
  do el <- load16 buf (c + cdfh.extra_len);
  do cl <- load16 buf (c + cdfh.comment_len);
  do h <- load32 buf (c + cdfh.hdr_ofs);
  Ret (mk_cdfh sig m cs us fl el cl h).

Definition read_lfh (buf : list byte) (l : Z) : run zip_lfh_s :=
  do sig <- load32 buf (l + lfh.sig);
  do m <- load16 buf (l + lfh.comp_method);
  do cs <- load32 buf (l + lfh.comp_size);
  do us <- load32 buf (l + lfh.uncomp_size);
  do fl <- load16 buf (l + lfh.fname_len);
  do el <- load16 buf (l + lfh.extra_len);
  Ret (mk_lfh sig m cs us fl el).

(** Length of a central directory entry: the fixed header and its three
    variable parts. *)
Definition cdfh_len (e : zip_cdfh_s) : Z :=
  sizeof_zip_cdfh_s + c_fname_len e + c_extra_len e + c_comment_len e.

(** A well-formed entry [e] sits at offset [ofs] of the central directory. *)
Definition cd_entry_at (buf : list byte) (za_cdfh cdir_size ofs : Z) (e : zip_cdfh_s) : Prop :=
  read_cdfh buf (za_cdfh + ofs) = Ret e /\
  c_sig e = 0x02014b50 /\
  ofs + cdfh_len e <= cdir_size.

(** The local file header at [lfh_ofs] yields the payload [s]: it lies within
    the buffer, has its signature, declares deflate with non-zero sizes, and
    the payload that follows its name and extra field lies within the buffer
    too.  Extent and uncompressed size are those of the local header. *)
Definition lfh_payload (buf : list byte) (raw src_size lfh_ofs : Z) (s : stream) : Prop :=
  exists l,
    lfh_ofs + sizeof_zip_lfh_s <= src_size /\
    read_lfh buf (raw + lfh_ofs) = Ret l /\
    l_sig l = 0x04034b50 /\
    l_comp_method l = 8 /\ 0 < l_comp_size l /\ 0 < l_uncomp_size l /\
    lfh_ofs + sizeof_zip_lfh_s + l_fname_len l + l_extra_len l + l_comp_size l
      <= src_size /\
    s = mk_stream (raw + (lfh_ofs + sizeof_zip_lfh_s + l_fname_len l + l_extra_len l))
                  (l_comp_size l) (l_uncomp_size l).

(** Entry [e] is taken, with payload [s]: it declares deflate with non-zero
    sizes, and so does its local file header, as [lfh_payload] says. *)
Definition entry_payload (buf : list byte) (raw src_size : Z) (e : zip_cdfh_s) (s : stream)
    : Prop :=
  c_comp_method e = 8 /\ 0 < c_comp_size e /\ 0 < c_uncomp_size e /\
  lfh_payload buf raw src_size (c_hdr_ofs e) s.

(** [cd_first ... n ofs s]: among the next [n] entries from offset [ofs],
    all well-formed up to it, the first one that is taken has payload [s]. *)
Inductive cd_first (buf : list byte) (raw src_size za_cdfh cdir_size : Z)
    : nat -> Z -> stream -> Prop :=
| cd_first_here n ofs e s :
    cd_entry_at buf za_cdfh cdir_size ofs e ->
    entry_payload buf raw src_size e s ->
    cd_first buf raw src_size za_cdfh cdir_size (S n) ofs s
| cd_first_later n ofs e s :
    cd_entry_at buf za_cdfh cdir_size ofs e ->
    (forall s', ~ entry_payload buf raw src_size e s') ->
    cd_first buf raw src_size za_cdfh cdir_size n (ofs + cdfh_len e) s ->
    cd_first buf raw src_size za_cdfh cdir_size (S n) ofs s.

(** The condition of the specification on an entry: deflate with non-zero
    sizes in the central directory, and a local file header with a valid
    signature that lies within the buffer. *)
Definition entry_as_specified (buf : list byte) (raw src_size : Z) (e : zip_cdfh_s) : Prop :=
  c_comp_method e = 8 /\ 0 < c_comp_size e /\ 0 < c_uncomp_size e /\
  exists l,
    read_lfh buf (raw + c_hdr_ofs e) = Ret l /\
    l_sig l = 0x04034b50 /\
    c_hdr_ofs e + sizeof_zip_lfh_s + l_fname_len l + l_extra_len l <= src_size.

(** The entry at offset [ofs] stops the walk: with its three length fields
    it overruns the declared size of the directory, or it fits and does not
    have the signature. *)
Definition cd_entry_bad (buf : list byte) (za_cdfh cdir_size ofs : Z) : Prop :=
  exists fl el cl,
    load16 buf (za_cdfh + ofs + cdfh.fname_len) = Ret fl /\
    load16 buf (za_cdfh + ofs + cdfh.extra_len) = Ret el /\
    load16 buf (za_cdfh + ofs + cdfh.comment_len) = Ret cl /\
    (cdir_size < ofs + (sizeof_zip_cdfh_s + fl + el + cl) \/
     exists sig, load32 buf (za_cdfh + ofs + cdfh.sig) = Ret sig /\ sig <> 0x02014b50).

(** [cd_none ... n ofs]: none of the next [n] entries from offset [ofs] is
    handed out: after well-formed entries that are not taken, the entries
    run out or one of them stops the walk. *)
Inductive cd_none (buf : list byte) (raw src_size za_cdfh cdir_size : Z)
    : nat -> Z -> Prop :=
| cd_none_end ofs :
    cd_none buf raw src_size za_cdfh cdir_size 0 ofs
| cd_none_bad n ofs :
    cd_entry_bad buf za_cdfh cdir_size ofs ->
    cd_none buf raw src_size za_cdfh cdir_size (S n) ofs
| cd_none_later n ofs e :
    cd_entry_at buf za_cdfh cdir_size ofs e ->
    (forall s', ~ entry_payload buf raw src_size e s') ->
    cd_none buf raw src_size za_cdfh cdir_size n (ofs + cdfh_len e) ->
    cd_none buf raw src_size za_cdfh cdir_size (S n) ofs.

(** What the walk over the first [n] entries of the central directory at [c]
    guarantees: it hands out a payload exactly when, after well-formed
    entries that are not taken, there is an entry that is taken, and then the
    payload of that entry; it hands out nothing when the entries run out or
    an entry overruns the directory or lacks the signature before that; and
    it steps over an entry that is stored (method 0), however many of them
    come first. *)
Definition takes_first_entry (buf : list byte) (raw src_size c cdir_size n : Z) : Prop :=
  (forall s, cd_first buf raw src_size c cdir_size (Z.to_nat n) 0 s <->
             io_uncompress_single_h2d_zip buf raw src_size = Ret (Some s)) /\
  (cd_none buf raw src_size c cdir_size (Z.to_nat n) 0 ->
   io_uncompress_single_h2d_zip buf raw src_size = Ret None) /\
  (forall k ofs e,
     cd_entry_at buf c cdir_size ofs e -> c_comp_method e = 0 ->
     zip_walk (S k) buf raw src_size c cdir_size ofs
       = zip_walk k buf raw src_size c cdir_size (ofs + cdfh_len e)).

(** *** Archives for the examples *)

(** Little-endian encodings. *)
Definition le16 (x : Z) : list Z := [x mod 256; x / 256 mod 256].
Definition le32 (x : Z) : list Z := le16 (x mod 65536) ++ le16 (x / 65536).

(** A local file header, a central directory file header and an end of
    central directory record with the given fields; the fields that the
    code does not read are zero. *)
Definition ex_lfh (method comp_size uncomp_size fname_len extra_len : Z) : list Z :=
  le32 0x04034b50 ++ le16 20 ++ le16 0 ++ le16 method ++ le16 0 ++ le16 0 ++ le32 0
  ++ le32 comp_size ++ le32 uncomp_size ++ le16 fname_len ++ le16 extra_len.

Definition ex_cdfh (method comp_size uncomp_size fname_len extra_len comment_len hdr_ofs : Z)
    : list Z :=
  le32 0x02014b50 ++ le16 20 ++ le16 20 ++ le16 0 ++ le16 method ++ le16 0 ++ le16 0
  ++ le32 0 ++ le32 comp_size ++ le32 uncomp_size
  ++ le16 fname_len ++ le16 extra_len ++ le16 comment_len
  ++ le16 0 ++ le16 0 ++ le32 0 ++ le32 hdr_ofs.

Definition ex_eocd (num_entries cdir_size cdir_offset : Z) : list Z :=
  le32 0x06054b50 ++ le16 0 ++ le16 0 ++ le16 num_entries ++ le16 num_entries
  ++ le32 cdir_size ++ le32 cdir_offset ++ le16 0.

(** Two stored files [a], [b] and a deflated file [c], 263 bytes:
    local headers at 0, 33 and 66, central directory at 100 (3 entries of 47
    bytes), end of central directory at 241. *)
Definition ex_stored_stored_deflated : list byte :=
  mk_bytes (ex_lfh 0 2 2 1 0 ++ [97] ++ [1; 2]
            ++ ex_lfh 0 2 2 1 0 ++ [98] ++ [3; 4]
            ++ ex_lfh 8 3 10 1 0 ++ [99] ++ [5; 6; 7]
            ++ ex_cdfh 0 2 2 1 0 0 0 ++ [97]
            ++ ex_cdfh 0 2 2 1 0 0 33 ++ [98]
            ++ ex_cdfh 8 3 10 1 0 0 66 ++ [99]
            ++ ex_eocd 3 141 100).

(** Two deflated files [a], [b], 184 bytes; the local header of [a], at 0,
    carries zero sizes, as writers that append a data descriptor emit it;
    the local header of [b] is at 34; central directory at 68 (2 entries of
    47 bytes), end of central directory at 162. *)
Definition ex_descriptor_then_deflated : list byte :=
  mk_bytes (ex_lfh 8 0 0 1 0 ++ [97] ++ [5; 6; 7]
            ++ ex_lfh 8 3 10 1 0 ++ [98] ++ [8; 9; 10]
            ++ ex_cdfh 8 3 10 1 0 0 0 ++ [97]
            ++ ex_cdfh 8 3 10 1 0 0 34 ++ [98]
            ++ ex_eocd 2 94 68).

(** An archive of three deflated files whose second central directory
    entry has a damaged signature, 265 bytes: local headers at 0, 34 and 68
    (the first with zero sizes), central directory at 102 (3 entries of 47
    bytes), end of central directory at 243. *)
Definition ex_bad_second_entry : list byte :=
  mk_bytes (ex_lfh 8 0 0 1 0 ++ [97] ++ [5; 6; 7]
            ++ ex_lfh 8 3 10 1 0 ++ [98] ++ [8; 9; 10]
            ++ ex_lfh 8 3 10 1 0 ++ [99] ++ [11; 12; 13]
            ++ ex_cdfh 8 3 10 1 0 0 0 ++ [97]
            ++ [0; 0; 0; 0] ++ drop 4 (ex_cdfh 8 3 10 1 0 0 34) ++ [98]
            ++ ex_cdfh 8 3 10 1 0 0 68 ++ [99]
            ++ ex_eocd 3 141 102).

(** *** The end of central directory record, stated on its own *)

(** The fields of the record and the 16-bit comment length that follows it. *)
Record zip_eocd_s : Type := mk_eocd {
  e_sig : Z; e_disk_id : Z; e_start_disk : Z; e_num_entries : Z; e_total_entries : Z;
  e_cdir_size : Z; e_cdir_offset : Z; e_comment_len : Z
}.

Definition read_eocd (buf : list byte) (e : Z) : run zip_eocd_s :=
  do sig <- load32 buf (e + eocd.sig);
  do disk_id <- load16 buf (e + eocd.disk_id);
  do start_disk <- load16 buf (e + eocd.start_disk);
  do num_entries <- load16 buf (e + eocd.num_entries);
  do total_entries <- load16 buf (e + eocd.total_entries);
  do cdir_size <- load32 buf (e + eocd.cdir_size);
  do cdir_offset <- load32 buf (e + eocd.cdir_offset);
  do comment_len <- load16 buf (e + sizeof_zip_eocd_s);
  Ret (mk_eocd sig disk_id start_disk num_entries total_entries cdir_size cdir_offset
               comment_len).

(** The record [r] at offset [i] of the [len] bytes at [raw] is one that
    [OpenZipArchive] takes: [i] is among the offsets the loop visits, which
    leave room for the record, its comment length and a comment of at most
    65535 bytes, and the record passes the six tests, the last of them
    against [len] as a [ptrdiff_t] (so that no record is taken when [len] is
    2^63 or more). *)
Definition eocd_accepted (buf : list byte) (raw len i : Z) (r : zip_eocd_s) : Prop :=
  0 <= i /\ i + sizeof_zip_eocd_s + 2 <= len /\ len <= i + sizeof_zip_eocd_s + 2 + 0xffff /\
  read_eocd buf (raw + i) = Ret r /\
  e_sig r = 0x06054b50 /\
  e_disk_id r = e_start_disk r /\
  e_num_entries r = e_total_entries r /\
  sizeof_zip_cdfh_s * e_num_entries r <= e_cdir_size r /\
  e_cdir_offset r < len /\
  i + e_comment_len r <= s64 len.

(** An accepted record whose central directory starts with the signature of
    a central directory file header. *)
Definition cdir_found (buf : list byte) (raw len i : Z) (r : zip_eocd_s) : Prop :=
  eocd_accepted buf raw len i r /\
  load32 buf (raw + e_cdir_offset r) = Ret 0x02014b50.

(** The archive record after the offsets above [j] have been visited, from
    the highest down: [eocd] is the accepted record at the lowest offset, and
    [cdfh] the central directory of the lowest record that has one. *)
Definition scanned_above (buf : list byte) (raw len j : Z) (za : zip_archive_s) : Prop :=
  match za_eocd za with
  | Some e => exists i r, j < i /\ e = raw + i /\ eocd_accepted buf raw len i r /\
                          forall i' r', j < i' -> eocd_accepted buf raw len i' r' -> i <= i'
  | None => forall i r, j < i -> ~ eocd_accepted buf raw len i r
  end /\
  match za_cdfh za with
  | Some c => exists i r, j < i /\ c = raw + e_cdir_offset r /\ cdir_found buf raw len i r /\
                          forall i' r', j < i' -> cdir_found buf raw len i' r' -> i <= i'
  | None => forall i r, j < i -> ~ cdir_found buf raw len i r
  end.

(** What [OpenZipArchive] returns: [true] exactly when some accepted record
    has its central directory; [eocd] is the accepted record at the lowest
    offset, and [cdfh] is the central directory of the lowest accepted record
    that has one, which need not be the same record. *)
Definition zip_opened (buf : list byte) (raw len : Z) (b : bool) (za : zip_archive_s) : Prop :=
  (b = true <-> exists i r, cdir_found buf raw len i r) /\
  match za_eocd za with
  | Some e => exists i r, e = raw + i /\ eocd_accepted buf raw len i r /\
                          forall i' r', eocd_accepted buf raw len i' r' -> i <= i'
  | None => forall i r, ~ eocd_accepted buf raw len i r
  end /\
  match za_cdfh za with
  | Some c => exists i r, c = raw + e_cdir_offset r /\ cdir_found buf raw len i r /\
                          forall i' r', cdir_found buf raw len i' r' -> i <= i'
  | None => forall i r, ~ cdir_found buf raw len i r
  end.

(** Two end of central directory records and a central directory
    signature, 48 bytes: the record at 22 points at the signature at 44, the
    record at 0 points at offset 4, where no directory starts. *)
Definition ex_two_eocd : list byte :=
  mk_bytes (ex_eocd 0 0 4 ++ ex_eocd 0 0 44 ++ le32 0x02014b50).

(** A lone end of central directory record, 22 bytes, whose central
    directory offset is 21, the last byte of the buffer. *)
Definition ex_eocd_at_end : list byte := mk_bytes (ex_eocd 0 0 21).

End Zip.

(** * Choosing the stream to decompress *)

Module Uncomp.

(** The values of [stream_type] that the source names.  [io_uncomp.h], which
    numbers them, is not among the sources at hand; the last constructor
    stands for every other [int]. *)
Inductive stream_type_e : Type :=
| IO_UNCOMP_STREAM_TYPE_INFER
| IO_UNCOMP_STREAM_TYPE_GZIP
| IO_UNCOMP_STREAM_TYPE_ZIP
| IO_UNCOMP_STREAM_TYPE_BZIP2
| IO_UNCOMP_STREAM_TYPE_XZ
| IO_UNCOMP_STREAM_TYPE_INFLATE
| IO_UNCOMP_STREAM_TYPE_SNAPPY
| IO_UNCOMP_STREAM_TYPE_unnamed.

Definition is_infer (t : stream_type_e) : bool :=
  match t with IO_UNCOMP_STREAM_TYPE_INFER => true | _ => false end.

(** The locals [stream_type], [comp_data], [comp_len] and [uncomp_len] of
    [io_uncompress_single_h2d]. *)
Record selection : Type := mk_sel {
  stream_type : stream_type_e;
  comp_data : option Z;
  comp_len : Z;
  uncomp_len : Z
}.

(** The block of [case IO_UNCOMP_STREAM_TYPE_GZIP]. *)
Definition case_gzip (F : GZIPHeaderFlag.t) (buf : list byte) (raw src_size : Z)
    (s : selection) : run selection :=
  do r <- GZip.ParseGZArchive F buf raw src_size;
  if r.1
  then Ret (mk_sel IO_UNCOMP_STREAM_TYPE_GZIP (GZip.comp_data r.2) (GZip.comp_len r.2)
                   (GZip.isize r.2))
  else Ret s.

(** The block of [case IO_UNCOMP_STREAM_TYPE_ZIP]. *)
Definition case_zip (buf : list byte) (raw src_size : Z) (s : selection) : run selection :=
  do r <- Zip.io_uncompress_single_h2d_zip buf raw src_size;
  match r with
  | Some z => Ret (mk_sel IO_UNCOMP_STREAM_TYPE_ZIP (Some (Zip.comp_data z)) (Zip.comp_len z)
                          (Zip.uncomp_len z))
  | None => Ret s
  end.

(** [fhdr->sig[0] == 'B' && fhdr->sig[1] == 'Z' && fhdr->sig[2] == 'h' &&
    fhdr->blksz >= '1' && fhdr->blksz <= '9'] on the header at [raw]. *)
Definition bz2_signature (buf : list byte) (raw : Z) : run bool :=
  do sig0 <- load buf raw;
  if negb (sig0 =? 66) then Ret false
  else
    do sig1 <- load buf (raw + 1);
    if negb (sig1 =? 90) then Ret false
    else
      do sig2 <- load buf (raw + 2);
      if negb (sig2 =? 104) then Ret false
      else
        do blksz <- load buf (raw + 3);
        Ret ((49 <=? blksz) && (blksz <=? 57)).

(** The statements of [case IO_UNCOMP_STREAM_TYPE_BZIP2]. *)
Definition case_bzip2 (buf : list byte) (raw src_size : Z) (s : selection) : run selection :=
  if 4 <? src_size then
    do ok <- bz2_signature buf raw;
    if ok then Ret (mk_sel IO_UNCOMP_STREAM_TYPE_BZIP2 (Some raw) src_size 0)
    else Ret s
  else Ret s.

(** The [switch], entered at each of its labels.  Each block is followed by
    [if (stream_type != IO_UNCOMP_STREAM_TYPE_INFER) break;] and otherwise
    falls through to the next one; [default] does nothing. *)
Definition from_bzip2 (buf : list byte) (raw src_size : Z) (s : selection) : run selection :=
  case_bzip2 buf raw src_size s.

Definition from_zip (buf : list byte) (raw src_size : Z) (s : selection) : run selection :=
  do s <- case_zip buf raw src_size s;
  if is_infer (stream_type s) then from_bzip2 buf raw src_size s else Ret s.

Definition from_gzip (F : GZIPHeaderFlag.t) (buf : list byte) (raw src_size : Z)
    (s : selection) : run selection :=
  do s <- case_gzip F buf raw src_size s;
  if is_infer (stream_type s) then from_zip buf raw src_size s else Ret s.

Definition select_stream (F : GZIPHeaderFlag.t) (buf : list byte) (raw src_size : Z)
    (t : stream_type_e) : run selection :=
  let s := mk_sel t None 0 0 in
  match t with
  | IO_UNCOMP_STREAM_TYPE_INFER | IO_UNCOMP_STREAM_TYPE_GZIP => from_gzip F buf raw src_size s
  | IO_UNCOMP_STREAM_TYPE_ZIP => from_zip buf raw src_size s
  | IO_UNCOMP_STREAM_TYPE_BZIP2 => from_bzip2 buf raw src_size s
  | _ => Ret s
  end.

(** The places where [io_uncompress_single_h2d] throws before it calls a
    decompressor: the two [CUDF_EXPECTS] on the arguments, the two on
    [comp_data] and [comp_len], which share the message of the final
    [CUDF_FAIL], and that [CUDF_FAIL]. *)
Inductive failure : Type :=
| source_is_nullptr
| source_size_is_0
| comp_data_is_nullptr
| comp_len_is_0
| no_decompressor.

(** What [io_uncompress_single_h2d] does with its input: it throws, or it
    allocates [dst_size] bytes and hands the span [comp_data],
    [comp_len] to zlib or to the bzip2 decoder.  Those two are library code
    and are not modelled. *)
Inductive call : Type :=
| throws (e : failure)
| call_cpu_inflate_vector (dst_size comp_data comp_len : Z)
| call_cpu_bz2_uncompress (comp_data comp_len dst_size : Z).

(** [io_uncompress_single_h2d(src, src_size, stream_type)] up to its call of
    a decompressor; [src] is [None] for [nullptr]. *)
Definition io_uncompress_single_h2d (F : GZIPHeaderFlag.t) (buf : list byte)
    (src : option Z) (src_size : Z) (t : stream_type_e) : run call :=
  match src with
  | None => Ret (throws source_is_nullptr)
  | Some raw =>
    if src_size =? 0 then Ret (throws source_size_is_0)
    else
      do s <- select_stream F buf raw src_size t;
      match comp_data s with
      | None => Ret (throws comp_data_is_nullptr)
      | Some p =>
        if negb (0 <? comp_len s) then Ret (throws comp_len_is_0)
        else
          let uncomp_len :=
            if uncomp_len s <=? 0 then u64 (comp_len s * 4 + 4096) else uncomp_len s in
          match stream_type s with
          | IO_UNCOMP_STREAM_TYPE_GZIP | IO_UNCOMP_STREAM_TYPE_ZIP =>
            Ret (call_cpu_inflate_vector uncomp_len p (comp_len s))
          | IO_UNCOMP_STREAM_TYPE_BZIP2 =>
            Ret (call_cpu_bz2_uncompress p (comp_len s) uncomp_len)
          | _ => Ret (throws no_decompressor)
          end
      end
  end.

(** The values of [compression_type] that [get_uncompressed_data] names;
    [other] stands for the rest, which its [switch] sends to [default]. *)
Module compression_type.
Inductive t : Type := GZIP | ZIP | BZIP2 | XZ | other.
End compression_type.

Definition comp_type (compression : compression_type.t) : stream_type_e :=
  match compression with
  | compression_type.GZIP => IO_UNCOMP_STREAM_TYPE_GZIP
  | compression_type.ZIP => IO_UNCOMP_STREAM_TYPE_ZIP
  | compression_type.BZIP2 => IO_UNCOMP_STREAM_TYPE_BZIP2
  | compression_type.XZ => IO_UNCOMP_STREAM_TYPE_XZ
  | compression_type.other => IO_UNCOMP_STREAM_TYPE_INFER
  end.

(** [get_uncompressed_data(data, compression)], with [data.data()] and
    [data.size()] for the span. *)
Definition get_uncompressed_data (F : GZIPHeaderFlag.t) (buf : list byte)
    (data : option Z) (size : Z) (compression : compression_type.t) : run call :=
  io_uncompress_single_h2d F buf data size (comp_type compression).

(** *** What the selection guarantees, stated on its own *)

(** The span handed to a decompressor is a non-empty part of the [src_size]
    bytes at [raw], and the destination allocated for it is not empty. *)
Definition within_source (raw src_size : Z) (c : call) : Prop :=
  match c with
  | throws _ => True
  | call_cpu_inflate_vector n p l | call_cpu_bz2_uncompress p l n =>
    raw <= p /\ 0 < l /\ p + l <= raw + src_size /\ 0 < n
  end.

(** [or_else a b]: the run [a], unless it ends with no stream found, in
    which case the run [b]. *)
Definition or_else (a b : run call) : run call :=
  match a with
  | Ret (throws comp_data_is_nullptr) => b
  | _ => a
  end.

(** The outcome [c] of a request for stream type [t] is one that the code
    can produce: of the five places that throw only the first three are
    reached, zlib is called for a gzip or zip request or an inferred one, and
    the bzip2 decoder for a bzip2 request or an inferred one. *)
Definition call_fits (t : stream_type_e) (c : call) : Prop :=
  match c with
  | throws e => e = source_is_nullptr \/ e = source_size_is_0 \/ e = comp_data_is_nullptr
  | call_cpu_inflate_vector _ _ _ =>
    t = IO_UNCOMP_STREAM_TYPE_INFER \/ t = IO_UNCOMP_STREAM_TYPE_GZIP \/
    t = IO_UNCOMP_STREAM_TYPE_ZIP
  | call_cpu_bz2_uncompress _ _ _ =>
    t = IO_UNCOMP_STREAM_TYPE_INFER \/ t = IO_UNCOMP_STREAM_TYPE_BZIP2
  end.

(** A bzip2 header followed by two bytes. *)
Definition ex_bz2 : list byte := mk_bytes [66; 90; 104; 57; 49; 65].

End Uncomp.

(** * The Avro row decoder *)

Module Avro.

(** The kinds named in [avro_gpu.cu].  The enumeration itself is declared in
    a header that is not among the sources at hand, so its numbering, which
    the tests [schema[i].kind >= type_record] depend on, is the parameter
    [kind_code] of the decoder below. *)
Inductive type_kind_e : Type :=
| type_null | type_boolean | type_int | type_long | type_float | type_double
| type_bytes | type_string | type_enum | type_record | type_union | type_array.

(** A numbering in which the kinds without children come before
    [type_record], used in the examples. *)
Definition kind_code_primitive_first (k : type_kind_e) : Z :=
  match k with
  | type_null => 1 | type_boolean => 2 | type_int => 3 | type_long => 4
  | type_float => 5 | type_double => 6 | type_bytes => 7 | type_string => 8
  | type_enum => 9 | type_record => 10 | type_union => 11 | type_array => 12
  end.

(** [schemadesc_s], from its uses: [kind], the 32-bit unsigned [count] (number
    of children of a record, union or array, dictionary base of an enum, null
    counter of a null), and [dataptr], [None] for [nullptr]. *)
Record schemadesc_s : Type := mk_desc {
  kind : type_kind_e;
  count : Z;
  dataptr : option Z
}.

(** The [first] of a [string_index_pair] that the decoder stores. *)
Inductive char_ptr : Type :=
| null_chars
| data_chars (p : Z)
| dictionary_chars (p : Z).

(** The stores of [avro_decode_row], each with the [row] it is made for. *)
Inductive store_e : Type :=
| clear_valid (ptr row : Z)
  (* atomicAnd(dataptr + (row >> 5), ~(1 << (row & 0x1f))) *)
| add_null_count (i row : Z)
  (* atomicAdd(&schema_g[i].count, 1) *)
| put_int32 (ptr row v : Z)
| put_int64 (ptr row v : Z)
| put_string (ptr row : Z) (first : char_ptr) (second : Z)
| put_uint32 (ptr row v : Z)
| put_uint64 (ptr row v : Z)
| put_uint8 (ptr row v : Z).

Definition store_row (s : store_e) : Z :=
  match s with
  | clear_valid _ row | add_null_count _ row | put_int32 _ row _ | put_int64 _ row _
  | put_string _ row _ _ | put_uint32 _ row _ | put_uint64 _ row _ | put_uint8 _ row _ => row
  end.

(** [(int64_t)((u >> 1u) ^ -(int64_t)(u & 1))] for a [uint64_t u]. *)
Definition zigzag (u : Z) : Z :=
  s64 (Z.lxor (Z.shiftr u 1) (u64 (- Z.land u 1))).

(** The [while (cur < end)] loop of [avro_decode_zigzag_varint]:
    [(u, cur)] when it is left. *)
Fixpoint varint_loop (fuel : nat) (src : list byte) (end_ cur u scale : Z) : run (Z * Z) :=
  match fuel with
  | O => OutOfFuel
  | S fuel =>
    if cur <? end_ then
      do c <- load src cur;
      let cur := cur + 1 in
      let u := u64 (u + u64 (Z.land c 0x7f * scale)) in
      let scale := u64 (Z.shiftl scale 7) in
      if c <? 0x80 then Ret (u, cur)
      else varint_loop fuel src end_ cur u scale
    else Ret (u, cur)
  end.

(** [avro_decode_zigzag_varint(cur, end)]: the value returned and the cursor,
    which the function advances through its reference parameter. *)
Definition avro_decode_zigzag_varint (src : list byte) (end_ cur : Z) : run (Z * Z) :=
  if cur <? end_ then
    do u <- load src cur;
    let cur := cur + 1 in
    if 0x7f <? u then
      do r <- varint_loop (S (Z.to_nat (end_ - cur))) src end_ cur (Z.land u 0x7f) 128;
      Ret (zigzag r.1, r.2)
    else Ret (zigzag u, cur)
  else Ret (zigzag 0, cur).

(** [unaligned_load32] and [unaligned_load64] are declared in
    [block_utils.cuh], which is not among the sources at hand.
    Modelled from the spec: "read a fixed 4-or-8-byte little-endian value". *)
Definition unaligned_load32 (src : list byte) (p : Z) : run Z := load32 src p.

Definition unaligned_load64 (src : list byte) (p : Z) : run Z :=
  do lo <- load32 src p;
  do hi <- load32 src (p + 4);
  Ret (Z.lor lo (Z.shiftl hi 32)).

(** The variables of [avro_decode_row] that live across iterations of its
    [for] loop, the global schema (whose null counters the decoder
    increments) and the stores made so far, oldest first. *)
Record row_state : Type := mk_row {
  r_i : Z;
  r_cur : Z;
  array_start : Z;
  array_repeat_count : Z;
  array_children : Z;
  schema_g : list schemadesc_s;
  stores : list store_e
}.

(** How the union prologue of the loop body ends. *)
Inductive branch : Type :=
| no_branch (cur : Z)
| branch_at (i cur : Z) (knd : type_kind_e) (skip : Z).

(** How one pass through the body of the [for] loop ends: by [break], or at
    the bottom of the body. *)
Inductive row_ctl : Type :=
| row_break (st : row_state)
| row_next (st : row_state).

Section Decoder.

Variable kind_code : type_kind_e -> Z.
(** [schema]: the copy of the schema in shared memory, or [None] when the
    kernel passes [schema_g] itself. *)
Variable schema : option (list schemadesc_s).
Variable global_dictionary : list (Z * Z).
Variable src : list byte.
Variables end_ row max_rows : Z.

Definition kind_ge_record (k : type_kind_e) : bool :=
  kind_code type_record <=? kind_code k.

Definition is_union (k : type_kind_e) : bool :=
  match k with type_union => true | _ => false end.

(** What [schema[...]] reads in state [st]. *)
Definition view (st : row_state) : list schemadesc_s :=
  match schema with
  | Some s => s
  | None => schema_g st
  end.

Definition entry (sch : list schemadesc_s) (i : Z) : run schemadesc_s :=
  if i <? 0 then OutOfBounds
  else match sch !! Z.to_nat i with
       | Some d => Ret d
       | None => OutOfBounds
       end.

(** [while (skip > 0 && i < schema_len) { if (schema[i].kind >= type_record)
    { skip += schema[i].count; } ++i; --skip; }] over the entries [rest] from
    index [i] on. *)
Fixpoint skip_nodes (rest : list schemadesc_s) (i skip : Z) : Z * Z :=
  match rest with
  | [] => (i, skip)
  | d :: rest =>
    if 0 <? skip then
      let skip := if kind_ge_record (kind d) then s32 (skip + count d) else skip in
      skip_nodes rest (i + 1) (s32 (skip - 1))
    else (i, skip)
  end.

Definition skip_from (sch : list schemadesc_s) (i skip : Z) : Z * Z :=
  skip_nodes (drop (Z.to_nat i) sch) i skip.

(** [dataptr != nullptr && row < max_rows]: the address to store to. *)
Definition writes (d : schemadesc_s) : option Z :=
  match dataptr d with
  | Some p => if row <? max_rows then Some p else None
  | None => None
  end.

Definition emit (st : row_state) (cur : Z) (new : list store_e) : row_state :=
  mk_row (r_i st) cur (array_start st) (array_repeat_count st) (array_children st)
         (schema_g st) (stores st ++ new).

(** [atomicAdd(&schema_g[i].count, 1)]. *)
Definition bump_count (g : list schemadesc_s) (i : Z) : list schemadesc_s :=
  match g !! Z.to_nat i with
  | Some d => <[Z.to_nat i := mk_desc (kind d) (u32 (count d + 1)) (dataptr d)]> g
  | None => g
  end.

(** The head of [case type_array]: the [int32_t array_block_count] after
    [if (array_block_count < 0) { avro_decode_zigzag_varint(cur, end);
    array_block_count = -array_block_count; }], and the cursor. *)
Definition read_block_count (cur : Z) : run (Z * Z) :=
  do r <- avro_decode_zigzag_varint src end_ cur;
  let array_block_count := s32 r.1 in
  if array_block_count <? 0 then
    do r' <- avro_decode_zigzag_varint src end_ r.2;
    Ret (s32 (- array_block_count), r'.2)
  else Ret (array_block_count, r.2).

(** The [switch (kind)] for entry [d] at index [i]: the state after it and
    the value of [skip].  [r_i] is left for [array_advance] to set. *)
Definition decode_field (knd : type_kind_e) (d : schemadesc_s) (i cur skip : Z)
    (st : row_state) : run (row_state * Z) :=
  match knd with
  | type_null =>
    match writes d with
    | Some p =>
      Ret (mk_row (r_i st) cur (array_start st) (array_repeat_count st) (array_children st)
                  (bump_count (schema_g st) i)
                  (stores st ++ [clear_valid p row; add_null_count i row]), skip)
    | None => Ret (emit st cur [], skip)
    end
  | type_int =>
    do r <- avro_decode_zigzag_varint src end_ cur;
    match writes d with
    | Some p => Ret (emit st r.2 [put_int32 p row (s32 r.1)], skip)
    | None => Ret (emit st r.2 [], skip)
    end
  | type_long =>
    do r <- avro_decode_zigzag_varint src end_ cur;
    match writes d with
    | Some p => Ret (emit st r.2 [put_int64 p row r.1], skip)
    | None => Ret (emit st r.2 [], skip)
    end
  | type_enum =>
    do r <- avro_decode_zigzag_varint src end_ cur;
    let idx := u64 (count d + r.1) in
    let '(ptr, cnt) :=
      match global_dictionary !! Z.to_nat idx with
      | Some (first, second) => (dictionary_chars first, second)
      | None => (null_chars, 0)
      end in
    match writes d with
    | Some p => Ret (emit st r.2 [put_string p row ptr cnt], skip)
    | None => Ret (emit st r.2 [], skip)
    end
  | type_bytes | type_string =>
    do r <- avro_decode_zigzag_varint src end_ cur;
    let '(ptr, cnt, cur) :=
      if (0 <=? r.1) && (r.2 + r.1 <=? end_)
      then (data_chars r.2, r.1, r.2 + r.1)
      else (null_chars, 0, r.2) in
    match writes d with
    | Some p => Ret (emit st cur [put_string p row ptr cnt], skip)
    | None => Ret (emit st cur [], skip)
    end
  | type_float =>
    match writes d with
    | Some p =>
      if cur + 3 <? end_ then
        do v <- unaligned_load32 src cur;
        Ret (emit st (cur + 4) [put_uint32 p row v], skip)
      else Ret (emit st cur [put_uint32 p row 0], skip)
    | None => Ret (emit st (cur + 4) [], skip)
    end
  | type_double =>
    match writes d with
    | Some p =>
      if cur + 7 <? end_ then
        do v <- unaligned_load64 src cur;
        Ret (emit st (cur + 8) [put_uint64 p row v], skip)
      else Ret (emit st cur [put_uint64 p row 0], skip)
    | None => Ret (emit st (cur + 8) [], skip)
    end
  | type_boolean =>
    match writes d with
    | Some p =>
      do v <- (if cur <? end_ then load src cur else Ret 0);
      Ret (emit st (cur + 1) [put_uint8 p row (if v =? 0 then 0 else 1)], skip)
    | None => Ret (emit st (cur + 1) [], skip)
    end
  | type_array =>
    do r <- read_block_count cur;
    let array_repeat_count := u32 r.1 in
    let skip := if array_repeat_count =? 0 then s32 (skip + count d) else skip in
    Ret (mk_row (r_i st) r.2 i array_repeat_count 1 (schema_g st) (stores st), skip)
  | type_record | type_union => Ret (emit st cur [], skip)
  end.

(** The union prologue of the loop body at entry [d] of index [i]:
    [no_branch] is one of its two [break]s, with the cursor as it is then,
    [branch_at] carries [i], [cur], [kind] and [skip] as the prologue leaves
    them. *)
Definition select_branch (sch : list schemadesc_s) (d : schemadesc_s) (i cur : Z)
    : run branch :=
  if is_union (kind d) then
    if end_ <=? cur then Ret (no_branch cur)
    else
      do b <- load src cur;
      let cur := cur + 1 in
      let skip := Z.shiftr b 1 in
      let skip_after := s32 (count d - skip - 1) in
      let '(i, skip) := skip_from sch (i + 1) skip in
      if (Z.of_nat (length sch) <=? i) || (skip_after <? 0) then Ret (no_branch cur)
      else
        do d <- entry sch i;
        Ret (branch_at i cur (kind d) skip_after)
  else Ret (branch_at i cur (kind d) 0).

(** The end of the loop body, from [if (array_repeat_count != 0)
    { array_children--; ... }] on, for the entry at index [i]. *)
Definition array_advance (i skip : Z) (st : row_state) : run row_state :=
  let sch := view st in
  do d <- entry sch i;
  let array_children :=
    if negb (array_repeat_count st =? 0) then
      let c := s32 (array_children st - 1) in
      if kind_ge_record (kind d) then s32 (c + count d) else c
    else array_children st in
  let '(i, _) := skip_from sch (i + 1) skip in
  if negb (array_repeat_count st =? 0) && (array_children <=? 0) && (r_cur st <? end_) then
    let array_repeat_count := u32 (array_repeat_count st - 1) in
    if array_repeat_count =? 0 then
      Ret (mk_row (array_start st) (r_cur st) (array_start st) array_repeat_count
                  array_children (schema_g st) (stores st))
    else
      do a <- entry sch (array_start st);
      Ret (mk_row (array_start st + 1) (r_cur st) (array_start st) array_repeat_count
                  (s32 (count a)) (schema_g st) (stores st))
  else
    Ret (mk_row i (r_cur st) (array_start st) (array_repeat_count st) array_children
                (schema_g st) (stores st)).

(** One pass through the body of [for (uint32_t i = 0; i < schema_len;)],
    entered with [r_i st < schema_len].  After a [break] only [cur] is
    read, so [row_break] carries the state the pass started in with the
    cursor as the [break] finds it. *)
Definition row_step (st : row_state) : run row_ctl :=
  let sch := view st in
  do d <- entry sch (r_i st);
  do b <- select_branch sch d (r_i st) (r_cur st);
  match b with
  | no_branch cur =>
    Ret (row_break (mk_row (r_i st) cur (array_start st) (array_repeat_count st)
                           (array_children st) (schema_g st) (stores st)))
  | branch_at i cur knd skip =>
    do d <- entry sch i;
    do r <- decode_field knd d i cur skip st;
    do st <- array_advance i r.2 r.1;
    Ret (row_next st)
  end.

(** The [for] loop: the state in which it is left. *)
Fixpoint row_loop (fuel : nat) (st : row_state) : run row_state :=
  match fuel with
  | O => OutOfFuel
  | S fuel =>
    if r_i st <? Z.of_nat (length (view st)) then
      do r <- row_step st;
      match r with
      | row_break st => Ret st
      | row_next st => row_loop fuel st
      end
    else Ret st
  end.

(** [avro_decode_row(schema, schema_g, schema_len, row, max_rows, cur, end,
    global_dictionary)] with [schema_len] the length of the schema: the state
    at the end, whose [r_cur] is the pointer returned.  [g] and [log] are the
    global schema and the stores made before the call. *)
Definition avro_decode_row (fuel : nat) (g : list schemadesc_s) (log : list store_e)
    (cur : Z) : run row_state :=
  row_loop fuel (mk_row 0 cur 0 0 0 g log).

(** *** Vocabulary for the statements about stores *)

(** From [st] to [st'] the decoder has only added stores, each made for
    [row] and under [row < max_rows]; when it has added none, the null
    counters are as they were. *)
Definition stores_guarded (st st' : row_state) : Prop :=
  exists new,
    stores st' = stores st ++ new /\
    Forall (fun ev => store_row ev = row /\ row < max_rows) new /\
    (new = [] -> schema_g st' = schema_g st).

(** *** Vocabulary for the statements about arrays *)

(** [forest sch i n j]: the entries [i .. j - 1] of the flattened schema are
    [n] subtrees in pre-order, where an entry of a kind at or above
    [type_record] is followed by the subtrees of its [count] children and any
    other entry stands alone. *)
Inductive forest (sch : list schemadesc_s) : Z -> Z -> Z -> Prop :=
| forest_nil i : forest sch i 0 i
| forest_leaf i n j d :
    0 <= i -> sch !! Z.to_nat i = Some d -> kind_ge_record (kind d) = false ->
    0 <= n -> forest sch (i + 1) n j ->
    forest sch i (n + 1) j
| forest_node i n j d :
    0 <= i -> sch !! Z.to_nat i = Some d -> kind_ge_record (kind d) = true ->
    0 <= n -> 0 <= count d -> forest sch (i + 1) (count d + n) j ->
    forest sch i (n + 1) j.

(** Kinds that the decoder handles without touching [skip] or the array
    variables. *)
Definition plain (k : type_kind_e) : bool :=
  match k with
  | type_union | type_array => false
  | _ => true
  end.

(** The fields of the entries [ds], which sit at index [i] and after, decoded
    one after the other. *)
Fixpoint decode_fields (ds : list schemadesc_s) (i : Z) (st : row_state) : run row_state :=
  match ds with
  | [] => Ret st
  | d :: ds =>
    do r <- decode_field (kind d) d i (r_cur st) 0 st;
    decode_fields ds (i + 1) r.1
  end.

(** An entry that stands alone: of a plain kind, below [type_record]. *)
Definition leaf (d : schemadesc_s) : bool :=
  plain (kind d) && negb (kind_ge_record (kind d)).

(** The entries [q .. q + m - 1] stand alone. *)
Definition leaves (sch : list schemadesc_s) (q m : Z) : Prop :=
  forall k, 0 <= k < m -> exists e, sch !! Z.to_nat (q + k) = Some e /\ leaf e = true.

(** [item_span sch p j]: the entries [p .. j - 1] hold no array, and every
    union among them has for its branches, the [count] entries after it,
    entries that stand alone.  Read from [p] on, they are entries of plain
    kinds and such unions together with their branches. *)
Inductive item_span (sch : list schemadesc_s) : Z -> Z -> Prop :=
| item_end p : item_span sch p p
| item_field p j d :
    0 <= p -> sch !! Z.to_nat p = Some d -> plain (kind d) = true ->
    item_span sch (p + 1) j ->
    item_span sch p j
| item_union p j d :
    0 <= p -> sch !! Z.to_nat p = Some d -> kind d = type_union -> 0 <= count d ->
    leaves sch (p + 1) (count d) ->
    item_span sch (p + 1 + count d) j ->
    item_span sch p j.

(** What decoding the entries [p .. j - 1] of such a span means, entry by
    entry: the field of an entry of a plain kind is decoded at the cursor;
    at a union the byte at the cursor, halved, numbers the branch, whose
    field is decoded from the next byte on, and the entries of the other
    branches are passed over.  [None] where the decoder leaves its loop
    instead: at a union with no input left or whose branch number is not
    below its [count].  [m] bounds the number of entries. *)
Fixpoint decode_span (m : nat) (sch : list schemadesc_s) (p j : Z) (st : row_state)
    : run (option row_state) :=
  if j <=? p then Ret (Some st)
  else
    match m with
    | O => OutOfFuel
    | S m =>
      do d <- entry sch p;
      if is_union (kind d) then
        if end_ <=? r_cur st then Ret None
        else
          do b <- load src (r_cur st);
          let k := Z.shiftr b 1 in
          if count d <=? k then Ret None
          else
            do e <- entry sch (p + 1 + k);
            do r <- decode_field (kind e) e (p + 1 + k) (r_cur st + 1) 0 st;
            decode_span m sch (p + 1 + count d) j r.1
      else
        do r <- decode_field (kind d) d p (r_cur st) 0 st;
        decode_span m sch (p + 1) j r.1
    end.

(** The iterations of the loop that this takes: one per entry of a plain
    kind and one per union. *)
Fixpoint span_steps (m : nat) (sch : list schemadesc_s) (p j : Z) : nat :=
  if j <=? p then O
  else
    match m with
    | O => O
    | S m =>
      match sch !! Z.to_nat p with
      | Some d =>
        S (span_steps m sch (if is_union (kind d) then p + 1 + count d else p + 1) j)
      | None => O
      end
    end.

(** One item of the array whose item subtree is [a + 1 .. j - 1]. *)
Definition decode_item (sch : list schemadesc_s) (a j : Z) (st : row_state)
    : run (option row_state) :=
  decode_span (Z.to_nat (j - (a + 1))) sch (a + 1) j st.

Definition item_steps (sch : list schemadesc_s) (a j : Z) : nat :=
  span_steps (Z.to_nat (j - (a + 1))) sch (a + 1) j.

(** The bookkeeping after an item of the array at [a]: one repetition less,
    and back to the first entry of the item, or to the array entry itself
    once none is left. *)
Definition item_done (a : Z) (st : row_state) : row_state :=
  let r := u32 (array_repeat_count st - 1) in
  if r =? 0 then mk_row a (r_cur st) a 0 0 (schema_g st) (stores st)
  else mk_row (a + 1) (r_cur st) a r 1 (schema_g st) (stores st).

(** [n] items in a row. *)
Fixpoint decode_items (n : nat) (sch : list schemadesc_s) (a j : Z) (st : row_state)
    : run (option row_state) :=
  match n with
  | O => Ret (Some st)
  | S n =>
    do r <- decode_item sch a j st;
    match r with
    | Some st => decode_items n sch a j (item_done a st)
    | None => Ret None
    end
  end.

(** [st'] with the loop variables of [st2]. *)
Definition reframe (st2 st' : row_state) : row_state :=
  mk_row (r_i st2) (r_cur st') (array_start st2) (array_repeat_count st2)
         (array_children st2) (schema_g st') (stores st').

(** What the decoder does at the array entry [a], whose item subtree is
    [a + 1 .. j - 1], from state [st0]; [n] is the [int32_t
    array_block_count] after the sign has been dealt with, [c1] the cursor
    then.
    - The varint [v] at the cursor is read and narrowed to [int32_t], which
      keeps its low 32 bits, read as two's complement: [s32 v].  If that is
      not negative it is the count; if it is negative a second varint is
      read and dropped, and the count is [- s32 v], again in [int32_t].  The
      repeat count, the count as a [uint32_t], is the magnitude of [s32 v],
      whatever [v] is.
    - A repeat count of 0 takes the loop past the item subtree, to [j], in
      one iteration and without a store.
    - A repeat count [u32 n > 0], when every item is decoded without the
      loop being left at a union and with input left after it, takes the
      loop through exactly [u32 n] decodings of the item, one iteration for
      the array entry and [item_steps] per item, and back to the array
      entry with no repetition left. *)
Definition array_block_decoded (sch : list schemadesc_s) (a j : Z)
    (st0 : row_state) (n c1 : Z) : Prop :=
  let st1 := mk_row (a + 1) c1 a (u32 n) 1 (schema_g st0) (stores st0) in
  (exists v c,
     avro_decode_zigzag_varint src end_ (r_cur st0) = Ret (v, c) /\
     u32 n = Z.abs (s32 v) /\
     (0 <= s32 v -> n = s32 v /\ c1 = c) /\
     (s32 v < 0 ->
        n = s32 (- s32 v) /\
        exists v', avro_decode_zigzag_varint src end_ c = Ret (v', c1))) /\
  (u32 n = 0 ->
   row_step st0 = Ret (row_next (mk_row j c1 a 0 1 (schema_g st0) (stores st0)))) /\
  (0 < u32 n ->
   (forall k s, (k < Z.to_nat (u32 n))%nat ->
      decode_items k sch a j st1 = Ret (Some s) ->
      exists s1, decode_item sch a j s = Ret (Some s1) /\ r_cur s1 < end_) ->
   exists stn,
     decode_items (Z.to_nat (u32 n)) sch a j st1 = Ret (Some stn) /\
     r_i stn = a /\ array_repeat_count stn = 0 /\
     forall fuel,
       row_loop (S (Z.to_nat (u32 n) * item_steps sch a j + fuel)) st0
       = row_loop fuel stn).

End Decoder.

(** ** The per-warp loop of [gpuDecodeAvroColumnData] *)

(** [block_desc_s], from its uses: [offset], [size], [first_row] and
    [num_rows], prefixed here to tell them from the kernel's parameters. *)
Record block_desc_s : Type := mk_block {
  b_offset : Z;
  b_size : Z;
  b_first_row : Z;
  b_num_rows : Z
}.

Definition max_shared_schema_len : Z := 1000.

(** The variables of one warp, the global schema, and the stores made so
    far, each paired with the index, in the whole file, of the row it was
    made for.  That index is bookkeeping of this model: the kernel only has
    [cur_row] and the lane. *)
Record warp_state : Type := mk_warp {
  cur_row : Z;
  rows_remaining : Z;
  w_cur : Z;
  w_schema_g : list schemadesc_s;
  w_stores : list (Z * store_e)
}.

Section Kernel.

Variable kind_code : type_kind_e -> Z.
Variable schema : option (list schemadesc_s).
Variable global_dictionary : list (Z * Z).
Variable avro_data : list byte.
Variables min_row_size max_rows first_row : Z.
(** Fuel handed to each call of [avro_decode_row]. *)
Variable row_fuel : nat.

(** The lanes [threadIdx.x < nrows] of the fixed-width path, each decoding
    the row at [start + threadIdx.x * min_row_size].  The lanes run
    concurrently on the device; they are run here one after the other, which
    gives the same stores up to their order. *)
Fixpoint decode_lanes (lanes : list Z) (end_ start cur_row : Z)
    (g : list schemadesc_s) (log : list (Z * store_e))
    : run (list schemadesc_s * list (Z * store_e)) :=
  match lanes with
  | [] => Ret (g, log)
  | tid :: lanes =>
    let cur := start + u32 (tid * min_row_size) in
    do st <- avro_decode_row kind_code schema global_dictionary avro_data end_
               (u64 (cur_row - first_row + tid)) max_rows row_fuel g [] cur;
    decode_lanes lanes end_ start cur_row (schema_g st)
                 (log ++ map (pair (cur_row + tid)) (stores st))
  end.

Definition lanes_below (nrows : Z) : list Z :=
  map Z.of_nat (seq 0 (Z.to_nat nrows)).

(** [while (rows_remaining > 0 && cur < end)].  When [nrows <= 1], which
    with [rows_remaining > 0] means [nrows = 1], lane 0 alone decodes, from
    [start], and [cur = start + shuffle(cur - start)] follows.  [shuffle] is
    declared in [block_utils.cuh], which is not among the sources at hand.
    Modelled from the spec: "all workers in the group synchronize on the
    maximum bytes consumed"; only lane 0 has consumed any. *)
Fixpoint warp_loop (fuel : nat) (end_ : Z) (w : warp_state) : run warp_state :=
  match fuel with
  | O => OutOfFuel
  | S fuel =>
    if (0 <? rows_remaining w) && (w_cur w <? end_) then
      let start := w_cur w in
      if u64 (first_row + max_rows) <? cur_row w then Ret w
      else
        let nrows :=
          if start + u32 (min_row_size * rows_remaining w) =? end_
          then Z.min (rows_remaining w) 32
          else 1 in
        if nrows <=? 1 then
          do st <- avro_decode_row kind_code schema global_dictionary avro_data end_
                     (u64 (cur_row w - first_row + 0)) max_rows row_fuel (w_schema_g w) []
                     start;
          warp_loop fuel end_
            (mk_warp (u64 (cur_row w + nrows)) (u32 (rows_remaining w - nrows))
                     (start + u32 (r_cur st - start)) (schema_g st)
                     (w_stores w ++ map (pair (cur_row w)) (stores st)))
        else
          do r <- decode_lanes (lanes_below nrows) end_ start (cur_row w)
                    (w_schema_g w) (w_stores w);
          warp_loop fuel end_
            (mk_warp (u64 (cur_row w + nrows)) (u32 (rows_remaining w - nrows))
                     (start + u32 (nrows * min_row_size)) r.1 r.2)
    else Ret w
  end.

End Kernel.

(** A store of the kernel's log was made for a row of the window
    [first_row .. first_row + max_rows - 1], at the row's offset in it. *)
Definition in_window (first_row max_rows : Z) (e : Z * store_e) : Prop :=
  first_row <= e.1 < first_row + max_rows /\ store_row e.2 = e.1 - first_row.

(** One warp of [gpuDecodeAvroColumnData], for the block [block_id]: [None]
    when there is no such block.  The schema is read from the copy in shared
    memory when it fits there. *)
Definition gpuDecodeAvroColumnData (kind_code : type_kind_e -> Z)
    (blocks : list block_desc_s) (schema_g : list schemadesc_s)
    (global_dictionary : list (Z * Z)) (avro_data : list byte)
    (min_row_size max_rows first_row : Z) (block_id : nat) (row_fuel : nat)
    : run (option warp_state) :=
  let schema :=
    if Z.of_nat (length schema_g) <=? max_shared_schema_len then Some schema_g else None in
  match blocks !! block_id with
  | None => Ret None
  | Some blk =>
    let cur := b_offset blk in
    let end_ := cur + b_size blk in
    do w <- warp_loop kind_code schema global_dictionary avro_data
              min_row_size max_rows first_row row_fuel
              (S (Z.to_nat (b_num_rows blk))) end_
              (mk_warp (b_first_row blk) (b_num_rows blk) cur schema_g []);
    Ret (Some w)
  end.

(** Where the loop over the rows of a block is left: with no row remaining,
    with the cursor at or past the end of the data of the block, or with
    [cur_row] above [first_row + max_rows]. *)
Definition stopped (max_rows first_row end_ : Z) (w : warp_state) : Prop :=
  rows_remaining w = 0 \/ end_ <= w_cur w \/ first_row + max_rows < cur_row w.

(** Once the loop has decoded rows of the block that begins at row [first]:
    the batch of rows it decoded last, at most 32 of them and one alone
    when [min_row_size] is 0, began at a [cur_row] of at most
    [first_row + max_rows]. *)
Definition last_batch (min_row_size max_rows first_row first : Z) (w : warp_state) : Prop :=
  first < cur_row w ->
  exists n, 1 <= n <= 32 /\ cur_row w - n <= first_row + max_rows /\
            (min_row_size = 0 -> n = 1).

(** What a decode pass over the block [blk], number [block_id], does with
    the window of rows [first_row .. first_row + max_rows - 1]: for every
    [row_fuel] from some bound on,
    - the pass returns;
    - every store it makes is for a row of the window, at the row's offset
      from [first_row];
    - it counts the rows: [cur_row + rows_remaining] stays at the end of the
      block, so that at the end the rows handed to [avro_decode_row] are
      those from [blk.first_row] to [cur_row - 1];
    - it leaves its loop only where [stopped] says;
    - and it leaves it at the first such iteration, as [last_batch] says;
    - so that every row of the block up to [first_row + max_rows], the rows
      before [first_row] among them, has been handed to the decoder, unless
      the data ran out. *)
Definition pass_in_window (kind_code : type_kind_e -> Z)
    (blocks : list block_desc_s) (g0 : list schemadesc_s)
    (global_dictionary : list (Z * Z)) (avro_data : list byte)
    (min_row_size max_rows first_row : Z) (block_id : nat) (blk : block_desc_s) : Prop :=
  let end_ := b_offset blk + b_size blk in
  exists fuel0 : nat, forall row_fuel : nat, (fuel0 <= row_fuel)%nat ->
    exists w,
      gpuDecodeAvroColumnData kind_code blocks g0 global_dictionary avro_data
        min_row_size max_rows first_row block_id row_fuel = Ret (Some w) /\
      Forall (in_window first_row max_rows) (w_stores w) /\
      cur_row w + rows_remaining w = b_first_row blk + b_num_rows blk /\
      0 <= rows_remaining w /\ b_first_row blk <= cur_row w /\
      stopped max_rows first_row end_ w /\
      last_batch min_row_size max_rows first_row (b_first_row blk) w /\
      (forall r, b_first_row blk <= r < b_first_row blk + b_num_rows blk ->
         r <= first_row + max_rows -> r < cur_row w \/ end_ <= w_cur w).

(** A call of [avro_decode_row] for the row [gr] of the file, outside the
    window, which the kernel passes as [row = gr - first_row] in [size_t]:
    whatever the schema, the cursor and the bytes, the call returns, from
    some number of iterations on, with a cursor that is not before the one
    it was given, and with the stores and the null counters as they
    were. *)
Definition outside_window_parsed (kind_code : type_kind_e -> Z)
    (global_dictionary : list (Z * Z)) (avro_data : list byte)
    (max_rows first_row : Z) : Prop :=
  forall gr schema end_ g log cur,
    0 <= gr < 2 ^ 64 -> ~ (first_row <= gr < first_row + max_rows) ->
    0 <= cur -> end_ <= Z.of_nat (length avro_data) ->
    exists fuel0 : nat, forall fuel : nat, (fuel0 <= fuel)%nat ->
      exists st,
        avro_decode_row kind_code schema global_dictionary avro_data end_
          (u64 (gr - first_row)) max_rows fuel g log cur = Ret st /\
        stores st = log /\ schema_g st = g /\ cur <= r_cur st.

(** A row that the loop reaches is parsed whether it lies in the window or
    not.  Where the rows are decoded one at a time (the rows that remain, at
    [min_row_size] bytes each, do not end at [end_], or one row remains),
    an iteration of the loop at a row with index up to
    [first_row + max_rows] calls [avro_decode_row] at the cursor, for
    [row = cur_row - first_row] in [size_t], and the loop goes on with the
    next row from the cursor that the call returned. *)
Definition rows_parsed_in_turn (kind_code : type_kind_e -> Z)
    (global_dictionary : list (Z * Z)) (avro_data : list byte)
    (min_row_size max_rows first_row : Z) : Prop :=
  forall schema row_fuel fuel end_ w,
    0 < rows_remaining w < 2 ^ 32 -> w_cur w < end_ ->
    0 <= cur_row w <= first_row + max_rows ->
    cur_row w + rows_remaining w < 2 ^ 64 ->
    w_cur w + u32 (min_row_size * rows_remaining w) <> end_ \/ rows_remaining w = 1 ->
    warp_loop kind_code schema global_dictionary avro_data min_row_size max_rows
      first_row row_fuel (S fuel) end_ w
    = do st <- avro_decode_row kind_code schema global_dictionary avro_data end_
                 (u64 (cur_row w - first_row)) max_rows row_fuel (w_schema_g w) []
                 (w_cur w);
      warp_loop kind_code schema global_dictionary avro_data min_row_size max_rows
        first_row row_fuel fuel end_
        (mk_warp (cur_row w + 1) (rows_remaining w - 1)
                 (w_cur w + u32 (r_cur st - w_cur w)) (schema_g st)
                 (w_stores w ++ map (pair (cur_row w)) (stores st))).

Definition window_respected (kind_code : type_kind_e -> Z)
    (blocks : list block_desc_s) (g0 : list schemadesc_s)
    (global_dictionary : list (Z * Z)) (avro_data : list byte)
    (min_row_size max_rows first_row : Z) (block_id : nat) (blk : block_desc_s) : Prop :=
  pass_in_window kind_code blocks g0 global_dictionary avro_data
    min_row_size max_rows first_row block_id blk /\
  rows_parsed_in_turn kind_code global_dictionary avro_data
    min_row_size max_rows first_row /\
  outside_window_parsed kind_code global_dictionary avro_data max_rows first_row.

(** The schema of an array of ints: the array entry, without a column of its
    own, and its item. *)
Definition ex_array_of_int : list schemadesc_s :=
  [mk_desc type_array 1 None; mk_desc type_int 0 (Some 200)].

(** An array whose items are unions of null and int. *)
Definition ex_array_of_union : list schemadesc_s :=
  [mk_desc type_array 1 None; mk_desc type_union 2 None;
   mk_desc type_null 0 (Some 200); mk_desc type_int 0 (Some 200)].

(** An array whose items are unions of a record with one int field and a
    long. *)
Definition ex_array_of_union_of_record : list schemadesc_s :=
  [mk_desc type_array 1 None; mk_desc type_union 2 None;
   mk_desc type_record 1 None; mk_desc type_int 0 (Some 200);
   mk_desc type_long 0 (Some 300)].

(** The schema of a record with an array of arrays of ints and a long: the
    two array entries, the int of the inner items, and the long. *)
Definition ex_array_of_arrays : list schemadesc_s :=
  [mk_desc type_array 1 None; mk_desc type_array 1 None;
   mk_desc type_int 0 (Some 200); mk_desc type_long 0 (Some 300)].

(** ** The launch, [DecodeAvroColumnData] *)

(** [num_warps] warps per thread block, one warp per data block: the grid
    has [(blocks.size() + num_warps - 1) / num_warps] thread blocks, computed
    in [size_t] and passed to [dim3] as an [unsigned int], and the warp
    [threadIdx.y] of thread block [blockIdx.x] takes the data block
    [blockIdx.x * num_warps + threadIdx.y], a [uint32_t]. *)
Definition num_warps : Z := 16.

Definition dim_grid_x (n_blocks : Z) : Z :=
  u32 (u64 (n_blocks + num_warps - 1) / num_warps).

Definition block_id_of (blockIdx_x threadIdx_y : Z) : Z :=
  u32 (blockIdx_x * num_warps + threadIdx_y).

(** A warp of the launch: its coordinates are within the grid. *)
Definition launched (n_blocks blockIdx_x threadIdx_y : Z) : Prop :=
  0 <= blockIdx_x < dim_grid_x n_blocks /\ 0 <= threadIdx_y < num_warps.

(** A store of the kernel's log is for a row of the block [blk], the row
    [first_row + row] of the file. *)
Definition in_block (first_row : Z) (blk : block_desc_s) (e : Z * store_e) : Prop :=
  b_first_row blk <= first_row + store_row e.2 < b_first_row blk + b_num_rows blk.

(** *** Vocabulary for the statements about a whole row *)

(** [schema_len], as the kernel passes it: the number of entries of what
    [schema[...]] reads. *)
Definition schema_len (schema : option (list schemadesc_s)) (st : row_state) : Z :=
  Z.of_nat (length (view schema st)).

(** The loop variables of [avro_decode_row] are within their bounds: the
    cursor is not before the buffer, [i] is at most [schema_len],
    [array_repeat_count] is a [uint32_t], and while it is not 0
    [array_start] is the index of an entry. *)
Definition row_wf (schema : option (list schemadesc_s)) (st : row_state) : Prop :=
  0 <= r_cur st /\
  0 <= r_i st <= schema_len schema st /\
  0 <= array_repeat_count st < 2 ^ 32 /\
  (array_repeat_count st <> 0 -> 0 <= array_start st < schema_len schema st).

(** What bounds the iterations still to come: the input left, then the
    repetitions left of the array at hand, then the entries left. *)
Definition row_measure (schema : option (list schemadesc_s)) (end_ : Z) (st : row_state) : Z :=
  let n := schema_len schema st in
  Z.max 0 (end_ - r_cur st) * (2 ^ 32 * (n + 1))
  + array_repeat_count st * (n + 1)
  + (n - r_i st).

(** A stored string refers to bytes of the input from [lo] on and before
    [end_], or to an entry of the dictionary, or to nothing, with length 0. *)
Definition string_ref_ok (global_dictionary : list (Z * Z)) (lo end_ : Z) (e : store_e)
    : Prop :=
  match e with
  | put_string _ _ (data_chars p) n => lo <= p /\ 0 <= n /\ p + n <= end_
  | put_string _ _ (dictionary_chars p) n => In (p, n) global_dictionary
  | put_string _ _ null_chars n => n = 0
  | _ => True
  end.

(** Width of the fixed-width kinds. *)
Definition fixed_width (k : type_kind_e) : Z :=
  match k with
  | type_float => 4
  | type_double => 8
  | _ => 0
  end.

End Avro.

(** * Encodings, to state what the decoders invert *)

Module Encode.

(** The base-128 varint of [u], low group first, each byte but the last with
    its high bit set; [fuel] bounds the number of bytes. *)
Fixpoint varint_bytes (fuel : nat) (u : Z) : list Z :=
  match fuel with
  | O => []
  | S fuel =>
    if u <? 128 then [u]
    else (u mod 128 + 128) :: varint_bytes fuel (u / 128)
  end.

(** The varint of a [uint64_t] (at most 10 bytes) and of a [uint32_t] (at
    most 5). *)
Definition varint64 (u : Z) : list Z := varint_bytes 10 u.
Definition varint32 (u : Z) : list Z := varint_bytes 5 u.

(** The zig-zag code of an [int64_t], [(v << 1) ^ (v >> 63)]: 0, -1, 1, -2,
    ... become 0, 1, 2, 3, ... *)
Definition zigzag_encode (v : Z) : Z :=
  if v <? 0 then - 2 * v - 1 else 2 * v.

(** An Avro [long] on the wire. *)
Definition avro_long (v : Z) : list Z := varint64 (zigzag_encode v).

(** Snappy without compression: the varint of the total length, then each
    chunk, of 1 to 60 bytes, as a literal element whose tag holds the length
    less one in its high six bits. *)
Definition literal (chunk : list Z) : list Z :=
  4 * (Z.of_nat (length chunk) - 1) :: chunk.

Definition snappy_literals (chunks : list (list Z)) : list Z :=
  varint32 (Z.of_nat (length (concat chunks))) ++ concat (map literal chunks).

Definition chunk_ok (chunk : list Z) : Prop :=
  (1 <= length chunk <= 60)%nat /\ Forall (fun z => 0 <= z < 256) chunk.

End Encode.


(** * Facts about outcomes, machine integers and buffers *)

Lemma bind_Ret_inv {A B} (m : run A) (k : A -> run B) (b : B) :
  bind m k = Ret b -> exists a, m = Ret a /\ k a = Ret b.
Proof. destruct m; simpl; intros H; try discriminate. eauto. Qed.

Lemma byte_val_range (b : byte) : 0 <= byte_val b < 256.
Proof.
  unfold byte_val. pose proof (Byte.to_N_bounded b) as H.
  split; [apply N2Z.is_nonneg|].
  apply N.lt_succ_r in H. change (N.succ 255) with 256%N in H. lia.
Qed.

Lemma loadb_in (m : list byte) (p : Z) :
  0 <= p < Z.of_nat (length m) -> exists b, loadb m p = Ret b.
Proof.
  intros Hp. unfold loadb.
  destruct (Z.ltb_spec p 0); [lia|].
  destruct (lookup_lt_is_Some_2 m (Z.to_nat p)) as [b Hb]; [lia|].
  rewrite Hb. eauto.
Qed.

Lemma load_in (m : list byte) (p : Z) :
  0 <= p < Z.of_nat (length m) -> exists v, load m p = Ret v /\ 0 <= v < 256.
Proof.
  intros Hp. unfold load. destruct (loadb_in m p Hp) as [b ->]. simpl.
  eexists; split; [reflexivity|apply byte_val_range].
Qed.

Lemma load_range (m : list byte) (p v : Z) : load m p = Ret v -> 0 <= v < 256.
Proof.
  unfold load. intros H. apply bind_Ret_inv in H as (b & _ & H).
  injection H as <-. apply byte_val_range.
Qed.

Lemma load_pos (m : list byte) (p v : Z) :
  load m p = Ret v -> 0 <= p < Z.of_nat (length m).
Proof.
  unfold load, loadb. destruct (Z.ltb_spec p 0); simpl; [discriminate|].
  destruct (m !! Z.to_nat p) eqn:E; simpl; [|discriminate].
  intros _. apply lookup_lt_Some in E. lia.
Qed.

Lemma u32_range (x : Z) : 0 <= u32 x < 2 ^ 32.
Proof. unfold u32. apply Z.mod_pos_bound. lia. Qed.

Lemma u32_id (x : Z) : 0 <= x < 2 ^ 32 -> u32 x = x.
Proof. unfold u32. intros. apply Z.mod_small. lia. Qed.

Lemma lor_bound (n a b : Z) :
  0 <= n -> 0 <= a < 2 ^ n -> 0 <= b < 2 ^ n -> 0 <= Z.lor a b < 2 ^ n.
Proof.
  intros Hn Ha Hb.
  assert (H0 : 0 <= Z.lor a b) by (apply Z.lor_nonneg; lia).
  split; [exact H0|].
  destruct (Z.eq_dec (Z.lor a b) 0) as [Hz|Hz]; [lia|].
  assert (0 < n).
  { destruct (Z.eq_dec n 0) as [->|]; [|lia].
    assert (a = 0) as -> by lia. assert (b = 0) as -> by lia. contradiction. }
  apply Z.log2_lt_pow2; [lia|].
  rewrite Z.log2_lor by lia.
  apply Z.max_lub_lt.
  - destruct (Z.eq_dec a 0) as [->|]; [simpl; lia|]. apply Z.log2_lt_pow2; lia.
  - destruct (Z.eq_dec b 0) as [->|]; [simpl; lia|]. apply Z.log2_lt_pow2; lia.
Qed.

Lemma shiftl_bound (k n b : Z) :
  0 <= k -> 0 <= n -> 0 <= b < 2 ^ k -> 0 <= Z.shiftl b n < 2 ^ (k + n).
Proof.
  intros Hk Hn Hb. rewrite Z.shiftl_mul_pow2 by lia. rewrite Z.pow_add_r by lia.
  assert (0 < 2 ^ n) by (apply Z.pow_pos_nonneg; lia). nia.
Qed.

(** [a | (b << n)] is [a + b * 2^n] when [a] has no bit at or above [n]. *)
Lemma lor_shiftl_add (n a b : Z) :
  0 <= n -> 0 <= a < 2 ^ n -> 0 <= b -> Z.lor a (Z.shiftl b n) = a + b * 2 ^ n.
Proof.
  intros Hn Ha Hb.
  assert (Hd : Z.land a (Z.shiftl b n) = 0).
  { apply Z.bits_inj'. intros i Hi. rewrite Z.land_spec, Z.bits_0.
    destruct (Z.ltb_spec i n).
    - rewrite Z.shiftl_spec_low by lia. apply andb_false_r.
    - destruct (Z.eq_dec a 0) as [->|]; [rewrite Z.bits_0; reflexivity|].
      rewrite (Z.bits_above_log2 a i); [reflexivity|lia|].
      assert (Z.log2 a < n) by (apply Z.log2_lt_pow2; lia). lia. }
  rewrite <- Z.lxor_lor by exact Hd.
  rewrite <- Z.add_nocarry_lxor by exact Hd.
  rewrite Z.shiftl_mul_pow2 by lia. reflexivity.
Qed.

Lemma load16_in (m : list byte) (p : Z) :
  0 <= p -> p + 2 <= Z.of_nat (length m) ->
  exists v, load16 m p = Ret v /\ 0 <= v < 2 ^ 16.
Proof.
  intros Hp Hl. unfold load16.
  destruct (load_in m p) as (b0 & -> & H0); [lia|].
  destruct (load_in m (p + 1)) as (b1 & -> & H1); [lia|]. simpl.
  eexists; split; [reflexivity|].
  apply (lor_bound 16); [lia|lia|].
  apply (shiftl_bound 8 8); lia.
Qed.

Lemma store_in (m : list byte) (p : Z) (b : byte) :
  0 <= p < Z.of_nat (length m) -> store m p b = Ret (<[Z.to_nat p := b]> m).
Proof.
  intros Hp. unfold store.
  destruct (Z.leb_spec 0 p); [|lia]. destruct (Z.ltb_spec p (Z.of_nat (length m))); [|lia].
  reflexivity.
Qed.

Lemma land_bound (n a b : Z) :
  0 <= n -> 0 <= a < 2 ^ n -> 0 <= b -> 0 <= Z.land a b < 2 ^ n.
Proof.
  intros Hn Ha Hb.
  assert (H0 : 0 <= Z.land a b) by (apply Z.land_nonneg; lia).
  split; [exact H0|].
  destruct (Z.eq_dec (Z.land a b) 0) as [Hz|Hz]; [lia|].
  assert (a <> 0) by (intros ->; apply Hz, Z.land_0_l).
  apply Z.log2_lt_pow2; [lia|].
  pose proof (Z.log2_land a b ltac:(lia) Hb).
  assert (Z.log2 a < n) by (apply Z.log2_lt_pow2; lia). lia.
Qed.

(** Case analysis on the boolean comparisons of a goal. *)
Ltac cmp :=
  repeat match goal with
  | |- context [Z.ltb ?a ?b] => destruct (Z.ltb_spec a b)
  | |- context [Z.leb ?a ?b] => destruct (Z.leb_spec a b)
  | |- context [Z.eqb ?a ?b] => destruct (Z.eqb_spec a b)
  end.

Ltac cmp_in H :=
  repeat match type of H with
  | context [Z.ltb ?a ?b] => destruct (Z.ltb_spec a b)
  | context [Z.leb ?a ?b] => destruct (Z.leb_spec a b)
  | context [Z.eqb ?a ?b] => destruct (Z.eqb_spec a b)
  end.

Lemma loadb_lookup (m : list byte) (p : Z) (b : byte) :
  loadb m p = Ret b -> 0 <= p /\ m !! Z.to_nat p = Some b.
Proof.
  unfold loadb. destruct (Z.ltb_spec p 0); [discriminate|].
  destruct (m !! Z.to_nat p); [|discriminate]. intros [= ->]. auto.
Qed.

Lemma load_lookup (m : list byte) (p v : Z) :
  load m p = Ret v -> exists b, 0 <= p /\ m !! Z.to_nat p = Some b /\ v = byte_val b.
Proof.
  unfold load. intros H. apply bind_Ret_inv in H as (b & Hb & [= <-]).
  apply loadb_lookup in Hb as [? ?]. eauto.
Qed.

Lemma slice_nil (m : list byte) (p : Z) : slice m p 0 = [].
Proof. reflexivity. Qed.

Lemma slice_cons (m : list byte) (p n : Z) (b : byte) :
  0 <= p -> 0 < n -> m !! Z.to_nat p = Some b ->
  slice m p n = b :: slice m (p + 1) (n - 1).
Proof.
  intros Hp Hn Hb. unfold slice. rewrite (drop_S m b (Z.to_nat p)) by exact Hb.
  replace (Z.to_nat n) with (S (Z.to_nat (n - 1))) by lia.
  replace (Z.to_nat (p + 1)) with (S (Z.to_nat p)) by lia. reflexivity.
Qed.



(** * The Snappy host decoder: proofs *)

Module SnappyFacts.
Import Snappy.

Lemma shiftr2_range (tag : Z) : 0 <= tag < 256 -> 0 <= Z.shiftr tag 2 < 64.
Proof.
  intros H. rewrite Z.shiftr_div_pow2 by lia. change (2 ^ 2) with 4.
  Z.to_euclidean_division_equations. lia.
Qed.

Lemma copy_size_range (tag : Z) : 1 <= copy_size tag <= 4.
Proof. unfold copy_size. cmp; lia. Qed.

(** A copy header either does not fit the source (and breaks), or is read
    without fault and yields a 32-bit offset and a length in [1 .. 64]. *)
Lemma copy_element_spec (src : list byte) (end_ cur tag : Z) :
  0 <= cur -> end_ <= Z.of_nat (length src) -> 0 <= tag < 256 ->
  (end_ < cur + copy_size tag /\ copy_element src end_ cur tag = Ret None) \/
  (cur + copy_size tag <= end_ /\
   exists offset blen,
     copy_element src end_ cur tag = Ret (Some (offset, blen, cur + copy_size tag)) /\
     0 <= offset < 2 ^ 32 /\ 1 <= blen <= 64).
Proof.
  intros Hc He Ht. unfold copy_element, copy_size.
  destruct (Z.eqb_spec (Z.land tag 2) 0) as [E2|E2]; simpl.
  - destruct (Z.leb_spec end_ cur); [left; split; [lia|reflexivity]|].
    right. split; [lia|].
    destruct (load_in src cur) as (b & -> & Hb); [lia|]. simpl.
    do 2 eexists. split; [reflexivity|]. split.
    + assert (0 <= Z.lor (Z.shiftl (Z.land tag 224) 3) b < 2 ^ 11); [|lia].
      apply lor_bound; [lia| |lia].
      apply (shiftl_bound 8 3); [lia|lia|]. apply land_bound; lia.
    + change 7 with (Z.ones 3). rewrite Z.land_ones by lia.
      pose proof (Z.mod_pos_bound (Z.shiftr tag 2) (2 ^ 3) ltac:(lia)). lia.
  - destruct (Z.ltb_spec end_ (cur + 2)); [left; split; [cmp; lia|reflexivity]|].
    destruct (load16_in src cur) as (lo & -> & Hlo); [lia|lia|]. simpl.
    destruct (Z.eqb_spec (Z.land tag 1) 0) as [E1|E1]; simpl.
    + right. split; [lia|]. do 2 eexists. split; [reflexivity|].
      pose proof (shiftr2_range tag Ht). lia.
    + destruct (Z.ltb_spec end_ (cur + 2 + 2)); [left; split; [lia|reflexivity]|].
      destruct (load16_in src (cur + 2)) as (hi & -> & Hhi); [lia|lia|]. simpl.
      right. split; [lia|]. replace (cur + 2 + 2) with (cur + 4) by lia.
      do 2 eexists. split; [reflexivity|]. split.
      * apply lor_bound; [lia|lia|apply u32_range].
      * pose proof (shiftr2_range tag Ht). lia.
Qed.

(** The byte-wise copy of [S k] bytes stays below [dst_pos + S k]. *)
Lemma copy_bytes_spec (k : nat) (offset dst_pos : Z) (dst : list byte) :
  1 <= offset <= dst_pos ->
  dst_pos + Z.of_nat (S k) <= Z.of_nat (length dst) ->
  dst_pos + Z.of_nat (S k) < 2 ^ 32 ->
  exists dst',
    copy_bytes k offset dst_pos dst = Ret (dst_pos + Z.of_nat (S k), dst') /\
    length dst' = length dst /\
    forall i : nat, dst_pos + Z.of_nat (S k) <= Z.of_nat i -> dst' !! i = dst !! i.
Proof.
  revert dst_pos dst. induction k as [|k IH]; intros dst_pos dst Ho Hl H32.
  - simpl. rewrite u32_id by lia.
    destruct (loadb_in dst (dst_pos - offset)) as (b & ->); [lia|]. simpl.
    rewrite store_in by lia. simpl. rewrite u32_id by lia.
    eexists. split; [reflexivity|]. split; [apply length_insert|].
    intros i Hi. apply list_lookup_insert_ne. lia.
  - cbn [copy_bytes]. rewrite u32_id by lia.
    destruct (loadb_in dst (dst_pos - offset)) as (b & ->); [lia|]. simpl bind.
    rewrite store_in by lia. simpl bind. rewrite u32_id by lia.
    destruct (IH (dst_pos + 1) (<[Z.to_nat dst_pos := b]> dst)) as (dst' & E & Hlen & Hfr).
    + lia.
    + rewrite length_insert. lia.
    + lia.
    + rewrite E. replace (dst_pos + 1 + Z.of_nat (S k)) with (dst_pos + Z.of_nat (S (S k))) by lia.
      eexists. split; [reflexivity|]. rewrite length_insert in Hlen. split; [exact Hlen|].
      intros i Hi. rewrite Hfr by lia. apply list_lookup_insert_ne. lia.
Qed.

Lemma memcpy_spec (n : nat) (dst : list byte) (dpos : Z) (src : list byte) (spos : Z) :
  0 <= dpos -> dpos + Z.of_nat n <= Z.of_nat (length dst) ->
  0 <= spos -> spos + Z.of_nat n <= Z.of_nat (length src) ->
  exists dst',
    memcpy n dst dpos src spos = Ret dst' /\
    length dst' = length dst /\
    forall i : nat, dpos + Z.of_nat n <= Z.of_nat i -> dst' !! i = dst !! i.
Proof.
  revert dst dpos spos. induction n as [|n IH]; intros dst dpos spos Hd Hdl Hs Hsl.
  - simpl. eauto.
  - cbn [memcpy].
    destruct (loadb_in src spos) as (b & ->); [lia|]. simpl bind.
    rewrite store_in by lia. simpl bind.
    destruct (IH (<[Z.to_nat dpos := b]> dst) (dpos + 1) (spos + 1)) as (dst' & E & Hlen & Hfr);
      try (rewrite ?length_insert; lia).
    rewrite E. eexists. split; [reflexivity|]. rewrite length_insert in Hlen.
    split; [exact Hlen|].
    intros i Hi. rewrite Hfr by lia. apply list_lookup_insert_ne. lia.
Qed.

Lemma literal_element_ok (src : list byte) (end_ cur tag : Z) :
  0 <= cur -> end_ <= Z.of_nat (length src) -> 0 <= tag < 256 ->
  literal_element src end_ cur tag = Ret None \/
  exists blen c,
    literal_element src end_ cur tag = Ret (Some (blen, c)) /\
    0 <= blen < 2 ^ 32 /\ cur <= c.
Proof.
  intros Hc He Ht. unfold literal_element.
  pose proof (shiftr2_range tag Ht) as Hf.
  set (field := Z.shiftr tag 2) in *.
  assert (Hfin : forall (v c : Z), cur <= c ->
            exists blen c', Ret (Some (u32 (v + 1), c)) = Ret (Some (blen, c')) /\
                            0 <= blen < 2 ^ 32 /\ cur <= c').
  { intros v c Hle. do 2 eexists. split; [reflexivity|]. split; [apply u32_range|lia]. }
  destruct (Z.leb_spec 60 field) as [Hge|Hlt]; [|right; apply Hfin; lia].
  destruct (Z.leb_spec end_ (cur + (field - 59))) as [Hend|Hend]; [left; reflexivity|].
  right.
  destruct (load_in src cur) as (b0 & -> & Hb0); [lia|]. simpl bind.
  destruct (Z.ltb_spec 1 (field - 59)) as [H1|H1]; [|simpl bind; apply Hfin; lia].
  destruct (load_in src (cur + 1)) as (b1 & -> & Hb1); [lia|]. simpl bind.
  destruct (Z.ltb_spec 2 (field - 59)) as [H2|H2]; [|simpl bind; apply Hfin; lia].
  destruct (load_in src (cur + 2)) as (b2 & -> & Hb2); [lia|]. simpl bind.
  destruct (Z.ltb_spec 3 (field - 59)) as [H3|H3]; [|simpl bind; apply Hfin; lia].
  destruct (load_in src (cur + 3)) as (b3 & -> & Hb3); [lia|]. simpl bind.
  apply Hfin; lia.
Qed.

Section Loop.

Variables (src dst0 : list byte) (end_ u : Z).
Hypothesis Hu : 0 < u < 2 ^ 32.
Hypothesis Hdst : u <= Z.of_nat (length dst0).
Hypothesis Hsrc : end_ <= Z.of_nat (length src).

(** One element either breaks, leaving the state alone, or completes without
    an out-of-bounds access, consumes input and preserves the invariant. *)
Lemma lz_step_inv (s : lz_state) :
  lz_inv u dst0 s -> cur s < end_ ->
  lz_step src end_ s = Ret (Break s) \/
  exists s', lz_step src end_ s = Ret (Next s') /\
             lz_inv u dst0 s' /\ cur s < cur s' <= end_.
Proof.
  intros [Hc Hp Hl Hs Hlen Hfr] Hce. unfold lz_step.
  destruct (load_in src (cur s)) as (tag & -> & Ht); [lia|]. simpl bind.
  destruct (Z.eqb_spec (Z.land tag 3) 0) as [E3|E3]; simpl negb; cbv iota.
  - (* literal *)
    destruct (literal_element_ok src end_ (cur s + 1) tag) as [->|(blen & c & -> & Hb & Hcc)];
      try lia; simpl bind; [left; reflexivity|].
    destruct (Z.ltb_spec end_ (c + blen)); simpl orb; [left; reflexivity|].
    destruct (Z.ltb_spec (bytes_left s) blen); simpl orb; [left; reflexivity|].
    destruct (memcpy_spec (Z.to_nat blen) (dstBytes s) (dst_pos s) src c)
      as (dst' & -> & Hlen' & Hfr'); try lia.
    simpl bind. right. eexists. split; [reflexivity|].
    split; [|simpl; lia].
    constructor; simpl; rewrite ?u32_id by lia; try lia.
    intros i Hi. rewrite Hfr' by lia. apply Hfr, Hi.
  - (* copy *)
    destruct (copy_element_spec src end_ (cur s + 1) tag)
      as [(_ & ->)|(Hfit & offset & blen & -> & Ho & Hb)]; try lia;
      simpl bind; [left; reflexivity|].
    destruct (Z.leb_spec (dst_pos s) (u32 (offset - 1))) as [Hov|Hov];
      simpl orb; [left; reflexivity|].
    destruct (Z.ltb_spec (bytes_left s) blen); simpl orb; [left; reflexivity|].
    assert (1 <= offset).
    { destruct (Z.eq_dec offset 0) as [->|]; [|lia].
      change (u32 (0 - 1)) with (2 ^ 32 - 1) in Hov. lia. }
    rewrite u32_id in Hov by lia.
    rewrite (u32_id (blen - 1)) by lia.
    destruct (copy_bytes_spec (Z.to_nat (blen - 1)) offset (dst_pos s) (dstBytes s))
      as (dst' & -> & Hlen' & Hfr'); try lia.
    simpl bind. right. eexists. split; [reflexivity|].
    pose proof (copy_size_range tag).
    split; [|simpl; lia].
    constructor; simpl; rewrite ?u32_id by lia; try lia.
    intros i Hi. rewrite Hfr' by lia. apply Hfr, Hi.
Qed.

Lemma lz_reaches_trans (a b c : lz_state) :
  lz_reaches src end_ a b -> lz_reaches src end_ b c -> lz_reaches src end_ a c.
Proof.
  induction 1 as [|a a1 b Hst Hh _ IH]; [auto|].
  intros Hbc. eapply lz_reaches_next; eauto.
Qed.

Lemma lz_reaches_inv (s s' : lz_state) :
  lz_reaches src end_ s s' ->
  lz_inv u dst0 s -> lz_at_head end_ s ->
  lz_inv u dst0 s' /\ lz_at_head end_ s' /\ cur s <= cur s'.
Proof.
  induction 1 as [|s s1 s2 Hst Hh _ IH]; intros Hinv Hhead; [split; [|split]; auto; lia|].
  destruct (lz_step_inv s Hinv (proj2 Hhead)) as [E|(s1' & E & Hinv' & Hadv)];
    rewrite E in Hst; [discriminate|].
  injection Hst as ->. destruct (IH Hinv' Hh) as (? & ? & ?).
  split; [|split]; auto; lia.
Qed.

(** With as much fuel as there are source bytes ahead, the loop stops in a
    state described by [lz_final], never out of fuel or out of bounds. *)
Lemma lz_loop_spec (fuel : nat) (s : lz_state) :
  lz_inv u dst0 s -> lz_at_head end_ s ->
  end_ - cur s <= Z.of_nat fuel ->
  exists s', lz_loop fuel src end_ s = Ret s' /\
             lz_inv u dst0 s' /\ lz_final src end_ s s' /\ cur s' <= end_.
Proof.
  revert s. induction fuel as [|fuel IH]; intros s Hinv Hhead Hfuel.
  { destruct Hhead. lia. }
  cbn [lz_loop].
  destruct (lz_step_inv s Hinv (proj2 Hhead)) as [E|(s1 & E & Hinv1 & Hadv)];
    rewrite E; simpl bind.
  - exists s. split; [reflexivity|]. split; [exact Hinv|]. split.
    + apply lz_final_break; [constructor|exact E].
    + destruct Hhead; lia.
  - destruct (Z.eqb_spec (bytes_left s1) 0) as [E0|E0]; simpl.
    + exists s1. split; [reflexivity|]. split; [exact Hinv1|]. split; [|lia].
      eapply lz_final_done; [constructor|exact E|]. intros [? _]. contradiction.
    + destruct (Z.ltb_spec (cur s1) end_) as [Hlt|Hge].
      * destruct (IH s1 Hinv1 (conj E0 Hlt)) as (s' & El & Hinv' & Hfin & Hce); [lia|].
        exists s'. split; [exact El|]. split; [exact Hinv'|]. split; [|exact Hce].
        destruct Hfin as [sh Hr Hb|sh s' Hr Hn Hnh].
        -- apply lz_final_break; [|exact Hb].
           eapply lz_reaches_next; eauto. split; auto.
        -- eapply lz_final_done; [|exact Hn|exact Hnh].
           eapply lz_reaches_next; eauto. split; auto.
      * exists s1. split; [reflexivity|]. split; [exact Hinv1|]. split; [|lia].
        eapply lz_final_done; [constructor|exact E|]. intros [_ ?]. lia.
Qed.

(** The state the loop is left in is determined by the state it starts in. *)
Lemma lz_final_unique (s0 a b : lz_state) :
  lz_final src end_ s0 a -> lz_final src end_ s0 b -> a = b.
Proof.
  assert (Hstop : forall sh sh' x y,
    lz_reaches src end_ sh sh' ->
    (lz_step src end_ sh = Ret (Break sh) /\ x = sh \/
     lz_step src end_ sh = Ret (Next x) /\ ~ lz_at_head end_ x) ->
    (lz_step src end_ sh' = Ret (Break sh') /\ y = sh' \/
     lz_step src end_ sh' = Ret (Next y) /\ ~ lz_at_head end_ y) ->
    x = y).
  { intros sh sh' x y Hr Hx Hy. destruct Hr as [sh|sh s1 sh' Hst Hh Hr].
    - destruct Hx as [[Ex ->]|[Ex Hnx]], Hy as [[Ey ->]|[Ey Hny]]; congruence.
    - destruct Hx as [[Ex ->]|[Ex Hnx]]; [congruence|].
      rewrite Ex in Hst. injection Hst as ->. contradiction. }
  assert (Hlin : forall sh, lz_reaches src end_ s0 sh ->
    forall sh', lz_reaches src end_ s0 sh' ->
    lz_reaches src end_ sh sh' \/ lz_reaches src end_ sh' sh).
  { induction 1 as [|s s1 s2 Hst Hh Hr12 IH]; intros sh' Hr'; [left; exact Hr'|].
    destruct Hr' as [|s s1' s2' Hst' Hh' Hr'].
    - right. eapply lz_reaches_next; eauto.
    - rewrite Hst in Hst'. injection Hst' as <-. apply IH, Hr'. }
  intros Ha Hb.
  assert (Hx : exists sh, lz_reaches src end_ s0 sh /\
    (lz_step src end_ sh = Ret (Break sh) /\ a = sh \/
     lz_step src end_ sh = Ret (Next a) /\ ~ lz_at_head end_ a)).
  { destruct Ha; eauto 6. }
  assert (Hy : exists sh, lz_reaches src end_ s0 sh /\
    (lz_step src end_ sh = Ret (Break sh) /\ b = sh \/
     lz_step src end_ sh = Ret (Next b) /\ ~ lz_at_head end_ b)).
  { destruct Hb; eauto 6. }
  destruct Hx as (sh & Hr & Hx), Hy as (sh' & Hr' & Hy).
  destruct (Hlin sh Hr sh' Hr') as [H|H].
  - eapply Hstop; eauto.
  - symmetry. eapply Hstop; eauto.
Qed.

End Loop.

(** The length prefix is read without fault and within five bytes. *)
Lemma read_uncompressed_size_spec (src : list byte) (end_ : Z)
    (fuel : nat) (cur l acc : Z) :
  0 <= cur < end_ -> end_ <= Z.of_nat (length src) ->
  0 <= l < 35 -> 35 <= 7 * Z.of_nat fuel + l -> 0 <= acc < 2 ^ 32 ->
  read_uncompressed_size fuel src end_ cur l acc = Ret None \/
  exists v c, read_uncompressed_size fuel src end_ cur l acc = Ret (Some (v, c)) /\
              0 <= v < 2 ^ 32 /\ cur < c <= end_.
Proof.
  revert cur l acc. induction fuel as [|fuel IH]; intros cur l acc Hc He Hl Hf Ha; [lia|].
  cbn [read_uncompressed_size].
  destruct (load_in src cur) as (c & -> & Hcb); [lia|]. simpl bind.
  assert (Hacc : 0 <= Z.lor acc (u32 (Z.shiftl (Z.land c 127) l)) < 2 ^ 32).
  { apply lor_bound; [lia|lia|apply u32_range]. }
  destruct (Z.leb_spec 28 l) as [Hl28|Hl28]; simpl andb.
  - destruct (Z.ltb_spec 15 c) as [H15|H15]; [left; reflexivity|].
    destruct (Z.ltb_spec 127 c); [lia|]. simpl andb.
    right. do 2 eexists. split; [reflexivity|]. split; [exact Hacc|lia].
  - destruct (Z.ltb_spec 127 c) as [H127|H127]; simpl andb.
    + destruct (Z.ltb_spec (cur + 1) end_) as [Hn|Hn].
      * destruct (IH (cur + 1) (l + 7) (Z.lor acc (u32 (Z.shiftl (Z.land c 127) l))))
          as [E|(v & c' & E & Hv & Hc')]; try lia; [left; exact E|].
        right. exists v, c'. split; [exact E|]. split; [exact Hv|lia].
      * right. do 2 eexists. split; [reflexivity|]. split; [exact Hacc|lia].
    + right. do 2 eexists. split; [reflexivity|]. split; [exact Hacc|lia].
Qed.

(** The checks before the loop: they either return 0, or establish the
    invariant and the loop condition for the first element. *)
Lemma Decompress_init_spec (dst : list byte) (dstLen : Z) (src : list byte) (srcLen : Z) :
  srcLen <= Z.of_nat (length src) ->
  Decompress_init dst dstLen src srcLen = Ret None \/
  exists u c,
    Decompress_init dst dstLen src srcLen = Ret (Some (u, mk_lz c 0 u dst)) /\
    0 < u < 2 ^ 32 /\ u <= dstLen /\ 0 < c < srcLen.
Proof.
  intros Hsrc. unfold Decompress_init.
  destruct (Z.ltb_spec srcLen 1) as [H1|H1]; [left; reflexivity|].
  destruct (read_uncompressed_size_spec src srcLen 5 0 0 0)
    as [->|(v & c & -> & Hv & Hc)]; try lia; simpl bind; [left; reflexivity|].
  destruct (Z.eqb_spec v 0); simpl orb; [left; reflexivity|].
  destruct (Z.ltb_spec dstLen v); simpl orb; [left; reflexivity|].
  destruct (Z.leb_spec srcLen c); simpl orb; [left; reflexivity|].
  right. exists v, c. split; [reflexivity|]. lia.
Qed.

Lemma lz_inv_init (u c : Z) (dst : list byte) :
  0 < u -> 0 < c -> lz_inv u dst (mk_lz c 0 u dst).
Proof. intros Hu Hc. constructor; simpl; auto; lia. Qed.

(** [Decompress_run] always returns: it evaluates to the value computed from
    the state that [lz_final] describes. *)
Lemma Decompress_run_spec (dst : list byte) (dstLen : Z) (src : list byte) (srcLen : Z) :
  srcLen <= Z.of_nat (length src) ->
  (forall u s0, Decompress_init dst dstLen src srcLen = Ret (Some (u, s0)) ->
                u <= Z.of_nat (length dst)) ->
  (Decompress_init dst dstLen src srcLen = Ret None /\
   Decompress_run dst dstLen src srcLen = Ret (0, None)) \/
  exists u s0 s,
    Decompress_init dst dstLen src srcLen = Ret (Some (u, s0)) /\
    Decompress_run dst dstLen src srcLen
      = Ret (if negb (bytes_left s =? 0) then 0 else u, Some s) /\
    0 < u < 2 ^ 32 /\ u <= dstLen /\
    lz_inv u dst s0 /\ lz_at_head srcLen s0 /\
    lz_inv u dst s /\ lz_final src srcLen s0 s /\ cur s <= srcLen.
Proof.
  intros Hsrc Hcap. unfold Decompress_run.
  destruct (Decompress_init_spec dst dstLen src srcLen Hsrc)
    as [E|(u & c & E & Hu & Hle & Hc)]; rewrite E; simpl bind; [left; auto|].
  right. specialize (Hcap _ _ E).
  assert (Hinv0 := lz_inv_init u c dst ltac:(lia) ltac:(lia)).
  assert (Hh0 : lz_at_head srcLen (mk_lz c 0 u dst)) by (split; simpl; lia).
  destruct (lz_loop_spec src dst srcLen u Hu Hcap Hsrc (Z.to_nat srcLen) _ Hinv0 Hh0)
    as (s & -> & Hinv & Hfin & Hce); [simpl; lia|].
  simpl bind. exists u, (mk_lz c 0 u dst), s. repeat (split; [first [reflexivity|assumption|lia]|]).
  exact Hce.
Qed.

(** A copy element that violates one of the three conditions makes the
    body [break]. *)
Lemma copy_violation_breaks (src dst0 : list byte) (end_ u : Z) (s : lz_state) (tag : Z) :
  0 < u < 2 ^ 32 -> end_ <= Z.of_nat (length src) ->
  lz_inv u dst0 s ->
  load src (cur s) = Ret tag -> Z.land tag 3 <> 0 ->
  copy_violation src end_ s tag ->
  lz_step src end_ s = Ret (Break s).
Proof.
  intros Hu Hsrc [Hc Hp Hl Hs _ _] Htag H3 Hv. unfold lz_step. rewrite Htag. simpl bind.
  pose proof (load_range _ _ _ Htag) as Ht.
  destruct (Z.eqb_spec (Z.land tag 3) 0) as [|_]; [contradiction|]. simpl negb. cbv iota.
  destruct (copy_element_spec src end_ (cur s + 1) tag)
    as [(_ & ->)|(Hfit & offset & blen & E & Ho & Hb)]; try lia; [reflexivity|].
  destruct Hv as [Hv|(offset' & blen' & c' & E' & Hv)]; [lia|].
  rewrite E in E'. injection E' as <- <- <-. rewrite E. simpl bind.
  destruct (Z.leb_spec (dst_pos s) (u32 (offset - 1))) as [|Hov]; [reflexivity|].
  destruct (Z.ltb_spec (bytes_left s) blen) as [|Hbl]; [reflexivity|].
  exfalso. destruct (Z.eq_dec offset 0) as [->|].
  - change (u32 (0 - 1)) with (2 ^ 32 - 1) in Hov. lia.
  - rewrite u32_id in Hov by lia. lia.
Qed.

(** C1: whenever the decoder, at the top of its loop, meets a copy element
    that runs past the source buffer, or whose offset is not within
    [1 .. dst_pos] (offset 0 and a copy before any output included), or whose
    length exceeds the bytes still to be produced, [Decompress] returns 0. *)
Theorem Decompress_copy_violation_returns_0
    (dst : list byte) (dstLen : Z) (src : list byte) (srcLen : Z)
    (u : Z) (s0 s : lz_state) (tag : Z) :
  srcLen <= Z.of_nat (length src) -> dstLen <= Z.of_nat (length dst) ->
  Decompress_init dst dstLen src srcLen = Ret (Some (u, s0)) ->
  lz_reaches src srcLen s0 s ->
  load src (cur s) = Ret tag -> Z.land tag 3 <> 0 ->
  copy_violation src srcLen s tag ->
  Decompress dst dstLen src srcLen = Ret 0.
Proof.
  intros Hsrc Hdst Hinit Hreach Htag H3 Hv. unfold Decompress.
  destruct (Decompress_run_spec dst dstLen src srcLen Hsrc)
    as [(E & _)|(u' & s0' & s' & E & -> & Hu & Hle & Hinv0 & Hh0 & Hinv & Hfin & _)].
  - intros u' s0' E. destruct (Decompress_init_spec dst dstLen src srcLen Hsrc)
      as [E'|(u'' & c & E' & ? & ? & ?)]; rewrite E' in E; [discriminate|].
    injection E as <- _. lia.
  - rewrite E in Hinit. discriminate.
  - rewrite E in Hinit. injection Hinit as -> ->. simpl bind.
    destruct (lz_reaches_inv src dst srcLen u Hu ltac:(lia) Hsrc _ _ Hreach Hinv0 Hh0)
      as (Hinvs & Hhs & _).
    assert (Hbrk := copy_violation_breaks src dst srcLen u s tag Hu Hsrc Hinvs Htag H3 Hv).
    assert (s' = s) as ->.
    { eapply lz_final_unique; [exact Hfin|]. apply lz_final_break; assumption. }
    destruct Hhs as [Hne _]. destruct (Z.eqb_spec (bytes_left s) 0); [contradiction|].
    reflexivity.
Qed.

Lemma Decompress_copy_violation_witness :
  Decompress (mk_bytes [0; 0; 0; 0; 0]) 5 (mk_bytes [5; 0; 97; 1; 0]) 5 = Ret 0.
Proof.
  apply (Decompress_copy_violation_returns_0
           (mk_bytes [0; 0; 0; 0; 0]) 5 (mk_bytes [5; 0; 97; 1; 0]) 5
           5 (mk_lz 1 0 5 (mk_bytes [0; 0; 0; 0; 0]))
           (mk_lz 3 1 4 (mk_bytes [97; 0; 0; 0; 0])) 1).
  - simpl. lia.
  - simpl. lia.
  - reflexivity.
  - apply (lz_reaches_next _ _ _ (mk_lz 3 1 4 (mk_bytes [97; 0; 0; 0; 0])));
      [reflexivity|split; simpl; lia|apply lz_reaches_here].
  - reflexivity.
  - discriminate.
  - right. exists 0, 4, 5. split; [reflexivity|]. left. lia.
Defined.

(** C2, amended: [Decompress] returns a value in every case; the value is
    nonzero exactly when the loop ends at the end of an element with no
    declared byte left to produce, and then it is the declared size, all of
    which has been written, with the cursor at or before the end of the
    source.  Exhausting the source is not required. *)
Theorem Decompress_nonzero_iff
    (dst : list byte) (dstLen : Z) (src : list byte) (srcLen : Z) :
  srcLen <= Z.of_nat (length src) -> dstLen <= Z.of_nat (length dst) ->
  exists r fin,
    Decompress_run dst dstLen src srcLen = Ret (r, fin) /\
    (r <> 0 <->
     exists u s0 sh s,
       Decompress_init dst dstLen src srcLen = Ret (Some (u, s0)) /\
       lz_reaches src srcLen s0 sh /\
       lz_step src srcLen sh = Ret (Next s) /\
       bytes_left s = 0) /\
    (r <> 0 ->
     exists u s0 s,
       Decompress_init dst dstLen src srcLen = Ret (Some (u, s0)) /\
       fin = Some s /\ r = u /\
       dst_pos s = u /\ bytes_left s = 0 /\ cur s <= srcLen).
Proof.
  intros Hsrc Hdst.
  destruct (Decompress_run_spec dst dstLen src srcLen Hsrc)
    as [(E & ->)|(u & s0 & s & E & -> & Hu & Hle & Hinv0 & Hh0 & Hinv & Hfin & Hce)].
  - intros u' s0' E. destruct (Decompress_init_spec dst dstLen src srcLen Hsrc)
      as [E'|(u'' & c & E' & ? & ? & ?)]; rewrite E' in E; [discriminate|].
    injection E as <- _. lia.
  - exists 0, None. split; [reflexivity|]. split; [split|]; try congruence.
    intros (? & ? & ? & ? & E' & _). congruence.
  - do 2 eexists. split; [reflexivity|].
    assert (Hcap : u <= Z.of_nat (length dst)) by lia.
    destruct (Z.eqb_spec (bytes_left s) 0) as [E0|E0]; simpl negb; cbv iota.
    + split; [split; [intros _|lia]|intros _].
      * destruct Hfin as [sh Hr Hb|sh s Hr Hn Hnh].
        -- destruct (lz_reaches_inv src dst srcLen u Hu Hcap Hsrc _ _ Hr Hinv0 Hh0)
             as (_ & [Hne _] & _). contradiction.
        -- exists u, s0, sh, s. auto.
      * exists u, s0, s. destruct Hinv. repeat split; auto; lia.
    + split; [split; [congruence|]|congruence].
      intros (u' & s0' & sh & s' & E' & Hr & Hn & Hz).
      rewrite E in E'. injection E' as <- <-.
      assert (s = s') as ->; [|contradiction].
      eapply lz_final_unique; [exact Hfin|].
      eapply lz_final_done; [exact Hr|exact Hn|]. intros [? _]. contradiction.
Qed.

Lemma Decompress_nonzero_iff_witness :
  exists r fin,
    Decompress_run (mk_bytes [0; 0; 0]) 3 (mk_bytes [3; 8; 97; 98; 99]) 5 = Ret (r, fin) /\
    (r <> 0 <->
     exists u s0 sh s,
       Decompress_init (mk_bytes [0; 0; 0]) 3 (mk_bytes [3; 8; 97; 98; 99]) 5
         = Ret (Some (u, s0)) /\
       lz_reaches (mk_bytes [3; 8; 97; 98; 99]) 5 s0 sh /\
       lz_step (mk_bytes [3; 8; 97; 98; 99]) 5 sh = Ret (Next s) /\
       bytes_left s = 0) /\
    (r <> 0 ->
     exists u s0 s,
       Decompress_init (mk_bytes [0; 0; 0]) 3 (mk_bytes [3; 8; 97; 98; 99]) 5
         = Ret (Some (u, s0)) /\
       fin = Some s /\ r = u /\
       dst_pos s = u /\ bytes_left s = 0 /\ cur s <= 5).
Proof.
  apply (Decompress_nonzero_iff (mk_bytes [0; 0; 0]) 3 (mk_bytes [3; 8; 97; 98; 99]) 5);
    simpl; lia.
Defined.

(** C2 as stated fails: this stream is accepted (the result is the declared
    size 1) although the decoder stops at index 3 of a 4-byte source, one
    byte short of its end. *)
Lemma Decompress_accepts_trailing_source :
  Decompress_run (mk_bytes [0]) 1 (mk_bytes [1; 0; 97; 255]) 4
    = Ret (1, Some (mk_lz 3 1 0 (mk_bytes [97]))) /\
  cur (mk_lz 3 1 0 (mk_bytes [97])) < 4.
Proof. split; [reflexivity|simpl; lia]. Qed.

(** C10: once the length prefix [u] has passed the initial check (nonzero, at
    most [dstLen]), the decoder runs to completion on any destination of at
    least [u] bytes without a store outside it; at every element boundary
    [dst_pos + bytes_left = u], so an element is admitted only within the
    remaining budget; bytes at index [u] and above are left as they were; and
    the result is 0 or exactly [u]. *)
Theorem Decompress_stays_within_declared_size
    (dst : list byte) (dstLen : Z) (src : list byte) (srcLen : Z)
    (u : Z) (s0 : lz_state) :
  srcLen <= Z.of_nat (length src) ->
  Decompress_init dst dstLen src srcLen = Ret (Some (u, s0)) ->
  u <= Z.of_nat (length dst) ->
  0 < u <= dstLen /\
  (forall sh, lz_reaches src srcLen s0 sh ->
     0 <= dst_pos sh /\ 0 < bytes_left sh /\ dst_pos sh + bytes_left sh = u) /\
  exists r s,
    Decompress_run dst dstLen src srcLen = Ret (r, Some s) /\
    (r = 0 \/ r = u) /\
    dst_pos s <= u /\
    length (dstBytes s) = length dst /\
    (forall i : nat, u <= Z.of_nat i -> dstBytes s !! i = dst !! i).
Proof.
  intros Hsrc Hinit Hcap.
  destruct (Decompress_run_spec dst dstLen src srcLen Hsrc)
    as [(E & _)|(u' & s0' & s & E & Erun & Hu & Hle & Hinv0 & Hh0 & Hinv & Hfin & Hce)].
  - intros u' s0' E. rewrite Hinit in E. injection E as <- _. exact Hcap.
  - congruence.
  - rewrite Hinit in E. injection E as <- <-.
    split; [lia|]. split.
    + intros sh Hr.
      destruct (lz_reaches_inv src dst srcLen u Hu Hcap Hsrc _ _ Hr Hinv0 Hh0)
        as ([] & [] & _). lia.
    + do 2 eexists. split; [exact Erun|]. destruct Hinv.
      split; [destruct (bytes_left s =? 0); simpl; auto|].
      split; [lia|]. split; assumption.
Qed.

Lemma Decompress_stays_within_declared_size_witness :
  0 < 3 <= 10 /\
  (forall sh, lz_reaches (mk_bytes [3; 8; 97; 98; 99]) 5
                (mk_lz 1 0 3 (mk_bytes [0; 0; 0])) sh ->
     0 <= dst_pos sh /\ 0 < bytes_left sh /\ dst_pos sh + bytes_left sh = 3) /\
  exists r s,
    Decompress_run (mk_bytes [0; 0; 0]) 10 (mk_bytes [3; 8; 97; 98; 99]) 5
      = Ret (r, Some s) /\
    (r = 0 \/ r = 3) /\
    dst_pos s <= 3 /\
    length (dstBytes s) = length (mk_bytes [0; 0; 0]) /\
    (forall i : nat, 3 <= Z.of_nat i -> dstBytes s !! i = mk_bytes [0; 0; 0] !! i).
Proof.
  apply (Decompress_stays_within_declared_size
           (mk_bytes [0; 0; 0]) 10 (mk_bytes [3; 8; 97; 98; 99]) 5 3
           (mk_lz 1 0 3 (mk_bytes [0; 0; 0]))).
  - simpl. lia.
  - reflexivity.
  - simpl. lia.
Defined.

(** What [memcpy] leaves in the destination. *)
Lemma memcpy_content (n : nat) (dst : list byte) (dpos : Z) (src : list byte) (spos : Z)
    (dst' : list byte) :
  0 <= dpos -> dpos + Z.of_nat n <= Z.of_nat (length dst) ->
  memcpy n dst dpos src spos = Ret dst' ->
  (forall i : nat, Z.of_nat i < dpos -> dst' !! i = dst !! i) /\
  slice dst' dpos (Z.of_nat n) = slice src spos (Z.of_nat n).
Proof.
  revert dst dpos spos. induction n as [|n IH]; intros dst dpos spos Hd Hdl E.
  - simpl in E. injection E as <-. auto.
  - cbn [memcpy] in E.
    apply bind_Ret_inv in E as (b & Hb & E).
    apply bind_Ret_inv in E as (dst1 & Hst & E).
    rewrite store_in in Hst by lia. injection Hst as <-.
    apply IH in E as [Hlow Hsl]; [|lia|rewrite length_insert; lia].
    apply loadb_lookup in Hb as [Hs Hb].
    assert (Hat : dst' !! Z.to_nat dpos = Some b).
    { replace dpos with (Z.of_nat (Z.to_nat dpos)) in Hlow at 1 by lia.
      rewrite Hlow by lia. apply list_lookup_insert_eq. lia. }
    split.
    + intros i Hi. rewrite Hlow by lia. apply list_lookup_insert_ne. lia.
    + rewrite (slice_cons dst' dpos _ b) by (auto; lia).
      rewrite (slice_cons src spos _ b) by (auto; lia).
      replace (Z.of_nat (S n) - 1) with (Z.of_nat n) by lia. rewrite Hsl. reflexivity.
Qed.

(** The header of a literal element, in closed form: a length field below 60
    is the length less one; a field of 60 to 63 announces one to four length
    bytes, little-endian, holding the length less one. *)
Lemma literal_element_eq (src : list byte) (end_ cur tag : Z) :
  0 <= cur -> end_ <= Z.of_nat (length src) -> 0 <= tag < 256 ->
  literal_element src end_ cur tag =
    (if Z.shiftr tag 2 <? 60 then Ret (Some (Z.shiftr tag 2 + 1, cur))
     else if cur + (Z.shiftr tag 2 - 59) <? end_
          then Ret (Some (u32 (le_value (slice src cur (Z.shiftr tag 2 - 59)) + 1),
                          cur + (Z.shiftr tag 2 - 59)))
          else Ret None).
Proof.
  intros Hc He Ht. unfold literal_element.
  pose proof (shiftr2_range tag Ht) as Hf.
  set (field := Z.shiftr tag 2) in *.
  destruct (Z.leb_spec 60 field) as [Hge|Hlt]; destruct (Z.ltb_spec field 60); try lia;
    [|rewrite u32_id by lia; reflexivity].
  destruct (Z.leb_spec end_ (cur + (field - 59))) as [Hend|Hend];
    destruct (Z.ltb_spec (cur + (field - 59)) end_); try lia; [reflexivity|].
  destruct (load_in src cur) as (v0 & E0 & Hv0); [lia|]. rewrite E0. simpl bind.
  apply load_lookup in E0 as (b0 & _ & L0 & ->).
  rewrite (slice_cons src cur _ b0) by (auto; lia).
  destruct (Z.ltb_spec 1 (field - 59)) as [H1|H1].
  2:{ simpl bind. replace (field - 59 - 1) with 0 by lia. rewrite slice_nil.
      simpl le_value. repeat (f_equal; try lia). }
  destruct (load_in src (cur + 1)) as (v1 & E1 & Hv1); [lia|]. rewrite E1. simpl bind.
  apply load_lookup in E1 as (b1 & _ & L1 & ->).
  rewrite (slice_cons src (cur + 1) _ b1) by (auto; lia).
  rewrite (lor_shiftl_add 8) by lia.
  destruct (Z.ltb_spec 2 (field - 59)) as [H2|H2].
  2:{ simpl bind. replace (field - 59 - 1 - 1) with 0 by lia. rewrite slice_nil.
      simpl le_value. repeat (f_equal; try lia). }
  destruct (load_in src (cur + 2)) as (v2 & E2 & Hv2); [lia|]. rewrite E2. simpl bind.
  apply load_lookup in E2 as (b2 & _ & L2 & ->).
  replace (cur + 1 + 1) with (cur + 2) by lia.
  rewrite (slice_cons src (cur + 2) _ b2) by (auto; lia).
  rewrite (lor_shiftl_add 16) by lia.
  destruct (Z.ltb_spec 3 (field - 59)) as [H3|H3].
  2:{ simpl bind. replace (field - 59 - 1 - 1 - 1) with 0 by lia. rewrite slice_nil.
      simpl le_value. repeat (f_equal; try lia). }
  destruct (load_in src (cur + 3)) as (v3 & E3 & Hv3); [lia|]. rewrite E3. simpl bind.
  apply load_lookup in E3 as (b3 & _ & L3 & ->).
  replace (cur + 2 + 1) with (cur + 3) by lia.
  rewrite (slice_cons src (cur + 3) _ b3) by (auto; lia).
  replace (field - 59 - 1 - 1 - 1 - 1) with 0 by lia. rewrite slice_nil.
  assert (Hs : 0 <= Z.shiftl (byte_val b3) 24 < 2 ^ 32)
    by (apply (shiftl_bound 8 24); lia).
  rewrite (u32_id (Z.shiftl _ 24)) by exact Hs.
  rewrite (lor_shiftl_add 24) by lia.
  simpl le_value. repeat (f_equal; try lia).
Qed.

(** C3, amended: a tag with low bits 00 selects a literal run; a length field
    below 60 is the run length less one, and each of the fields 60, 61, 62, 63
    (not 60 alone) announces 1, 2, 3, 4 little-endian length bytes right after
    the tag, holding the run length less one. *)
Theorem literal_run_of_tag (src dst0 : list byte) (end_ u : Z) (s : lz_state) (tag : Z) :
  0 < u < 2 ^ 32 -> u <= Z.of_nat (length dst0) -> end_ <= Z.of_nat (length src) ->
  lz_inv u dst0 s -> cur s < end_ ->
  load src (cur s) = Ret tag -> Z.land tag 3 = 0 ->
  literal_run src end_ s tag.
Proof.
  intros Hu Hcap Hsrc [Hc Hp Hl Hs Hlen Hfr] Hce Htag H3.
  pose proof (load_range _ _ _ Htag) as Ht.
  pose proof (shiftr2_range tag Ht) as Hf.
  unfold literal_run. cbv zeta. split; [lia|].
  unfold lz_step. rewrite Htag. simpl bind. rewrite H3. simpl negb. cbv iota.
  rewrite literal_element_eq by lia.
  set (field := Z.shiftr tag 2) in *.
  destruct (Z.ltb_spec field 60) as [Hlt|Hge].
  - destruct (Z.leb_spec 60 field); [lia|]. simpl andb. simpl bind.
    replace (cur s + 1 + 0) with (cur s + 1) by lia.
    destruct (Z.ltb_spec end_ (cur s + 1 + (field + 1))); simpl orb; [reflexivity|].
    destruct (Z.ltb_spec (bytes_left s) (field + 1)); simpl orb; [reflexivity|].
    destruct (memcpy_spec (Z.to_nat (field + 1)) (dstBytes s) (dst_pos s) src (cur s + 1))
      as (dst' & E & _ & _); try lia.
    rewrite E. simpl bind. eexists. split; [reflexivity|]. simpl.
    rewrite !u32_id by lia. repeat (split; [lia|]).
    apply memcpy_content in E as [_ E]; [|lia|lia].
    rewrite Z2Nat.id in E by lia. exact E.
  - destruct (Z.leb_spec 60 field); [|lia]. simpl andb.
    set (n := u32 (le_value (slice src (cur s + 1) (field - 59)) + 1)).
    pose proof (u32_range (le_value (slice src (cur s + 1) (field - 59)) + 1)) as Hn.
    fold n in Hn.
    destruct (Z.ltb_spec (cur s + 1 + (field - 59)) end_);
      destruct (Z.leb_spec end_ (cur s + 1 + (field - 59))); try lia;
      simpl orb; simpl bind; [|reflexivity].
    destruct (Z.ltb_spec end_ (cur s + 1 + (field - 59) + n)); simpl orb; [reflexivity|].
    destruct (Z.ltb_spec (bytes_left s) n); simpl orb; [reflexivity|].
    destruct (memcpy_spec (Z.to_nat n) (dstBytes s) (dst_pos s) src (cur s + 1 + (field - 59)))
      as (dst' & E & _ & _); try lia.
    rewrite E. simpl bind. eexists. split; [reflexivity|]. simpl.
    rewrite !u32_id by lia. repeat (split; [lia|]).
    apply memcpy_content in E as [_ E]; [|lia|lia].
    rewrite Z2Nat.id in E by lia. exact E.
Qed.

Lemma literal_run_of_tag_witness :
  literal_run (mk_bytes [3; 244; 2; 0; 97; 98; 99]) 7 (mk_lz 1 0 3 (mk_bytes [0; 0; 0])) 244.
Proof.
  apply (literal_run_of_tag (mk_bytes [3; 244; 2; 0; 97; 98; 99]) (mk_bytes [0; 0; 0]) 7 3).
  - lia.
  - simpl. lia.
  - simpl. lia.
  - apply lz_inv_init; lia.
  - simpl. lia.
  - reflexivity.
  - reflexivity.
Defined.

(** C3 as stated fails for the length field 61: the tag 0xF4 is followed by
    two length bytes (here 02 00, a run of 3 bytes starting at index 4), and
    is not a run of 61 + 1 bytes starting right after the tag at index 2. *)
Lemma literal_field_61_reads_length_bytes :
  Z.land 244 3 = 0 /\ Z.shiftr 244 2 = 61 /\
  literal_element (mk_bytes [3; 244; 2; 0; 97; 98; 99]) 7 2 244 = Ret (Some (3, 4)) /\
  literal_element (mk_bytes [3; 244; 2; 0; 97; 98; 99]) 7 2 244 <> Ret (Some (61 + 1, 2)).
Proof. repeat split; try reflexivity. discriminate. Qed.

End SnappyFacts.


(** * Gzip archives: proofs *)

Module GZipFacts.
Import GZip.

Lemma load16_range (m : list byte) (p v : Z) : load16 m p = Ret v -> 0 <= v < 2 ^ 16.
Proof.
  unfold load16. intros H.
  apply bind_Ret_inv in H as (b0 & H0 & H). apply bind_Ret_inv in H as (b1 & H1 & [= <-]).
  apply load_range in H0, H1.
  apply (lor_bound 16); [lia|lia|]. apply (shiftl_bound 8 8); lia.
Qed.

Lemma zstring_at_unique (buf : list byte) (p n n' : Z) :
  zstring_at buf p n -> zstring_at buf p n' -> n = n'.
Proof.
  intros (Hn & Hz & Hnz) (Hn' & Hz' & Hnz').
  destruct (Z.lt_trichotomy n n') as [Hlt|[->|Hgt]]; [|reflexivity|]; exfalso.
  - destruct (Hnz' (n - 1)) as (v & Hv & Hne); [lia|].
    replace (p + (n - 1)) with (p + n - 1) in Hv by lia. congruence.
  - destruct (Hnz (n' - 1)) as (v & Hv & Hne); [lia|].
    replace (p + (n' - 1)) with (p + n' - 1) in Hv by lia. congruence.
Qed.

(** The scan stops at the first zero byte within [len], or reports that
    there is none. *)
Lemma scan_zstring_spec (buf : list byte) (raw len : Z) (fuel : nat) (l : Z) :
  0 <= raw -> raw + len <= Z.of_nat (length buf) ->
  0 <= l <= len -> len - l < Z.of_nat fuel ->
  (scan_zstring fuel buf raw len l = Ret None /\
   forall j, l <= j < len -> exists v, load buf (raw + j) = Ret v /\ v <> 0) \/
  (exists n, scan_zstring fuel buf raw len l = Ret (Some n) /\
             l < n <= len /\ load buf (raw + n - 1) = Ret 0 /\
             forall j, l <= j < n - 1 -> exists v, load buf (raw + j) = Ret v /\ v <> 0).
Proof.
  intros Hraw Hbuf. revert l. induction fuel as [|fuel IH]; intros l Hl Hf; [lia|].
  cbn [scan_zstring].
  destruct (Z.leb_spec len l) as [Hge|Hlt]; [left; split; [reflexivity|intros; exfalso; lia]|].
  destruct (load_in buf (raw + l)) as (c & Ec & Hc); [lia|]. rewrite Ec. simpl bind.
  destruct (Z.eqb_spec c 0) as [->|Hne]; simpl negb; cbv iota.
  - right. exists (l + 1). split; [reflexivity|]. split; [lia|].
    replace (raw + (l + 1) - 1) with (raw + l) by lia. split; [exact Ec|]. intros; exfalso; lia.
  - destruct (IH (l + 1)) as [(E & Hall)|(n & E & Hn & Hz & Hall)]; try lia.
    + left. split; [exact E|]. intros j Hj.
      destruct (Z.eq_dec j l) as [->|]; [eauto|]. apply Hall. lia.
    + right. exists n. split; [exact E|]. split; [lia|]. split; [exact Hz|].
      intros j Hj. destruct (Z.eq_dec j l) as [->|]; [eauto|]. apply Hall. lia.
Qed.

Section Fields.

Variables (F : GZIPHeaderFlag.t) (buf : list byte) (flags : Z).

Lemma fextra_field_mono (p q : Z) : fextra_field F buf flags p q -> p <= q.
Proof.
  intros [(_ & x & Hx & ->)|(_ & ->)]; [|lia]. apply load16_range in Hx. lia.
Qed.

Lemma fname_field_mono (p q : Z) : fname_field F buf flags p q -> p <= q.
Proof. intros [(_ & n & (Hn & _) & ->)|(_ & ->)]; lia. Qed.

Lemma fcomment_field_mono (p q : Z) : fcomment_field F buf flags p q -> p <= q.
Proof. intros [(_ & n & (Hn & _) & ->)|(_ & ->)]; lia. Qed.

Lemma fhcrc_field_mono (p q : Z) : fhcrc_field F buf flags p q -> p <= q.
Proof. intros [(_ & h & _ & ->)|(_ & ->)]; lia. Qed.

Lemma parse_fextra_spec : parses buf (parse_fextra F buf flags) (fextra_field F buf flags).
Proof.
  intros p (Hr & Hl & Hb). unfold parse_fextra, fextra_field, flag_set.
  destruct (Z.eqb_spec (Z.land flags (GZIPHeaderFlag.fextra F)) 0) as [E|E]; simpl negb; cbv iota.
  { right. exists p. split; [reflexivity|]. split; [split; auto|]. split; [reflexivity|].
    intros q. split; [intros [(? & _)|(_ & ->)]; [contradiction|reflexivity]|].
    intros ->. right. auto. }
  destruct (Z.ltb_spec (p_len p) 2) as [H2|H2].
  { left. split; [reflexivity|]. intros q [(_ & x & Hx & ->)|(? & _)]; [|contradiction].
    apply load16_range in Hx. lia. }
  destruct (load16_in buf (p_raw p)) as (x & Ex & Hx); [lia|lia|]. rewrite Ex. simpl bind.
  destruct (Z.ltb_spec (p_len p - 2) x) as [Hx2|Hx2].
  { left. split; [reflexivity|]. intros q [(_ & x' & Hx' & ->)|(? & _)]; [|contradiction].
    assert (x' = x) by congruence. lia. }
  right. eexists. split; [reflexivity|]. simpl. split; [unfold parse_wf; simpl; lia|].
  split; [lia|]. intros q. split.
  - intros [(_ & x' & Hx' & ->)|(? & _)]; [|contradiction]. assert (x' = x) by congruence. lia.
  - intros ->. left. split; [exact E|]. exists x. split; [reflexivity|lia].
Qed.

Lemma parse_zstring_spec (p : gz_parse) :
  parse_wf buf p ->
  (scan_zstring (S (Z.to_nat (p_len p))) buf (p_raw p) (p_len p) 0 = Ret None /\
   forall n, zstring_at buf (p_raw p) n -> p_len p < n) \/
  (exists l, scan_zstring (S (Z.to_nat (p_len p))) buf (p_raw p) (p_len p) 0 = Ret (Some l) /\
             0 < l <= p_len p /\ forall n, zstring_at buf (p_raw p) n <-> n = l).
Proof.
  intros (Hr & Hl & Hb).
  destruct (scan_zstring_spec buf (p_raw p) (p_len p) (S (Z.to_nat (p_len p))) 0)
    as [(E & Hall)|(l & E & Hlr & Hz & Hall)]; try lia.
  - left. split; [exact E|]. intros n (Hn & Hz & _).
    destruct (Z.lt_ge_cases (p_len p) n) as [|Hle]; [assumption|exfalso].
    destruct (Hall (n - 1)) as (v & Hv & Hne); [lia|].
    replace (p_raw p + (n - 1)) with (p_raw p + n - 1) in Hv by lia. congruence.
  - right. exists l. split; [exact E|]. split; [lia|].
    assert (Hzs : zstring_at buf (p_raw p) l).
    { split; [lia|]. split; [exact Hz|]. intros j Hj. apply Hall. lia. }
    intros n. split; [intros Hn; eapply zstring_at_unique; eauto|intros ->; exact Hzs].
Qed.

Lemma parse_fname_spec : parses buf (parse_fname F buf flags) (fname_field F buf flags).
Proof.
  intros p Hwf. pose proof Hwf as (Hr & Hl & Hb). unfold parse_fname, fname_field, flag_set.
  destruct (Z.eqb_spec (Z.land flags (GZIPHeaderFlag.fname F)) 0) as [E|E]; simpl negb; cbv iota.
  { right. exists p. split; [reflexivity|]. split; [exact Hwf|]. split; [reflexivity|].
    intros q. split; [intros [(? & _)|(_ & ->)]; [contradiction|reflexivity]|].
    intros ->. right. auto. }
  destruct (parse_zstring_spec p Hwf) as [(-> & Hno)|(l & -> & Hlr & Hiff)]; simpl bind.
  - left. split; [reflexivity|]. intros q [(_ & n & Hn & ->)|(? & _)]; [|contradiction].
    apply Hno in Hn. lia.
  - right. eexists. split; [reflexivity|]. simpl. split; [unfold parse_wf; simpl; lia|].
    split; [lia|]. intros q. split.
    + intros [(_ & n & Hn & ->)|(? & _)]; [|contradiction]. apply Hiff in Hn. lia.
    + intros ->. left. split; [exact E|]. exists l. split; [apply Hiff; reflexivity|lia].
Qed.

Lemma parse_fcomment_spec : parses buf (parse_fcomment F buf flags) (fcomment_field F buf flags).
Proof.
  intros p Hwf. pose proof Hwf as (Hr & Hl & Hb). unfold parse_fcomment, fcomment_field, flag_set.
  destruct (Z.eqb_spec (Z.land flags (GZIPHeaderFlag.fcomment F)) 0) as [E|E]; simpl negb; cbv iota.
  { right. exists p. split; [reflexivity|]. split; [exact Hwf|]. split; [reflexivity|].
    intros q. split; [intros [(? & _)|(_ & ->)]; [contradiction|reflexivity]|].
    intros ->. right. auto. }
  destruct (parse_zstring_spec p Hwf) as [(-> & Hno)|(l & -> & Hlr & Hiff)]; simpl bind.
  - left. split; [reflexivity|]. intros q [(_ & n & Hn & ->)|(? & _)]; [|contradiction].
    apply Hno in Hn. lia.
  - right. eexists. split; [reflexivity|]. simpl. split; [unfold parse_wf; simpl; lia|].
    split; [lia|]. intros q. split.
    + intros [(_ & n & Hn & ->)|(? & _)]; [|contradiction]. apply Hiff in Hn. lia.
    + intros ->. left. split; [exact E|]. exists l. split; [apply Hiff; reflexivity|lia].
Qed.

Lemma parse_fhcrc_spec : parses buf (parse_fhcrc F buf flags) (fhcrc_field F buf flags).
Proof.
  intros p (Hr & Hl & Hb). unfold parse_fhcrc, fhcrc_field, flag_set.
  destruct (Z.eqb_spec (Z.land flags (GZIPHeaderFlag.fhcrc F)) 0) as [E|E]; simpl negb; cbv iota.
  { right. exists p. split; [reflexivity|]. split; [split; auto|]. split; [reflexivity|].
    intros q. split; [intros [(? & _)|(_ & ->)]; [contradiction|reflexivity]|].
    intros ->. right. auto. }
  destruct (Z.ltb_spec (p_len p) 2) as [H2|H2].
  { left. split; [reflexivity|]. intros q [(_ & h & _ & ->)|(? & _)]; [lia|contradiction]. }
  destruct (load16_in buf (p_raw p)) as (h & Eh & Hh); [lia|lia|]. rewrite Eh. simpl bind.
  right. eexists. split; [reflexivity|]. simpl. split; [unfold parse_wf; simpl; lia|].
  split; [lia|]. intros q. split.
  - intros [(_ & h' & _ & ->)|(? & _)]; [reflexivity|contradiction].
  - intros ->. left. split; [exact E|]. exists h. auto.
Qed.

End Fields.

Lemma load_le32_spec (buf : list byte) (p : Z) :
  0 <= p -> p + 4 <= Z.of_nat (length buf) ->
  load_le32 buf p = Ret (le_value (slice buf p 4)).
Proof.
  intros Hp Hb. unfold load_le32.
  destruct (load_in buf p) as (v0 & E0 & H0); [lia|]. rewrite E0. simpl bind.
  destruct (load_in buf (p + 1)) as (v1 & E1 & H1); [lia|]. rewrite E1. simpl bind.
  destruct (load_in buf (p + 2)) as (v2 & E2 & H2); [lia|]. rewrite E2. simpl bind.
  destruct (load_in buf (p + 3)) as (v3 & E3 & H3); [lia|]. rewrite E3. simpl bind.
  apply load_lookup in E0 as (b0 & _ & L0 & ->), E1 as (b1 & _ & L1 & ->),
                       E2 as (b2 & _ & L2 & ->), E3 as (b3 & _ & L3 & ->).
  rewrite (slice_cons buf p _ b0) by (auto; lia).
  rewrite (slice_cons buf (p + 1) _ b1) by (auto; lia).
  replace (p + 1 + 1) with (p + 2) by lia.
  rewrite (slice_cons buf (p + 2) _ b2) by (auto; lia).
  replace (p + 2 + 1) with (p + 3) by lia.
  rewrite (slice_cons buf (p + 3) _ b3) by (auto; lia).
  replace (4 - 1 - 1 - 1 - 1) with 0 by lia. rewrite slice_nil. simpl le_value.
  rewrite (lor_shiftl_add 8) by lia.
  rewrite (lor_shiftl_add 16) by lia.
  rewrite (lor_shiftl_add 24) by lia.
  rewrite u32_id by lia. f_equal. lia.
Qed.

(** In an accepted archive the optional fields lie, in order, between the
    base header and the trailer. *)
Lemma gz_accepts_inv (F : GZIPHeaderFlag.t) (buf : list byte) (raw len p4 flags : Z) :
  gz_accepts F buf raw len p4 -> load buf (raw + 3) = Ret flags ->
  exists p1 p2 p3,
    fextra_field F buf flags (raw + 10) p1 /\
    fname_field F buf flags p1 p2 /\
    fcomment_field F buf flags p2 p3 /\
    fhcrc_field F buf flags p3 p4 /\
    raw + 10 <= p1 <= p2 /\ p2 <= p3 <= p4 /\ p4 + 8 < raw + len.
Proof.
  intros (_ & _ & _ & _ & (fl & Hfl & (p1 & p2 & p3 & H1 & H2 & H3 & H4)) & Hend) Hflags.
  assert (fl = flags) as -> by congruence.
  exists p1, p2, p3.
  pose proof (fextra_field_mono _ _ _ _ _ H1). pose proof (fname_field_mono _ _ _ _ _ H2).
  pose proof (fcomment_field_mono _ _ _ _ _ H3). pose proof (fhcrc_field_mono _ _ _ _ _ H4).
  unfold sizeof_gz_file_header_s in *. repeat split; auto; lia.
Qed.

(** C4: on a buffer that holds the [len] bytes at [raw], [ParseGZArchive]
    returns [true] exactly when the bytes start with the magic 1f 8b, declare
    method 8, carry the optional fields selected by the flag byte (extra
    field with its 16-bit length, zero-terminated name, zero-terminated
    comment, 16-bit header checksum, in that order) within the buffer, and
    leave a non-empty payload before the 8-byte trailer; the payload is then
    the span from the end of the optional fields to the trailer, and the
    trailer is read as little-endian CRC32 and little-endian size. *)
Theorem ParseGZArchive_accepts_iff
    (F : GZIPHeaderFlag.t) (buf : list byte) (raw len : Z) :
  0 <= raw -> raw + len <= Z.of_nat (length buf) ->
  gz_parsed F buf raw len.
Proof.
  unfold gz_parsed.
  intros Hraw Hbuf. unfold ParseGZArchive.
  unfold sizeof_gz_file_header_s, ofs_id1, ofs_id2, ofs_flags, ofs_comp_mthd.
  rewrite Z.add_0_r.
  (* every early [return false] is justified by the absence of a layout *)
  assert (Hrej : forall gz, ~ (exists p4, gz_accepts F buf raw len p4) ->
    exists b gz',
      Ret (false, gz) = Ret (b, gz') /\
      (b = true <-> exists p4, gz_accepts F buf raw len p4) /\
      (forall p4, gz_accepts F buf raw len p4 ->
         comp_data gz' = Some p4 /\
         comp_len gz' = raw + len - 8 - p4 /\
         crc32 gz' = le_value (slice buf (raw + len - 8) 4) /\
         isize gz' = le_value (slice buf (raw + len - 4) 4))).
  { intros gz Hno. exists false, gz. split; [reflexivity|]. split.
    - split; [discriminate|]. intros H. contradiction.
    - intros p4 H. exfalso. eauto. }
  destruct (Z.ltb_spec len (10 + 8)) as [Hshort|Hlong].
  { apply Hrej. intros (p4 & Hl & _). unfold sizeof_gz_file_header_s in Hl. lia. }
  destruct (load_in buf raw) as (id1 & E1 & _); [lia|]. rewrite E1. simpl bind.
  destruct (Z.eqb_spec id1 31) as [->|Hid1]; simpl negb; cbv iota.
  2:{ apply Hrej. intros (p4 & _ & H & _). congruence. }
  destruct (load_in buf (raw + 1)) as (id2 & E2 & _); [lia|]. rewrite E2. simpl bind.
  destruct (Z.eqb_spec id2 139) as [->|Hid2]; simpl negb; cbv iota.
  2:{ apply Hrej. intros (p4 & _ & _ & H & _). congruence. }
  destruct (load_in buf (raw + 3)) as (flags & Efl & _); [lia|]. rewrite Efl. simpl bind.
  destruct (load_in buf (raw + 2)) as (mthd & Em & _); [lia|]. rewrite Em. simpl bind.
  set (p0 := mk_parse _ _ _).
  assert (Hwf0 : parse_wf buf p0) by (unfold parse_wf; simpl; lia).
  destruct (parse_fextra_spec F buf flags p0 Hwf0)
    as [(-> & Hno1)|(p1 & -> & Hwf1 & Hend1 & Hiff1)]; simpl bind.
  { apply Hrej. intros (p4 & Hacc).
    destruct (gz_accepts_inv _ _ _ _ _ _ Hacc Efl) as (q1 & q2 & q3 & H1 & _ & _ & _ & ? & ? & ?).
    apply Hno1 in H1. simpl in H1. lia. }
  destruct (parse_fname_spec F buf flags p1 Hwf1)
    as [(-> & Hno2)|(p2 & -> & Hwf2 & Hend2 & Hiff2)]; simpl bind.
  { apply Hrej. intros (p4 & Hacc).
    destruct (gz_accepts_inv _ _ _ _ _ _ Hacc Efl) as (q1 & q2 & q3 & H1 & H2 & _ & _ & ? & ? & ?).
    apply Hiff1 in H1. subst q1. apply Hno2 in H2. simpl in *. lia. }
  destruct (parse_fcomment_spec F buf flags p2 Hwf2)
    as [(-> & Hno3)|(p3 & -> & Hwf3 & Hend3 & Hiff3)]; simpl bind.
  { apply Hrej. intros (p4 & Hacc).
    destruct (gz_accepts_inv _ _ _ _ _ _ Hacc Efl) as (q1 & q2 & q3 & H1 & H2 & H3 & _ & ? & ? & ?).
    apply Hiff1 in H1. subst q1. apply Hiff2 in H2. subst q2.
    apply Hno3 in H3. simpl in *. lia. }
  destruct (parse_fhcrc_spec F buf flags p3 Hwf3)
    as [(-> & Hno4)|(p4 & -> & Hwf4 & Hend4 & Hiff4)]; simpl bind.
  { apply Hrej. intros (q4 & Hacc).
    destruct (gz_accepts_inv _ _ _ _ _ _ Hacc Efl) as (q1 & q2 & q3 & H1 & H2 & H3 & H4 & ? & ? & ?).
    apply Hiff1 in H1. subst q1. apply Hiff2 in H2. subst q2. apply Hiff3 in H3. subst q3.
    apply Hno4 in H4. simpl in *. lia. }
  (* the fields end at [p_raw p4] in every layout *)
  assert (Hend : p_raw p4 + p_len p4 = raw + len) by (simpl in *; lia).
  assert (Huniq : forall q4, gz_accepts F buf raw len q4 -> q4 = p_raw p4).
  { intros q4 Hacc.
    destruct (gz_accepts_inv _ _ _ _ _ _ Hacc Efl) as (q1 & q2 & q3 & H1 & H2 & H3 & H4 & _).
    apply Hiff1 in H1. subst q1. apply Hiff2 in H2. subst q2. apply Hiff3 in H3. subst q3.
    apply Hiff4 in H4. exact H4. }
  destruct Hwf4 as (Hr4 & Hl4 & Hb4).
  unfold parse_trailer.
  destruct (Z.ltb_spec (p_len p4) 8) as [Ht|Ht].
  { apply Hrej. intros (q4 & Hacc). pose proof (Huniq q4 Hacc) as ->.
    destruct Hacc as (_ & _ & _ & _ & _ & ?). lia. }
  rewrite !load_le32_spec by lia. simpl bind.
  do 2 eexists. split; [reflexivity|]. split.
  - split.
    + intros Hb. apply andb_true_iff in Hb as [Hm Hp].
      apply Z.eqb_eq in Hm. subst mthd. apply Z.ltb_lt in Hp.
      exists (p_raw p4). unfold gz_accepts, sizeof_gz_file_header_s.
      repeat (split; [first [lia|assumption]|]). split; [|lia].
      exists flags. split; [exact Efl|].
      exists (p_raw p1), (p_raw p2), (p_raw p3).
      split; [apply Hiff1; reflexivity|]. split; [apply Hiff2; reflexivity|].
      split; [apply Hiff3; reflexivity|apply Hiff4; reflexivity].
    + intros (q4 & Hacc). pose proof (Huniq q4 Hacc) as ->.
      destruct Hacc as (_ & _ & _ & Hm & _ & Hp).
      assert (mthd = 8) as -> by congruence.
      apply andb_true_iff. split; [reflexivity|]. apply Z.ltb_lt. lia.
  - intros q4 Hacc. pose proof (Huniq q4 Hacc) as ->. simpl.
    replace (p_raw p4 + (p_len p4 - 8)) with (raw + len - 8) by lia.
    replace (p_raw p4 + (p_len p4 - 4)) with (raw + len - 4) by lia.
    repeat split; try reflexivity. lia.
Qed.

Lemma ParseGZArchive_accepts_iff_witness :
  gz_parsed GZIPHeaderFlag.rfc1952 ex_gz_all_fields 0 30.
Proof.
  apply (ParseGZArchive_accepts_iff GZIPHeaderFlag.rfc1952 ex_gz_all_fields 0 30).
  - lia.
  - vm_compute. discriminate.
Defined.

(** The archive of the witness is accepted: its optional fields end at 20,
    the payload is the 2 bytes from there to the trailer at 22, which is
    read little-endian. *)
Example ParseGZArchive_all_fields :
  ParseGZArchive GZIPHeaderFlag.rfc1952 ex_gz_all_fields 0 30
  = Ret (true, mk_gz (Some 0) 0x3412 2 (Some 12) (Some 14) (Some 16) (Some 20) 2
                     0x04030201 5).
Proof. reflexivity. Qed.

Example gz_accepts_all_fields :
  gz_accepts GZIPHeaderFlag.rfc1952 ex_gz_all_fields 0 30 20.
Proof.
  unfold gz_accepts. repeat (split; [first [reflexivity|vm_compute; discriminate]|]).
  split; [|lia]. exists 0x1e. split; [reflexivity|].
  exists 14, 16, 18. repeat split.
  - left. split; [vm_compute; discriminate|]. exists 2. split; reflexivity.
  - left. split; [vm_compute; discriminate|]. exists 2. split; [|reflexivity].
    split; [lia|]. split; [reflexivity|]. intros j Hj. assert (j = 0) as -> by lia.
    exists 110. split; [reflexivity|lia].
  - left. split; [vm_compute; discriminate|]. exists 2. split; [|reflexivity].
    split; [lia|]. split; [reflexivity|]. intros j Hj. assert (j = 0) as -> by lia.
    exists 99. split; [reflexivity|lia].
  - left. split; [vm_compute; discriminate|]. exists 0x3412. split; reflexivity.
Qed.

End GZipFacts.


(** * Zip archives: proofs *)

Module ZipFacts.
Import Zip.

Lemma load16_nonneg (m : list byte) (p v : Z) : load16 m p = Ret v -> 0 <= v < 2 ^ 16.
Proof.
  unfold load16. intros H.
  apply bind_Ret_inv in H as (b0 & H0 & H). apply bind_Ret_inv in H as (b1 & H1 & [= <-]).
  apply load_range in H0, H1.
  apply (lor_bound 16); [lia|lia|]. apply (shiftl_bound 8 8); lia.
Qed.

Lemma load32_in (m : list byte) (p : Z) :
  0 <= p -> p + 4 <= Z.of_nat (length m) ->
  exists v, load32 m p = Ret v /\ 0 <= v < 2 ^ 32.
Proof.
  intros Hp Hl. unfold load32.
  destruct (load16_in m p) as (lo & -> & Hlo); [lia|lia|].
  destruct (load16_in m (p + 2)) as (hi & -> & Hhi); [lia|lia|]. simpl.
  eexists; split; [reflexivity|].
  apply (lor_bound 32); [lia|lia|]. apply (shiftl_bound 16 16); lia.
Qed.

Lemma load32_nonneg (m : list byte) (p v : Z) : load32 m p = Ret v -> 0 <= v < 2 ^ 32.
Proof.
  unfold load32. intros H.
  apply bind_Ret_inv in H as (lo & H0 & H). apply bind_Ret_inv in H as (hi & H1 & [= <-]).
  apply load16_nonneg in H0, H1.
  apply (lor_bound 32); [lia|lia|]. apply (shiftl_bound 16 16); lia.
Qed.

(** Reading a whole header succeeds when it lies in the buffer, and agrees
    with the loads of its fields one at a time. *)
Lemma read_lfh_in (buf : list byte) (p : Z) :
  0 <= p -> p + sizeof_zip_lfh_s <= Z.of_nat (length buf) ->
  exists l, read_lfh buf p = Ret l.
Proof.
  unfold sizeof_zip_lfh_s. intros Hp Hl. unfold read_lfh.
  unfold lfh.sig, lfh.comp_method, lfh.comp_size, lfh.uncomp_size, lfh.fname_len, lfh.extra_len.
  destruct (load32_in buf (p + 0)) as (? & -> & _); [lia|lia|]. simpl bind.
  destruct (load16_in buf (p + 8)) as (? & -> & _); [lia|lia|]. simpl bind.
  destruct (load32_in buf (p + 18)) as (? & -> & _); [lia|lia|]. simpl bind.
  destruct (load32_in buf (p + 22)) as (? & -> & _); [lia|lia|]. simpl bind.
  destruct (load16_in buf (p + 26)) as (? & -> & _); [lia|lia|]. simpl bind.
  destruct (load16_in buf (p + 28)) as (? & -> & _); [lia|lia|]. simpl bind.
  eauto.
Qed.

Lemma read_lfh_inv (buf : list byte) (p : Z) (l : zip_lfh_s) :
  read_lfh buf p = Ret l ->
  load32 buf (p + lfh.sig) = Ret (l_sig l) /\
  load16 buf (p + lfh.comp_method) = Ret (l_comp_method l) /\
  load32 buf (p + lfh.comp_size) = Ret (l_comp_size l) /\
  load32 buf (p + lfh.uncomp_size) = Ret (l_uncomp_size l) /\
  load16 buf (p + lfh.fname_len) = Ret (l_fname_len l) /\
  load16 buf (p + lfh.extra_len) = Ret (l_extra_len l).
Proof.
  unfold read_lfh. intros H.
  apply bind_Ret_inv in H as (? & -> & H). apply bind_Ret_inv in H as (? & -> & H).
  apply bind_Ret_inv in H as (? & -> & H). apply bind_Ret_inv in H as (? & -> & H).
  apply bind_Ret_inv in H as (? & -> & H). apply bind_Ret_inv in H as (? & -> & H).
  injection H as <-. simpl. repeat split.
Qed.

Lemma read_cdfh_inv (buf : list byte) (p : Z) (e : zip_cdfh_s) :
  read_cdfh buf p = Ret e ->
  load32 buf (p + cdfh.sig) = Ret (c_sig e) /\
  load16 buf (p + cdfh.comp_method) = Ret (c_comp_method e) /\
  load32 buf (p + cdfh.comp_size) = Ret (c_comp_size e) /\
  load32 buf (p + cdfh.uncomp_size) = Ret (c_uncomp_size e) /\
  load16 buf (p + cdfh.fname_len) = Ret (c_fname_len e) /\
  load16 buf (p + cdfh.extra_len) = Ret (c_extra_len e) /\
  load16 buf (p + cdfh.comment_len) = Ret (c_comment_len e) /\
  load32 buf (p + cdfh.hdr_ofs) = Ret (c_hdr_ofs e).
Proof.
  unfold read_cdfh. intros H.
  apply bind_Ret_inv in H as (? & -> & H). apply bind_Ret_inv in H as (? & -> & H).
  apply bind_Ret_inv in H as (? & -> & H). apply bind_Ret_inv in H as (? & -> & H).
  apply bind_Ret_inv in H as (? & -> & H). apply bind_Ret_inv in H as (? & -> & H).
  apply bind_Ret_inv in H as (? & -> & H). apply bind_Ret_inv in H as (? & -> & H).
  injection H as <-. simpl. repeat split.
Qed.

(** The test of a local file header never reads outside the buffer, and
    takes the payload exactly when [lfh_payload] holds. *)
Lemma zip_local_file_spec (buf : list byte) (raw src_size lfh_ofs : Z) :
  0 <= raw -> raw + src_size <= Z.of_nat (length buf) -> 0 <= lfh_ofs ->
  exists r, zip_local_file buf raw src_size lfh_ofs = Ret r /\
            forall s, r = Some s <-> lfh_payload buf raw src_size lfh_ofs s.
Proof.
  intros Hraw Hbuf Hofs. unfold zip_local_file, lfh_payload.
  destruct (Z.ltb_spec src_size (lfh_ofs + sizeof_zip_lfh_s)) as [Hout|Hin].
  { exists None. split; [reflexivity|]. intros s. split; [discriminate|].
    intros (l & ? & _). lia. }
  destruct (read_lfh_in buf (raw + lfh_ofs)) as (l & El); [lia|lia|].
  destruct (read_lfh_inv _ _ _ El) as (Es & Em & Ecs & Eus & Efl & Eel).
  assert (Hdet : forall l', read_lfh buf (raw + lfh_ofs) = Ret l' -> l' = l) by congruence.
  pose proof (load32_nonneg _ _ _ Ecs) as Hcs.
  pose proof (load16_nonneg _ _ _ Efl) as Hfl.
  pose proof (load16_nonneg _ _ _ Eel) as Hel.
  rewrite Es. simpl bind.
  assert (Hrej : (forall l', read_lfh buf (raw + lfh_ofs) = Ret l' ->
                    l_sig l' = 67324752 -> l_comp_method l' = 8 ->
                    0 < l_comp_size l' -> 0 < l_uncomp_size l' ->
                    lfh_ofs + sizeof_zip_lfh_s + l_fname_len l' + l_extra_len l'
                      + l_comp_size l' <= src_size -> False) ->
    exists r, Ret (@None stream) = Ret r /\
      forall s, r = Some s <->
        (exists l', lfh_ofs + sizeof_zip_lfh_s <= src_size /\
           read_lfh buf (raw + lfh_ofs) = Ret l' /\ l_sig l' = 67324752 /\
           l_comp_method l' = 8 /\ 0 < l_comp_size l' /\ 0 < l_uncomp_size l' /\
           lfh_ofs + sizeof_zip_lfh_s + l_fname_len l' + l_extra_len l' + l_comp_size l'
             <= src_size /\
           s = mk_stream (raw + (lfh_ofs + sizeof_zip_lfh_s + l_fname_len l' + l_extra_len l'))
                         (l_comp_size l') (l_uncomp_size l'))).
  { intros Hf. exists None. split; [reflexivity|]. intros s. split; [discriminate|].
    intros (l' & _ & Hl' & ? & ? & ? & ? & ? & _). exfalso. eapply Hf; eauto. }
  destruct (Z.eqb_spec (l_sig l) 67324752) as [Hsig|Hsig]; simpl negb; cbv iota.
  2:{ apply Hrej. intros l' Hl'. apply Hdet in Hl' as ->. intros. contradiction. }
  rewrite Efl, Eel. simpl bind.
  destruct (Z.ltb_spec src_size (lfh_ofs + sizeof_zip_lfh_s + l_fname_len l + l_extra_len l)).
  { apply Hrej. intros l' Hl'. apply Hdet in Hl' as ->. intros. lia. }
  rewrite Em. simpl bind.
  destruct (Z.eqb_spec (l_comp_method l) 8) as [Hm|Hm]; simpl negb; cbv iota.
  2:{ apply Hrej. intros l' Hl'. apply Hdet in Hl' as ->. intros. contradiction. }
  rewrite Ecs. simpl bind.
  destruct (Z.ltb_spec 0 (l_comp_size l)); simpl negb; cbv iota.
  2:{ apply Hrej. intros l' Hl'. apply Hdet in Hl' as ->. intros. lia. }
  rewrite Eus. simpl bind.
  destruct (Z.ltb_spec 0 (l_uncomp_size l)); simpl negb; cbv iota.
  2:{ apply Hrej. intros l' Hl'. apply Hdet in Hl' as ->. intros. lia. }
  destruct (Z.leb_spec (lfh_ofs + sizeof_zip_lfh_s + l_fname_len l + l_extra_len l
                        + l_comp_size l) src_size).
  2:{ apply Hrej. intros l' Hl'. apply Hdet in Hl' as ->. intros. lia. }
  eexists. split; [reflexivity|]. intros s. split.
  - intros [= <-]. exists l. repeat (split; [assumption|]). reflexivity.
  - intros (l' & _ & Hl' & _ & _ & _ & _ & _ & ->). apply Hdet in Hl' as ->. reflexivity.
Qed.

Lemma cdfh_deflated_spec (buf : list byte) (c : Z) (e : zip_cdfh_s) :
  read_cdfh buf c = Ret e ->
  exists d, cdfh_deflated buf c = Ret d /\
            (d = true <-> c_comp_method e = 8 /\ 0 < c_comp_size e /\ 0 < c_uncomp_size e).
Proof.
  intros He. destruct (read_cdfh_inv _ _ _ He) as (_ & Em & Ecs & Eus & _).
  unfold cdfh_deflated. rewrite Em. simpl bind.
  destruct (Z.eqb_spec (c_comp_method e) 8) as [Hm|Hm]; simpl negb; cbv iota.
  2:{ exists false. split; [reflexivity|]. split; [discriminate|]. intros (? & _). contradiction. }
  rewrite Ecs. simpl bind.
  destruct (Z.ltb_spec 0 (c_comp_size e)); simpl negb; cbv iota.
  2:{ exists false. split; [reflexivity|]. split; [discriminate|]. intros (_ & ? & _). lia. }
  rewrite Eus. simpl bind. eexists. split; [reflexivity|].
  rewrite Z.ltb_lt. tauto.
Qed.

(** A load that succeeds lies in the buffer. *)
Lemma load_within (m : list byte) (p v : Z) :
  load m p = Ret v -> 0 <= p /\ p + 1 <= Z.of_nat (length m).
Proof.
  intros H. apply load_lookup in H as (b & Hp & Hb & _).
  apply lookup_lt_Some in Hb. lia.
Qed.

Lemma load16_within (m : list byte) (p v : Z) :
  load16 m p = Ret v -> 0 <= p /\ p + 2 <= Z.of_nat (length m).
Proof.
  unfold load16. intros H.
  apply bind_Ret_inv in H as (b0 & H0 & H). apply bind_Ret_inv in H as (b1 & H1 & _).
  apply load_within in H0, H1. lia.
Qed.

Lemma load32_within (m : list byte) (p v : Z) :
  load32 m p = Ret v -> 0 <= p /\ p + 4 <= Z.of_nat (length m).
Proof.
  unfold load32. intros H.
  apply bind_Ret_inv in H as (lo & H0 & H). apply bind_Ret_inv in H as (hi & H1 & _).
  apply load16_within in H0, H1. lia.
Qed.

Lemma read_cdfh_in (buf : list byte) (p : Z) :
  0 <= p -> p + sizeof_zip_cdfh_s <= Z.of_nat (length buf) ->
  exists e, read_cdfh buf p = Ret e.
Proof.
  unfold sizeof_zip_cdfh_s. intros Hp Hl. unfold read_cdfh.
  unfold cdfh.sig, cdfh.comp_method, cdfh.comp_size, cdfh.uncomp_size, cdfh.fname_len,
    cdfh.extra_len, cdfh.comment_len, cdfh.hdr_ofs.
  destruct (load32_in buf (p + 0)) as (? & -> & _); [lia|lia|]. simpl bind.
  destruct (load16_in buf (p + 10)) as (? & -> & _); [lia|lia|]. simpl bind.
  destruct (load32_in buf (p + 20)) as (? & -> & _); [lia|lia|]. simpl bind.
  destruct (load32_in buf (p + 24)) as (? & -> & _); [lia|lia|]. simpl bind.
  destruct (load16_in buf (p + 28)) as (? & -> & _); [lia|lia|]. simpl bind.
  destruct (load16_in buf (p + 30)) as (? & -> & _); [lia|lia|]. simpl bind.
  destruct (load16_in buf (p + 32)) as (? & -> & _); [lia|lia|]. simpl bind.
  destruct (load32_in buf (p + 42)) as (? & -> & _); [lia|lia|]. simpl bind.
  eauto.
Qed.

Section Walk.

Variables (buf : list byte) (raw src_size za_cdfh cdir_size : Z).
Hypothesis Hraw : 0 <= raw.
Hypothesis Hbuf : raw + src_size <= Z.of_nat (length buf).

(** One iteration of the walk over a well-formed entry: the entry is taken,
    or the walk moves on by the length of the entry. *)
Lemma zip_walk_entry (n : nat) (ofs : Z) (e : zip_cdfh_s) :
  cd_entry_at buf za_cdfh cdir_size ofs e ->
  (exists s, entry_payload buf raw src_size e s /\
             zip_walk (S n) buf raw src_size za_cdfh cdir_size ofs = Ret (Some s)) \/
  ((forall s, ~ entry_payload buf raw src_size e s) /\
   zip_walk (S n) buf raw src_size za_cdfh cdir_size ofs
     = zip_walk n buf raw src_size za_cdfh cdir_size (ofs + cdfh_len e)).
Proof.
  intros (He & Hsig & Hfit).
  destruct (read_cdfh_inv _ _ _ He) as (Es & _ & _ & _ & Efl & Eel & Ecl & Eh).
  destruct (cdfh_deflated_spec _ _ _ He) as (d & Ed & Hd).
  cbn [zip_walk]. rewrite Efl, Eel, Ecl. simpl bind. fold (cdfh_len e).
  destruct (Z.ltb_spec cdir_size (ofs + cdfh_len e)); [lia|].
  rewrite Es. simpl bind. rewrite Hsig. simpl negb. cbv iota.
  rewrite Ed. simpl bind.
  destruct d.
  - rewrite Eh. simpl bind.
    destruct (zip_local_file_spec buf raw src_size (c_hdr_ofs e) Hraw Hbuf)
      as (r & -> & Hr); [apply load32_nonneg in Eh; lia|]. simpl bind.
    destruct r as [s|].
    + left. exists s. split; [|reflexivity].
      destruct Hd as [Hd _]. specialize (Hd eq_refl). unfold entry_payload.
      repeat (split; [tauto|]). apply Hr. reflexivity.
    + right. split; [|reflexivity]. intros s (_ & _ & _ & Hl). apply Hr in Hl. discriminate.
  - simpl bind. right. split; [|reflexivity]. intros s (? & ? & ? & _).
    destruct Hd as [_ Hd]. discriminate Hd. auto.
Qed.

Lemma entry_payload_unique (e : zip_cdfh_s) (s s' : stream) :
  entry_payload buf raw src_size e s -> entry_payload buf raw src_size e s' -> s = s'.
Proof.
  intros (_ & _ & _ & l & _ & Hl & _ & _ & _ & _ & _ & ->)
         (_ & _ & _ & l' & _ & Hl' & _ & _ & _ & _ & _ & ->).
  assert (l' = l) as -> by congruence. reflexivity.
Qed.

(** The walk returns the payload of the first entry that is taken. *)
Lemma zip_walk_first (n : nat) (ofs : Z) (s : stream) :
  cd_first buf raw src_size za_cdfh cdir_size n ofs s ->
  zip_walk n buf raw src_size za_cdfh cdir_size ofs = Ret (Some s).
Proof.
  induction 1 as [n ofs e s He Hp|n ofs e s He Hno _ IH].
  - destruct (zip_walk_entry n ofs e He) as [(s' & Hp' & ->)|(Hno & _)].
    + f_equal. f_equal. eapply entry_payload_unique; eauto.
    + exfalso. eapply Hno; eauto.
  - destruct (zip_walk_entry n ofs e He) as [(s' & Hp' & _)|(_ & ->)].
    + exfalso. eapply Hno; eauto.
    + exact IH.
Qed.

(** An entry that overruns the directory or lacks the signature ends the
    walk, with nothing handed out. *)
Lemma zip_walk_bad (n : nat) (ofs : Z) :
  cd_entry_bad buf za_cdfh cdir_size ofs ->
  zip_walk (S n) buf raw src_size za_cdfh cdir_size ofs = Ret None.
Proof.
  intros (fl & el & cl & Efl & Eel & Ecl & Hbad).
  cbn [zip_walk]. rewrite Efl, Eel, Ecl. simpl bind.
  destruct (Z.ltb_spec cdir_size (ofs + (sizeof_zip_cdfh_s + fl + el + cl))); [reflexivity|].
  destruct Hbad as [?|(sig & Es & Hne)]; [lia|].
  rewrite Es. simpl bind. destruct (Z.eqb_spec sig 0x02014b50); [contradiction|reflexivity].
Qed.

Lemma zip_walk_none (n : nat) (ofs : Z) :
  cd_none buf raw src_size za_cdfh cdir_size n ofs ->
  zip_walk n buf raw src_size za_cdfh cdir_size ofs = Ret None.
Proof.
  induction 1 as [ofs|n ofs Hbad|n ofs e He Hno _ IH].
  - reflexivity.
  - apply zip_walk_bad, Hbad.
  - destruct (zip_walk_entry n ofs e He) as [(s' & Hp' & _)|(_ & ->)].
    + exfalso. eapply Hno; eauto.
    + exact IH.
Qed.

(** A payload that the walk hands out is that of the first entry taken. *)
Lemma zip_walk_some_first (n : nat) : forall (ofs : Z) (s : stream),
  zip_walk n buf raw src_size za_cdfh cdir_size ofs = Ret (Some s) ->
  cd_first buf raw src_size za_cdfh cdir_size n ofs s.
Proof.
  induction n as [|n IH]; intros ofs s H; [discriminate|].
  pose proof H as Hrun. cbn [zip_walk] in H.
  apply bind_Ret_inv in H as (fl & Efl & H). apply bind_Ret_inv in H as (el & Eel & H).
  apply bind_Ret_inv in H as (cl & Ecl & H).
  destruct (Z.ltb_spec cdir_size (ofs + (sizeof_zip_cdfh_s + fl + el + cl))) as [|Hfit];
    [discriminate|].
  apply bind_Ret_inv in H as (sig & Es & H).
  destruct (Z.eqb_spec sig 0x02014b50) as [->|]; [|discriminate]. cbn [negb] in H.
  apply bind_Ret_inv in H as (d & Ed & H). apply bind_Ret_inv in H as (r & Er & H).
  pose proof (load16_nonneg _ _ _ Efl) as Hfl. pose proof (load16_nonneg _ _ _ Eel) as Hel.
  pose proof (load16_nonneg _ _ _ Ecl) as Hcl.
  pose proof (load32_within _ _ _ Es) as (Hlo & _). unfold cdfh.sig in Hlo.
  (* the 46 bytes of the header lie in the buffer *)
  assert (Hin : za_cdfh + ofs + sizeof_zip_cdfh_s <= Z.of_nat (length buf)).
  { unfold sizeof_zip_cdfh_s in *. destruct r as [s'|].
    - destruct d; [|discriminate Er].
      apply bind_Ret_inv in Er as (h & Eh & _). apply load32_within in Eh.
      unfold cdfh.hdr_ofs in Eh. lia.
    - destruct n as [|n']; [discriminate H|]. cbn [zip_walk] in H.
      apply bind_Ret_inv in H as (fl' & Efl' & _). apply load16_within in Efl'.
      unfold cdfh.fname_len in Efl'. lia. }
  destruct (read_cdfh_in buf (za_cdfh + ofs)) as (e & He); [lia|exact Hin|].
  destruct (read_cdfh_inv _ _ _ He) as (Es' & _ & _ & _ & Efl' & Eel' & Ecl' & _).
  assert (Hent : cd_entry_at buf za_cdfh cdir_size ofs e).
  { split; [exact He|]. split; [congruence|].
    unfold cdfh_len. replace (c_fname_len e) with fl by congruence.
    replace (c_extra_len e) with el by congruence.
    replace (c_comment_len e) with cl by congruence. lia. }
  destruct (zip_walk_entry n ofs e Hent) as [(s' & Hp' & E)|(Hno & E)].
  - rewrite E in Hrun. injection Hrun as ->.
    apply (cd_first_here _ _ _ _ _ n ofs e s Hent Hp').
  - rewrite E in Hrun.
    apply (cd_first_later _ _ _ _ _ n ofs e s Hent Hno). apply IH, Hrun.
Qed.

End Walk.

(** C8, amended: once [OpenZipArchive] has located the end of central
    directory record and the central directory, the zip branch walks at most
    [num_entries] entries in order, each as long as the fixed header plus its
    name, extra and comment lengths, and stops, handing out nothing, at an
    entry that overruns the declared size of the directory or lacks the
    signature.  Short of that it hands out the payload of the first entry
    that is taken, and no other payload: an entry that declares deflate with
    non-zero sizes in the central directory and again in its local file
    header, whose local header has its signature and lies in the buffer
    together with the payload.  Extent and uncompressed size come from the
    local header.  A stored entry is stepped over, however many of them come
    first. *)
Theorem zip_takes_first_entry
    (buf : list byte) (raw src_size : Z) (za : zip_archive_s) (e c n cdir_size : Z) :
  0 <= raw -> raw + src_size <= Z.of_nat (length buf) ->
  OpenZipArchive buf raw src_size = Ret (true, za) ->
  za_eocd za = Some e -> za_cdfh za = Some c ->
  load16 buf (e + eocd.num_entries) = Ret n ->
  load32 buf (e + eocd.cdir_size) = Ret cdir_size ->
  takes_first_entry buf raw src_size c cdir_size n.
Proof.
  intros Hraw Hbuf Hopen He Hc Hn Hsz.
  assert (Hrun : io_uncompress_single_h2d_zip buf raw src_size
                 = zip_walk (Z.to_nat n) buf raw src_size c cdir_size 0).
  { unfold io_uncompress_single_h2d_zip. rewrite Hopen. simpl bind.
    destruct za as [ze zl zc]. simpl in He, Hc. subst ze zc.
    rewrite Hn, Hsz. reflexivity. }
  split; [|split].
  - intros s. rewrite Hrun. split.
    + apply zip_walk_first; assumption.
    + apply zip_walk_some_first; assumption.
  - intros Hnone. rewrite Hrun. apply zip_walk_none; assumption.
  - intros k ofs ent Hent Hm.
    destruct (zip_walk_entry buf raw src_size c cdir_size Hraw Hbuf k ofs ent Hent)
      as [(s & (Hm8 & _) & _)|(_ & E)]; [congruence|exact E].
Qed.

Lemma zip_takes_first_entry_witness :
  takes_first_entry ex_stored_stored_deflated 0 263 100 141 3.
Proof.
  apply (zip_takes_first_entry ex_stored_stored_deflated 0 263
           (mk_zip (Some 241) None (Some 100)) 241 100 3 141).
  - lia.
  - vm_compute. discriminate.
  - vm_compute. reflexivity.
  - reflexivity.
  - reflexivity.
  - vm_compute. reflexivity.
  - vm_compute. reflexivity.
Defined.

(** The archive of the witness does have a first taken entry, the third one,
    behind two stored entries, and its payload is what the zip branch
    returns. *)
Example zip_third_entry_is_first_taken :
  cd_first ex_stored_stored_deflated 0 263 100 141 3 0 (mk_stream 97 3 10) /\
  io_uncompress_single_h2d_zip ex_stored_stored_deflated 0 263
    = Ret (Some (mk_stream 97 3 10)).
Proof.
  split; [|vm_compute; reflexivity].
  apply (cd_first_later _ _ _ _ _ 2 0 (mk_cdfh 0x02014b50 0 2 2 1 0 0 0)).
  { split; [vm_compute; reflexivity|]. split; [reflexivity|vm_compute; discriminate]. }
  { intros s' (Hm & _). discriminate Hm. }
  apply (cd_first_later _ _ _ _ _ 1 47 (mk_cdfh 0x02014b50 0 2 2 1 0 0 33)).
  { split; [vm_compute; reflexivity|]. split; [reflexivity|vm_compute; discriminate]. }
  { intros s' (Hm & _). discriminate Hm. }
  apply (cd_first_here _ _ _ _ _ 0 94 (mk_cdfh 0x02014b50 8 3 10 1 0 0 66)).
  { split; [vm_compute; reflexivity|]. split; [reflexivity|vm_compute; discriminate]. }
  split; [reflexivity|]. split; [reflexivity|]. split; [reflexivity|].
  exists (mk_lfh 0x04034b50 8 3 10 1 0).
  split; [vm_compute; discriminate|]. split; [vm_compute; reflexivity|].
  repeat (split; [reflexivity|]). split; [vm_compute; discriminate|reflexivity].
Qed.

(** An entry with a damaged signature ends the walk: the first entry of
    this archive is not taken (its local header declares zero sizes), the
    second lacks the signature, and the third, which is well-formed and
    would be taken, is not reached. *)
Example bad_signature_stops_walk :
  cd_none ex_bad_second_entry 0 265 102 141 3 0 /\
  cd_entry_at ex_bad_second_entry 102 141 94 (mk_cdfh 0x02014b50 8 3 10 1 0 0 68) /\
  entry_payload ex_bad_second_entry 0 265 (mk_cdfh 0x02014b50 8 3 10 1 0 0 68)
    (mk_stream 99 3 10) /\
  io_uncompress_single_h2d_zip ex_bad_second_entry 0 265 = Ret None.
Proof.
  split; [|split; [|split]].
  - apply (cd_none_later _ _ _ _ _ 2 0 (mk_cdfh 0x02014b50 8 3 10 1 0 0 0)).
    { split; [vm_compute; reflexivity|]. split; [reflexivity|vm_compute; discriminate]. }
    { intros s' (_ & _ & _ & l & _ & Hl & _ & _ & Hcs & _).
      assert (l = mk_lfh 0x04034b50 8 0 0 1 0) as -> by (vm_compute in Hl; congruence).
      simpl in Hcs. lia. }
    apply cd_none_bad. exists 1, 0, 0.
    split; [vm_compute; reflexivity|]. split; [vm_compute; reflexivity|].
    split; [vm_compute; reflexivity|]. right. exists 0.
    split; [vm_compute; reflexivity|discriminate].
  - split; [vm_compute; reflexivity|]. split; [reflexivity|vm_compute; discriminate].
  - split; [reflexivity|]. split; [reflexivity|]. split; [reflexivity|].
    exists (mk_lfh 0x04034b50 8 3 10 1 0).
    split; [vm_compute; discriminate|]. split; [vm_compute; reflexivity|].
    repeat (split; [reflexivity|]). split; [vm_compute; discriminate|reflexivity].
  - vm_compute. reflexivity.
Qed.

(** C8 as stated fails: the first entry of this archive is well-formed,
    declares deflate with non-zero sizes, and its local file header has the
    signature and lies within the buffer, so it is the entry the
    specification names, with payload at 31; its local header declares zero
    sizes, the walk steps over it, and the payload returned is that of the
    second entry, at 65. *)
Lemma zip_skips_entry_with_descriptor :
  OpenZipArchive ex_descriptor_then_deflated 0 184
    = Ret (true, mk_zip (Some 162) None (Some 68)) /\
  cd_entry_at ex_descriptor_then_deflated 68 94 0 (mk_cdfh 0x02014b50 8 3 10 1 0 0 0) /\
  entry_as_specified ex_descriptor_then_deflated 0 184 (mk_cdfh 0x02014b50 8 3 10 1 0 0 0) /\
  io_uncompress_single_h2d_zip ex_descriptor_then_deflated 0 184
    = Ret (Some (mk_stream 65 3 10)) /\
  io_uncompress_single_h2d_zip ex_descriptor_then_deflated 0 184
    <> Ret (Some (mk_stream 31 3 10)).
Proof.
  split; [vm_compute; reflexivity|]. split.
  { split; [vm_compute; reflexivity|]. split; [reflexivity|vm_compute; discriminate]. }
  split.
  { split; [reflexivity|]. split; [reflexivity|]. split; [reflexivity|].
    exists (mk_lfh 0x04034b50 8 0 0 1 0).
    split; [vm_compute; reflexivity|]. split; [reflexivity|vm_compute; discriminate]. }
  split; [vm_compute; reflexivity|]. vm_compute. discriminate.
Qed.

End ZipFacts.


(** * The Avro row decoder: proofs *)

Module AvroFacts.
Import Avro.

(** ** The zig-zag varint *)

Lemma zigzag_0 : zigzag 0 = 0.
Proof. reflexivity. Qed.

Lemma load_take (src : list byte) (end_ p : Z) :
  p < end_ -> load (take (Z.to_nat end_) src) p = load src p.
Proof.
  intros Hp. unfold load, loadb. destruct (Z.ltb_spec p 0); [reflexivity|].
  rewrite lookup_take_lt by lia. reflexivity.
Qed.

(** The loop reads only below [end_], one byte per iteration, and is done
    after at most [end_ - cur] of them. *)
Lemma varint_loop_spec (src : list byte) (end_ : Z) (fuel : nat) (cur u scale : Z) :
  0 <= cur -> end_ <= Z.of_nat (length src) ->
  Z.max 0 (end_ - cur) < Z.of_nat fuel ->
  exists u' c, varint_loop fuel src end_ cur u scale = Ret (u', c) /\
               cur <= c <= Z.max cur end_.
Proof.
  revert cur u scale. induction fuel as [|fuel IH]; intros cur u scale Hc He Hf; [lia|].
  cbn [varint_loop]. destruct (Z.ltb_spec cur end_) as [Hlt|Hge].
  - destruct (load_in src cur) as (c & -> & Hcr); [lia|]. cbn [bind].
    destruct (Z.ltb_spec c 128).
    + do 2 eexists. split; [reflexivity|lia].
    + destruct (IH (cur + 1) (u64 (u + u64 (Z.land c 127 * scale))) (u64 (Z.shiftl scale 7)))
        as (u' & c' & -> & Hc'); try lia.
      do 2 eexists. split; [reflexivity|lia].
  - do 2 eexists. split; [reflexivity|lia].
Qed.

Lemma varint_loop_take (src : list byte) (end_ : Z) (fuel : nat) (cur u scale : Z) :
  varint_loop fuel (take (Z.to_nat end_) src) end_ cur u scale
  = varint_loop fuel src end_ cur u scale.
Proof.
  revert cur u scale. induction fuel as [|fuel IH]; intros cur u scale; [reflexivity|].
  cbn [varint_loop]. destruct (Z.ltb_spec cur end_) as [Hlt|Hge]; [|reflexivity].
  rewrite load_take by lia. destruct (load src cur); cbn [bind]; try reflexivity.
  destruct (a <? 128); [reflexivity|apply IH].
Qed.

Lemma avro_decode_zigzag_varint_total (src : list byte) (end_ cur : Z) :
  0 <= cur -> end_ <= Z.of_nat (length src) ->
  exists v c, avro_decode_zigzag_varint src end_ cur = Ret (v, c) /\
              cur <= c <= Z.max cur end_ /\ (cur < end_ -> cur < c).
Proof.
  intros Hc He. unfold avro_decode_zigzag_varint.
  destruct (Z.ltb_spec cur end_) as [Hlt|Hge].
  - destruct (load_in src cur) as (b & -> & Hb); [lia|]. cbn [bind].
    destruct (Z.ltb_spec 127 b).
    + destruct (varint_loop_spec src end_ (S (Z.to_nat (end_ - (cur + 1)))) (cur + 1)
                  (Z.land b 127) 128) as (u' & c & -> & Hcc); try lia.
      simpl. do 2 eexists. split; [reflexivity|lia].
    + do 2 eexists. split; [reflexivity|lia].
  - do 2 eexists. split; [reflexivity|lia].
Qed.

(** C9: [avro_decode_zigzag_varint] returns on every input whose cursor and
    end lie in the buffer: it consumes at least one byte when one is
    available and never moves past [end_]; it gives the same result on the
    buffer cut off at [end_], where a load at or beyond [end_] would be out
    of bounds; and when called with [cur >= end_] it returns 0 and leaves the
    cursor where it is. *)
Theorem avro_decode_zigzag_varint_guarded (src : list byte) (end_ cur : Z) :
  0 <= cur -> end_ <= Z.of_nat (length src) ->
  (exists v c, avro_decode_zigzag_varint src end_ cur = Ret (v, c) /\
               cur <= c <= Z.max cur end_ /\ (cur < end_ -> cur < c)) /\
  avro_decode_zigzag_varint (take (Z.to_nat end_) src) end_ cur
    = avro_decode_zigzag_varint src end_ cur /\
  (end_ <= cur -> avro_decode_zigzag_varint src end_ cur = Ret (0, cur)).
Proof.
  intros Hc He. split; [apply avro_decode_zigzag_varint_total; assumption|]. split.
  - unfold avro_decode_zigzag_varint. destruct (Z.ltb_spec cur end_); [|reflexivity].
    rewrite load_take by lia. destruct (load src cur); cbn [bind]; try reflexivity.
    destruct (127 <? a); [|reflexivity]. rewrite varint_loop_take. reflexivity.
  - intros Hge. unfold avro_decode_zigzag_varint.
    destruct (Z.ltb_spec cur end_); [lia|]. rewrite zigzag_0. reflexivity.
Qed.

Lemma avro_decode_zigzag_varint_guarded_witness :
  (exists v c, avro_decode_zigzag_varint (mk_bytes [150; 1; 7]) 2 0 = Ret (v, c) /\
               0 <= c <= Z.max 0 2 /\ (0 < 2 -> 0 < c)) /\
  avro_decode_zigzag_varint (take (Z.to_nat 2) (mk_bytes [150; 1; 7])) 2 0
    = avro_decode_zigzag_varint (mk_bytes [150; 1; 7]) 2 0 /\
  (2 <= 0 -> avro_decode_zigzag_varint (mk_bytes [150; 1; 7]) 2 0 = Ret (0, 0)).
Proof.
  apply (avro_decode_zigzag_varint_guarded (mk_bytes [150; 1; 7]) 2 0).
  - lia.
  - simpl. lia.
Defined.

(** The bytes 96 01 are the varint 150, the zig-zag encoding of 75; the byte
    after [end_] is not looked at. *)
Example avro_decode_zigzag_varint_75 :
  avro_decode_zigzag_varint (mk_bytes [150; 1; 7]) 2 0 = Ret (75, 2).
Proof. reflexivity. Qed.

(** ** Stores are guarded by [row < max_rows] *)

(** Takes a hypothesis [H : m = Ret x] apart along the binds and tests of [m]. *)
Ltac run_cases H :=
  repeat match type of H with
  | bind ?m _ = Ret _ => destruct m; cbn [bind] in *; try discriminate H
  | (if ?b then _ else _) = Ret _ => destruct b
  | (let '(_, _) := ?p in _) = Ret _ => destruct p
  | match ?o with Some _ => _ | None => _ end = Ret _ => destruct o
  end.


Section Guard.

Variable kind_code : type_kind_e -> Z.
Variable schema : option (list schemadesc_s).
Variable global_dictionary : list (Z * Z).
Variable src : list byte.
Variables end_ row max_rows : Z.

#[local] Abbreviation stores_guarded := (stores_guarded row max_rows).
#[local] Abbreviation decode_field := (decode_field global_dictionary src end_ row max_rows).
#[local] Abbreviation array_advance := (array_advance kind_code schema end_).
#[local] Abbreviation row_step :=
  (row_step kind_code schema global_dictionary src end_ row max_rows).
#[local] Abbreviation row_loop :=
  (row_loop kind_code schema global_dictionary src end_ row max_rows).

Lemma stores_guarded_refl (st : row_state) : stores_guarded st st.
Proof. exists []. rewrite app_nil_r. auto. Qed.

Lemma stores_guarded_trans (a b c : row_state) :
  stores_guarded a b -> stores_guarded b c -> stores_guarded a c.
Proof.
  intros (n1 & E1 & F1 & G1) (n2 & E2 & F2 & G2). exists (n1 ++ n2).
  split; [rewrite E2, E1, app_assoc; reflexivity|]. split; [apply Forall_app; auto|].
  intros Hnil. apply app_eq_nil in Hnil as [-> ->]. rewrite G2, G1; auto.
Qed.

Lemma stores_guarded_same (st st' : row_state) :
  stores st' = stores st -> schema_g st' = schema_g st -> stores_guarded st st'.
Proof. intros E G. exists []. rewrite app_nil_r. auto. Qed.

Lemma writes_guard (d : schemadesc_s) (p : Z) :
  writes row max_rows d = Some p -> row < max_rows.
Proof.
  unfold writes. destruct (dataptr d); [|discriminate].
  destruct (Z.ltb_spec row max_rows); [auto|discriminate].
Qed.

Lemma stores_guarded_emit (st : row_state) (cur : Z) (new : list store_e) :
  Forall (fun ev => store_row ev = row /\ row < max_rows) new ->
  new <> [] \/ new = [] ->
  stores_guarded st (emit st cur new).
Proof. intros F _. exists new. simpl. split; [reflexivity|]. split; [exact F|reflexivity]. Qed.

Lemma decode_field_guarded (knd : type_kind_e) (d : schemadesc_s) (i cur skip : Z)
    (st st' : row_state) (skip' : Z) :
  decode_field knd d i cur skip st = Ret (st', skip') -> stores_guarded st st'.
Proof.
  intros H. unfold decode_field, read_block_count in H.
  destruct (writes row max_rows d) as [p|] eqn:W.
  - pose proof (writes_guard d p W) as Hrow.
    destruct knd; run_cases H; injection H as <- <-;
      first [ apply stores_guarded_same; reflexivity
            | (eexists; split; [simpl; reflexivity|]; split;
               [repeat constructor; assumption
               |first [discriminate|intros _; reflexivity]]) ].
  - destruct knd; run_cases H; injection H as <- <-;
      first [ apply stores_guarded_same; reflexivity
            | (eexists; split; [simpl; reflexivity|]; split;
               [constructor|intros _; reflexivity]) ].
Qed.

Lemma array_advance_stores (i skip : Z) (st st' : row_state) :
  array_advance i skip st = Ret st' ->
  stores st' = stores st /\ schema_g st' = schema_g st /\ r_cur st' = r_cur st.
Proof.
  intros H. unfold array_advance in H. run_cases H; injection H as <-; auto.
Qed.

Lemma row_step_guarded (st : row_state) (c : row_ctl) :
  row_step st = Ret c ->
  match c with row_break st' | row_next st' => stores_guarded st st' end.
Proof.
  intros H. unfold row_step in H.
  apply bind_Ret_inv in H as (d & _ & H). apply bind_Ret_inv in H as (b & _ & H).
  destruct b as [cur|i cur knd skip].
  { injection H as <-. apply stores_guarded_same; reflexivity. }
  apply bind_Ret_inv in H as (d' & _ & H). apply bind_Ret_inv in H as ([st1 sk] & Hf & H).
  apply bind_Ret_inv in H as (st2 & Ha & [= <-]).
  apply decode_field_guarded in Hf. apply array_advance_stores in Ha as (E & G & _).
  eapply stores_guarded_trans; [exact Hf|]. apply stores_guarded_same; assumption.
Qed.

Lemma row_loop_guarded (fuel : nat) (st st' : row_state) :
  row_loop fuel st = Ret st' -> stores_guarded st st'.
Proof.
  revert st. induction fuel as [|fuel IH]; intros st H; [discriminate|].
  cbn [Avro.row_loop] in H.
  destruct (r_i st <? _); [|injection H as <-; apply stores_guarded_refl].
  apply bind_Ret_inv in H as ([st1|st1] & Hs & H); apply row_step_guarded in Hs.
  - injection H as <-. exact Hs.
  - eapply stores_guarded_trans; [exact Hs|apply IH; exact H].
Qed.

(** A call of [avro_decode_row] adds to the stores only stores for [row],
    and none unless [row < max_rows]; without a store it leaves the null
    counters alone. *)
Lemma avro_decode_row_guarded (fuel : nat) (g : list schemadesc_s) (log : list store_e)
    (cur : Z) (st : row_state) :
  avro_decode_row kind_code schema global_dictionary src end_ row max_rows fuel g log cur
    = Ret st ->
  exists new,
    stores st = log ++ new /\
    Forall (fun ev => store_row ev = row /\ row < max_rows) new /\
    (max_rows <= row -> new = [] /\ schema_g st = g).
Proof.
  intros H. apply row_loop_guarded in H as (new & E & F & G). simpl in E, G.
  exists new. split; [exact E|]. split; [exact F|].
  intros Hout. assert (new = []) as ->.
  { destruct new as [|ev new]; [reflexivity|]. inversion F as [|? ? [_ ?] _]. lia. }
  auto.
Qed.

End Guard.

(** ** The window of rows *)

Lemma row_in_window (first_row max_rows gr : Z) :
  0 <= first_row -> 0 <= max_rows -> first_row + max_rows < 2 ^ 64 ->
  0 <= gr < 2 ^ 64 ->
  (u64 (gr - first_row) < max_rows <-> first_row <= gr < first_row + max_rows) /\
  (first_row <= gr -> u64 (gr - first_row) = gr - first_row).
Proof.
  intros Hf Hm Hsum Hg. unfold u64.
  destruct (Z.le_gt_cases first_row gr) as [Hle|Hgt].
  - rewrite Z.mod_small by lia. split; [lia|auto].
  - replace (gr - first_row) with (gr - first_row + 2 ^ 64 + (-1) * 2 ^ 64) by lia.
    rewrite Z.mod_add by lia. rewrite Z.mod_small by lia. split; lia.
Qed.

Section KernelFacts.

Variable kind_code : type_kind_e -> Z.
Variable schema : option (list schemadesc_s).
Variable global_dictionary : list (Z * Z).
Variable avro_data : list byte.
Variables min_row_size max_rows first_row : Z.
Variable row_fuel : nat.
Hypothesis Hfirst : 0 <= first_row.
Hypothesis Hmax : 0 <= max_rows.
Hypothesis Hsum : first_row + max_rows < 2 ^ 64.

#[local] Abbreviation in_window := (in_window first_row max_rows).

(** The stores that one call adds to the kernel's log are in the window. *)
Lemma call_in_window (end_ gr : Z) (g : list schemadesc_s) (cur : Z) (st : row_state) :
  0 <= gr < 2 ^ 64 ->
  avro_decode_row kind_code schema global_dictionary avro_data end_
    (u64 (gr - first_row)) max_rows row_fuel g [] cur = Ret st ->
  Forall in_window (map (pair gr) (stores st)).
Proof.
  intros Hg H. apply avro_decode_row_guarded in H as (new & E & F & _). simpl in E. subst new.
  apply Forall_map. eapply Forall_impl; [exact F|].
  intros ev [Hrow Hlt]. unfold Avro.in_window. simpl.
  destruct (row_in_window first_row max_rows gr Hfirst Hmax Hsum Hg) as [Hiff Hid].
  apply Hiff in Hlt. split; [exact Hlt|]. rewrite Hrow. apply Hid. lia.
Qed.

Lemma decode_lanes_in_window (lanes : list Z) (end_ start cur_row : Z)
    (g : list schemadesc_s) (log : list (Z * store_e))
    (g' : list schemadesc_s) (log' : list (Z * store_e)) :
  0 <= cur_row -> Forall (fun tid => 0 <= tid /\ cur_row + tid < 2 ^ 64) lanes ->
  Forall in_window log ->
  decode_lanes kind_code schema global_dictionary avro_data min_row_size max_rows
    first_row row_fuel lanes end_ start cur_row g log = Ret (g', log') ->
  Forall in_window log'.
Proof.
  intros Hc. revert g log. induction lanes as [|tid lanes IH]; intros g log Hl Hlog H.
  - injection H as <- <-. exact Hlog.
  - cbn [decode_lanes] in H. apply bind_Ret_inv in H as (st & Hst & H).
    inversion Hl as [|? ? [Ht0 Ht1] Hl']; subst.
    replace (cur_row - first_row + tid) with (cur_row + tid - first_row) in Hst by lia.
    apply call_in_window in Hst; [|lia].
    eapply IH; [exact Hl'| |exact H]. apply Forall_app. auto.
Qed.

Lemma lanes_below_range (nrows : Z) :
  Forall (fun tid => 0 <= tid < nrows) (lanes_below nrows).
Proof.
  unfold lanes_below. apply Forall_map, Forall_forall. intros k Hk.
  apply list_elem_of_In, in_seq in Hk. simpl. lia.
Qed.

Lemma warp_loop_in_window (fuel : nat) (end_ : Z) (w w' : warp_state) :
  0 <= cur_row w -> 0 <= rows_remaining w < 2 ^ 32 ->
  cur_row w + rows_remaining w < 2 ^ 64 ->
  Forall in_window (w_stores w) ->
  warp_loop kind_code schema global_dictionary avro_data min_row_size max_rows
    first_row row_fuel fuel end_ w = Ret w' ->
  Forall in_window (w_stores w').
Proof.
  revert w. induction fuel as [|fuel IH]; intros w Hc Hr Hs Hlog H; [discriminate|].
  cbn [warp_loop] in H.
  destruct (Z.ltb_spec 0 (rows_remaining w)) as [Hpos|];
    [|injection H as <-; exact Hlog].
  destruct (w_cur w <? end_); cbn [andb] in H; [|injection H as <-; exact Hlog].
  destruct (u64 (first_row + max_rows) <? cur_row w); [injection H as <-; exact Hlog|].
  set (nrows := if w_cur w + u32 (min_row_size * rows_remaining w) =? end_
                then Z.min (rows_remaining w) 32 else 1) in H.
  assert (Hn : 1 <= nrows <= rows_remaining w).
  { unfold nrows. destruct (_ =? end_); lia. }
  destruct (Z.leb_spec nrows 1) as [H1|H1].
  - apply bind_Ret_inv in H as (st & Hst & H).
    replace (cur_row w - first_row + 0) with (cur_row w - first_row) in Hst by lia.
    apply call_in_window in Hst; [|lia].
    apply IH in H; [exact H| | | |]; simpl; unfold u64; rewrite ?u32_id by lia;
      rewrite ?Z.mod_small by lia; try lia.
    apply Forall_app. auto.
  - apply bind_Ret_inv in H as ([g' log'] & Hl & H).
    apply decode_lanes_in_window in Hl; [|lia| |exact Hlog].
    + apply IH in H; [exact H| | | |exact Hl]; simpl; unfold u64; rewrite ?u32_id by lia;
        rewrite ?Z.mod_small by lia; lia.
    + eapply Forall_impl; [apply lanes_below_range|]. simpl. intros tid Ht. lia.
Qed.

End KernelFacts.

(** A pass over a block of the four one-byte rows 0, 1, 2, 3, with the
    window of the two rows 1 and 2.  All four rows are parsed (the cursor
    ends at 4), and the stores are those of rows 1 and 2. *)
Example decode_pass_rows_1_and_2 :
  gpuDecodeAvroColumnData kind_code_primitive_first [mk_block 0 4 0 4]
    [mk_desc type_int 0 (Some 200)] [] (mk_bytes [2; 4; 6; 8]) 1 2 1 0 10
  = Ret (Some (mk_warp 4 0 4 [mk_desc type_int 0 (Some 200)]
                       [(1, put_int32 200 0 2); (2, put_int32 200 1 3)])).
Proof. reflexivity. Qed.


(** ** Fixed-width fields *)

(** C6: what the code does for a float or a double.  The cursor moves on by
    the width of the field, except when the value is to be stored and fewer
    bytes than that remain: then 0 is stored and the cursor stays. *)
Theorem decode_field_fixed_width_cursor
    (global_dictionary : list (Z * Z)) (src : list byte) (end_ row max_rows : Z)
    (knd : type_kind_e) (d : schemadesc_s) (i cur skip : Z) (st : row_state) :
  knd = type_float \/ knd = type_double ->
  0 <= cur -> end_ <= Z.of_nat (length src) ->
  exists st',
    decode_field global_dictionary src end_ row max_rows knd d i cur skip st
      = Ret (st', skip) /\
    r_cur st' =
      match writes row max_rows d with
      | Some _ => if end_ <=? cur + (fixed_width knd - 1) then cur else cur + fixed_width knd
      | None => cur + fixed_width knd
      end.
Proof.
  intros Hk Hc He. unfold decode_field.
  destruct Hk as [-> | ->]; destruct (writes row max_rows d); simpl fixed_width;
    try (eexists; split; reflexivity).
  - replace (cur + (4 - 1)) with (cur + 3) by lia.
    destruct (Z.ltb_spec (cur + 3) end_); destruct (Z.leb_spec end_ (cur + 3)); try lia;
      [|eexists; split; reflexivity].
    unfold unaligned_load32.
    destruct (load16_in src cur) as (lo & Elo & _); [lia|lia|].
    destruct (load16_in src (cur + 2)) as (hi & Ehi & _); [lia|lia|].
    unfold load32. rewrite Elo, Ehi. cbn [bind]. eexists; split; reflexivity.
  - replace (cur + (8 - 1)) with (cur + 7) by lia.
    destruct (Z.ltb_spec (cur + 7) end_); destruct (Z.leb_spec end_ (cur + 7)); try lia;
      [|eexists; split; reflexivity].
    unfold unaligned_load64, load32.
    destruct (load16_in src cur) as (a0 & E0 & _); [lia|lia|].
    destruct (load16_in src (cur + 2)) as (a1 & E1 & _); [lia|lia|].
    destruct (load16_in src (cur + 4)) as (a2 & E2 & _); [lia|lia|].
    destruct (load16_in src (cur + 4 + 2)) as (a3 & E3 & _); [lia|lia|].
    rewrite E0, E1. cbn [bind]. rewrite E2, E3. cbn [bind]. eexists; split; reflexivity.
Qed.

Lemma decode_field_fixed_width_cursor_witness :
  exists st',
    decode_field [] (mk_bytes [1; 2]) 2 0 10 type_float (mk_desc type_float 0 (Some 200))
      0 0 0 (mk_row 0 0 0 0 0 [mk_desc type_float 0 (Some 200)] []) = Ret (st', 0) /\
    r_cur st' = 0.
Proof.
  exact (decode_field_fixed_width_cursor [] (mk_bytes [1; 2]) 2 0 10 type_float
           (mk_desc type_float 0 (Some 200)) 0 0 0
           (mk_row 0 0 0 0 0 [mk_desc type_float 0 (Some 200)] [])
           (or_introl eq_refl) ltac:(lia) ltac:(simpl; lia)).
Defined.

(** A float with two bytes left: stored as 0 with the cursor left at 0 when
    the row is in the window, skipped with the cursor moved to 4 when it is
    not. *)
Example truncated_float_written_and_skipped :
  avro_decode_row kind_code_primitive_first (Some [mk_desc type_float 0 (Some 200)]) []
    (mk_bytes [1; 2]) 2 0 10 20 [mk_desc type_float 0 (Some 200)] [] 0
  = Ret (mk_row 1 0 0 0 0 [mk_desc type_float 0 (Some 200)] [put_uint32 200 0 0]) /\
  avro_decode_row kind_code_primitive_first (Some [mk_desc type_float 0 (Some 200)]) []
    (mk_bytes [1; 2]) 2 10 10 20 [mk_desc type_float 0 (Some 200)] [] 0
  = Ret (mk_row 1 4 0 0 0 [mk_desc type_float 0 (Some 200)] []).
Proof. split; reflexivity. Qed.

(** ** Arrays *)

Lemma s32_id (x : Z) : - 2 ^ 31 <= x < 2 ^ 31 -> s32 x = x.
Proof. intros H. unfold s32. rewrite Z.mod_small by lia. lia. Qed.

Lemma s32_range (x : Z) : - 2 ^ 31 <= s32 x < 2 ^ 31.
Proof. unfold s32. pose proof (Z.mod_pos_bound (x + 2 ^ 31) (2 ^ 32) ltac:(lia)). lia. Qed.

Lemma entry_lookup (sch : list schemadesc_s) (i : Z) (d : schemadesc_s) :
  0 <= i -> sch !! Z.to_nat i = Some d -> entry sch i = Ret d.
Proof.
  intros Hi E. unfold entry. destruct (Z.ltb_spec i 0); [lia|]. rewrite E. reflexivity.
Qed.

Section Forest.

Variable kind_code : type_kind_e -> Z.
Variable sch : list schemadesc_s.
Hypothesis Hlen : Z.of_nat (length sch) < 2 ^ 31.

#[local] Abbreviation forest := (forest kind_code sch).
#[local] Abbreviation skip_from := (skip_from kind_code sch).

Lemma forest_zero (i j : Z) : forest i 0 j -> j = i.
Proof. intros H. inversion H; subst; [reflexivity|lia|lia]. Qed.

Lemma forest_bounds (i n j : Z) :
  forest i n j ->
  0 <= n /\ i + n <= j /\ (0 < n -> 0 <= i /\ j <= Z.of_nat (length sch)).
Proof.
  induction 1 as [i|i n j d Hi Hd Hk Hn Hf IH|i n j d Hi Hd Hk Hn Hc Hf IH].
  - lia.
  - destruct IH as (_ & Hle & Hin). apply lookup_lt_Some in Hd.
    split; [lia|]. split; [lia|]. intros _. split; [lia|].
    destruct (Z.eq_dec n 0) as [->|]; [|lia].
    apply forest_zero in Hf. lia.
  - destruct IH as (_ & Hle & Hin). apply lookup_lt_Some in Hd.
    split; [lia|]. split; [lia|]. intros _. split; [lia|].
    destruct (Z.eq_dec (count d + n) 0) as [E|]; [|lia].
    rewrite E in Hf. apply forest_zero in Hf. lia.
Qed.

Lemma skip_from_0 (i : Z) : skip_from i 0 = (i, 0).
Proof. unfold Avro.skip_from. destruct (drop (Z.to_nat i) sch); reflexivity. Qed.

(** The skip loop, asked to skip [n] subtrees, stops right after them. *)
Lemma skip_from_forest (i n j : Z) : forest i n j -> skip_from i n = (j, 0).
Proof.
  induction 1 as [i|i n j d Hi Hd Hk Hn Hf IH|i n j d Hi Hd Hk Hn Hc Hf IH].
  - apply skip_from_0.
  - pose proof (forest_bounds _ _ _ Hf) as (_ & Hb & Hin).
    assert (n < 2 ^ 31 - 1).
    { destruct (Z.eq_dec n 0); [lia|]. pose proof (lookup_lt_Some _ _ _ Hd). lia. }
    unfold Avro.skip_from in *. rewrite (drop_S sch d (Z.to_nat i)) by exact Hd.
    cbn [skip_nodes]. destruct (Z.ltb_spec 0 (n + 1)); [|lia].
    rewrite Hk. replace (n + 1 - 1) with n by lia. rewrite s32_id by lia.
    replace (S (Z.to_nat i)) with (Z.to_nat (i + 1)) by lia. exact IH.
  - pose proof (forest_bounds _ _ _ Hf) as (_ & Hb & Hin).
    assert (count d + n < 2 ^ 31 - 1).
    { destruct (Z.eq_dec (count d + n) 0); [lia|]. pose proof (lookup_lt_Some _ _ _ Hd). lia. }
    unfold Avro.skip_from in *. rewrite (drop_S sch d (Z.to_nat i)) by exact Hd.
    cbn [skip_nodes]. destruct (Z.ltb_spec 0 (n + 1)); [|lia].
    rewrite Hk. rewrite (s32_id (n + 1 + count d)) by lia.
    replace (n + 1 + count d - 1) with (count d + n) by lia. rewrite s32_id by lia.
    replace (S (Z.to_nat i)) with (Z.to_nat (i + 1)) by lia. exact IH.
Qed.

(** The first entry of a non-empty forest, and the forest that is left
    once it has been entered. *)
Lemma forest_head (i n j : Z) :
  forest i (n + 1) j -> 0 <= n ->
  exists d, 0 <= i /\ sch !! Z.to_nat i = Some d /\
    forest (i + 1) (if kind_ge_record kind_code (kind d) then count d + n else n) j.
Proof.
  intros H Hn. inversion H as [|i' n' j' d Hi Hd Hk Hn' Hf|i' n' j' d Hi Hd Hk Hn' Hc Hf]; subst.
  - lia.
  - assert (n' = n) as -> by lia. exists d. rewrite Hk. auto.
  - assert (n' = n) as -> by lia. exists d. rewrite Hk. auto.
Qed.

End Forest.

Section Arrays.

Variable kind_code : type_kind_e -> Z.
Variable sch : list schemadesc_s.
Variable global_dictionary : list (Z * Z).
Variable src : list byte.
Variables end_ row max_rows : Z.
Hypothesis Hlen : Z.of_nat (length sch) < 2 ^ 31.
Hypothesis Harray : kind_ge_record kind_code type_array = true.

#[local] Abbreviation forest := (forest kind_code sch).
#[local] Abbreviation decode_field := (decode_field global_dictionary src end_ row max_rows).
#[local] Abbreviation decode_fields :=
  (decode_fields global_dictionary src end_ row max_rows).
#[local] Abbreviation decode_item := (decode_item global_dictionary src end_ row max_rows sch).
#[local] Abbreviation decode_items n a j :=
  (decode_items global_dictionary src end_ row max_rows n sch a j).
#[local] Abbreviation row_step :=
  (row_step kind_code (Some sch) global_dictionary src end_ row max_rows).
#[local] Abbreviation row_loop :=
  (row_loop kind_code (Some sch) global_dictionary src end_ row max_rows).

(** A plain field is decoded from the cursor, the null counters and the
    stores alone, and leaves the loop variables as they are. *)
Lemma decode_field_reframe (knd : type_kind_e) (d : schemadesc_s) (i cur skip : Z)
    (st st2 st' : row_state) (sk : Z) :
  plain knd = true ->
  schema_g st2 = schema_g st -> stores st2 = stores st ->
  decode_field knd d i cur skip st = Ret (st', sk) ->
  decode_field knd d i cur skip st2 = Ret (reframe st2 st', sk) /\
  sk = skip /\ st' = reframe st st'.
Proof.
  intros Hp Hg Hs H. destruct st as [i1 c1 as1 ar1 ac1 g1 s1], st2 as [i2 c2 as2 ar2 ac2 g2 s2].
  simpl in Hg, Hs. subst g2 s2. unfold Avro.decode_field, emit in *.
  destruct knd; try discriminate Hp; destruct (writes row max_rows d);
    run_cases H; injection H as <- <-; cbn [bind]; auto.
Qed.

Lemma decode_fields_reframe (ds : list schemadesc_s) (i : Z) (st st2 st' : row_state) :
  Forall (fun d => plain (kind d) = true) ds ->
  schema_g st2 = schema_g st -> stores st2 = stores st -> r_cur st2 = r_cur st ->
  decode_fields ds i st = Ret st' ->
  decode_fields ds i st2 = Ret (reframe st2 st') /\ st' = reframe st st'.
Proof.
  intros Hp. revert i st st2. induction Hp as [|d ds Hd _ IH]; intros i st st2 Hg Hs Hc H.
  - injection H as <-. unfold reframe. destruct st, st2; simpl in *; subst; auto.
  - cbn [Avro.decode_fields] in *. apply bind_Ret_inv in H as ([st1 sk] & Hf & H).
    cbn [fst] in H. rewrite Hc.
    destruct (decode_field_reframe _ _ _ _ _ _ st2 _ _ Hd Hg Hs Hf) as (-> & _ & E1).
    cbn [bind fst].
    destruct (IH (i + 1) st1 (reframe st2 st1)) as (-> & E'); auto.
    split; [reflexivity|].
    rewrite E' at 1. rewrite E1. reflexivity.
Qed.

Lemma item_done_reframe (a : Z) (st2 st' : row_state) :
  item_done a (reframe st2 st')
  = item_done a (mk_row (r_i st') (r_cur st') (array_start st') (array_repeat_count st2)
                        (array_children st') (schema_g st') (stores st')).
Proof. reflexivity. Qed.

Lemma plain_not_union (k : type_kind_e) : plain k = true -> is_union k = false.
Proof. destruct k; simpl; congruence. Qed.

(** One iteration of the loop at a plain entry [d] at index [p] inside an
    item of the array at [a], with [n + 1] subtrees of the item still to
    come, this one included. *)
Lemma plain_step (st : row_state) (p n a r : Z) (d da : schemadesc_s)
    (st1 : row_state) (sk : Z) :
  r_i st = p -> 0 <= p -> sch !! Z.to_nat p = Some d -> plain (kind d) = true ->
  array_start st = a -> 0 <= a -> sch !! Z.to_nat a = Some da -> count da = 1 ->
  array_repeat_count st = r -> 1 <= r < 2 ^ 32 ->
  array_children st = n + 1 -> 0 <= n < 2 ^ 31 ->
  0 <= (if kind_ge_record kind_code (kind d) then count d + n else n) < 2 ^ 31 - 1 ->
  decode_field (kind d) d p (r_cur st) 0 st = Ret (st1, sk) ->
  row_step st =
    Ret (row_next
      (if ((if kind_ge_record kind_code (kind d) then count d + n else n) =? 0)
          && (r_cur st1 <? end_)
       then item_done a st1
       else mk_row (p + 1) (r_cur st1) a r
                   (if kind_ge_record kind_code (kind d) then count d + n else n)
                   (schema_g st1) (stores st1))).
Proof.
  intros Hi Hp Hd Hpl Ha Ha0 Hda Hc1 Hr Hrr Hch Hn Hc' Hf.
  destruct (decode_field_reframe _ _ _ _ _ _ st _ _ Hpl eq_refl eq_refl Hf) as (_ & -> & E1).
  unfold Avro.row_step. cbn [view]. rewrite Hi.
  rewrite (entry_lookup _ _ _ Hp Hd). cbn [bind].
  unfold select_branch. rewrite (plain_not_union _ Hpl). cbn [bind].
  rewrite (entry_lookup _ _ _ Hp Hd). cbn [bind].
  rewrite Hf. cbn [bind fst snd].
  unfold array_advance. cbn [view]. rewrite (entry_lookup _ _ _ Hp Hd). cbn [bind].
  rewrite (skip_from_0 kind_code sch).
  rewrite E1. unfold reframe, item_done. cbn [r_i r_cur array_start array_repeat_count
    array_children schema_g stores]. rewrite Hr, Ha, Hch.
  destruct (Z.eqb_spec r 0) as [|_]; [lia|]. cbn [negb andb].
  replace (n + 1 - 1) with n by lia.
  set (c' := if kind_ge_record kind_code (kind d) then count d + n else n) in *.
  assert (Ec : (if kind_ge_record kind_code (kind d) then s32 (s32 n + count d) else s32 n) = c').
  { unfold c' in *. destruct (kind_ge_record kind_code (kind d)).
    - rewrite (s32_id n) by lia. rewrite s32_id by lia. lia.
    - apply s32_id. lia. }
  rewrite Ec.
  destruct (Z.eqb_spec c' 0) as [E0|E0].
  - rewrite E0. cbn [Z.leb Z.compare andb].
    destruct (r_cur st1 <? end_); [|reflexivity].
    destruct (Z.eqb_spec (u32 (r - 1)) 0) as [Eq|_]; [rewrite Eq; reflexivity|].
    rewrite (entry_lookup _ _ _ Ha0 Hda). cbn [bind]. rewrite Hc1. reflexivity.
  - destruct (Z.leb_spec c' 0); [lia|]. reflexivity.
Qed.

(** One iteration of the loop at the array entry [a]. *)
Lemma array_node_step (st0 : row_state) (a j : Z) (da : schemadesc_s) (n c1 : Z) :
  r_i st0 = a -> 0 <= a -> sch !! Z.to_nat a = Some da ->
  kind da = type_array -> count da = 1 -> forest (a + 1) 1 j ->
  read_block_count src end_ (r_cur st0) = Ret (n, c1) ->
  row_step st0 =
    Ret (row_next (if u32 n =? 0
               then mk_row j c1 a 0 1 (schema_g st0) (stores st0)
               else mk_row (a + 1) c1 a (u32 n) 1 (schema_g st0) (stores st0))).
Proof.
  intros Hi Ha Hda Hk Hc1 Hf Hbc.
  unfold Avro.row_step. cbn [view]. rewrite Hi.
  rewrite (entry_lookup _ _ _ Ha Hda). cbn [bind].
  unfold select_branch. rewrite Hk. cbn [is_union bind].
  rewrite (entry_lookup _ _ _ Ha Hda). cbn [bind].
  unfold Avro.decode_field. rewrite Hbc. cbn [bind fst snd].
  unfold array_advance. cbn [view r_cur array_repeat_count array_children array_start
    schema_g stores]. rewrite (entry_lookup _ _ _ Ha Hda). cbn [bind].
  rewrite Hk, Harray, Hc1.
  destruct (Z.eqb_spec (u32 n) 0) as [E0|E0]; cbn [negb andb].
  - change (s32 (0 + 1)) with 1. rewrite (skip_from_forest _ _ Hlen _ _ _ Hf).
    rewrite E0. reflexivity.
  - change (s32 (s32 (1 - 1) + 1)) with 1. rewrite skip_from_0.
    cbn [Z.leb Z.compare andb]. reflexivity.
Qed.

End Arrays.

(** A block count of 3, three one-byte ints and the closing count 0: the row
    decodes to the three values 1, 2, 3, the cursor ends right after the
    closing count and the loop is past the array. *)
Example avro_array_of_three_ints :
  avro_decode_row kind_code_primitive_first (Some ex_array_of_int) []
    (mk_bytes [6; 2; 4; 6; 0]) 5 0 10 20 ex_array_of_int [] 0
  = Ret (mk_row 2 5 0 0 1 ex_array_of_int
                [put_int32 200 0 1; put_int32 200 0 2; put_int32 200 0 3]).
Proof. reflexivity. Qed.

(** A negative block count, -3, is followed by a byte size, which is dropped;
    the items decode as before. *)
Example avro_array_negative_count :
  avro_decode_row kind_code_primitive_first (Some ex_array_of_int) []
    (mk_bytes [5; 6; 2; 4; 6; 0]) 6 0 10 20 ex_array_of_int [] 0
  = Ret (mk_row 2 6 0 0 1 ex_array_of_int
                [put_int32 200 0 1; put_int32 200 0 2; put_int32 200 0 3]).
Proof. reflexivity. Qed.


End AvroFacts.


(** * Facts about buffers written down as numbers, and about varints *)

Lemma byte_val_mk_byte (z : Z) : 0 <= z < 256 -> byte_val (mk_byte z) = z.
Proof.
  intros Hz. unfold byte_val, mk_byte. rewrite Z.mod_small by lia.
  destruct (Byte.of_N (Z.to_N z)) as [b|] eqn:E.
  - apply Byte.to_of_N in E. rewrite E. lia.
  - apply Byte.of_N_None_iff in E. lia.
Qed.

Lemma bytes_at_slice (m : list byte) (p : Z) (l : list Z) :
  0 <= p -> Forall (fun z => 0 <= z < 256) l ->
  slice m p (Z.of_nat (length l)) = mk_bytes l ->
  bytes_at m p l.
Proof.
  intros Hp Hl Hs k z Hk. unfold load, loadb.
  destruct (Z.ltb_spec (p + Z.of_nat k) 0); [lia|].
  assert (Hm : m !! Z.to_nat (p + Z.of_nat k) = Some (mk_byte z)).
  { assert (H1 : mk_bytes l !! k = Some (mk_byte z)).
    { unfold mk_bytes. rewrite list_lookup_fmap, Hk. reflexivity. }
    rewrite <- Hs in H1. unfold slice in H1.
    apply lookup_take_Some in H1 as [H1 _]. rewrite lookup_drop in H1.
    replace (Z.to_nat (p + Z.of_nat k)) with (Z.to_nat p + k)%nat by lia. exact H1. }
  rewrite Hm. cbn [bind]. f_equal. apply byte_val_mk_byte.
  rewrite Forall_forall in Hl. apply Hl. eapply list_elem_of_lookup_2. exact Hk.
Qed.

Lemma bytes_at_cons (m : list byte) (p z : Z) (l : list Z) :
  bytes_at m p (z :: l) -> load m p = Ret z /\ bytes_at m (p + 1) l.
Proof.
  intros H. split.
  - specialize (H 0%nat z eq_refl). rewrite Z.add_0_r in H. exact H.
  - intros k y Hk. specialize (H (S k) y Hk).
    replace (p + 1 + Z.of_nat k) with (p + Z.of_nat (S k)) by lia. exact H.
Qed.

Lemma varint_bytes_range (fuel : nat) (u : Z) :
  0 <= u -> Forall (fun z => 0 <= z < 256) (Encode.varint_bytes fuel u).
Proof.
  revert u. induction fuel as [|fuel IH]; intros u Hu; cbn [Encode.varint_bytes];
    [constructor|].
  destruct (Z.ltb_spec u 128).
  - repeat constructor; lia.
  - constructor; [pose proof (Z.mod_pos_bound u 128); lia|].
    apply IH. apply Z.div_pos; lia.
Qed.

Lemma land_127 (c : Z) : Z.land c 127 = c mod 128.
Proof. change 127 with (Z.ones 7). rewrite Z.land_ones by lia. reflexivity. Qed.


(** * The Avro row decoder: a whole row *)

Module AvroRun.
Import Avro.

Lemma bump_count_length (g : list schemadesc_s) (i : Z) :
  length (bump_count g i) = length g.
Proof. unfold bump_count. destruct (g !! Z.to_nat i); [apply length_insert|reflexivity]. Qed.

Lemma entry_in (sch : list schemadesc_s) (i : Z) :
  0 <= i < Z.of_nat (length sch) ->
  exists d, entry sch i = Ret d /\ sch !! Z.to_nat i = Some d.
Proof.
  intros Hi. destruct (lookup_lt_is_Some_2 sch (Z.to_nat i)) as [d Hd]; [lia|].
  exists d. split; [apply AvroFacts.entry_lookup; [lia|exact Hd]|exact Hd].
Qed.

Lemma kind_is_array (k : type_kind_e) : k = type_array \/ k <> type_array.
Proof. destruct k; first [left; reflexivity|right; discriminate]. Qed.

Section Steps.

Variable kind_code : type_kind_e -> Z.
Variable schema : option (list schemadesc_s).
Variable global_dictionary : list (Z * Z).
Variable src : list byte.
Variables end_ row max_rows : Z.
Hypothesis Hend : end_ <= Z.of_nat (length src).

#[local] Abbreviation skip_from := (skip_from kind_code).
#[local] Abbreviation select_branch := (select_branch kind_code src end_).
#[local] Abbreviation decode_field := (decode_field global_dictionary src end_ row max_rows).
#[local] Abbreviation array_advance := (array_advance kind_code schema end_).
#[local] Abbreviation row_step :=
  (row_step kind_code schema global_dictionary src end_ row max_rows).
#[local] Abbreviation row_loop :=
  (row_loop kind_code schema global_dictionary src end_ row max_rows).
#[local] Abbreviation schema_len := (schema_len schema).
#[local] Abbreviation row_wf := (row_wf schema).
#[local] Abbreviation row_measure := (row_measure schema end_).

(** The skip loop moves forward and stops at the end of the schema at the
    latest. *)
Lemma skip_nodes_bounds (rest : list schemadesc_s) (i skip : Z) :
  i <= (skip_nodes kind_code rest i skip).1 <= i + Z.of_nat (length rest).
Proof.
  revert i skip. induction rest as [|d rest IH]; intros i skip; cbn [skip_nodes].
  - simpl. lia.
  - destruct (0 <? skip); [|simpl; lia].
    match goal with |- context [skip_nodes _ rest ?a ?b] => specialize (IH a b) end.
    cbn [length]. lia.
Qed.

Lemma skip_from_bounds (sch : list schemadesc_s) (i skip : Z) :
  0 <= i <= Z.of_nat (length sch) ->
  i <= (skip_from sch i skip).1 <= Z.of_nat (length sch).
Proof.
  intros Hi. unfold Avro.skip_from.
  pose proof (skip_nodes_bounds (drop (Z.to_nat i) sch) i skip) as H.
  rewrite length_drop in H. lia.
Qed.

(** The union prologue reads within the input and leaves [i] at an entry. *)
Lemma select_branch_total (sch : list schemadesc_s) (d : schemadesc_s) (i cur : Z) :
  0 <= cur -> 0 <= i -> sch !! Z.to_nat i = Some d ->
  exists b, select_branch sch d i cur = Ret b /\
    match b with
    | no_branch c => cur <= c
    | branch_at i' c _ _ => i <= i' < Z.of_nat (length sch) /\ cur <= c
    end.
Proof.
  intros Hc Hi Hd. pose proof (lookup_lt_Some _ _ _ Hd) as Hlt.
  unfold Avro.select_branch. destruct (is_union (kind d)).
  - destruct (Z.leb_spec end_ cur); [eexists; split; [reflexivity|simpl; lia]|].
    destruct (load_in src cur) as (b & -> & _); [lia|]. cbn [bind].
    pose proof (skip_from_bounds sch (i + 1) (Z.shiftr b 1) ltac:(lia)) as Hs.
    destruct (skip_from sch (i + 1) (Z.shiftr b 1)) as [i' sk]. cbn [fst] in Hs.
    destruct (Z.leb_spec (Z.of_nat (length sch)) i'); cbn [orb];
      [eexists; split; [reflexivity|simpl; lia]|].
    destruct (s32 (count d - Z.shiftr b 1 - 1) <? 0);
      [eexists; split; [reflexivity|simpl; lia]|].
    destruct (entry_in sch i') as (d' & -> & _); [lia|]. cbn [bind].
    eexists; split; [reflexivity|simpl; lia].
  - eexists; split; [reflexivity|simpl; lia].
Qed.

Lemma src_load32_in (p : Z) :
  0 <= p -> p + 4 <= Z.of_nat (length src) -> exists v, load32 src p = Ret v.
Proof.
  intros Hp Hl. unfold load32.
  destruct (load16_in src p) as (lo & -> & _); [lia|lia|].
  destruct (load16_in src (p + 2)) as (hi & -> & _); [lia|lia|].
  cbn [bind]. eauto.
Qed.

Lemma read_block_count_total (cur : Z) :
  0 <= cur ->
  exists n c, read_block_count src end_ cur = Ret (n, c) /\ cur <= c /\
              (u32 n <> 0 -> cur < end_ /\ cur < c).
Proof.
  intros Hc. unfold read_block_count.
  destruct (AvroFacts.avro_decode_zigzag_varint_total src end_ cur Hc Hend)
    as (v & c & E & Hcc & Hadv).
  destruct (Z.ltb_spec cur end_) as [Hlt|Hge].
  - rewrite E. cbn [bind fst snd]. destruct (s32 v <? 0).
    + destruct (AvroFacts.avro_decode_zigzag_varint_total src end_ c ltac:(lia) Hend)
        as (v' & c' & -> & Hcc' & _). cbn [bind snd].
      do 2 eexists. split; [reflexivity|]. lia.
    + do 2 eexists. split; [reflexivity|]. lia.
  - unfold avro_decode_zigzag_varint. destruct (Z.ltb_spec cur end_); [lia|].
    cbn [bind fst snd]. rewrite AvroFacts.zigzag_0. change (s32 0 <? 0) with false. cbv iota.
    do 2 eexists. split; [reflexivity|]. split; [lia|]. intros Hu. exfalso. apply Hu. reflexivity.
Qed.

(** The [switch]: every load lies within the input, the cursor does not
    move back, and only an array entry touches the array variables. *)
Lemma decode_field_total (knd : type_kind_e) (d : schemadesc_s) (i cur skip : Z)
    (st : row_state) :
  0 <= cur ->
  exists st1 sk,
    decode_field knd d i cur skip st = Ret (st1, sk) /\
    cur <= r_cur st1 /\ r_i st1 = r_i st /\
    length (schema_g st1) = length (schema_g st) /\
    (knd <> type_array ->
       array_start st1 = array_start st /\
       array_repeat_count st1 = array_repeat_count st) /\
    (knd = type_array ->
       array_start st1 = i /\ 0 <= array_repeat_count st1 < 2 ^ 32 /\
       (array_repeat_count st1 <> 0 -> cur < end_ /\ cur < r_cur st1)).
Proof.
  intros Hc. unfold Avro.decode_field.
  destruct (AvroFacts.avro_decode_zigzag_varint_total src end_ cur Hc Hend)
    as (v & c & Ev & Hcc & _).
  destruct knd.
  - (* null *)
    destruct (writes row max_rows d); do 2 eexists; (split; [reflexivity|]);
      cbn [r_cur r_i schema_g array_start array_repeat_count emit];
      rewrite ?bump_count_length; repeat split; try lia; try discriminate.
  - (* boolean *)
    destruct (writes row max_rows d).
    + destruct (Z.ltb_spec cur end_).
      * destruct (load_in src cur) as (b & -> & _); [lia|]. cbn [bind].
        do 2 eexists; (split; [reflexivity|]); cbn; repeat split; try lia; discriminate.
      * cbn [bind]. do 2 eexists; (split; [reflexivity|]); cbn; repeat split; try lia;
          discriminate.
    + do 2 eexists; (split; [reflexivity|]); cbn; repeat split; try lia; discriminate.
  - (* int *)
    rewrite Ev. cbn [bind fst snd].
    destruct (writes row max_rows d); do 2 eexists; (split; [reflexivity|]); cbn;
      repeat split; try lia; discriminate.
  - (* long *)
    rewrite Ev. cbn [bind fst snd].
    destruct (writes row max_rows d); do 2 eexists; (split; [reflexivity|]); cbn;
      repeat split; try lia; discriminate.
  - (* float *)
    destruct (writes row max_rows d).
    + destruct (Z.ltb_spec (cur + 3) end_).
      * unfold unaligned_load32. destruct (src_load32_in cur) as (x & ->); [lia|lia|].
        cbn [bind]. do 2 eexists; (split; [reflexivity|]); cbn; repeat split; try lia;
          discriminate.
      * do 2 eexists; (split; [reflexivity|]); cbn; repeat split; try lia; discriminate.
    + do 2 eexists; (split; [reflexivity|]); cbn; repeat split; try lia; discriminate.
  - (* double *)
    destruct (writes row max_rows d).
    + destruct (Z.ltb_spec (cur + 7) end_).
      * unfold unaligned_load64. destruct (src_load32_in cur) as (x & ->); [lia|lia|].
        destruct (src_load32_in (cur + 4)) as (y & ->); [lia|lia|].
        cbn [bind]. do 2 eexists; (split; [reflexivity|]); cbn; repeat split; try lia;
          discriminate.
      * do 2 eexists; (split; [reflexivity|]); cbn; repeat split; try lia; discriminate.
    + do 2 eexists; (split; [reflexivity|]); cbn; repeat split; try lia; discriminate.
  - (* bytes *)
    rewrite Ev. cbn [bind fst snd].
    destruct (Z.leb_spec 0 v); destruct (c + v <=? end_); cbn [andb];
      destruct (writes row max_rows d); do 2 eexists; (split; [reflexivity|]); cbn;
      repeat split; try lia; discriminate.
  - (* string *)
    rewrite Ev. cbn [bind fst snd].
    destruct (Z.leb_spec 0 v); destruct (c + v <=? end_); cbn [andb];
      destruct (writes row max_rows d); do 2 eexists; (split; [reflexivity|]); cbn;
      repeat split; try lia; discriminate.
  - (* enum *)
    rewrite Ev. cbn [bind fst snd].
    destruct (global_dictionary !! Z.to_nat (u64 (count d + v))) as [[f s]|];
      destruct (writes row max_rows d); do 2 eexists; (split; [reflexivity|]); cbn;
      repeat split; try lia; discriminate.
  - (* record *)
    do 2 eexists; (split; [reflexivity|]); cbn; repeat split; try lia; discriminate.
  - (* union *)
    do 2 eexists; (split; [reflexivity|]); cbn; repeat split; try lia; discriminate.
  - (* array *)
    destruct (read_block_count_total cur Hc) as (n & c' & -> & Hc' & Hn). cbn [bind fst snd].
    do 2 eexists; (split; [reflexivity|]).
    cbn [r_cur r_i schema_g array_start array_repeat_count].
    pose proof (u32_range n). repeat split; try lia; try congruence; apply Hn; assumption.
Qed.

(** The end of the loop body: [i] moves forward, or the loop goes back to
    the array at hand with one repetition less. *)
Lemma array_advance_total (i skip : Z) (st : row_state) :
  0 <= i < schema_len st -> 0 <= array_repeat_count st < 2 ^ 32 ->
  (array_repeat_count st <> 0 -> 0 <= array_start st < schema_len st) ->
  exists st2,
    array_advance i skip st = Ret st2 /\
    r_cur st2 = r_cur st /\ schema_g st2 = schema_g st /\
    array_start st2 = array_start st /\
    ((array_repeat_count st2 = array_repeat_count st /\ i < r_i st2 <= schema_len st) \/
     (array_repeat_count st <> 0 /\ r_cur st < end_ /\
      array_repeat_count st2 = array_repeat_count st - 1 /\
      array_start st <= r_i st2 <= array_start st + 1)).
Proof.
  intros Hi Hr Hs. unfold Avro.array_advance, Avro.schema_len in *.
  destruct (entry_in (view schema st) i Hi) as (d & -> & _). cbn [bind].
  pose proof (skip_from_bounds (view schema st) (i + 1) skip ltac:(lia)) as Hsk.
  destruct (skip_from (view schema st) (i + 1) skip) as [i' sk]. cbn [fst] in Hsk.
  destruct (Z.eqb_spec (array_repeat_count st) 0) as [E0|E0]; cbn [negb andb].
  { eexists. split; [reflexivity|]. cbn. repeat split; first [reflexivity|lia]. }
  match goal with |- context [?c <=? 0] => destruct (c <=? 0) end; cbn [andb];
    [|eexists; split; [reflexivity|]; cbn; repeat split; first [reflexivity|lia]].
  destruct (Z.ltb_spec (r_cur st) end_);
    [|eexists; split; [reflexivity|]; cbn; repeat split; first [reflexivity|lia]].
  rewrite (u32_id (array_repeat_count st - 1)) by lia.
  destruct (array_repeat_count st - 1 =? 0).
  - eexists. split; [reflexivity|]. cbn. repeat split; first [reflexivity|lia].
  - destruct (entry_in (view schema st) (array_start st) (Hs E0)) as (a & -> & _). cbn [bind].
    eexists. split; [reflexivity|]. cbn. repeat split; first [reflexivity|lia].
Qed.

(** One pass through the loop body, from a state within its bounds: it
    reads within the input and the schema, leaves the state within its
    bounds, does not move the cursor back, and brings the measure down. *)
Lemma row_step_progress (st : row_state) :
  row_wf st -> r_i st < schema_len st ->
  exists c, row_step st = Ret c /\
    match c with
    | row_break st' => r_cur st <= r_cur st'
    | row_next st' =>
      row_wf st' /\ schema_len st' = schema_len st /\ r_cur st <= r_cur st' /\
      row_measure st' < row_measure st
    end.
Proof.
  intros (Hc & Hi & Hr & Hs) Hlt. unfold Avro.row_step.
  destruct (entry_in (view schema st) (r_i st)) as (d & -> & Hd);
    [unfold Avro.schema_len in *; lia|]. cbn [bind].
  destruct (select_branch_total (view schema st) d (r_i st) (r_cur st) Hc ltac:(lia) Hd)
    as (b & -> & Hb). cbn [bind].
  destruct b as [c|i c knd skip]; [eexists; split; [reflexivity|exact Hb]|].
  destruct Hb as (Hi' & Hcc).
  destruct (entry_in (view schema st) i) as (d' & -> & _); [lia|]. cbn [bind].
  destruct (decode_field_total knd d' i c skip st ltac:(lia))
    as (st1 & sk & -> & Hc1 & Hi1 & Hg1 & Hna & Ha). cbn [bind fst snd].
  assert (Hlen1 : schema_len st1 = schema_len st).
  { unfold Avro.schema_len, view. destruct schema; [reflexivity|]. rewrite Hg1. reflexivity. }
  assert (Hr1 : 0 <= array_repeat_count st1 < 2 ^ 32).
  { destruct (kind_is_array knd) as [E|E]; [apply Ha; exact E|].
    destruct (Hna E) as (_ & ->). exact Hr. }
  assert (Hs1 : array_repeat_count st1 <> 0 -> 0 <= array_start st1 < schema_len st1).
  { rewrite Hlen1. destruct (kind_is_array knd) as [E|E].
    - destruct (Ha E) as (-> & _). unfold Avro.schema_len. lia.
    - destruct (Hna E) as (-> & ->). exact Hs. }
  destruct (array_advance_total i sk st1) as (st2 & -> & Hc2 & Hg2 & Hs2 & Hcase);
    [rewrite Hlen1; unfold Avro.schema_len; lia|exact Hr1|exact Hs1|]. cbn [bind].
  eexists. split; [reflexivity|].
  assert (Hlen2 : schema_len st2 = schema_len st).
  { rewrite <- Hlen1. unfold Avro.schema_len, view. destruct schema; [reflexivity|].
    rewrite Hg2. reflexivity. }
  unfold Avro.row_wf, Avro.row_measure. rewrite Hlen2, Hc2.
  set (L := schema_len st) in *.
  assert (HL : 0 <= L) by (unfold L, Avro.schema_len; lia).
  assert (Hilt : i < L) by (unfold L, Avro.schema_len; lia).
  set (K := 2 ^ 32 * (L + 1)).
  assert (HK : 0 < K) by (unfold K; lia).
  set (e := Z.max 0 (end_ - r_cur st)). set (e1 := Z.max 0 (end_ - r_cur st1)).
  assert (He : 0 <= e1 <= e) by (unfold e, e1; lia).
  assert (HeK : e1 * K <= e * K) by (apply Z.mul_le_mono_nonneg_r; lia).
  (* an array entry that leaves a repetition count has consumed input *)
  assert (Harr : knd = type_array -> array_repeat_count st1 <> 0 ->
                 e1 * K + K <= e * K).
  { intros E Hn. destruct (Ha E) as (_ & _ & Hadv). destruct (Hadv Hn) as (Hce & Hc1').
    assert (e1 + 1 <= e) by (unfold e, e1; lia).
    replace (e1 * K + K) with ((e1 + 1) * K) by ring.
    apply Z.mul_le_mono_nonneg_r; lia. }
  assert (HrL : forall r, 0 <= r < 2 ^ 32 -> r * (L + 1) + L < K).
  { intros r Hrr. unfold K. nia. }
  rewrite Hlen1 in *.
  destruct Hcase as [(Hrep & Hi2)|(Hn1 & Hce & Hrep & Hi2)].
  - split; [|split; [reflexivity|split; [lia|]]].
    + split; [lia|]. split; [lia|]. rewrite Hrep. split; [lia|]. rewrite Hs2. exact Hs1.
    + rewrite Hrep.
      destruct (kind_is_array knd) as [E|E].
      * destruct (Z.eq_dec (array_repeat_count st1) 0) as [E0|E0].
        -- rewrite E0. assert (0 <= array_repeat_count st * (L + 1)) by nia. lia.
        -- pose proof (Harr E E0). pose proof (HrL _ Hr1).
           assert (0 <= array_repeat_count st * (L + 1)) by nia. lia.
      * destruct (Hna E) as (_ & ->). lia.
  - assert (Hs1' := Hs1 Hn1).
    split; [|split; [reflexivity|split; [lia|]]].
    + split; [lia|]. split; [lia|]. rewrite Hrep. split; [lia|]. rewrite Hs2. intros _. exact Hs1'.
    + rewrite Hrep.
      destruct (kind_is_array knd) as [E|E].
      * pose proof (Harr E Hn1). pose proof (HrL (array_repeat_count st1 - 1) ltac:(lia)).
        assert (0 <= array_repeat_count st * (L + 1)) by nia. lia.
      * destruct (Hna E) as (_ & Er). rewrite Er in *.
        replace ((array_repeat_count st - 1) * (L + 1))
          with (array_repeat_count st * (L + 1) - (L + 1)) by ring. lia.
Qed.

(** The loop never reads outside the input or the schema, and where it
    returns the cursor has not moved back. *)
Lemma row_loop_in_bounds (fuel : nat) (st : row_state) :
  row_wf st ->
  row_loop fuel st = OutOfFuel \/
  exists st', row_loop fuel st = Ret st' /\ r_cur st <= r_cur st'.
Proof.
  revert st. induction fuel as [|fuel IH]; intros st Hwf; [left; reflexivity|].
  cbn [Avro.row_loop]. fold (schema_len st).
  destruct (Z.ltb_spec (r_i st) (schema_len st)) as [Hlt|Hge];
    [|right; eexists; split; [reflexivity|lia]].
  destruct (row_step_progress st Hwf Hlt) as (c & -> & Hc). cbn [bind].
  destruct c as [st'|st']; [right; eexists; split; [reflexivity|exact Hc]|].
  destruct Hc as (Hwf' & _ & Hcur & _).
  destruct (IH st' Hwf') as [->|(st2 & -> & H2)]; [left; reflexivity|].
  right. eexists. split; [reflexivity|lia].
Qed.

(** With [fuel] above the measure the loop returns. *)
Lemma row_loop_returns (fuel : nat) (st : row_state) :
  row_wf st -> row_measure st < Z.of_nat fuel ->
  exists st', row_loop fuel st = Ret st'.
Proof.
  revert st. induction fuel as [|fuel IH]; intros st Hwf Hm.
  { exfalso. destruct Hwf as (_ & Hi & Hr & _). unfold Avro.row_measure in Hm.
    assert (0 <= Z.max 0 (end_ - r_cur st) * (2 ^ 32 * (schema_len st + 1))) by nia.
    assert (0 <= array_repeat_count st * (schema_len st + 1)) by nia. lia. }
  cbn [Avro.row_loop]. fold (schema_len st).
  destruct (Z.ltb_spec (r_i st) (schema_len st)) as [Hlt|Hge]; [|eauto].
  destruct (row_step_progress st Hwf Hlt) as (c & -> & Hc). cbn [bind].
  destruct c as [st'|st']; [eauto|].
  destruct Hc as (Hwf' & _ & _ & Hdec). apply IH; [exact Hwf'|lia].
Qed.

(** The stores of one [switch]: a string stored lies within the input, after
    the cursor, or comes from the dictionary. *)
Lemma decode_field_string_refs (knd : type_kind_e) (d : schemadesc_s) (i cur skip lo : Z)
    (st st1 : row_state) (sk : Z) :
  0 <= cur -> lo <= cur ->
  decode_field knd d i cur skip st = Ret (st1, sk) ->
  exists new, stores st1 = stores st ++ new /\
              Forall (string_ref_ok global_dictionary lo end_) new.
Proof.
  intros Hc Hlo H. unfold Avro.decode_field in H.
  destruct (AvroFacts.avro_decode_zigzag_varint_total src end_ cur Hc Hend)
    as (v & c & Ev & Hcc & _).
  assert (Hnone : forall s, stores s = stores st ->
            exists new, stores s = stores st ++ new /\
                        Forall (string_ref_ok global_dictionary lo end_) new).
  { intros s E. exists []. split; [rewrite app_nil_r; exact E|constructor]. }
  assert (Hone : forall s ev, stores s = stores st ++ [ev] ->
            string_ref_ok global_dictionary lo end_ ev ->
            exists new, stores s = stores st ++ new /\
                        Forall (string_ref_ok global_dictionary lo end_) new).
  { intros s ev E Hev. exists [ev]. split; [exact E|repeat constructor; exact Hev]. }
  destruct knd; rewrite ?Ev in H; cbn [bind fst snd] in H.
  - destruct (writes row max_rows d); injection H as <- _.
    + eexists. split; [reflexivity|]. repeat constructor.
    + apply Hnone. cbn. apply app_nil_r.
  - destruct (writes row max_rows d).
    + apply bind_Ret_inv in H as (b & _ & [= <- _]). eapply Hone; [reflexivity|exact I].
    + injection H as <- _. apply Hnone. cbn. apply app_nil_r.
  - destruct (writes row max_rows d); injection H as <- _.
    + eapply Hone; [reflexivity|exact I].
    + apply Hnone. cbn. apply app_nil_r.
  - destruct (writes row max_rows d); injection H as <- _.
    + eapply Hone; [reflexivity|exact I].
    + apply Hnone. cbn. apply app_nil_r.
  - destruct (writes row max_rows d).
    + destruct (cur + 3 <? end_);
        [apply bind_Ret_inv in H as (b & _ & [= <- _])|injection H as <- _];
        (eapply Hone; [reflexivity|exact I]).
    + injection H as <- _. apply Hnone. cbn. apply app_nil_r.
  - destruct (writes row max_rows d).
    + destruct (cur + 7 <? end_);
        [apply bind_Ret_inv in H as (b & _ & [= <- _])|injection H as <- _];
        (eapply Hone; [reflexivity|exact I]).
    + injection H as <- _. apply Hnone. cbn. apply app_nil_r.
  - destruct (Z.leb_spec 0 v); destruct (Z.leb_spec (c + v) end_); cbn [andb] in H;
      destruct (writes row max_rows d); injection H as <- _;
      first [ apply Hnone; cbn; apply app_nil_r
            | eapply Hone; [reflexivity|simpl; lia] ].
  - destruct (Z.leb_spec 0 v); destruct (Z.leb_spec (c + v) end_); cbn [andb] in H;
      destruct (writes row max_rows d); injection H as <- _;
      first [ apply Hnone; cbn; apply app_nil_r
            | eapply Hone; [reflexivity|simpl; lia] ].
  - destruct (global_dictionary !! Z.to_nat (u64 (count d + v))) as [[f s]|] eqn:El;
      destruct (writes row max_rows d); injection H as <- _;
      first [ apply Hnone; cbn; apply app_nil_r
            | eapply Hone; [reflexivity|simpl] ]; [|reflexivity].
    apply list_elem_of_In. eapply list_elem_of_lookup_2. exact El.
  - injection H as <- _. apply Hnone. cbn. apply app_nil_r.
  - injection H as <- _. apply Hnone. cbn. apply app_nil_r.
  - apply bind_Ret_inv in H as (r & _ & [= <- _]). apply Hnone. reflexivity.
Qed.

Lemma row_loop_string_refs (fuel : nat) (lo : Z) (st st' : row_state) :
  row_wf st -> lo <= r_cur st ->
  row_loop fuel st = Ret st' ->
  exists new, stores st' = stores st ++ new /\
              Forall (string_ref_ok global_dictionary lo end_) new.
Proof.
  revert st. induction fuel as [|fuel IH]; intros st Hwf Hlo H; [discriminate|].
  cbn [Avro.row_loop] in H. fold (schema_len st) in H.
  destruct (Z.ltb_spec (r_i st) (schema_len st)) as [Hlt|Hge];
    [|injection H as <-; exists []; split; [symmetry; apply app_nil_r|constructor]].
  destruct (row_step_progress st Hwf Hlt) as (c & Hstep & Hc).
  rewrite Hstep in H. cbn [bind] in H.
  (* the stores of the step *)
  assert (Hst : exists new, stores (match c with row_break s | row_next s => s end)
                            = stores st ++ new /\
                            Forall (string_ref_ok global_dictionary lo end_) new).
  { clear H. unfold Avro.row_step in Hstep.
    apply bind_Ret_inv in Hstep as (d & Hd & Hstep).
    apply bind_Ret_inv in Hstep as (b & Hb & Hstep).
    assert (Hd' : view schema st !! Z.to_nat (r_i st) = Some d).
    { destruct (entry_in (view schema st) (r_i st)) as (d0 & E0 & Hd0);
        [destruct Hwf as (_ & ? & _); unfold Avro.schema_len in *; lia|]. congruence. }
    destruct Hwf as (Hcur & Hi & _).
    destruct (select_branch_total (view schema st) d (r_i st) (r_cur st) Hcur ltac:(lia) Hd')
      as (b' & Eb & Hbb). rewrite Eb in Hb. injection Hb as ->.
    destruct b as [cb|i cb knd skip].
    - injection Hstep as <-. exists []. split; [symmetry; apply app_nil_r|constructor].
    - apply bind_Ret_inv in Hstep as (d1 & _ & Hstep).
      apply bind_Ret_inv in Hstep as ([st1 sk] & Hf & Hstep).
      apply bind_Ret_inv in Hstep as (st2 & Ha & [= <-]).
      apply AvroFacts.array_advance_stores in Ha as (-> & _).
      eapply decode_field_string_refs; [| |exact Hf]; lia. }
  destruct c as [s|s].
  - injection H as <-. exact Hst.
  - destruct Hc as (Hwf' & _ & Hcur' & _).
    destruct Hst as (n1 & E1 & F1).
    destruct (IH s Hwf' ltac:(lia) H) as (n2 & E2 & F2).
    exists (n1 ++ n2). split; [rewrite E2, E1, app_assoc; reflexivity|].
    apply Forall_app. auto.
Qed.

End Steps.

(** X1: [avro_decode_row] terminates on every input whose cursor and end
    lie in the buffer, whatever the schema, the row and the bytes: from
    some number of loop iterations on it returns, having read only within
    the input and the schema, with a cursor that is not before the one it
    was given. *)
Theorem avro_decode_row_terminates (kind_code : type_kind_e -> Z)
    (schema : option (list schemadesc_s)) (global_dictionary : list (Z * Z))
    (src : list byte) (end_ row max_rows : Z)
    (g : list schemadesc_s) (log : list store_e) (cur : Z) :
  0 <= cur -> end_ <= Z.of_nat (length src) ->
  exists fuel0, forall fuel, (fuel0 <= fuel)%nat ->
    exists st,
      avro_decode_row kind_code schema global_dictionary src end_ row max_rows fuel g log cur
        = Ret st /\
      cur <= r_cur st.
Proof.
  intros Hc He. set (st0 := mk_row 0 cur 0 0 0 g log).
  assert (Hwf : row_wf schema st0).
  { unfold row_wf, schema_len. cbn. repeat split; try lia. }
  exists (S (Z.to_nat (row_measure schema end_ st0))). intros fuel Hf.
  unfold avro_decode_row. fold st0.
  destruct (row_loop_returns kind_code schema global_dictionary src end_ row max_rows He
              fuel st0 Hwf ltac:(lia)) as (st & E).
  exists st. split; [exact E|].
  destruct (row_loop_in_bounds kind_code schema global_dictionary src end_ row max_rows He
              fuel st0 Hwf) as [E'|(st' & E' & Hcur)]; rewrite E in E'; [discriminate|].
  injection E' as <-. exact Hcur.
Qed.

Lemma avro_decode_row_terminates_witness :
  exists fuel0, forall fuel, (fuel0 <= fuel)%nat ->
    exists st,
      avro_decode_row kind_code_primitive_first (Some ex_array_of_int) []
        (mk_bytes [6; 2; 4; 6; 0]) 5 0 10 fuel ex_array_of_int [] 0 = Ret st /\
      0 <= r_cur st.
Proof.
  apply (avro_decode_row_terminates kind_code_primitive_first (Some ex_array_of_int) []
           (mk_bytes [6; 2; 4; 6; 0]) 5 0 10 ex_array_of_int [] 0).
  - lia.
  - simpl. lia.
Defined.

(** X2: every string that [avro_decode_row] stores for a bytes, string or
    enum field refers to bytes of the input at or after the cursor the call
    was given and before [end], or is an entry of the global dictionary, or
    is the null pointer with length 0. *)
Theorem avro_decode_row_string_refs (kind_code : type_kind_e -> Z)
    (schema : option (list schemadesc_s)) (global_dictionary : list (Z * Z))
    (src : list byte) (end_ row max_rows : Z) (fuel : nat)
    (g : list schemadesc_s) (log : list store_e) (cur : Z) (st : row_state) :
  0 <= cur -> end_ <= Z.of_nat (length src) ->
  avro_decode_row kind_code schema global_dictionary src end_ row max_rows fuel g log cur
    = Ret st ->
  exists new,
    stores st = log ++ new /\
    Forall (string_ref_ok global_dictionary cur end_) new.
Proof.
  intros Hc He H.
  apply (row_loop_string_refs kind_code schema global_dictionary src end_ row max_rows He
           fuel cur) in H; [exact H| |simpl; lia].
  unfold row_wf, schema_len. cbn. repeat split; try lia.
Qed.

Lemma avro_decode_row_string_refs_witness :
  exists new,
    stores (mk_row 2 5 0 0 0
              [mk_desc type_string 0 (Some 100); mk_desc type_enum 1 (Some 200)]
              [put_string 100 0 (data_chars 1) 3; put_string 200 0 (dictionary_chars 7) 2])
    = [] ++ new /\
    Forall (string_ref_ok [(5, 1); (7, 2)] 0 5) new.
Proof.
  apply (avro_decode_row_string_refs kind_code_primitive_first
           (Some [mk_desc type_string 0 (Some 100); mk_desc type_enum 1 (Some 200)])
           [(5, 1); (7, 2)] (mk_bytes [6; 97; 98; 99; 0]) 5 0 10 5
           [mk_desc type_string 0 (Some 100); mk_desc type_enum 1 (Some 200)] [] 0).
  - lia.
  - simpl. lia.
  - reflexivity.
Defined.

End AvroRun.

(** * The zig-zag varint inverts the Avro encoding of a long *)

Module AvroCodec.
Import Avro.

Lemma lxor_ones_64 (k : Z) : 0 <= k < 2 ^ 64 -> Z.lxor k (2 ^ 64 - 1) = 2 ^ 64 - 1 - k.
Proof.
  intros Hk. pose proof (Z.add_lxor_2land k (2 ^ 64 - 1)) as H.
  change (2 ^ 64 - 1) with (Z.ones 64) in H at 2.
  rewrite Z.land_ones in H by lia. rewrite Z.mod_small in H by lia. lia.
Qed.

Lemma land_1 (u : Z) : Z.land u 1 = u mod 2.
Proof. change 1 with (Z.ones 1). rewrite Z.land_ones by lia. reflexivity. Qed.

Lemma zigzag_inverts (v : Z) :
  - 2 ^ 63 <= v < 2 ^ 63 -> zigzag (Encode.zigzag_encode v) = v.
Proof.
  intros Hv. unfold zigzag, Encode.zigzag_encode.
  rewrite Z.shiftr_div_pow2 by lia. change (2 ^ 1) with 2. rewrite !land_1.
  destruct (Z.ltb_spec v 0).
  - replace ((- 2 * v - 1) / 2) with (- v - 1) by (Z.to_euclidean_division_equations; lia).
    replace ((- 2 * v - 1) mod 2) with 1 by (Z.to_euclidean_division_equations; lia).
    change (u64 (- (1))) with (2 ^ 64 - 1). rewrite lxor_ones_64 by lia.
    unfold s64. replace (2 ^ 64 - 1 - (- v - 1) + 2 ^ 63) with (v + 2 ^ 63 + 1 * 2 ^ 64) by lia.
    rewrite Z.mod_add by lia. rewrite Z.mod_small by lia. lia.
  - replace (2 * v / 2) with v by (Z.to_euclidean_division_equations; lia).
    replace (2 * v mod 2) with 0 by (Z.to_euclidean_division_equations; lia).
    change (u64 (- 0)) with 0. rewrite Z.lxor_0_r.
    unfold s64. rewrite Z.mod_small by lia. lia.
Qed.

(** The loop of the decoder on the bytes of a varint: it adds the value,
    scaled, to what it has, and stops after the last byte. *)
Lemma varint_loop_decodes (src : list byte) (end_ : Z) (f : nat) :
  forall (w a s cur : Z) (fuel : nat),
  (1 <= f)%nat -> 0 <= w < 128 ^ Z.of_nat f ->
  0 <= a -> 0 < s -> a + s * w < 2 ^ 64 -> 0 <= cur ->
  bytes_at src cur (Encode.varint_bytes f w) ->
  cur + Z.of_nat (length (Encode.varint_bytes f w)) <= end_ ->
  (length (Encode.varint_bytes f w) <= fuel)%nat ->
  varint_loop fuel src end_ cur a s
  = Ret (a + s * w, cur + Z.of_nat (length (Encode.varint_bytes f w))).
Proof.
  induction f as [|f IH]; intros w a s cur fuel Hf Hw Ha Hs Hsum Hc Hb He Hfuel; [lia|].
  cbn [Encode.varint_bytes] in *.
  destruct (Z.ltb_spec w 128) as [Hlt|Hge].
  - apply bytes_at_cons in Hb as [Hl _]. cbn [length] in *.
    destruct fuel as [|fuel]; [lia|]. cbn [varint_loop].
    destruct (Z.ltb_spec cur end_); [|lia]. rewrite Hl. cbn [bind].
    destruct (Z.ltb_spec w 128); [|lia].
    rewrite land_127, (Z.mod_small w 128) by lia.
    unfold u64. rewrite (Z.mod_small (w * s)) by nia. rewrite Z.mod_small by nia.
    do 2 f_equal; lia.
  - apply bytes_at_cons in Hb as [Hl Hb]. cbn [length] in *.
    destruct fuel as [|fuel]; [lia|]. cbn [varint_loop].
    destruct (Z.ltb_spec cur end_); [|lia]. rewrite Hl. cbn [bind].
    pose proof (Z.mod_pos_bound w 128 ltac:(lia)) as Hm.
    destruct (Z.ltb_spec (w mod 128 + 128) 128); [lia|].
    rewrite land_127.
    replace ((w mod 128 + 128) mod 128) with (w mod 128)
      by (Z.to_euclidean_division_equations; lia).
    assert (Hdiv : w = 128 * (w / 128) + w mod 128) by (apply Z.div_mod; lia).
    assert (Hq : 1 <= w / 128) by (Z.to_euclidean_division_equations; lia).
    assert (Hf' : (1 <= f)%nat).
    { destruct f as [|f']; [|lia]. simpl in Hw. lia. }
    assert (Hq' : w / 128 < 128 ^ Z.of_nat f).
    { rewrite Nat2Z.inj_succ, Z.pow_succ_r in Hw by lia.
      apply Z.div_lt_upper_bound; lia. }
    rewrite Z.shiftl_mul_pow2 by lia. change (2 ^ 7) with 128.
    assert (Hsw : s * 128 <= s * w) by nia.
    assert (Hms : 0 <= w mod 128 * s <= s * w) by nia.
    unfold u64. rewrite (Z.mod_small (w mod 128 * s)) by lia.
    rewrite (Z.mod_small (a + w mod 128 * s)) by lia.
    rewrite (Z.mod_small (s * 128)) by lia.
    rewrite (IH (w / 128) (a + w mod 128 * s) (s * 128) (cur + 1) fuel);
      [|first [assumption|lia|nia]..].
    do 2 f_equal; lia.
Qed.

(** X3: [avro_decode_zigzag_varint] inverts the Avro encoding of a long:
    where the buffer holds, from the cursor on and before [end], the varint
    of the zig-zag code of any 64-bit [v], the decoder returns [v] and moves
    the cursor right past those bytes. *)
Theorem avro_long_round_trip (src : list byte) (end_ cur v : Z) :
  - 2 ^ 63 <= v < 2 ^ 63 -> 0 <= cur ->
  slice src cur (Z.of_nat (length (Encode.avro_long v))) = mk_bytes (Encode.avro_long v) ->
  cur + Z.of_nat (length (Encode.avro_long v)) <= end_ ->
  avro_decode_zigzag_varint src end_ cur
  = Ret (v, cur + Z.of_nat (length (Encode.avro_long v))).
Proof.
  intros Hv Hc Hs He. unfold Encode.avro_long, Encode.varint64 in *.
  set (u := Encode.zigzag_encode v) in *.
  assert (Hu : 0 <= u < 2 ^ 64).
  { unfold u, Encode.zigzag_encode. destruct (v <? 0) eqn:E; lia. }
  assert (Hz : zigzag u = v) by (apply zigzag_inverts; exact Hv).
  apply bytes_at_slice in Hs; [|exact Hc|apply varint_bytes_range; lia].
  change (Encode.varint_bytes 10 u)
    with (if u <? 128 then [u] else (u mod 128 + 128) :: Encode.varint_bytes 9 (u / 128)) in *.
  unfold avro_decode_zigzag_varint.
  destruct (Z.ltb_spec u 128) as [Hlt|Hge].
  - apply bytes_at_cons in Hs as [Hl _]. cbn [length] in *.
    destruct (Z.ltb_spec cur end_); [|lia]. rewrite Hl. cbn [bind].
    destruct (Z.ltb_spec 127 u); [lia|]. rewrite Hz. do 2 f_equal.
  - apply bytes_at_cons in Hs as [Hl Hb]. cbn [length] in *.
    destruct (Z.ltb_spec cur end_); [|lia]. rewrite Hl. cbn [bind].
    pose proof (Z.mod_pos_bound u 128 ltac:(lia)) as Hm.
    destruct (Z.ltb_spec 127 (u mod 128 + 128)); [|lia].
    rewrite land_127.
    replace ((u mod 128 + 128) mod 128) with (u mod 128)
      by (Z.to_euclidean_division_equations; lia).
    assert (Hdiv : u = 128 * (u / 128) + u mod 128) by (apply Z.div_mod; lia).
    rewrite (varint_loop_decodes src end_ 9 (u / 128) (u mod 128) 128 (cur + 1)); try lia;
      try assumption.
    cbn [bind fst snd]. replace (u mod 128 + 128 * (u / 128)) with u by lia.
    rewrite Hz. do 2 f_equal. lia.
Qed.

Lemma avro_long_round_trip_witness :
  avro_decode_zigzag_varint (mk_bytes [7; 215; 4; 9]) 4 1
  = Ret (-300, 1 + Z.of_nat (length (Encode.avro_long (-300)))).
Proof.
  apply (avro_long_round_trip (mk_bytes [7; 215; 4; 9]) 4 1 (-300)).
  - lia.
  - lia.
  - reflexivity.
  - simpl. lia.
Defined.

End AvroCodec.

(** * Rows of plain fields, and unions *)

Module AvroShape.
Import Avro.

Section Shape.

Variable kind_code : type_kind_e -> Z.
Variable sch : list schemadesc_s.
Variable global_dictionary : list (Z * Z).
Variable src : list byte.
Variables end_ row max_rows : Z.

#[local] Abbreviation decode_field := (decode_field global_dictionary src end_ row max_rows).
#[local] Abbreviation decode_fields :=
  (decode_fields global_dictionary src end_ row max_rows).
#[local] Abbreviation row_step :=
  (row_step kind_code (Some sch) global_dictionary src end_ row max_rows).
#[local] Abbreviation row_loop :=
  (row_loop kind_code (Some sch) global_dictionary src end_ row max_rows).

(** The end of the loop body outside an array: on to where the skip loop
    stops. *)
Lemma array_advance_outside (i skip : Z) (st : row_state) (d : schemadesc_s) :
  0 <= i -> sch !! Z.to_nat i = Some d -> array_repeat_count st = 0 ->
  array_advance kind_code (Some sch) end_ i skip st
  = Ret (mk_row (skip_from kind_code sch (i + 1) skip).1 (r_cur st) (array_start st) 0
                (array_children st) (schema_g st) (stores st)).
Proof.
  intros Hi Hd Hr. unfold array_advance. cbn [view].
  rewrite (AvroFacts.entry_lookup _ _ _ Hi Hd). cbn [bind]. rewrite Hr.
  change (negb (0 =? 0)) with false. cbn [andb].
  destruct (skip_from kind_code sch (i + 1) skip). reflexivity.
Qed.

(** One iteration at a plain entry outside an array. *)
Lemma plain_entry_step (st : row_state) (p : Z) (d : schemadesc_s) (st1 : row_state) (sk : Z) :
  r_i st = p -> 0 <= p -> sch !! Z.to_nat p = Some d -> plain (kind d) = true ->
  array_repeat_count st = 0 ->
  decode_field (kind d) d p (r_cur st) 0 st = Ret (st1, sk) ->
  row_step st
  = Ret (row_next (mk_row (p + 1) (r_cur st1) (array_start st) 0 (array_children st)
                          (schema_g st1) (stores st1))).
Proof.
  intros Hi Hp Hd Hpl Hr Hf.
  destruct (AvroFacts.decode_field_reframe _ _ _ _ _ _ _ _ _ _ _ st _ _ Hpl eq_refl eq_refl Hf)
    as (_ & -> & E1).
  unfold Avro.row_step. cbn [view]. rewrite Hi.
  rewrite (AvroFacts.entry_lookup _ _ _ Hp Hd). cbn [bind].
  unfold select_branch. rewrite (AvroFacts.plain_not_union _ Hpl). cbn [bind].
  rewrite (AvroFacts.entry_lookup _ _ _ Hp Hd). cbn [bind].
  rewrite Hf. cbn [bind fst snd].
  rewrite (array_advance_outside p 0 st1 d Hp Hd) by (rewrite E1; exact Hr). cbn [bind].
  rewrite AvroFacts.skip_from_0. rewrite E1. reflexivity.
Qed.

(** From entry [p] to the end of a schema of plain entries. *)
Lemma plain_run (m : nat) :
  forall (p : Z) (st st' : row_state) (fuel : nat),
  0 <= p -> Z.to_nat (Z.of_nat (length sch) - p) = m -> p <= Z.of_nat (length sch) ->
  Forall (fun d => plain (kind d) = true) sch ->
  r_i st = p -> array_repeat_count st = 0 ->
  decode_fields (drop (Z.to_nat p) sch) p st = Ret st' ->
  (m < fuel)%nat ->
  row_loop fuel st
  = Ret (mk_row (Z.of_nat (length sch)) (r_cur st') (array_start st) 0 (array_children st)
                (schema_g st') (stores st')).
Proof.
  induction m as [|m IH]; intros p st st' fuel Hp Hm Hle Hpl Hi Hr Hdec Hfuel.
  - assert (p = Z.of_nat (length sch)) as -> by lia.
    rewrite Nat2Z.id, drop_all in Hdec. injection Hdec as <-.
    destruct fuel as [|fuel]; [lia|]. cbn [Avro.row_loop view]. rewrite Hi.
    destruct (Z.ltb_spec (Z.of_nat (length sch)) (Z.of_nat (length sch))); [lia|].
    destruct st; cbn in *; subst; reflexivity.
  - destruct (lookup_lt_is_Some_2 sch (Z.to_nat p)) as [d Hd]; [lia|].
    rewrite (drop_S sch d (Z.to_nat p) Hd) in Hdec. cbn [Avro.decode_fields] in Hdec.
    destruct (decode_field (kind d) d p (r_cur st) 0 st) as [[st1 sk]| |] eqn:Ef;
      cbn [bind fst] in Hdec; try discriminate Hdec.
    assert (Hplain : plain (kind d) = true).
    { rewrite Forall_forall in Hpl. apply Hpl. eapply list_elem_of_lookup_2. exact Hd. }
    destruct (AvroFacts.decode_field_reframe _ _ _ _ _ _ _ _ _ _ _ st _ _ Hplain eq_refl eq_refl Ef)
      as (_ & _ & E1).
    destruct fuel as [|fuel]; [lia|]. cbn [Avro.row_loop view]. rewrite Hi.
    destruct (Z.ltb_spec p (Z.of_nat (length sch))); [|lia].
    rewrite (plain_entry_step st p d st1 sk Hi Hp Hd Hplain Hr Ef). cbn [bind].
    set (st2 := mk_row (p + 1) (r_cur st1) (array_start st) 0 (array_children st)
                       (schema_g st1) (stores st1)).
    replace (S (Z.to_nat p)) with (Z.to_nat (p + 1)) in Hdec by lia.
    destruct (AvroFacts.decode_fields_reframe global_dictionary src end_ row max_rows
                (drop (Z.to_nat (p + 1)) sch) (p + 1) st1 st2 st') as (Hdec2 & E');
      [apply Forall_drop; exact Hpl|reflexivity|reflexivity|reflexivity|exact Hdec|].
    rewrite (IH (p + 1) st2 (reframe st2 st') fuel); try lia; try assumption; reflexivity.
Qed.

End Shape.

(** X4: for a schema without unions and arrays (records and primitive
    fields), [avro_decode_row] decodes the fields of the entries one after
    the other, each from the cursor the one before left, in one iteration
    per entry, and returns after the last entry. *)
Theorem plain_row_decodes_fields_in_order (kind_code : type_kind_e -> Z)
    (sch : list schemadesc_s) (global_dictionary : list (Z * Z)) (src : list byte)
    (end_ row max_rows : Z) (g : list schemadesc_s) (log : list store_e) (cur : Z)
    (fuel : nat) (st' : row_state) :
  Forall (fun d => plain (kind d) = true) sch ->
  (length sch < fuel)%nat ->
  decode_fields global_dictionary src end_ row max_rows sch 0 (mk_row 0 cur 0 0 0 g log)
    = Ret st' ->
  avro_decode_row kind_code (Some sch) global_dictionary src end_ row max_rows fuel g log cur
  = Ret (mk_row (Z.of_nat (length sch)) (r_cur st') 0 0 0 (schema_g st') (stores st')).
Proof.
  intros Hpl Hfuel Hdec. unfold avro_decode_row.
  apply (plain_run kind_code sch global_dictionary src end_ row max_rows (length sch) 0);
    try lia; try assumption; reflexivity.
Qed.

Lemma plain_row_decodes_fields_in_order_witness :
  avro_decode_row kind_code_primitive_first
    (Some [mk_desc type_record 2 None; mk_desc type_int 0 (Some 100);
           mk_desc type_boolean 0 (Some 200)]) []
    (mk_bytes [5; 1]) 2 0 10 4
    [mk_desc type_record 2 None; mk_desc type_int 0 (Some 100);
     mk_desc type_boolean 0 (Some 200)] [] 0
  = Ret (mk_row 3 2 0 0 0
           [mk_desc type_record 2 None; mk_desc type_int 0 (Some 100);
            mk_desc type_boolean 0 (Some 200)]
           [put_int32 100 0 (-3); put_uint8 200 0 1]).
Proof.
  apply (plain_row_decodes_fields_in_order kind_code_primitive_first
           [mk_desc type_record 2 None; mk_desc type_int 0 (Some 100);
            mk_desc type_boolean 0 (Some 200)] [] (mk_bytes [5; 1]) 2 0 10
           [mk_desc type_record 2 None; mk_desc type_int 0 (Some 100);
            mk_desc type_boolean 0 (Some 200)] [] 0 4
           (mk_row 0 2 0 0 0
              [mk_desc type_record 2 None; mk_desc type_int 0 (Some 100);
               mk_desc type_boolean 0 (Some 200)]
              [put_int32 100 0 (-3); put_uint8 200 0 1])).
  - repeat constructor.
  - simpl. lia.
  - reflexivity.
Defined.

(** X5: at a union entry outside an array, the byte at the cursor, halved,
    is the number of the branch; when that branch exists and is a primitive
    field, the decoder steps over the branches before it, decodes it from
    the byte after the tag, steps over the branches after it, and goes on
    right after the union, all in one iteration. *)
Theorem union_decodes_selected_branch (kind_code : type_kind_e -> Z)
    (sch : list schemadesc_s) (global_dictionary : list (Z * Z)) (src : list byte)
    (end_ row max_rows : Z) (st : row_state) (i b p j : Z) (u d : schemadesc_s)
    (st1 : row_state) (sk : Z) :
  Z.of_nat (length sch) < 2 ^ 31 ->
  r_i st = i -> 0 <= i -> sch !! Z.to_nat i = Some u -> kind u = type_union ->
  array_repeat_count st = 0 ->
  r_cur st < end_ -> load src (r_cur st) = Ret b ->
  0 <= count u < 2 ^ 31 -> Z.shiftr b 1 < count u ->
  forest kind_code sch (i + 1) (Z.shiftr b 1) p ->
  sch !! Z.to_nat p = Some d ->
  plain (kind d) = true -> kind_ge_record kind_code (kind d) = false ->
  forest kind_code sch (p + 1) (count u - Z.shiftr b 1 - 1) j ->
  decode_field global_dictionary src end_ row max_rows (kind d) d p (r_cur st + 1)
    (count u - Z.shiftr b 1 - 1) st = Ret (st1, sk) ->
  row_step kind_code (Some sch) global_dictionary src end_ row max_rows st
  = Ret (row_next (mk_row j (r_cur st1) (array_start st) 0 (array_children st)
                          (schema_g st1) (stores st1))).
Proof.
  intros Hlen Hi Hi0 Hu Hk Hr Hce Hb Hcount Hsel Hbefore Hd Hpl Hleaf Hafter Hf.
  pose proof (load_range _ _ _ Hb) as Hbr.
  assert (Hs : 0 <= Z.shiftr b 1 < 128).
  { rewrite Z.shiftr_div_pow2 by lia. change (2 ^ 1) with 2. clear - Hbr.
    Z.to_euclidean_division_equations; lia. }
  pose proof (AvroFacts.forest_bounds _ _ _ _ _ Hbefore) as (_ & Hp & _).
  pose proof (lookup_lt_Some _ _ _ Hd) as Hplt.
  destruct (AvroFacts.decode_field_reframe _ _ _ _ _ _ _ _ _ _ _ st _ _ Hpl eq_refl eq_refl Hf)
    as (_ & -> & E1).
  unfold row_step. cbn [view]. rewrite Hi.
  rewrite (AvroFacts.entry_lookup _ _ _ Hi0 Hu). cbn [bind].
  unfold select_branch. rewrite Hk. cbn [is_union].
  destruct (Z.leb_spec end_ (r_cur st)); [lia|]. rewrite Hb. cbn [bind].
  rewrite (AvroFacts.skip_from_forest _ _ Hlen _ _ _ Hbefore).
  rewrite AvroFacts.s32_id by lia.
  destruct (Z.leb_spec (Z.of_nat (length sch)) p); [lia|].
  destruct (Z.ltb_spec (count u - Z.shiftr b 1 - 1) 0); [lia|]. cbn [orb].
  assert (Hp0 : 0 <= p) by lia.
  rewrite (AvroFacts.entry_lookup _ _ _ Hp0 Hd). cbn [bind].
  rewrite (AvroFacts.entry_lookup _ _ _ Hp0 Hd). cbn [bind].
  rewrite Hf. cbn [bind fst snd].
  rewrite (array_advance_outside kind_code sch end_ p _ st1 d Hp0 Hd)
    by (rewrite E1; exact Hr). cbn [bind].
  rewrite (AvroFacts.skip_from_forest _ _ Hlen _ _ _ Hafter). rewrite E1. reflexivity.
Qed.

Lemma union_decodes_selected_branch_witness :
  row_step kind_code_primitive_first
    (Some [mk_desc type_union 2 None; mk_desc type_null 0 (Some 100);
           mk_desc type_int 0 (Some 200)]) []
    (mk_bytes [2; 9]) 2 0 10
    (mk_row 0 0 0 0 0 [mk_desc type_union 2 None; mk_desc type_null 0 (Some 100);
                       mk_desc type_int 0 (Some 200)] [])
  = Ret (row_next (mk_row 3 2 0 0 0
                     [mk_desc type_union 2 None; mk_desc type_null 0 (Some 100);
                      mk_desc type_int 0 (Some 200)] [put_int32 200 0 (-5)])).
Proof.
  apply (union_decodes_selected_branch kind_code_primitive_first
           [mk_desc type_union 2 None; mk_desc type_null 0 (Some 100);
            mk_desc type_int 0 (Some 200)] [] (mk_bytes [2; 9]) 2 0 10
           (mk_row 0 0 0 0 0 [mk_desc type_union 2 None; mk_desc type_null 0 (Some 100);
                              mk_desc type_int 0 (Some 200)] [])
           0 2 2 3 (mk_desc type_union 2 None) (mk_desc type_int 0 (Some 200))
           (mk_row 0 2 0 0 0 [mk_desc type_union 2 None; mk_desc type_null 0 (Some 100);
                              mk_desc type_int 0 (Some 200)] [put_int32 200 0 (-5)])
           0).
  - simpl. lia.
  - reflexivity.
  - lia.
  - reflexivity.
  - reflexivity.
  - reflexivity.
  - simpl. lia.
  - reflexivity.
  - simpl. lia.
  - reflexivity.
  - apply (forest_leaf kind_code_primitive_first _ 1 0 2 (mk_desc type_null 0 (Some 100)));
      [lia|reflexivity|reflexivity|lia|apply forest_nil].
  - reflexivity.
  - reflexivity.
  - reflexivity.
  - apply forest_nil.
  - reflexivity.
Defined.

End AvroShape.

(** * The kernel and its launch *)

Module AvroKernel.
Import Avro.

Section Rows.

Variable kind_code : type_kind_e -> Z.
Variable schema : option (list schemadesc_s).
Variable global_dictionary : list (Z * Z).
Variable avro_data : list byte.
Variables min_row_size max_rows first_row : Z.
Variable row_fuel : nat.

(** The rows that the lanes decode are those from [cur_row] on. *)
Lemma decode_lanes_rows (lanes : list Z) (end_ start cur_row lo hi : Z)
    (g : list schemadesc_s) (log : list (Z * store_e))
    (g' : list schemadesc_s) (log' : list (Z * store_e)) :
  Forall (fun tid => lo <= cur_row + tid < hi) lanes ->
  Forall (fun e => lo <= e.1 < hi) log ->
  decode_lanes kind_code schema global_dictionary avro_data min_row_size max_rows
    first_row row_fuel lanes end_ start cur_row g log = Ret (g', log') ->
  Forall (fun e => lo <= e.1 < hi) log'.
Proof.
  revert g log. induction lanes as [|tid lanes IH]; intros g log Hl Hlog H.
  - injection H as <- <-. exact Hlog.
  - cbn [decode_lanes] in H. apply bind_Ret_inv in H as (st & _ & H).
    inversion Hl as [|? ? Ht Hl']; subst.
    eapply IH; [exact Hl'| |exact H]. apply Forall_app. split; [exact Hlog|].
    apply Forall_map, Forall_forall. intros ev _. simpl. exact Ht.
Qed.

(** Through the loop the rows still to come are those from [cur_row] to the
    end of the block, and the stores made are for rows of the block. *)
Lemma warp_loop_rows (fuel : nat) (end_ lo hi : Z) (w w' : warp_state) :
  0 <= lo <= cur_row w -> 0 <= rows_remaining w < 2 ^ 32 ->
  cur_row w + rows_remaining w = hi -> hi < 2 ^ 64 ->
  Forall (fun e => lo <= e.1 < hi) (w_stores w) ->
  warp_loop kind_code schema global_dictionary avro_data min_row_size max_rows
    first_row row_fuel fuel end_ w = Ret w' ->
  Forall (fun e => lo <= e.1 < hi) (w_stores w') /\
  cur_row w <= cur_row w' /\ cur_row w' + rows_remaining w' = hi /\ 0 <= rows_remaining w'.
Proof.
  revert w. induction fuel as [|fuel IH]; intros w Hc Hr Hs Hhi Hlog H; [discriminate|].
  cbn [warp_loop] in H.
  destruct (Z.ltb_spec 0 (rows_remaining w)) as [Hpos|];
    [|injection H as <-; repeat split; auto; lia].
  destruct (w_cur w <? end_); cbn [andb] in H; [|injection H as <-; repeat split; auto; lia].
  destruct (u64 (first_row + max_rows) <? cur_row w);
    [injection H as <-; repeat split; auto; lia|].
  set (nrows := if w_cur w + u32 (min_row_size * rows_remaining w) =? end_
                then Z.min (rows_remaining w) 32 else 1) in H.
  assert (Hn : 1 <= nrows <= rows_remaining w).
  { unfold nrows. destruct (_ =? end_); lia. }
  assert (E1 : u64 (cur_row w + nrows) = cur_row w + nrows)
    by (unfold u64; apply Z.mod_small; lia).
  assert (E2 : u32 (rows_remaining w - nrows) = rows_remaining w - nrows)
    by (apply u32_id; lia).
  destruct (Z.leb_spec nrows 1) as [H1|H1].
  - apply bind_Ret_inv in H as (st & _ & H).
    apply IH in H; cbn [cur_row rows_remaining w_stores] in *; rewrite ?E1, ?E2 in *; try lia.
    + destruct H as (? & ? & ? & ?). repeat split; auto; lia.
    + apply Forall_app. split; [exact Hlog|].
      apply Forall_map, Forall_forall. intros ev _. simpl. lia.
  - apply bind_Ret_inv in H as ([g' log'] & Hl & H).
    apply decode_lanes_rows with (lo := lo) (hi := hi) in Hl; [| |exact Hlog].
    + apply IH in H; cbn [cur_row rows_remaining w_stores fst snd] in *;
        rewrite ?E1, ?E2 in *; try lia; [|exact Hl].
      destruct H as (? & ? & ? & ?). repeat split; auto; lia.
    + eapply Forall_impl; [apply AvroFacts.lanes_below_range|]. simpl. intros tid Ht. lia.
Qed.

End Rows.

(** X6: the pass over a data block stores only for rows of that block: each
    store is at a row offset [row] for which [first_row + row] lies in
    [[blk.first_row, blk.first_row + blk.num_rows)], so that passes over
    blocks with disjoint row ranges never store to the same row; and the
    pass counts rows exactly, [cur_row + rows_remaining] staying at the end
    of the block. *)
Theorem block_pass_stores_own_rows (kind_code : type_kind_e -> Z)
    (blocks : list block_desc_s) (schema_g : list schemadesc_s)
    (global_dictionary : list (Z * Z)) (avro_data : list byte)
    (min_row_size max_rows first_row : Z) (block_id : nat) (row_fuel : nat)
    (blk : block_desc_s) (w : warp_state) :
  0 <= first_row -> 0 <= max_rows -> first_row + max_rows < 2 ^ 64 ->
  blocks !! block_id = Some blk ->
  0 <= b_first_row blk -> 0 <= b_num_rows blk < 2 ^ 32 ->
  b_first_row blk + b_num_rows blk < 2 ^ 64 ->
  gpuDecodeAvroColumnData kind_code blocks schema_g global_dictionary avro_data
    min_row_size max_rows first_row block_id row_fuel = Ret (Some w) ->
  Forall (in_block first_row blk) (w_stores w) /\
  cur_row w + rows_remaining w = b_first_row blk + b_num_rows blk /\
  0 <= rows_remaining w.
Proof.
  intros Hf Hm Hsum Hblk Hbf Hbn Hbs H.
  unfold gpuDecodeAvroColumnData in H. rewrite Hblk in H.
  apply bind_Ret_inv in H as (w' & Hw & [= <-]).
  pose proof Hw as Hw2.
  eapply AvroFacts.warp_loop_in_window in Hw; eauto; simpl; try lia.
  eapply warp_loop_rows with (lo := b_first_row blk)
    (hi := b_first_row blk + b_num_rows blk) in Hw2; simpl; try lia; [|constructor].
  destruct Hw2 as (Hrows & _ & Hsumw & Hrem).
  split; [|split; assumption].
  rewrite Forall_forall in *. intros e He.
  destruct (Hw e He) as (_ & Hrow). specialize (Hrows e He). simpl in Hrows.
  unfold in_block. lia.
Qed.

Lemma block_pass_stores_own_rows_witness :
  Forall (in_block 1 (mk_block 0 4 0 4))
         (w_stores (mk_warp 4 0 4 [mk_desc type_int 0 (Some 200)]
                            [(1, put_int32 200 0 2); (2, put_int32 200 1 3)])) /\
  cur_row (mk_warp 4 0 4 [mk_desc type_int 0 (Some 200)]
                   [(1, put_int32 200 0 2); (2, put_int32 200 1 3)])
  + rows_remaining (mk_warp 4 0 4 [mk_desc type_int 0 (Some 200)]
                            [(1, put_int32 200 0 2); (2, put_int32 200 1 3)])
  = b_first_row (mk_block 0 4 0 4) + b_num_rows (mk_block 0 4 0 4) /\
  0 <= rows_remaining (mk_warp 4 0 4 [mk_desc type_int 0 (Some 200)]
                               [(1, put_int32 200 0 2); (2, put_int32 200 1 3)]).
Proof.
  apply (block_pass_stores_own_rows kind_code_primitive_first [mk_block 0 4 0 4]
           [mk_desc type_int 0 (Some 200)] [] (mk_bytes [2; 4; 6; 8]) 1 2 1 0 10
           (mk_block 0 4 0 4)); simpl; try lia; reflexivity.
Defined.

(** X7: the launch gives every data block to exactly one warp: for fewer
    than 2^32 - 16 blocks, each block index below [blocks.size()] is the
    [block_id] of one warp of the grid and of no other. *)
Theorem launch_covers_each_block_once (n_blocks b : Z) :
  0 <= n_blocks < 2 ^ 32 - 16 -> 0 <= b < n_blocks ->
  exists bx ty,
    launched n_blocks bx ty /\ block_id_of bx ty = b /\
    forall bx' ty', launched n_blocks bx' ty' -> block_id_of bx' ty' = b ->
                    bx' = bx /\ ty' = ty.
Proof.
  intros Hn Hb. unfold launched, dim_grid_x, block_id_of, num_warps, u32, u64.
  rewrite (Z.mod_small (n_blocks + 16 - 1)) by lia.
  assert (Hg : 0 <= (n_blocks + 16 - 1) / 16 < 2 ^ 28).
  { Z.to_euclidean_division_equations; lia. }
  rewrite (Z.mod_small ((n_blocks + 16 - 1) / 16)) by lia.
  exists (b / 16), (b mod 16).
  assert (Hdm : b = 16 * (b / 16) + b mod 16) by (apply Z.div_mod; lia).
  pose proof (Z.mod_pos_bound b 16 ltac:(lia)) as Hmod.
  split; [|split].
  - split; [|exact Hmod]. Z.to_euclidean_division_equations; lia.
  - rewrite Z.mod_small by lia. lia.
  - intros bx' ty' ((Hx0 & Hx1) & Hy) E.
    assert (Hx2 : bx' * 16 < n_blocks + 16) by (Z.to_euclidean_division_equations; lia).
    rewrite Z.mod_small in E by lia.
    Z.to_euclidean_division_equations; lia.
Qed.

Lemma launch_covers_each_block_once_witness :
  exists bx ty,
    launched 40 bx ty /\ block_id_of bx ty = 37 /\
    forall bx' ty', launched 40 bx' ty' -> block_id_of bx' ty' = 37 ->
                    bx' = bx /\ ty' = ty.
Proof.
  apply (launch_covers_each_block_once 40 37); lia.
Defined.

End AvroKernel.


(** * The Avro kernel: where a pass stops *)

Module AvroWindow.
Import Avro.

(** Leaving the loop of [avro_decode_row] by [break] leaves the schema as it
    was. *)
Lemma row_step_break_schema (kind_code : type_kind_e -> Z)
    (schema : option (list schemadesc_s)) (global_dictionary : list (Z * Z))
    (src : list byte) (end_ row max_rows : Z) (st st' : row_state) :
  row_step kind_code schema global_dictionary src end_ row max_rows st = Ret (row_break st') ->
  schema_g st' = schema_g st.
Proof.
  unfold row_step. intros H.
  apply bind_Ret_inv in H as (d & _ & H). apply bind_Ret_inv in H as (b & _ & H).
  destruct b as [c|i c knd skip].
  - injection H as <-. reflexivity.
  - apply bind_Ret_inv in H as (d' & _ & H). apply bind_Ret_inv in H as (r & _ & H).
    apply bind_Ret_inv in H as (st2 & _ & H). discriminate.
Qed.

Section Calls.

Variable kind_code : type_kind_e -> Z.
Variable schema : option (list schemadesc_s).
Variable global_dictionary : list (Z * Z).
Variable avro_data : list byte.
Variables end_ row max_rows : Z.
Hypothesis Hend : end_ <= Z.of_nat (length avro_data).

#[local] Abbreviation schema_len := (schema_len schema).
#[local] Abbreviation row_loop :=
  (row_loop kind_code schema global_dictionary avro_data end_ row max_rows).

(** The loop leaves the number of schema entries as it was. *)
Lemma row_loop_schema_len (fuel : nat) (st st' : row_state) :
  row_wf schema st -> row_loop fuel st = Ret st' -> schema_len st' = schema_len st.
Proof.
  revert st. induction fuel as [|fuel IH]; intros st Hwf H; [discriminate|].
  cbn [Avro.row_loop] in H. fold (schema_len st) in H.
  destruct (Z.ltb_spec (r_i st) (schema_len st)) as [Hlt|Hge];
    [|injection H as <-; reflexivity].
  destruct (AvroRun.row_step_progress kind_code schema global_dictionary avro_data end_
              row max_rows Hend st Hwf Hlt) as (c & Ec & Hc).
  rewrite Ec in H. cbn [bind] in H. destruct c as [st1|st1].
  - injection H as <-. apply row_step_break_schema in Ec.
    unfold Avro.schema_len, view. rewrite Ec. reflexivity.
  - destruct Hc as (Hwf1 & Hlen & _). rewrite <- Hlen. apply IH; assumption.
Qed.

End Calls.

Section Pass.

Variable kind_code : type_kind_e -> Z.
Variable schema : option (list schemadesc_s).
Variable global_dictionary : list (Z * Z).
Variable avro_data : list byte.
Variables min_row_size max_rows first_row : Z.
Variable row_fuel : nat.
Hypothesis Hfirst : 0 <= first_row.
Hypothesis Hmax : 0 <= max_rows.
Hypothesis Hsum : first_row + max_rows < 2 ^ 64.

(** The data of the block lie at [[lo, end_)], within the buffer; the schema
    has [L] entries; the fuel of a call covers a row that begins anywhere in
    the block. *)
Variables lo end_ L : Z.
Hypothesis Hlo : 0 <= lo.
Hypothesis Hend : end_ <= Z.of_nat (length avro_data).
Hypothesis Hfuel : Z.max 0 (end_ - lo) * (2 ^ 32 * (L + 1)) + L < Z.of_nat row_fuel.

#[local] Abbreviation slen g := (schema_len schema (mk_row 0 0 0 0 0 g [])).

(** A call from a cursor of the block returns. *)
Lemma call_returns (r : Z) (g : list schemadesc_s) (cur : Z) :
  lo <= cur -> slen g = L ->
  exists st,
    avro_decode_row kind_code schema global_dictionary avro_data end_ r max_rows
      row_fuel g [] cur = Ret st /\
    cur <= r_cur st /\ slen (schema_g st) = L.
Proof.
  intros Hc HL. set (st0 := mk_row 0 cur 0 0 0 g []).
  assert (HL0 : 0 <= L) by (rewrite <- HL; unfold Avro.schema_len; lia).
  assert (Hwf : row_wf schema st0).
  { unfold row_wf. change (schema_len schema st0) with (slen g). rewrite HL.
    cbn. repeat split; lia. }
  assert (Hm : row_measure schema end_ st0 < Z.of_nat row_fuel).
  { unfold row_measure. change (schema_len schema st0) with (slen g). rewrite HL.
    cbn [r_cur array_repeat_count r_i st0].
    assert (Z.max 0 (end_ - cur) * (2 ^ 32 * (L + 1))
            <= Z.max 0 (end_ - lo) * (2 ^ 32 * (L + 1)))
      by (apply Z.mul_le_mono_nonneg_r; lia).
    lia. }
  unfold avro_decode_row. fold st0.
  destruct (AvroRun.row_loop_returns kind_code schema global_dictionary avro_data end_
              r max_rows Hend row_fuel st0 Hwf Hm) as (st & E).
  exists st. split; [exact E|].
  destruct (AvroRun.row_loop_in_bounds kind_code schema global_dictionary avro_data end_
              r max_rows Hend row_fuel st0 Hwf) as [E'|(st' & E' & Hcur)];
    rewrite E in E'; [discriminate|].
  injection E' as <-. split; [exact Hcur|].
  apply row_loop_schema_len in E; [|exact Hend|exact Hwf].
  rewrite <- HL. exact E.
Qed.

(** The lanes of a batch all return. *)
Lemma decode_lanes_returns (lanes : list Z) (start cur_row : Z)
    (g : list schemadesc_s) (log : list (Z * store_e)) :
  lo <= start -> slen g = L ->
  exists g' log',
    decode_lanes kind_code schema global_dictionary avro_data min_row_size max_rows
      first_row row_fuel lanes end_ start cur_row g log = Ret (g', log') /\
    slen g' = L.
Proof.
  intros Hs. revert g log. induction lanes as [|tid lanes IH]; intros g log HL.
  - exists g, log. split; [reflexivity|exact HL].
  - cbn [decode_lanes].
    assert (Hu : 0 <= u32 (tid * min_row_size)) by (unfold u32; apply Z.mod_pos_bound; lia).
    destruct (call_returns (u64 (cur_row - first_row + tid)) g
                (start + u32 (tid * min_row_size)) ltac:(lia) HL) as (st & -> & _ & HL').
    cbn [bind]. apply IH. exact HL'.
Qed.

#[local] Abbreviation stopped := (stopped max_rows first_row end_).
#[local] Abbreviation last_batch := (last_batch min_row_size max_rows first_row).

(** The loop over the rows returns, and where and when it is left. *)
Lemma warp_loop_stops (fuel : nat) (first : Z) (w : warp_state) :
  0 <= first <= cur_row w -> 0 <= rows_remaining w < 2 ^ 32 ->
  cur_row w + rows_remaining w < 2 ^ 64 ->
  lo <= w_cur w -> slen (w_schema_g w) = L ->
  rows_remaining w < Z.of_nat fuel ->
  last_batch first w ->
  exists w',
    warp_loop kind_code schema global_dictionary avro_data min_row_size max_rows
      first_row row_fuel fuel end_ w = Ret w' /\
    stopped w' /\ last_batch first w'.
Proof.
  revert w. induction fuel as [|fuel IH]; intros w Hc Hr Hs Hcur HL Hf Hb; [lia|].
  cbn [warp_loop].
  destruct (Z.ltb_spec 0 (rows_remaining w)) as [Hpos|Hz];
    [|exists w; split; [reflexivity|split; [left; lia|exact Hb]]].
  destruct (Z.ltb_spec (w_cur w) end_) as [Hlt|Hge]; cbn [andb];
    [|exists w; split; [reflexivity|split; [right; left; lia|exact Hb]]].
  assert (Eu : u64 (first_row + max_rows) = first_row + max_rows)
    by (unfold u64; apply Z.mod_small; lia).
  rewrite Eu.
  destruct (Z.ltb_spec (first_row + max_rows) (cur_row w)) as [Hbr|Hin];
    [exists w; split; [reflexivity|split; [right; right; lia|exact Hb]]|].
  set (nrows := if w_cur w + u32 (min_row_size * rows_remaining w) =? end_
                then Z.min (rows_remaining w) 32 else 1).
  assert (Hn : 1 <= nrows <= rows_remaining w /\ nrows <= 32 /\ (min_row_size = 0 -> nrows = 1)).
  { unfold nrows. destruct (Z.eqb_spec (w_cur w + u32 (min_row_size * rows_remaining w)) end_)
      as [E|E]; [|lia].
    split; [lia|]. split; [lia|]. intros E0. exfalso. rewrite E0 in E.
    rewrite Z.mul_0_l in E. change (u32 0) with 0 in E. lia. }
  destruct Hn as (Hn & Hn32 & Hn0).
  assert (E1 : u64 (cur_row w + nrows) = cur_row w + nrows)
    by (unfold u64; apply Z.mod_small; lia).
  assert (E2 : u32 (rows_remaining w - nrows) = rows_remaining w - nrows)
    by (apply u32_id; lia).
  assert (Hb' : forall c g l,
            last_batch first (mk_warp (cur_row w + nrows) (rows_remaining w - nrows) c g l)).
  { intros c g l _. exists nrows. cbn [cur_row]. split; [lia|]. split; [lia|exact Hn0]. }
  destruct (Z.leb_spec nrows 1) as [H1|H1].
  - destruct (call_returns (u64 (cur_row w - first_row + 0)) (w_schema_g w) (w_cur w)
                Hcur HL) as (st & -> & Hadv & HL'). cbn [bind].
    rewrite E1, E2.
    assert (Hu : 0 <= u32 (r_cur st - w_cur w)) by (unfold u32; apply Z.mod_pos_bound; lia).
    apply IH; cbn [cur_row rows_remaining w_cur w_schema_g];
      first [exact HL'|apply Hb'|lia].
  - destruct (decode_lanes_returns (lanes_below nrows) (w_cur w) (cur_row w)
                (w_schema_g w) (w_stores w) Hcur HL) as (g' & log' & -> & HL').
    cbn [bind fst snd]. rewrite E1, E2.
    assert (Hu : 0 <= u32 (nrows * min_row_size)) by (unfold u32; apply Z.mod_pos_bound; lia).
    apply IH; cbn [cur_row rows_remaining w_cur w_schema_g];
      first [exact HL'|apply Hb'|lia].
Qed.

End Pass.



(** A pass over a block of the six one-byte rows 0 .. 5, decoded one at a
    time, with the window of the rows 2 and 3: rows 0 and 1 are parsed and
    store nothing, rows 2 and 3 are stored, row 4 is still parsed, and the
    pass stops before row 5, with the cursor at its byte. *)
Example pass_stops_after_window :
  gpuDecodeAvroColumnData kind_code_primitive_first [mk_block 0 6 0 6]
    [mk_desc type_int 0 (Some 200)] [] (mk_bytes [2; 4; 6; 8; 10; 12]) 0 2 2 0 10
  = Ret (Some (mk_warp 5 1 5 [mk_desc type_int 0 (Some 200)]
                       [(2, put_int32 200 0 3); (3, put_int32 200 1 4)])).
Proof. reflexivity. Qed.

End AvroWindow.


(** * The Avro row decoder: the items of an array *)

Module AvroArray.
Import Avro AvroFacts.

Section Items.

Variable kind_code : type_kind_e -> Z.
Variable sch : list schemadesc_s.
Variable global_dictionary : list (Z * Z).
Variable src : list byte.
Variables end_ row max_rows : Z.
Hypothesis Hlen : Z.of_nat (length sch) < 2 ^ 31.
Hypothesis Harray : kind_ge_record kind_code type_array = true.
Hypothesis Hunion : kind_ge_record kind_code type_union = true.

#[local] Abbreviation forest := (forest kind_code sch).
#[local] Abbreviation leaf := (leaf kind_code).
#[local] Abbreviation item_span := (item_span kind_code sch).
#[local] Abbreviation decode_field := (decode_field global_dictionary src end_ row max_rows).
#[local] Abbreviation decode_span m p j :=
  (decode_span global_dictionary src end_ row max_rows m sch p j).
#[local] Abbreviation decode_item := (decode_item global_dictionary src end_ row max_rows sch).
#[local] Abbreviation decode_items n a j :=
  (decode_items global_dictionary src end_ row max_rows n sch a j).
#[local] Abbreviation row_step :=
  (row_step kind_code (Some sch) global_dictionary src end_ row max_rows).
#[local] Abbreviation row_loop :=
  (row_loop kind_code (Some sch) global_dictionary src end_ row max_rows).

#[local] Abbreviation leaves := (leaves kind_code sch).

Lemma leaf_inv (e : schemadesc_s) :
  leaf e = true -> plain (kind e) = true /\ kind_ge_record kind_code (kind e) = false.
Proof.
  unfold Avro.leaf. intros H. apply andb_true_iff in H as (Hp & Hk).
  apply negb_true_iff in Hk. auto.
Qed.

(** A plain field is decoded in the same way whatever [skip] is. *)
Lemma decode_field_skip (knd : type_kind_e) (d : schemadesc_s) (i cur skip skip' : Z)
    (st st' : row_state) (sk : Z) :
  plain knd = true ->
  decode_field knd d i cur skip st = Ret (st', sk) ->
  decode_field knd d i cur skip' st = Ret (st', skip').
Proof.
  intros Hp H. unfold Avro.decode_field in *.
  destruct knd; try discriminate Hp; destruct (writes row max_rows d);
    run_cases H; injection H as <- <-; cbn [bind]; reflexivity.
Qed.

Lemma leaves_forest (m : nat) :
  forall q, 0 <= q -> leaves q (Z.of_nat m) -> forest q (Z.of_nat m) (q + Z.of_nat m).
Proof.
  induction m as [|m IH]; intros q Hq Hl.
  - replace (q + Z.of_nat 0) with q by lia. apply forest_nil.
  - destruct (Hl 0 ltac:(lia)) as (e & He & Hleaf). apply leaf_inv in Hleaf as (_ & Hk).
    replace (q + 0) with q in He by lia.
    replace (Z.of_nat (S m)) with (Z.of_nat m + 1) by lia.
    apply (forest_leaf kind_code sch q (Z.of_nat m) _ e); [exact Hq|exact He|exact Hk|lia|].
    replace (q + (Z.of_nat m + 1)) with (q + 1 + Z.of_nat m) by lia.
    apply IH; [lia|]. intros k Hk'. destruct (Hl (k + 1) ltac:(lia)) as (e' & He' & Hl').
    exists e'. replace (q + 1 + k) with (q + (k + 1)) by lia. auto.
Qed.

Lemma forest_skip_leaves (m : nat) :
  forall q n j, 0 <= n -> leaves q (Z.of_nat m) ->
    forest q (Z.of_nat m + n) j -> forest (q + Z.of_nat m) n j.
Proof.
  induction m as [|m IH]; intros q n j Hn Hl Hf.
  - replace (q + Z.of_nat 0) with q by lia. exact Hf.
  - destruct (Hl 0 ltac:(lia)) as (e & He & Hleaf). apply leaf_inv in Hleaf as (_ & Hk).
    replace (q + 0) with q in He by lia.
    replace (Z.of_nat (S m) + n) with (Z.of_nat m + n + 1) in Hf by lia.
    destruct (forest_head kind_code sch q _ j Hf ltac:(lia)) as (d & Hq & Hd & Hf').
    rewrite He in Hd. injection Hd as <-. rewrite Hk in Hf'.
    replace (q + Z.of_nat (S m)) with (q + 1 + Z.of_nat m) by lia.
    apply IH; [exact Hn| |exact Hf'].
    intros k Hk'. destruct (Hl (k + 1) ltac:(lia)) as (e' & He' & Hl').
    exists e'. replace (q + 1 + k) with (q + (k + 1)) by lia. auto.
Qed.

Lemma decode_span_done (m : nat) (p j : Z) (st : row_state) :
  j <= p -> decode_span m p j st = Ret (Some st).
Proof.
  intros H. destruct m; cbn [Avro.decode_span]; destruct (Z.leb_spec j p); try lia; reflexivity.
Qed.

Lemma reframe_same (st st2 : row_state) :
  schema_g st2 = schema_g st -> stores st2 = stores st -> r_cur st2 = r_cur st ->
  reframe st2 st = st2.
Proof. destruct st, st2. unfold reframe. simpl. intros -> -> ->. reflexivity. Qed.

(** A span is decoded from the cursor, the null counters and the stores
    alone, and leaves the loop variables as they are. *)
Lemma decode_span_reframe (p j : Z) :
  item_span p j ->
  forall (m : nat) (st st2 st' : row_state),
  schema_g st2 = schema_g st -> stores st2 = stores st -> r_cur st2 = r_cur st ->
  decode_span m p j st = Ret (Some st') ->
  decode_span m p j st2 = Ret (Some (reframe st2 st')) /\ st' = reframe st st'.
Proof.
  induction 1 as [p|p j d Hp Hd Hpl Hsp IH|p j d Hp Hd Hk Hc Hbr Hsp IH];
    intros m st st2 st' Hg Hs Hcur H.
  - rewrite decode_span_done in H by lia. injection H as <-.
    rewrite decode_span_done by lia. rewrite (reframe_same st st2) by assumption.
    split; [reflexivity|]. destruct st; reflexivity.
  - destruct (Z.le_gt_cases j p) as [Hle|Hlt].
    { rewrite decode_span_done in H by lia. injection H as <-.
      rewrite decode_span_done by lia. rewrite (reframe_same st st2) by assumption.
      split; [reflexivity|]. destruct st; reflexivity. }
    destruct m as [|m]; cbn [Avro.decode_span] in *;
      destruct (Z.leb_spec j p); try lia; [discriminate|].
    rewrite (entry_lookup _ _ _ Hp Hd) in *. cbn [bind] in *.
    rewrite (plain_not_union _ Hpl) in *.
    apply bind_Ret_inv in H as ([st1 sk] & Hf & H). cbn [fst] in H. rewrite Hcur.
    destruct (decode_field_reframe global_dictionary src end_ row max_rows
                _ _ _ _ _ _ st2 _ _ Hpl Hg Hs Hf) as (-> & _ & E1).
    cbn [bind fst].
    destruct (IH m st1 (reframe st2 st1) st') as (-> & E'); auto.
    split; [reflexivity|]. rewrite E' at 1. rewrite E1. reflexivity.
  - destruct (Z.le_gt_cases j p) as [Hle|Hlt].
    { rewrite decode_span_done in H by lia. injection H as <-.
      rewrite decode_span_done by lia. rewrite (reframe_same st st2) by assumption.
      split; [reflexivity|]. destruct st; reflexivity. }
    destruct m as [|m]; cbn [Avro.decode_span] in *;
      destruct (Z.leb_spec j p); try lia; [discriminate|].
    rewrite (entry_lookup _ _ _ Hp Hd) in *. cbn [bind] in *.
    rewrite Hk in *. cbn [is_union] in *. rewrite Hcur.
    destruct (end_ <=? r_cur st); [discriminate|].
    apply bind_Ret_inv in H as (b & Hb & H). rewrite Hb. cbn [bind].
    pose proof (load_range _ _ _ Hb) as Hbr'.
    assert (Hs0 : 0 <= Z.shiftr b 1) by (apply Z.shiftr_nonneg; lia).
    destruct (Z.leb_spec (count d) (Z.shiftr b 1)); [discriminate|].
    destruct (Hbr (Z.shiftr b 1) ltac:(lia)) as (e & He & Hleaf).
    apply leaf_inv in Hleaf as (Hple & _).
    assert (Hq0 : 0 <= p + 1 + Z.shiftr b 1) by lia.
    rewrite (entry_lookup _ _ _ Hq0 He) in *. cbn [bind] in *.
    apply bind_Ret_inv in H as ([st1 sk] & Hf & H). cbn [fst] in H.
    destruct (decode_field_reframe global_dictionary src end_ row max_rows
                _ _ _ _ _ _ st2 _ _ Hple Hg Hs Hf) as (-> & _ & E1).
    cbn [bind fst].
    destruct (IH m st1 (reframe st2 st1) st') as (-> & E'); auto.
    split; [reflexivity|]. rewrite E' at 1. rewrite E1. reflexivity.
Qed.

(** One iteration of the loop at a union [u] at index [p] inside an item of
    the array at [a], with [n + 1] subtrees of the item still to come, this
    one included: the branch that the tag byte [b] selects is decoded and
    the others are passed over. *)
Lemma union_step (st : row_state) (p n a r b : Z) (u e da : schemadesc_s)
    (st1 : row_state) (sk : Z) :
  r_i st = p -> 0 <= p -> sch !! Z.to_nat p = Some u -> kind u = type_union ->
  0 <= count u -> leaves (p + 1) (count u) ->
  array_start st = a -> 0 <= a -> sch !! Z.to_nat a = Some da -> count da = 1 ->
  array_repeat_count st = r -> 1 <= r < 2 ^ 32 ->
  array_children st = n + 1 -> 0 <= n < 2 ^ 31 ->
  r_cur st < end_ -> load src (r_cur st) = Ret b -> Z.shiftr b 1 < count u ->
  sch !! Z.to_nat (p + 1 + Z.shiftr b 1) = Some e ->
  decode_field (kind e) e (p + 1 + Z.shiftr b 1) (r_cur st + 1) 0 st = Ret (st1, sk) ->
  row_step st =
    Ret (row_next
      (if (n =? 0) && (r_cur st1 <? end_)
       then item_done a st1
       else mk_row (p + 1 + count u) (r_cur st1) a r n (schema_g st1) (stores st1))).
Proof.
  intros Hi Hp Hu Hk Hc Hbr Ha Ha0 Hda Hc1 Hr Hrr Hch Hn Hce Hb Hsel He Hf.
  pose proof (load_range _ _ _ Hb) as Hbr'.
  assert (Hs0 : 0 <= Z.shiftr b 1) by (apply Z.shiftr_nonneg; lia).
  set (k := Z.shiftr b 1) in *.
  destruct (Hbr k ltac:(lia)) as (e' & He' & Hleaf).
  rewrite He in He'. injection He' as <-.
  apply leaf_inv in Hleaf as (Hpl & Hlf).
  pose proof (lookup_lt_Some _ _ _ He) as Helt.
  assert (Hcu : count u < 2 ^ 31).
  { destruct (Hbr (count u - 1) ltac:(lia)) as (e2 & He2 & _).
    apply lookup_lt_Some in He2. lia. }
  assert (Hbefore : forest (p + 1) k (p + 1 + k)).
  { rewrite <- (Z2Nat.id k) by lia. apply leaves_forest; [lia|].
    rewrite Z2Nat.id by lia. intros q Hq. apply Hbr. lia. }
  assert (Hafter : forest (p + 1 + k + 1) (count u - k - 1) (p + 1 + count u)).
  { replace (p + 1 + count u) with (p + 1 + k + 1 + Z.of_nat (Z.to_nat (count u - k - 1))) by lia.
    rewrite <- (Z2Nat.id (count u - k - 1)) at 1 by lia. apply leaves_forest; [lia|].
    rewrite Z2Nat.id by lia. intros q Hq.
    destruct (Hbr (k + 1 + q) ltac:(lia)) as (e2 & He2 & Hl2). exists e2.
    replace (p + 1 + k + 1 + q) with (p + 1 + (k + 1 + q)) by lia. auto. }
  destruct (decode_field_reframe global_dictionary src end_ row max_rows
              _ _ _ _ _ _ st _ _ Hpl eq_refl eq_refl Hf) as (_ & -> & E1).
  pose proof (decode_field_skip _ _ _ _ _ (count u - k - 1) _ _ _ Hpl Hf) as Hf'.
  unfold Avro.row_step. cbn [view]. rewrite Hi.
  rewrite (entry_lookup _ _ _ Hp Hu). cbn [bind].
  unfold select_branch. rewrite Hk. cbn [is_union].
  destruct (Z.leb_spec end_ (r_cur st)); [lia|]. rewrite Hb. cbn [bind]. fold k.
  rewrite (skip_from_forest _ _ Hlen _ _ _ Hbefore).
  rewrite s32_id by lia.
  destruct (Z.leb_spec (Z.of_nat (length sch)) (p + 1 + k)); [lia|].
  destruct (Z.ltb_spec (count u - k - 1) 0); [lia|]. cbn [orb].
  assert (Hp0 : 0 <= p + 1 + k) by lia.
  rewrite (entry_lookup _ _ _ Hp0 He). cbn [bind].
  rewrite (entry_lookup _ _ _ Hp0 He). cbn [bind].
  rewrite Hf'. cbn [bind fst snd].
  unfold array_advance. cbn [view]. rewrite (entry_lookup _ _ _ Hp0 He). cbn [bind].
  rewrite (skip_from_forest _ _ Hlen _ _ _ Hafter).
  rewrite E1. unfold reframe, item_done. cbn [r_i r_cur array_start array_repeat_count
    array_children schema_g stores]. rewrite Hr, Ha, Hch.
  destruct (Z.eqb_spec r 0) as [|_]; [lia|]. cbn [negb andb].
  rewrite Hlf. replace (n + 1 - 1) with n by lia. rewrite (s32_id n) by lia.
  destruct (Z.eqb_spec n 0) as [E0|E0].
  - rewrite E0. cbn [Z.leb Z.compare andb].
    destruct (r_cur st1 <? end_); [|reflexivity].
    destruct (Z.eqb_spec (u32 (r - 1)) 0) as [Eq|_]; [rewrite Eq; reflexivity|].
    rewrite (entry_lookup _ _ _ Ha0 Hda). cbn [bind]. rewrite Hc1. reflexivity.
  - destruct (Z.leb_spec n 0); [lia|]. reflexivity.
Qed.

Lemma span_steps_next (m : nat) (p j : Z) (d : schemadesc_s) :
  p < j -> sch !! Z.to_nat p = Some d ->
  span_steps (S m) sch p j
  = S (span_steps m sch (if is_union (kind d) then p + 1 + count d else p + 1) j).
Proof.
  intros Hlt Hd. cbn [span_steps]. destruct (Z.leb_spec j p); [lia|]. rewrite Hd. reflexivity.
Qed.

(** From anywhere inside an item to its end: the loop makes one iteration
    per entry of a plain kind and one per union, decodes what [decode_span]
    says, and takes the jump that [item_done] describes. *)
Lemma item_run (p j : Z) :
  item_span p j ->
  forall (m : nat) (n a r : Z) (da : schemadesc_s) (st st' : row_state),
  (Z.to_nat (j - p) <= m)%nat ->
  forest p (n + 1) j -> 0 <= n ->
  r_i st = p -> array_start st = a -> 0 <= a -> sch !! Z.to_nat a = Some da -> count da = 1 ->
  array_repeat_count st = r -> 1 <= r < 2 ^ 32 -> array_children st = n + 1 ->
  decode_span m p j st = Ret (Some st') ->
  r_cur st' < end_ ->
  forall fuel, row_loop (span_steps m sch p j + fuel) st = row_loop fuel (item_done a st').
Proof.
  induction 1 as [p|p j d Hp Hd Hpl Hsp IH|p j d Hp Hd Hk Hc Hbr Hsp IH];
    intros m n a r da st st' Hm Hf Hn Hi Ha Ha0 Hda Hc1 Hr Hrr Hch Hdec Hcur fuel.
  - pose proof (forest_bounds _ _ _ _ _ Hf). lia.
  - destruct (forest_head _ _ _ _ _ Hf Hn) as (d' & _ & Hd' & Hf').
    rewrite Hd in Hd'. injection Hd' as <-.
    pose proof (forest_bounds _ _ _ _ _ Hf) as (_ & Hpj & Hin0).
    pose proof (forest_bounds _ _ _ _ _ Hf') as (Hc0 & Hle & Hin).
    set (c' := if kind_ge_record kind_code (kind d) then count d + n else n) in *.
    pose proof (lookup_lt_Some _ _ _ Hd) as Hlt.
    assert (Hc' : 0 <= c' < 2 ^ 31 - 1).
    { split; [lia|]. destruct (Z.eq_dec c' 0); [lia|]. lia. }
    assert (Hn' : 0 <= n < 2 ^ 31) by lia.
    destruct m as [|m]; [lia|].
    rewrite (span_steps_next m p j d ltac:(lia) Hd). rewrite (plain_not_union _ Hpl).
    cbn [Avro.decode_span] in Hdec. destruct (Z.leb_spec j p); [lia|].
    rewrite (entry_lookup _ _ _ Hp Hd) in Hdec. cbn [bind] in Hdec.
    rewrite (plain_not_union _ Hpl) in Hdec.
    apply bind_Ret_inv in Hdec as ([st1 sk] & Ef & Hdec). cbn [fst] in Hdec.
    pose proof (plain_step kind_code sch global_dictionary src end_ row max_rows
                  st p n a r d da st1 sk Hi Hp Hd Hpl Ha Ha0 Hda Hc1 Hr Hrr Hch Hn' Hc' Ef)
      as Hstep. fold c' in Hstep.
    destruct (decode_field_reframe global_dictionary src end_ row max_rows
                _ _ _ _ _ _ st _ _ Hpl eq_refl eq_refl Ef) as (_ & _ & E1).
    change (S (span_steps m sch (p + 1) j) + fuel)%nat
      with (S (span_steps m sch (p + 1) j + fuel)).
    cbn [Avro.row_loop]. cbn [view]. rewrite Hi.
    destruct (Z.ltb_spec p (Z.of_nat (length sch))); [|lia].
    rewrite Hstep. cbn [bind].
    destruct (Z.eqb_spec c' 0) as [E0|E0].
    + rewrite E0 in Hf'. apply forest_zero in Hf'. subst j.
      rewrite decode_span_done in Hdec by lia. injection Hdec as <-.
      destruct (Z.ltb_spec (r_cur st1) end_); [|lia]. cbn [andb].
      destruct m; cbn [span_steps]; destruct (Z.leb_spec (p + 1) (p + 1)); try lia; reflexivity.
    + cbn [andb].
      set (st2 := mk_row (p + 1) (r_cur st1) a r c' (schema_g st1) (stores st1)).
      destruct (decode_span_reframe (p + 1) j Hsp m st1 st2 st') as (Hdec2 & E');
        [reflexivity|reflexivity|reflexivity|exact Hdec|].
      rewrite (IH m (c' - 1) a r da st2 (reframe st2 st')); try reflexivity; try assumption;
        try lia.
      * f_equal. rewrite item_done_reframe. unfold item_done. cbn.
        rewrite E1 in E'. rewrite E'. unfold reframe. cbn. rewrite Hr. reflexivity.
      * replace (c' - 1 + 1) with c' by lia. exact Hf'.
      * cbn. lia.
  - destruct (forest_head _ _ _ _ _ Hf Hn) as (d' & _ & Hd' & Hf').
    rewrite Hd in Hd'. injection Hd' as <-. rewrite Hk, Hunion in Hf'.
    pose proof (forest_bounds _ _ _ _ _ Hf) as (_ & Hpj & Hin0).
    pose proof (lookup_lt_Some _ _ _ Hd) as Hlt.
    assert (Hrest : forest (p + 1 + count d) n j).
    { rewrite <- (Z2Nat.id (count d)) at 1 by lia. apply forest_skip_leaves; [exact Hn| |].
      - rewrite Z2Nat.id by lia. exact Hbr.
      - rewrite Z2Nat.id by lia. exact Hf'. }
    pose proof (forest_bounds _ _ _ _ _ Hrest) as (_ & Hle & Hin).
    assert (Hn' : 0 <= n < 2 ^ 31) by lia.
    destruct m as [|m]; [lia|].
    rewrite (span_steps_next m p j d ltac:(lia) Hd). rewrite Hk. cbn [is_union].
    cbn [Avro.decode_span] in Hdec. destruct (Z.leb_spec j p); [lia|].
    rewrite (entry_lookup _ _ _ Hp Hd) in Hdec. cbn [bind] in Hdec.
    rewrite Hk in Hdec. cbn [is_union] in Hdec.
    destruct (Z.leb_spec end_ (r_cur st)); [discriminate|].
    apply bind_Ret_inv in Hdec as (b & Hb & Hdec).
    pose proof (load_range _ _ _ Hb) as Hbr'.
    assert (Hs0 : 0 <= Z.shiftr b 1) by (apply Z.shiftr_nonneg; lia).
    destruct (Z.leb_spec (count d) (Z.shiftr b 1)); [discriminate|].
    destruct (Hbr (Z.shiftr b 1) ltac:(lia)) as (e & He & Hleaf).
    apply leaf_inv in Hleaf as (Hple & _).
    assert (Hq0 : 0 <= p + 1 + Z.shiftr b 1) by lia.
    rewrite (entry_lookup _ _ _ Hq0 He) in Hdec. cbn [bind] in Hdec.
    apply bind_Ret_inv in Hdec as ([st1 sk] & Ef & Hdec). cbn [fst] in Hdec.
    pose proof (union_step st p n a r b d e da st1 sk Hi Hp Hd Hk Hc Hbr Ha Ha0 Hda Hc1
                  Hr Hrr Hch Hn' ltac:(lia) Hb ltac:(lia) He Ef) as Hstep.
    destruct (decode_field_reframe global_dictionary src end_ row max_rows
                _ _ _ _ _ _ st _ _ Hple eq_refl eq_refl Ef) as (_ & _ & E1).
    change (S (span_steps m sch (p + 1 + count d) j) + fuel)%nat
      with (S (span_steps m sch (p + 1 + count d) j + fuel)).
    cbn [Avro.row_loop]. cbn [view]. rewrite Hi.
    destruct (Z.ltb_spec p (Z.of_nat (length sch))); [|lia].
    rewrite Hstep. cbn [bind].
    destruct (Z.eqb_spec n 0) as [E0|E0].
    + rewrite E0 in Hrest. apply forest_zero in Hrest. subst j.
      rewrite decode_span_done in Hdec by lia. injection Hdec as <-.
      destruct (Z.ltb_spec (r_cur st1) end_); [|lia]. cbn [andb].
      destruct m; cbn [span_steps];
        destruct (Z.leb_spec (p + 1 + count d) (p + 1 + count d)); try lia; reflexivity.
    + cbn [andb].
      set (st2 := mk_row (p + 1 + count d) (r_cur st1) a r n (schema_g st1) (stores st1)).
      destruct (decode_span_reframe (p + 1 + count d) j Hsp m st1 st2 st') as (Hdec2 & E');
        [reflexivity|reflexivity|reflexivity|exact Hdec|].
      rewrite (IH m (n - 1) a r da st2 (reframe st2 st')); try reflexivity; try assumption;
        try lia.
      * f_equal. rewrite item_done_reframe. unfold item_done. cbn.
        rewrite E1 in E'. rewrite E'. unfold reframe. cbn. rewrite Hr. reflexivity.
      * replace (n - 1 + 1) with n by lia. exact Hrest.
      * cbn. lia.
Qed.

(** [S N] items in a row, each decoded with input left after it: the loop
    decodes them one after the other and ends at the array entry. *)
Lemma items_run (N : nat) :
  forall (st : row_state) (a j : Z) (da : schemadesc_s),
  forest (a + 1) 1 j -> item_span (a + 1) j ->
  0 <= a -> sch !! Z.to_nat a = Some da -> count da = 1 ->
  r_i st = a + 1 -> array_start st = a -> array_children st = 1 ->
  array_repeat_count st = Z.of_nat (S N) -> Z.of_nat (S N) < 2 ^ 32 ->
  (forall k s, (k < S N)%nat -> decode_items k a j st = Ret (Some s) ->
     exists s1, decode_item a j s = Ret (Some s1) /\ r_cur s1 < end_) ->
  exists stn,
    decode_items (S N) a j st = Ret (Some stn) /\ r_i stn = a /\ array_repeat_count stn = 0 /\
    forall fuel,
      row_loop (S N * item_steps sch a j + fuel) st = row_loop fuel stn.
Proof.
  induction N as [|N IH]; intros st a j da Hf Hsp Ha Hda Hc1 Hi Hs Hch Hr Hb Hin.
  - destruct (Hin 0%nat st) as (s1 & Hs1 & Hcur); [lia|reflexivity|].
    cbn [Avro.decode_items]. rewrite Hs1. cbn [bind].
    destruct (decode_span_reframe (a + 1) j Hsp _ st st s1 eq_refl eq_refl eq_refl Hs1)
      as (_ & E).
    assert (Hr1 : array_repeat_count s1 = 1) by (rewrite E; cbn; rewrite Hr; reflexivity).
    exists (item_done a s1). split; [reflexivity|].
    unfold item_done at 1 2. rewrite Hr1. cbn [Z.sub Z.eqb u32 r_i array_repeat_count].
    split; [reflexivity|]. split; [reflexivity|]. intros fuel.
    replace (1 * item_steps sch a j + fuel)%nat with (item_steps sch a j + fuel)%nat by lia.
    apply (item_run (a + 1) j Hsp (Z.to_nat (j - (a + 1))) 0 a 1 da st s1); auto; try lia.
  - destruct (Hin 0%nat st) as (s1 & Hs1 & Hcur); [lia|reflexivity|].
    destruct (decode_span_reframe (a + 1) j Hsp _ st st s1 eq_refl eq_refl eq_refl Hs1)
      as (_ & E).
    assert (Hr1 : array_repeat_count s1 = Z.of_nat (S (S N)))
      by (rewrite E; cbn [reframe array_repeat_count]; exact Hr).
    assert (Hd : item_done a s1
                 = mk_row (a + 1) (r_cur s1) a (Z.of_nat (S N)) 1 (schema_g s1) (stores s1)).
    { unfold item_done. rewrite Hr1.
      replace (Z.of_nat (S (S N)) - 1) with (Z.of_nat (S N)) by lia.
      rewrite u32_id by lia. destruct (Z.eqb_spec (Z.of_nat (S N)) 0); [lia|reflexivity]. }
    destruct (IH (item_done a s1) a j da) as (stn & Hn & Hi' & Hr' & Hrun); auto;
      try (rewrite Hd; reflexivity); try lia.
    { intros k s Hk Hdk. apply (Hin (S k) s); [lia|].
      cbn [Avro.decode_items]. rewrite Hs1. cbn [bind]. exact Hdk. }
    exists stn. split; [|split; [exact Hi'|split; [exact Hr'|]]].
    + cbn [Avro.decode_items]. cbn [Avro.decode_items] in Hn. rewrite Hs1. cbn [bind]. exact Hn.
    + intros fuel.
      replace (S (S N) * item_steps sch a j + fuel)%nat
        with (item_steps sch a j + (S N * item_steps sch a j + fuel))%nat by lia.
      rewrite (item_run (a + 1) j Hsp (Z.to_nat (j - (a + 1))) 0 a (Z.of_nat (S (S N)))
                 da st s1); auto; try lia.
Qed.

End Items.

Lemma u32_s32 (x : Z) : u32 (s32 x) = u32 x.
Proof.
  unfold u32, s32. rewrite Zminus_mod_idemp_l. f_equal. lia.
Qed.



(** An array of unions of null and int: the block count 3, the items int 1,
    null and int 3, each behind its tag byte, and the closing count 0.  The
    three items are decoded, the cursor ends right after the closing count,
    and the byte after it is left alone. *)
Example avro_array_of_three_unions :
  avro_decode_row kind_code_primitive_first (Some ex_array_of_union) []
    (mk_bytes [6; 2; 2; 0; 2; 6; 0; 99]) 8 0 10 30 ex_array_of_union [] 0
  = Ret (mk_row 4 7 0 0 1
           [mk_desc type_array 1 None; mk_desc type_union 2 None;
            mk_desc type_null 1 (Some 200); mk_desc type_int 0 (Some 200)]
           [put_int32 200 0 1; clear_valid 200 0; add_null_count 2 0; put_int32 200 0 3]).
Proof. reflexivity. Qed.

(** The count is narrowed to [int32_t]: the varint 2^32 + 3 gives the count
    3, and the varint 2^31 counts as negative, so that the varint after it
    is read and dropped, and gives the repeat count 2^31. *)
Example block_count_is_narrowed :
  avro_decode_zigzag_varint (mk_bytes [134; 128; 128; 128; 32]) 5 0 = Ret (2 ^ 32 + 3, 5) /\
  read_block_count (mk_bytes [134; 128; 128; 128; 32]) 5 0 = Ret (3, 5) /\
  avro_decode_zigzag_varint (mk_bytes [128; 128; 128; 128; 16; 0]) 6 0 = Ret (2 ^ 31, 5) /\
  read_block_count (mk_bytes [128; 128; 128; 128; 16; 0]) 6 0 = Ret (- 2 ^ 31, 6) /\
  u32 (- 2 ^ 31) = 2 ^ 31.
Proof. repeat split; reflexivity. Qed.

(** Why the branches of a union in an item are taken to stand alone: in an
    array of unions of a record with an int field and a long, an item that
    is the record with the int 1 has the tag 0.  The decoder enters the
    record, and then passes over the one branch that is left to pass over
    from the entry after the record, which is the int of the record and not
    the long: the value is decoded by the entry of the long. *)
Example union_record_branch_passes_over_its_field :
  avro_decode_row kind_code_primitive_first (Some ex_array_of_union_of_record) []
    (mk_bytes [2; 0; 2; 0]) 4 0 10 30 ex_array_of_union_of_record [] 0
  = Ret (mk_row 5 4 0 0 1 ex_array_of_union_of_record [put_int64 300 0 1]).
Proof. reflexivity. Qed.

End AvroArray.


(** * The Snappy host decoder: the prefix, copies, and the output *)

Module SnappyRun.
Import Snappy.

Lemma varint_bytes_nonempty (f : nat) (w : Z) :
  (1 <= f)%nat -> (1 <= length (Encode.varint_bytes f w))%nat.
Proof.
  intros Hf. destruct f as [|f]; [lia|]. cbn [Encode.varint_bytes].
  destruct (w <? 128); cbn [length]; lia.
Qed.

(** The loop that reads the length prefix, on the bytes of a varint. *)
Lemma read_uncompressed_size_decodes (src : list byte) (end_ : Z) (f : nat) :
  forall (w cur l acc : Z) (fuel : nat),
  (1 <= f)%nat -> 0 <= w < 128 ^ Z.of_nat f ->
  0 <= l -> 0 <= acc < 2 ^ l -> acc + 2 ^ l * w < 2 ^ 32 -> 0 <= cur ->
  bytes_at src cur (Encode.varint_bytes f w) ->
  cur + Z.of_nat (length (Encode.varint_bytes f w)) <= end_ ->
  (length (Encode.varint_bytes f w) <= fuel)%nat ->
  read_uncompressed_size fuel src end_ cur l acc
  = Ret (Some (acc + 2 ^ l * w, cur + Z.of_nat (length (Encode.varint_bytes f w)))).
Proof.
  induction f as [|f IH]; intros w cur l acc fuel Hf Hw Hl Hacc Hsum Hc Hb He Hfuel; [lia|].
  assert (H2l : 0 < 2 ^ l) by (apply Z.pow_pos_nonneg; lia).
  cbn [Encode.varint_bytes] in *.
  destruct (Z.ltb_spec w 128) as [Hlt|Hge].
  - apply bytes_at_cons in Hb as [Hld _]. cbn [length] in *.
    destruct fuel as [|fuel]; [lia|]. cbn [read_uncompressed_size].
    rewrite Hld. cbn [bind].
    assert (Hchk : (28 <=? l) && (15 <? w) = false).
    { destruct (Z.leb_spec 28 l) as [H28|]; [|reflexivity].
      destruct (Z.ltb_spec 15 w) as [H15|]; [|reflexivity]. exfalso.
      assert (2 ^ 28 <= 2 ^ l) by (apply Z.pow_le_mono_r; lia). nia. }
    rewrite Hchk. rewrite land_127, (Z.mod_small w 128) by lia.
    rewrite Z.shiftl_mul_pow2 by lia. rewrite u32_id by nia.
    rewrite <- (Z.shiftl_mul_pow2 w l) by lia.
    rewrite lor_shiftl_add by lia.
    destruct (Z.ltb_spec 127 w); [lia|]. cbn [andb]. do 3 f_equal; lia.
  - apply bytes_at_cons in Hb as [Hld Hb]. cbn [length] in *.
    destruct fuel as [|fuel]; [lia|]. cbn [read_uncompressed_size].
    rewrite Hld. cbn [bind].
    pose proof (Z.mod_pos_bound w 128 ltac:(lia)) as Hm.
    assert (Hdiv : w = 128 * (w / 128) + w mod 128) by (apply Z.div_mod; lia).
    assert (Hq : 1 <= w / 128) by (Z.to_euclidean_division_equations; lia).
    assert (Hf' : (1 <= f)%nat).
    { destruct f as [|f']; [|lia]. simpl in Hw. lia. }
    assert (Hq' : w / 128 < 128 ^ Z.of_nat f).
    { rewrite Nat2Z.inj_succ, Z.pow_succ_r in Hw by lia.
      apply Z.div_lt_upper_bound; lia. }
    assert (Hl28 : l < 28).
    { destruct (Z.lt_ge_cases l 28) as [|H28]; [assumption|exfalso].
      assert (2 ^ 28 <= 2 ^ l) by (apply Z.pow_le_mono_r; lia). nia. }
    destruct (Z.leb_spec 28 l); [lia|]. cbn [andb].
    rewrite land_127.
    replace ((w mod 128 + 128) mod 128) with (w mod 128)
      by (Z.to_euclidean_division_equations; lia).
    rewrite Z.shiftl_mul_pow2 by lia.
    assert (Hms : 0 <= w mod 128 * 2 ^ l <= 2 ^ l * w) by nia.
    rewrite u32_id by lia.
    rewrite <- (Z.shiftl_mul_pow2 (w mod 128) l) by lia.
    rewrite lor_shiftl_add by lia.
    destruct (Z.ltb_spec 127 (w mod 128 + 128)); [|lia].
    pose proof (varint_bytes_nonempty f (w / 128) Hf') as Hne.
    destruct (Z.ltb_spec (cur + 1) end_); [|lia]. cbn [andb].
    assert (Hp7 : 2 ^ (l + 7) = 2 ^ l * 128).
    { rewrite Z.pow_add_r by lia. reflexivity. }
    rewrite (IH (w / 128) (cur + 1) (l + 7) (acc + w mod 128 * 2 ^ l) fuel);
      [|first [assumption|lia|rewrite Hp7; nia]..].
    do 3 f_equal; [rewrite Hp7|]; lia.
Qed.

(** X8: the length prefix is the base-128 varint of the declared size: on a
    source that starts with the varint of any [n] from 1 to 2^32 - 1, with
    at least one byte after it, and a destination capacity of at least [n],
    the decoder takes [n] as the declared size and starts the LZ77 loop
    right after the prefix, with nothing written and [n] bytes to go. *)
Theorem length_prefix_round_trip (dst : list byte) (dstLen : Z) (src : list byte)
    (srcLen n : Z) :
  0 < n < 2 ^ 32 -> n <= dstLen ->
  slice src 0 (Z.of_nat (length (Encode.varint32 n))) = mk_bytes (Encode.varint32 n) ->
  Z.of_nat (length (Encode.varint32 n)) < srcLen ->
  Decompress_init dst dstLen src srcLen
  = Ret (Some (n, mk_lz (Z.of_nat (length (Encode.varint32 n))) 0 n dst)).
Proof.
  intros Hn Hcap Hs Hlen. unfold Encode.varint32 in *.
  apply bytes_at_slice in Hs; [|lia|apply varint_bytes_range; lia].
  assert (Hr : 0 <= n < 128 ^ Z.of_nat 5) by (change (128 ^ Z.of_nat 5) with (2 ^ 35); lia).
  assert (Hl5 : (length (Encode.varint_bytes 5 n) <= 5)%nat).
  { clear. generalize 5%nat. intros f. revert n.
    induction f as [|f IH]; intros n; cbn [Encode.varint_bytes]; [simpl; lia|].
    destruct (n <? 128); cbn [length]; [lia|]. specialize (IH (n / 128)). lia. }
  assert (Hsum : 0 + 2 ^ 0 * n < 2 ^ 32) by lia.
  assert (Hacc : 0 <= 0 < 2 ^ 0) by lia.
  unfold Decompress_init. destruct (Z.ltb_spec srcLen 1); [lia|].
  rewrite (read_uncompressed_size_decodes src srcLen 5 n 0 0 0 5 ltac:(lia) Hr ltac:(lia)
             Hacc Hsum ltac:(lia) Hs ltac:(lia) Hl5).
  cbn [bind]. replace (0 + 2 ^ 0 * n) with n by lia.
  destruct (Z.eqb_spec n 0); [lia|]. destruct (Z.ltb_spec dstLen n); [lia|].
  destruct (Z.leb_spec srcLen (0 + Z.of_nat (length (Encode.varint_bytes 5 n)))); [lia|].
  reflexivity.
Qed.

Lemma length_prefix_round_trip_witness :
  Decompress_init (mk_bytes [0]) 1000 (mk_bytes [172; 2; 0; 97]) 4
  = Ret (Some (300, mk_lz (Z.of_nat (length (Encode.varint32 300))) 0 300 (mk_bytes [0]))).
Proof.
  apply (length_prefix_round_trip (mk_bytes [0]) 1000 (mk_bytes [172; 2; 0; 97]) 4 300).
  - lia.
  - lia.
  - reflexivity.
  - simpl. lia.
Defined.

End SnappyRun.

(** * What the decoder writes *)

Module SnappyOutput.
Import Snappy.

(** The copy loop: what was below [dst_pos] stays, and each byte written is
    the one [offset] places before it. *)
Lemma copy_bytes_content (k : nat) (offset dst_pos : Z) (dst : list byte) :
  1 <= offset <= dst_pos ->
  dst_pos + Z.of_nat (S k) <= Z.of_nat (length dst) ->
  dst_pos + Z.of_nat (S k) < 2 ^ 32 ->
  exists dst',
    copy_bytes k offset dst_pos dst = Ret (dst_pos + Z.of_nat (S k), dst') /\
    length dst' = length dst /\
    (forall i : nat, Z.of_nat i < dst_pos -> dst' !! i = dst !! i) /\
    (forall i : nat, dst_pos <= Z.of_nat i < dst_pos + Z.of_nat (S k) ->
       dst' !! i = dst' !! Z.to_nat (Z.of_nat i - offset)).
Proof.
  revert dst_pos dst. induction k as [|k IH]; intros dst_pos dst Ho Hl H32.
  - cbn [copy_bytes]. rewrite u32_id by lia.
    destruct (loadb_in dst (dst_pos - offset)) as (b & Eb); [lia|]. rewrite Eb. cbn [bind].
    apply loadb_lookup in Eb as [_ Eb].
    rewrite store_in by lia. cbn [bind]. rewrite u32_id by lia.
    eexists. split; [do 2 f_equal; lia|]. split; [apply length_insert|]. split.
    + intros i Hi. apply list_lookup_insert_ne. lia.
    + intros i Hi. assert (i = Z.to_nat dst_pos) as -> by lia.
      rewrite list_lookup_insert_eq by lia.
      rewrite list_lookup_insert_ne by lia.
      rewrite Z2Nat.id by lia. symmetry. exact Eb.
  - cbn [copy_bytes]. rewrite u32_id by lia.
    destruct (loadb_in dst (dst_pos - offset)) as (b & Eb); [lia|]. rewrite Eb. cbn [bind].
    apply loadb_lookup in Eb as [_ Eb].
    rewrite store_in by lia. cbn [bind]. rewrite u32_id by lia.
    destruct (IH (dst_pos + 1) (<[Z.to_nat dst_pos := b]> dst))
      as (dst' & E & Hlen & Hpre & Hrun); try (rewrite ?length_insert; lia).
    rewrite E. eexists. split; [do 2 f_equal; lia|]. rewrite length_insert in Hlen.
    split; [exact Hlen|]. split.
    + intros i Hi. rewrite Hpre by lia. apply list_lookup_insert_ne. lia.
    + intros i Hi. destruct (Z.eq_dec (Z.of_nat i) dst_pos) as [Ei|Ei].
      * assert (i = Z.to_nat dst_pos) as -> by lia.
        rewrite Hpre by lia. rewrite list_lookup_insert_eq by lia.
        rewrite Hpre by lia. rewrite list_lookup_insert_ne by lia.
        rewrite Z2Nat.id by lia. symmetry. exact Eb.
      * apply Hrun. lia.
Qed.

(** The copy loop on two destinations that agree below [dst_pos]. *)
Lemma copy_bytes_same (k : nat) (offset dst_pos : Z) (dst dst2 : list byte) :
  1 <= offset <= dst_pos ->
  dst_pos + Z.of_nat (S k) <= Z.of_nat (length dst) ->
  dst_pos + Z.of_nat (S k) < 2 ^ 32 ->
  length dst2 = length dst ->
  (forall i : nat, Z.of_nat i < dst_pos -> dst2 !! i = dst !! i) ->
  exists d1 d2,
    copy_bytes k offset dst_pos dst = Ret (dst_pos + Z.of_nat (S k), d1) /\
    copy_bytes k offset dst_pos dst2 = Ret (dst_pos + Z.of_nat (S k), d2) /\
    length d1 = length dst /\ length d2 = length d1 /\
    (forall i : nat, Z.of_nat i < dst_pos + Z.of_nat (S k) -> d2 !! i = d1 !! i).
Proof.
  revert dst_pos dst dst2. induction k as [|k IH]; intros dst_pos dst dst2 Ho Hl H32 Hlen Hag.
  - cbn [copy_bytes]. rewrite u32_id by lia.
    destruct (loadb_in dst (dst_pos - offset)) as (b & Eb); [lia|].
    assert (Eb2 : loadb dst2 (dst_pos - offset) = Ret b).
    { pose proof Eb as Eb'. apply loadb_lookup in Eb' as [_ Eb'].
      unfold loadb. destruct (Z.ltb_spec (dst_pos - offset) 0); [lia|].
      rewrite Hag by lia. rewrite Eb'. reflexivity. }
    rewrite Eb, Eb2. cbn [bind].
    rewrite !store_in by lia. cbn [bind]. rewrite u32_id by lia.
    do 2 eexists. split; [do 2 f_equal; lia|]. split; [do 2 f_equal; lia|].
    split; [apply length_insert|]. split; [rewrite !length_insert; exact Hlen|].
    intros i Hi. destruct (Z.eq_dec (Z.of_nat i) dst_pos) as [Ei|Ei].
    + assert (i = Z.to_nat dst_pos) as -> by lia.
      rewrite !list_lookup_insert_eq by lia. reflexivity.
    + rewrite !list_lookup_insert_ne by lia. apply Hag. lia.
  - cbn [copy_bytes]. rewrite u32_id by lia.
    destruct (loadb_in dst (dst_pos - offset)) as (b & Eb); [lia|].
    assert (Eb2 : loadb dst2 (dst_pos - offset) = Ret b).
    { pose proof Eb as Eb'. apply loadb_lookup in Eb' as [_ Eb'].
      unfold loadb. destruct (Z.ltb_spec (dst_pos - offset) 0); [lia|].
      rewrite Hag by lia. rewrite Eb'. reflexivity. }
    rewrite Eb, Eb2. cbn [bind].
    rewrite !store_in by lia. cbn [bind]. rewrite u32_id by lia.
    destruct (IH (dst_pos + 1) (<[Z.to_nat dst_pos := b]> dst) (<[Z.to_nat dst_pos := b]> dst2))
      as (d1 & d2 & E1 & E2 & Hl1 & Hl2 & Hag'); try (rewrite ?length_insert; lia).
    { intros i Hi. destruct (Z.eq_dec (Z.of_nat i) dst_pos) as [Ei|Ei].
      - assert (i = Z.to_nat dst_pos) as -> by lia.
        rewrite !list_lookup_insert_eq by lia. reflexivity.
      - rewrite !list_lookup_insert_ne by lia. apply Hag. lia. }
    rewrite E1, E2. do 2 eexists. split; [do 2 f_equal; lia|]. split; [do 2 f_equal; lia|].
    rewrite length_insert in Hl1. split; [exact Hl1|]. split; [exact Hl2|].
    intros i Hi. apply Hag'. lia.
Qed.

(** [memcpy] into two destinations that agree below [dpos]. *)
Lemma memcpy_same (n : nat) (dst dst2 : list byte) (dpos : Z) (src : list byte) (spos : Z) :
  0 <= dpos -> dpos + Z.of_nat n <= Z.of_nat (length dst) ->
  0 <= spos -> spos + Z.of_nat n <= Z.of_nat (length src) ->
  length dst2 = length dst ->
  (forall i : nat, Z.of_nat i < dpos -> dst2 !! i = dst !! i) ->
  exists d1 d2,
    memcpy n dst dpos src spos = Ret d1 /\ memcpy n dst2 dpos src spos = Ret d2 /\
    length d1 = length dst /\ length d2 = length d1 /\
    (forall i : nat, Z.of_nat i < dpos -> d1 !! i = dst !! i) /\
    (forall i : nat, Z.of_nat i < dpos + Z.of_nat n -> d2 !! i = d1 !! i).
Proof.
  revert dst dst2 dpos spos.
  induction n as [|n IH]; intros dst dst2 dpos spos Hd Hdl Hs Hsl Hlen Hag.
  - cbn [memcpy]. do 2 eexists. repeat split; auto. intros i Hi. apply Hag. lia.
  - cbn [memcpy].
    destruct (loadb_in src spos) as (b & ->); [lia|]. cbn [bind].
    rewrite !store_in by lia. cbn [bind].
    destruct (IH (<[Z.to_nat dpos := b]> dst) (<[Z.to_nat dpos := b]> dst2) (dpos + 1) (spos + 1))
      as (d1 & d2 & E1 & E2 & Hl1 & Hl2 & Hpre & Hag'); try (rewrite ?length_insert; lia).
    { intros i Hi. destruct (Z.eq_dec (Z.of_nat i) dpos) as [Ei|Ei].
      - assert (i = Z.to_nat dpos) as -> by lia.
        rewrite !list_lookup_insert_eq by lia. reflexivity.
      - rewrite !list_lookup_insert_ne by lia. apply Hag. lia. }
    rewrite E1, E2. do 2 eexists. split; [reflexivity|]. split; [reflexivity|].
    rewrite length_insert in Hl1. split; [exact Hl1|]. split; [exact Hl2|]. split.
    + intros i Hi. rewrite Hpre by lia. apply list_lookup_insert_ne. lia.
    + intros i Hi. apply Hag'. lia.
Qed.

Lemma out_prefix_refl (a : lz_state) : out_prefix a a.
Proof. split; [lia|auto]. Qed.

Lemma out_prefix_trans (a b c : lz_state) :
  out_prefix a b -> out_prefix b c -> out_prefix a c.
Proof.
  intros [H1 H2] [H3 H4]. split; [lia|]. intros i Hi. rewrite H4 by lia. apply H2, Hi.
Qed.

Lemma same_output_refl (s : lz_state) : same_output s s.
Proof. repeat split; auto. Qed.

Section Output.

Variables (src dst0 : list byte) (end_ u : Z).
Hypothesis Hu : 0 < u < 2 ^ 32.
Hypothesis Hdst : u <= Z.of_nat (length dst0).
Hypothesis Hsrc : end_ <= Z.of_nat (length src).

(** One element, run from two states with the same output so far: both
    runs break, or both complete, keep what was produced, and have the same
    output again. *)
Lemma lz_step_effect (s t : lz_state) :
  lz_inv u dst0 s -> cur s < end_ -> same_output s t ->
  (lz_step src end_ s = Ret (Break s) /\ lz_step src end_ t = Ret (Break t)) \/
  exists s' t',
    lz_step src end_ s = Ret (Next s') /\ lz_step src end_ t = Ret (Next t') /\
    lz_inv u dst0 s' /\ cur s < cur s' <= end_ /\
    out_prefix s s' /\ same_output s' t'.
Proof.
  intros [Hc Hp Hl Hs Hlen Hfr] Hce (Ec & Ep & Eb & El & Hag).
  destruct t as [ct pt bt dt]. cbn [cur dst_pos bytes_left dstBytes] in *. subst ct pt bt.
  unfold lz_step. cbn [cur dst_pos bytes_left dstBytes].
  destruct (load_in src (cur s)) as (tag & -> & Ht); [lia|]. cbn [bind].
  destruct (Z.eqb_spec (Z.land tag 3) 0) as [E3|E3]; cbn [negb]; cbv iota.
  - (* literal *)
    destruct (SnappyFacts.literal_element_ok src end_ (cur s + 1) tag)
      as [->|(blen & c & -> & Hb & Hcc)]; try lia; cbn [bind]; [left; auto|].
    destruct (Z.ltb_spec end_ (c + blen)); cbn [orb]; [left; auto|].
    destruct (Z.ltb_spec (bytes_left s) blen); cbn [orb]; [left; auto|].
    destruct (SnappyFacts.memcpy_spec (Z.to_nat blen) (dstBytes s) (dst_pos s) src c)
      as (dst' & E & Hlen' & Hfr'); try lia.
    destruct (memcpy_same (Z.to_nat blen) (dstBytes s) dt (dst_pos s) src c)
      as (d1 & d2 & E1 & -> & Hl1 & Hl2 & Hpre & Hag'); try lia; try assumption.
    rewrite E in E1. injection E1 as <-. rewrite E.
    cbn [bind]. right. do 2 eexists. split; [reflexivity|]. split; [reflexivity|].
    split; [|split; [simpl; lia|split]].
    + constructor; simpl; rewrite ?u32_id by lia; try lia.
      intros i Hi. rewrite Hfr' by lia. apply Hfr, Hi.
    + split; simpl; rewrite ?u32_id by lia; [lia|exact Hpre].
    + unfold same_output. simpl. rewrite ?u32_id by lia.
      repeat split; auto; intros i Hi; apply Hag'; lia.
  - (* copy *)
    destruct (SnappyFacts.copy_element_spec src end_ (cur s + 1) tag)
      as [(_ & ->)|(Hfit & offset & blen & -> & Ho & Hb)]; try lia;
      cbn [bind]; [left; auto|].
    destruct (Z.leb_spec (dst_pos s) (u32 (offset - 1))) as [Hov|Hov];
      cbn [orb]; [left; auto|].
    destruct (Z.ltb_spec (bytes_left s) blen); cbn [orb]; [left; auto|].
    assert (1 <= offset).
    { destruct (Z.eq_dec offset 0) as [->|]; [|lia].
      change (u32 (0 - 1)) with (2 ^ 32 - 1) in Hov. lia. }
    rewrite u32_id in Hov by lia.
    rewrite (u32_id (blen - 1)) by lia.
    destruct (SnappyFacts.copy_bytes_spec (Z.to_nat (blen - 1)) offset (dst_pos s) (dstBytes s))
      as (dst' & E & Hlen' & Hfr'); try lia.
    destruct (copy_bytes_content (Z.to_nat (blen - 1)) offset (dst_pos s) (dstBytes s))
      as (dst'' & E' & _ & Hpre & _); try lia.
    rewrite E in E'. injection E' as <-.
    destruct (copy_bytes_same (Z.to_nat (blen - 1)) offset (dst_pos s) (dstBytes s) dt)
      as (d1 & d2 & E1 & -> & Hl1 & Hl2 & Hag'); try lia; try assumption.
    rewrite E in E1. injection E1 as <-. rewrite E.
    cbn [bind fst snd]. right. do 2 eexists. split; [reflexivity|]. split; [reflexivity|].
    pose proof (SnappyFacts.copy_size_range tag).
    split; [|split; [simpl; lia|split]].
    + constructor; simpl; rewrite ?u32_id by lia; try lia.
      intros i Hi. rewrite Hfr' by lia. apply Hfr, Hi.
    + split; simpl; [lia|exact Hpre].
    + unfold same_output. simpl. repeat split; auto; intros i Hi; apply Hag'; lia.
Qed.

(** The loop, run from two states with the same output so far. *)
Lemma lz_loop_effect (fuel : nat) (s t s' : lz_state) :
  lz_inv u dst0 s -> lz_at_head end_ s -> same_output s t ->
  lz_loop fuel src end_ s = Ret s' ->
  out_prefix s s' /\
  exists t', lz_loop fuel src end_ t = Ret t' /\ same_output s' t'.
Proof.
  revert s t. induction fuel as [|fuel IH]; intros s t Hinv Hhead Hsame H; [discriminate|].
  cbn [lz_loop] in *.
  destruct (lz_step_effect s t Hinv (proj2 Hhead) Hsame)
    as [(E & Et)|(s1 & t1 & E & Et & Hinv1 & Hadv & Hpre & Hsame1)];
    rewrite E in H; rewrite Et; cbn [bind] in *.
  - injection H as <-. split; [apply out_prefix_refl|]. eauto.
  - destruct Hsame1 as (Ec & Ep & Eb & El & Hag). rewrite Eb, Ec.
    destruct (Z.eqb_spec (bytes_left s1) 0) as [E0|E0]; cbn [negb andb] in *.
    + injection H as <-. split; [exact Hpre|]. eexists. split; [reflexivity|].
      repeat split; auto.
    + destruct (Z.ltb_spec (cur s1) end_) as [Hlt|Hge].
      * destruct (IH s1 t1 Hinv1 (conj E0 Hlt) ltac:(repeat split; auto) H)
          as (Hpre' & t' & Et' & Hsame').
        split; [eapply out_prefix_trans; eassumption|]. eauto.
      * injection H as <-. split; [exact Hpre|]. eexists. split; [reflexivity|].
        repeat split; auto.
Qed.

(** What a state reached has produced is there in every state reached
    later. *)
Lemma lz_reaches_prefix (s s' : lz_state) :
  lz_reaches src end_ s s' ->
  lz_inv u dst0 s -> lz_at_head end_ s -> out_prefix s s'.
Proof.
  induction 1 as [|s s1 s2 Hst Hh _ IH]; intros Hinv Hhead; [apply out_prefix_refl|].
  destruct (lz_step_effect s s Hinv (proj2 Hhead) (same_output_refl s))
    as [(E & _)|(s1' & _ & E & _ & Hinv1 & _ & Hpre & _)]; rewrite E in Hst; [discriminate|].
  injection Hst as ->. eapply out_prefix_trans; [exact Hpre|]. apply IH; assumption.
Qed.

(** The state the loop is left in, seen from a state reached on the way. *)
Lemma lz_final_from (s0 sh s : lz_state) :
  lz_reaches src end_ s0 sh -> lz_final src end_ s0 s -> lz_final src end_ sh s.
Proof.
  induction 1 as [|a a1 b Hst Hh _ IH]; intros Hfin; [exact Hfin|].
  apply IH. destruct Hfin as [x Hr Hb|x y Hr Hn Hnh].
  - destruct Hr as [|a a1' x Hst' Hh' Hr]; [congruence|].
    rewrite Hst in Hst'. injection Hst' as <-. apply lz_final_break; assumption.
  - destruct Hr as [|a a1' x Hst' Hh' Hr].
    + rewrite Hst in Hn. injection Hn as ->. contradiction.
    + rewrite Hst in Hst'. injection Hst' as <-. eapply lz_final_done; eassumption.
Qed.

Lemma lz_final_prefix (s s' : lz_state) :
  lz_final src end_ s s' ->
  lz_inv u dst0 s -> lz_at_head end_ s -> out_prefix s s'.
Proof.
  intros Hfin Hinv Hhead. destruct Hfin as [x Hr Hb|x y Hr Hn Hnh].
  - apply lz_reaches_prefix; assumption.
  - destruct (SnappyFacts.lz_reaches_inv src dst0 end_ u Hu Hdst Hsrc _ _ Hr Hinv Hhead)
      as (Hinvx & Hhx & _).
    eapply out_prefix_trans; [apply lz_reaches_prefix; eassumption|].
    destruct (lz_step_effect x x Hinvx (proj2 Hhx) (same_output_refl x))
      as [(E & _)|(y' & _ & E & _ & _ & _ & Hpre & _)]; rewrite E in Hn; [discriminate|].
    injection Hn as ->. exact Hpre.
Qed.

End Output.

Lemma Decompress_init_other (dst dst2 : list byte) (dstLen : Z) (src : list byte) (srcLen : Z) :
  Decompress_init dst2 dstLen src srcLen =
  match Decompress_init dst dstLen src srcLen with
  | Ret (Some (u, s)) => Ret (Some (u, mk_lz (cur s) (dst_pos s) (bytes_left s) dst2))
  | Ret None => Ret None
  | OutOfBounds => OutOfBounds
  | OutOfFuel => OutOfFuel
  end.
Proof.
  unfold Decompress_init. destruct (srcLen <? 1); [reflexivity|].
  destruct (read_uncompressed_size 5 src srcLen 0 0 0) as [[[v c]|]| |]; cbn [bind];
    try reflexivity.
  destruct ((v =? 0) || (dstLen <? v) || (srcLen <=? c)); reflexivity.
Qed.

(** X9: a copy element that passes the checks appends [blen] bytes to the
    output, each equal to the byte [offset] places before it, so that an
    offset smaller than the length repeats the bytes just written; what was
    produced before stays as it is, and the cursor and the count of bytes
    left move on by the element. *)
Theorem copy_element_repeats_output (src dst0 : list byte) (end_ u : Z) (s : lz_state)
    (tag offset blen c : Z) :
  0 < u < 2 ^ 32 -> u <= Z.of_nat (length dst0) -> end_ <= Z.of_nat (length src) ->
  lz_inv u dst0 s -> cur s < end_ ->
  load src (cur s) = Ret tag -> Z.land tag 3 <> 0 ->
  copy_element src end_ (cur s + 1) tag = Ret (Some (offset, blen, c)) ->
  1 <= offset <= dst_pos s -> blen <= bytes_left s ->
  copy_run src end_ s offset blen c.
Proof.
  intros Hu Hdst Hsrc [Hc Hp Hl Hs Hlen Hfr] Hce Htag E3 Hel Ho Hb.
  pose proof (load_range _ _ _ Htag) as Ht.
  destruct (SnappyFacts.copy_element_spec src end_ (cur s + 1) tag)
    as [(_ & E)|(Hfit & offset' & blen' & E & Ho' & Hb')]; try lia;
    rewrite E in Hel; [discriminate|]. injection Hel as -> -> <-.
  unfold copy_run, lz_step. rewrite Htag. cbn [bind].
  destruct (Z.eqb_spec (Z.land tag 3) 0); [contradiction|]. cbn [negb]. cbv iota.
  rewrite E. cbn [bind].
  rewrite (u32_id (offset - 1)) by lia.
  destruct (Z.leb_spec (dst_pos s) (offset - 1)); [lia|].
  destruct (Z.ltb_spec (bytes_left s) blen); [lia|]. cbn [orb].
  rewrite (u32_id (blen - 1)) by lia.
  destruct (copy_bytes_content (Z.to_nat (blen - 1)) offset (dst_pos s) (dstBytes s))
    as (dst' & -> & _ & Hpre & Hrun); try lia.
  cbn [bind fst snd]. eexists. split; [reflexivity|].
  cbn [cur dst_pos bytes_left dstBytes]. rewrite u32_id by lia.
  split; [reflexivity|]. split; [lia|]. split; [reflexivity|]. split.
  - split; cbn [dst_pos dstBytes]; [lia|exact Hpre].
  - intros i Hi. apply Hrun. lia.
Qed.

Lemma copy_element_repeats_output_witness :
  copy_run (mk_bytes [5; 4; 97; 98; 10; 2; 0]) 7
           (mk_lz 4 2 3 (mk_bytes [97; 98; 0; 0; 0])) 2 3 7.
Proof.
  apply (copy_element_repeats_output (mk_bytes [5; 4; 97; 98; 10; 2; 0])
           (mk_bytes [0; 0; 0; 0; 0]) 7 5 (mk_lz 4 2 3 (mk_bytes [97; 98; 0; 0; 0])) 10 2 3 7).
  - lia.
  - simpl. lia.
  - simpl. lia.
  - constructor; simpl; try lia. intros i Hi.
    do 5 (destruct i as [|i]; [lia|]). reflexivity.
  - simpl. lia.
  - reflexivity.
  - discriminate.
  - reflexivity.
  - simpl. lia.
  - simpl. lia.
Defined.

(** The copy of the witness: after "ab", a copy of 3 bytes from 2 places
    back gives "ababa". *)
Example copy_overlapping_run :
  Decompress (mk_bytes [0; 0; 0; 0; 0]) 5 (mk_bytes [5; 4; 97; 98; 10; 2; 0]) 7 = Ret 5 /\
  exists s, Decompress_run (mk_bytes [0; 0; 0; 0; 0]) 5 (mk_bytes [5; 4; 97; 98; 10; 2; 0]) 7
            = Ret (5, Some s) /\ dstBytes s = mk_bytes [97; 98; 97; 98; 97].
Proof. split; [reflexivity|]. eexists. split; reflexivity. Qed.

(** X10: the output is append-only: what the decoder has produced when it
    is at the top of its loop, the bytes below [dst_pos], is found unchanged
    in the destination when [Decompress] returns, whether it succeeds or
    fails. *)
Theorem Decompress_output_is_append_only (dst : list byte) (dstLen : Z) (src : list byte)
    (srcLen u : Z) (s0 sh : lz_state) (r : Z) (s : lz_state) :
  srcLen <= Z.of_nat (length src) -> dstLen <= Z.of_nat (length dst) ->
  Decompress_init dst dstLen src srcLen = Ret (Some (u, s0)) ->
  lz_reaches src srcLen s0 sh ->
  Decompress_run dst dstLen src srcLen = Ret (r, Some s) ->
  out_prefix sh s.
Proof.
  intros Hsrc Hdst Hinit Hreach Hrun.
  destruct (SnappyFacts.Decompress_run_spec dst dstLen src srcLen Hsrc)
    as [(E & _)|(u' & s0' & s' & E & Erun & Hu & Hle & Hinv0 & Hh0 & Hinv & Hfin & Hce)].
  - intros u' s0' E. destruct (SnappyFacts.Decompress_init_spec dst dstLen src srcLen Hsrc)
      as [E'|(u'' & c & E' & ? & ? & ?)]; rewrite E' in E; [discriminate|].
    injection E as <- _. lia.
  - congruence.
  - rewrite Hinit in E. injection E as <- <-.
    rewrite Hrun in Erun. injection Erun as _ <-.
    assert (Hcap : u <= Z.of_nat (length dst)) by lia.
    destruct (SnappyFacts.lz_reaches_inv src dst srcLen u Hu Hcap Hsrc _ _ Hreach Hinv0 Hh0)
      as (Hinvh & Hhh & _).
    apply (lz_final_prefix src dst srcLen u Hu Hcap Hsrc); [|assumption|assumption].
    eapply lz_final_from; eassumption.
Qed.

Lemma Decompress_output_is_append_only_witness :
  out_prefix (mk_lz 4 2 3 (mk_bytes [97; 98; 0; 0; 0]))
             (mk_lz 7 5 0 (mk_bytes [97; 98; 97; 98; 97])).
Proof.
  apply (Decompress_output_is_append_only (mk_bytes [0; 0; 0; 0; 0]) 5
           (mk_bytes [5; 4; 97; 98; 10; 2; 0]) 7 5
           (mk_lz 1 0 5 (mk_bytes [0; 0; 0; 0; 0]))
           (mk_lz 4 2 3 (mk_bytes [97; 98; 0; 0; 0])) 5
           (mk_lz 7 5 0 (mk_bytes [97; 98; 97; 98; 97]))).
  - simpl. lia.
  - simpl. lia.
  - reflexivity.
  - apply (lz_reaches_next _ _ _ (mk_lz 4 2 3 (mk_bytes [97; 98; 0; 0; 0])));
      [reflexivity|split; simpl; lia|apply lz_reaches_here].
  - reflexivity.
Defined.

(** X11: the result does not depend on what the destination holds
    beforehand: on two destinations of the same length [Decompress] returns
    the same value, stops at the same place, and has produced the same
    bytes. *)
Theorem Decompress_ignores_destination_contents (dst1 dst2 : list byte) (dstLen : Z)
    (src : list byte) (srcLen : Z) :
  srcLen <= Z.of_nat (length src) -> dstLen <= Z.of_nat (length dst1) ->
  length dst2 = length dst1 ->
  exists r fin1 fin2,
    Decompress_run dst1 dstLen src srcLen = Ret (r, fin1) /\
    Decompress_run dst2 dstLen src srcLen = Ret (r, fin2) /\
    match fin1, fin2 with
    | Some s1, Some s2 => same_output s1 s2
    | None, None => True
    | _, _ => False
    end.
Proof.
  intros Hsrc Hdst Hlen.
  pose proof (Decompress_init_other dst1 dst2 dstLen src srcLen) as Hother.
  destruct (SnappyFacts.Decompress_run_spec dst1 dstLen src srcLen Hsrc)
    as [(E & Erun)|(u & s0 & s & E & Erun & Hu & Hle & Hinv0 & Hh0 & Hinv & Hfin & Hce)].
  - intros u' s0' E. destruct (SnappyFacts.Decompress_init_spec dst1 dstLen src srcLen Hsrc)
      as [E'|(u'' & c & E' & ? & ? & ?)]; rewrite E' in E; [discriminate|].
    injection E as <- _. lia.
  - rewrite E in Hother. exists 0, None, None. split; [exact Erun|].
    split; [|exact I]. unfold Decompress_run. rewrite Hother. reflexivity.
  - rewrite E in Hother.
    assert (Hcap : u <= Z.of_nat (length dst1)) by lia.
    pose proof Erun as Erun'. unfold Decompress_run in Erun'. rewrite E in Erun'.
    cbn [bind] in Erun'. apply bind_Ret_inv in Erun' as (s' & Hloop & Hret).
    injection Hret as _ <-.
    set (t0 := mk_lz (cur s0) (dst_pos s0) (bytes_left s0) dst2) in *.
    assert (Hsame0 : same_output s0 t0).
    { destruct (SnappyFacts.Decompress_init_spec dst1 dstLen src srcLen Hsrc)
        as [E'|(u'' & c & E' & _)]; rewrite E' in E; [discriminate|].
      injection E as <- <-. unfold same_output, t0. simpl. repeat split; auto. intros i Hi. lia. }
    destruct (lz_loop_effect src dst1 srcLen u Hu Hcap Hsrc _ s0 t0 s' Hinv0 Hh0 Hsame0 Hloop)
      as (_ & t' & Ht & Hsame).
    exists (if negb (bytes_left s' =? 0) then 0 else u), (Some s'), (Some t').
    split; [exact Erun|]. split; [|exact Hsame].
    unfold Decompress_run. rewrite Hother. cbn [bind]. fold t0. rewrite Ht. cbn [bind].
    destruct Hsame as (_ & _ & -> & _). reflexivity.
Qed.

Lemma Decompress_ignores_destination_contents_witness :
  exists r fin1 fin2,
    Decompress_run (mk_bytes [0; 0; 0]) 3 (mk_bytes [3; 8; 97; 98; 99]) 5 = Ret (r, fin1) /\
    Decompress_run (mk_bytes [7; 8; 9]) 3 (mk_bytes [3; 8; 97; 98; 99]) 5 = Ret (r, fin2) /\
    match fin1, fin2 with
    | Some s1, Some s2 => same_output s1 s2
    | None, None => True
    | _, _ => False
    end.
Proof.
  apply (Decompress_ignores_destination_contents (mk_bytes [0; 0; 0]) (mk_bytes [7; 8; 9]) 3
           (mk_bytes [3; 8; 97; 98; 99]) 5).
  - simpl. lia.
  - simpl. lia.
  - reflexivity.
Defined.

End SnappyOutput.


(** * The Snappy host decoder on streams of literals *)

Module SnappyStored.
Import Snappy.

Lemma land_4x_3 (x : Z) : Z.land (4 * x) 3 = 0.
Proof.
  change 3 with (Z.ones 2). rewrite Z.land_ones by lia. change (2 ^ 2) with 4.
  rewrite Z.mul_comm. apply Z.mod_mul. lia.
Qed.

Lemma shiftr_4x_2 (x : Z) : Z.shiftr (4 * x) 2 = x.
Proof.
  rewrite Z.shiftr_div_pow2 by lia. change (2 ^ 2) with 4.
  rewrite Z.mul_comm. apply Z.div_mul. lia.
Qed.

Lemma mk_bytes_app (a b : list Z) : mk_bytes (a ++ b) = mk_bytes a ++ mk_bytes b.
Proof. unfold mk_bytes. apply map_app. Qed.

Lemma mk_bytes_length (l : list Z) : length (mk_bytes l) = length l.
Proof. unfold mk_bytes. apply length_map. Qed.

(** A byte of the slice is the byte of the buffer. *)
Lemma slice_lookup (m : list byte) (p n : Z) (i : nat) :
  0 <= p -> Z.of_nat i < n -> slice m p n !! i = m !! (Z.to_nat p + i)%nat.
Proof.
  intros Hp Hi. unfold slice. rewrite lookup_take.
  destruct (decide (i < Z.to_nat n)%nat); [|lia]. apply lookup_drop.
Qed.

(** The first byte of what the buffer holds from [p] on. *)
Lemma load_drop (m : list byte) (p z : Z) (l : list Z) :
  0 <= p -> 0 <= z < 256 -> drop (Z.to_nat p) m = mk_bytes (z :: l) -> load m p = Ret z.
Proof.
  intros Hp Hz Hd. unfold load, loadb. destruct (Z.ltb_spec p 0); [lia|].
  assert (H0 : drop (Z.to_nat p) m !! 0%nat = Some (mk_byte z)) by (rewrite Hd; reflexivity).
  rewrite lookup_drop, Nat.add_0_r in H0. rewrite H0. cbn [bind].
  rewrite byte_val_mk_byte by exact Hz. reflexivity.
Qed.

(** The varint prefix of a stream, read by the start of [Decompress]. *)
Lemma Decompress_init_of_varint (dst : list byte) (dstLen : Z) (src : list byte)
    (srcLen n : Z) :
  0 < n < 2 ^ 32 -> n <= dstLen ->
  bytes_at src 0 (Encode.varint32 n) ->
  Z.of_nat (length (Encode.varint32 n)) < srcLen ->
  Decompress_init dst dstLen src srcLen
  = Ret (Some (n, mk_lz (Z.of_nat (length (Encode.varint32 n))) 0 n dst)).
Proof.
  intros Hn Hcap Hs Hlen. unfold Encode.varint32 in *.
  assert (Hr : 0 <= n < 128 ^ Z.of_nat 5) by (change (128 ^ Z.of_nat 5) with (2 ^ 35); lia).
  assert (Hl5 : (length (Encode.varint_bytes 5 n) <= 5)%nat).
  { clear. generalize 5%nat. intros f. revert n.
    induction f as [|f IH]; intros n; cbn [Encode.varint_bytes]; [simpl; lia|].
    destruct (n <? 128); cbn [length]; [lia|]. specialize (IH (n / 128)). lia. }
  assert (Hsum : 0 + 2 ^ 0 * n < 2 ^ 32) by lia.
  assert (Hacc : 0 <= 0 < 2 ^ 0) by lia.
  unfold Decompress_init. destruct (Z.ltb_spec srcLen 1); [lia|].
  rewrite (SnappyRun.read_uncompressed_size_decodes src srcLen 5 n 0 0 0 5 ltac:(lia) Hr
             ltac:(lia) Hacc Hsum ltac:(lia) Hs ltac:(lia) Hl5).
  cbn [bind]. replace (0 + 2 ^ 0 * n) with n by lia.
  destruct (Z.eqb_spec n 0); [lia|]. destruct (Z.ltb_spec dstLen n); [lia|].
  destruct (Z.leb_spec srcLen (0 + Z.of_nat (length (Encode.varint_bytes 5 n)))); [lia|].
  reflexivity.
Qed.

(** One pass of the loop over a literal element of [Encode.literal]: the
    bytes of the chunk are appended to the output. *)
Lemma literal_chunk_step (src : list byte) (s : lz_state) (c : list Z) (rest : list Z) :
  Encode.chunk_ok c ->
  0 <= cur s -> 0 <= dst_pos s ->
  drop (Z.to_nat (cur s)) src = mk_bytes (Encode.literal c ++ rest) ->
  Z.of_nat (length c) <= bytes_left s ->
  dst_pos s + bytes_left s <= Z.of_nat (length (dstBytes s)) ->
  dst_pos s + bytes_left s < 2 ^ 32 ->
  exists d,
    lz_step src (Z.of_nat (length src)) s
    = Ret (Next (mk_lz (cur s + 1 + Z.of_nat (length c)) (dst_pos s + Z.of_nat (length c))
                       (bytes_left s - Z.of_nat (length c)) d)) /\
    length d = length (dstBytes s) /\
    (forall i : nat, Z.of_nat i < dst_pos s -> d !! i = dstBytes s !! i) /\
    (forall i : nat, (i < length c)%nat ->
       d !! (Z.to_nat (dst_pos s) + i)%nat = mk_bytes c !! i) /\
    drop (Z.to_nat (cur s + 1 + Z.of_nat (length c))) src = mk_bytes rest.
Proof.
  intros (Hk & Hr) Hc Hp Hd Hleft Hcap H32.
  set (k := Z.of_nat (length c)) in *.
  assert (Hsl : Z.of_nat (length src) = cur s + 1 + k + Z.of_nat (length rest)).
  { pose proof (f_equal length Hd) as HL.
    rewrite length_drop, mk_bytes_length, length_app in HL. cbn [Encode.literal length] in HL.
    lia. }
  assert (Htag : load src (cur s) = Ret (4 * (k - 1))).
  { apply (load_drop src (cur s) _ (c ++ rest)); [lia|lia|exact Hd]. }
  unfold lz_step. rewrite Htag. cbn [bind]. rewrite land_4x_3. cbn [Z.eqb negb]. cbv iota.
  rewrite SnappyFacts.literal_element_eq by lia. rewrite shiftr_4x_2.
  destruct (Z.ltb_spec (k - 1) 60); [|lia]. cbn [bind].
  replace (k - 1 + 1) with k by lia.
  destruct (Z.ltb_spec (Z.of_nat (length src)) (cur s + 1 + k)); [lia|].
  destruct (Z.ltb_spec (bytes_left s) k); [lia|]. cbn [orb].
  destruct (SnappyFacts.memcpy_spec (Z.to_nat k) (dstBytes s) (dst_pos s) src (cur s + 1))
    as (d & E & Hlen & _); try lia.
  rewrite E. cbn [bind]. rewrite !u32_id by lia.
  exists d. split; [reflexivity|]. split; [exact Hlen|].
  apply SnappyFacts.memcpy_content in E as [Hbefore Hslice]; [|lia|lia].
  split; [exact Hbefore|]. split.
  - intros i Hi.
    rewrite <- (slice_lookup d (dst_pos s) (Z.of_nat (Z.to_nat k)) i) by lia.
    rewrite Hslice, slice_lookup by lia.
    replace (Z.to_nat (cur s + 1) + i)%nat with (Z.to_nat (cur s) + S i)%nat by lia.
    rewrite <- lookup_drop, Hd. cbn [Encode.literal app mk_bytes map lookup list_lookup].
    change (map mk_byte (c ++ rest)) with (mk_bytes (c ++ rest)).
    rewrite mk_bytes_app. apply lookup_app_l. rewrite mk_bytes_length. exact Hi.
  - replace (Z.to_nat (cur s + 1 + k)) with (Z.to_nat (cur s) + S (length c))%nat by lia.
    rewrite <- drop_drop, Hd. cbn [Encode.literal app mk_bytes map drop].
    change (map mk_byte (c ++ rest)) with (mk_bytes (c ++ rest)).
    rewrite mk_bytes_app. apply drop_app_length'. rewrite mk_bytes_length. reflexivity.
Qed.

(** The loop over the literal elements of a list of chunks. *)
Lemma literals_loop (src : list byte) (chunks : list (list Z)) :
  forall (c : list Z) (fuel : nat) (s : lz_state),
    Forall Encode.chunk_ok (c :: chunks) ->
    (length (c :: chunks) <= fuel)%nat ->
    0 <= cur s -> 0 <= dst_pos s ->
    drop (Z.to_nat (cur s)) src = mk_bytes (concat (map Encode.literal (c :: chunks))) ->
    bytes_left s = Z.of_nat (length (concat (c :: chunks))) ->
    dst_pos s + bytes_left s <= Z.of_nat (length (dstBytes s)) ->
    dst_pos s + bytes_left s < 2 ^ 32 ->
    exists s',
      lz_loop fuel src (Z.of_nat (length src)) s = Ret s' /\
      bytes_left s' = 0 /\
      (forall i : nat, Z.of_nat i < dst_pos s -> dstBytes s' !! i = dstBytes s !! i) /\
      (forall i : nat, (i < length (concat (c :: chunks)))%nat ->
         dstBytes s' !! (Z.to_nat (dst_pos s) + i)%nat = mk_bytes (concat (c :: chunks)) !! i).
Proof.
  induction chunks as [|c' cs IH]; intros c fuel s Hok Hfuel Hc Hp Hd Hleft Hcap H32.
  - cbn [map concat] in *. rewrite !app_nil_r in *.
    destruct fuel as [|fuel]; [simpl in Hfuel; lia|].
    apply Forall_cons in Hok as [Hokc _].
    destruct (literal_chunk_step src s c [] Hokc Hc Hp) as (d & E & Hlen & Hbefore & Hnew & _);
      [rewrite app_nil_r; exact Hd|lia|lia|lia|].
    cbn [lz_loop]. rewrite E. cbn [bind bytes_left].
    replace (bytes_left s - Z.of_nat (length c)) with 0 by lia. cbn [Z.eqb negb andb].
    eexists. split; [reflexivity|]. cbn [bytes_left dstBytes]. auto.
  - destruct fuel as [|fuel]; [simpl in Hfuel; lia|].
    pose proof Hok as Hok'. apply Forall_cons in Hok' as [Hokc Hrest].
    pose proof Hrest as Hrest'. apply Forall_cons in Hrest' as [(Hk' & _) _].
    change (concat (map Encode.literal (c :: c' :: cs)))
      with (Encode.literal c ++ concat (map Encode.literal (c' :: cs))) in Hd.
    change (concat (c :: c' :: cs)) with (c ++ concat (c' :: cs)) in *.
    rewrite length_app in Hleft.
    destruct (literal_chunk_step src s c _ Hokc Hc Hp Hd) as (d & E & Hlen & Hbefore & Hnew & Hd1);
      [lia|lia|lia|].
    set (s1 := mk_lz _ _ _ d) in E.
    assert (Hl1 : bytes_left s1 = Z.of_nat (length (concat (c' :: cs)))) by (unfold s1; cbn [bytes_left]; lia).
    assert (Hpos : 0 < bytes_left s1).
    { rewrite Hl1. cbn [concat]. rewrite length_app. lia. }
    assert (Hend : cur s1 < Z.of_nat (length src)).
    { pose proof (f_equal length Hd1) as HL. rewrite length_drop, mk_bytes_length in HL.
      cbn [map concat] in HL. rewrite length_app in HL. unfold Encode.literal in HL.
      cbn [length] in HL. unfold s1. cbn [cur]. lia. }
    cbn [lz_loop]. rewrite E. cbn [bind].
    destruct (Z.eqb_spec (bytes_left s1) 0); [lia|].
    destruct (Z.ltb_spec (cur s1) (Z.of_nat (length src))); [|lia]. cbn [negb andb].
    destruct (IH c' fuel s1 Hrest) as (s' & El & Hz & Hbefore' & Hnew').
    + simpl in Hfuel |- *. lia.
    + unfold s1. cbn [cur]. lia.
    + unfold s1. cbn [dst_pos]. lia.
    + exact Hd1.
    + exact Hl1.
    + unfold s1. cbn [dst_pos bytes_left dstBytes]. lia.
    + unfold s1. cbn [dst_pos bytes_left]. lia.
    + exists s'. split; [exact El|]. split; [exact Hz|]. split.
      * intros i Hi. rewrite Hbefore' by (unfold s1; cbn [dst_pos]; lia). apply Hbefore, Hi.
      * intros i Hi. rewrite length_app in Hi. rewrite mk_bytes_app.
        destruct (Nat.lt_ge_cases i (length c)) as [Hlt|Hge].
        -- rewrite lookup_app_l by (rewrite mk_bytes_length; exact Hlt).
           rewrite Hbefore' by (unfold s1; cbn [dst_pos]; lia). apply Hnew, Hlt.
        -- rewrite lookup_app_r by (rewrite mk_bytes_length; exact Hge).
           rewrite mk_bytes_length. rewrite <- Hnew' by lia. f_equal.
           unfold s1. cbn [dst_pos]. lia.
Qed.

(** X17: a stream of literal elements decodes to the bytes it was made
    from.  For any chunks of 1 to 60 bytes each, [Decompress] on the varint
    of their total length followed by one literal element per chunk returns
    that length and leaves the chunks, one after the other, at the start of
    the destination. *)
Theorem literals_round_trip (chunks : list (list Z)) (dst : list byte) (dstLen : Z) :
  chunks <> [] -> Forall Encode.chunk_ok chunks ->
  Z.of_nat (length (concat chunks)) < 2 ^ 32 ->
  Z.of_nat (length (concat chunks)) <= dstLen -> dstLen <= Z.of_nat (length dst) ->
  exists s,
    Decompress_run dst dstLen (mk_bytes (Encode.snappy_literals chunks))
      (Z.of_nat (length (Encode.snappy_literals chunks)))
    = Ret (Z.of_nat (length (concat chunks)), Some s) /\
    take (length (concat chunks)) (dstBytes s) = mk_bytes (concat chunks).
Proof.
  intros Hne Hok H32 Hcap Hdst.
  destruct chunks as [|c cs]; [contradiction|].
  set (n := Z.of_nat (length (concat (c :: cs)))) in *.
  set (src := mk_bytes (Encode.snappy_literals (c :: cs))).
  assert (Hsrc : Z.of_nat (length (Encode.snappy_literals (c :: cs))) = Z.of_nat (length src)).
  { unfold src. rewrite mk_bytes_length. reflexivity. }
  rewrite Hsrc.
  pose proof Hok as Hok'. apply Forall_cons in Hok' as [(Hk & _) _].
  assert (Hn : 0 < n).
  { unfold n. cbn [concat]. rewrite length_app. lia. }
  set (L := length (Encode.varint32 n)).
  assert (Hsplit : src = mk_bytes (Encode.varint32 n)
                         ++ mk_bytes (concat (map Encode.literal (c :: cs)))).
  { unfold src, Encode.snappy_literals. apply mk_bytes_app. }
  assert (Hlensrc : Z.of_nat L < Z.of_nat (length src)).
  { rewrite Hsplit, length_app, !mk_bytes_length. cbn [map concat Encode.literal app length].
    unfold L. lia. }
  assert (Hpre : bytes_at src 0 (Encode.varint32 n)).
  { apply bytes_at_slice; [lia|apply varint_bytes_range; lia|].
    unfold slice. cbn [Z.to_nat drop]. rewrite Nat2Z.id, Hsplit.
    apply take_app_length'. rewrite mk_bytes_length. reflexivity. }
  unfold Decompress_run.
  rewrite (Decompress_init_of_varint dst dstLen src (Z.of_nat (length src)) n) by (auto; lia).
  cbn [bind]. fold L.
  destruct (literals_loop src cs c (Z.to_nat (Z.of_nat (length src)))
              (mk_lz (Z.of_nat L) 0 n dst) Hok) as (s' & El & Hz & _ & Hnew).
  - assert (Hcount : forall l : list (list Z),
              Forall Encode.chunk_ok l ->
              (length l <= length (concat (map Encode.literal l)))%nat).
    { induction 1 as [|x l (Hx & _) _ IHl]; [simpl; lia|].
      cbn [map concat]. rewrite length_app. unfold Encode.literal at 1. cbn [length]. lia. }
    specialize (Hcount _ Hok). rewrite Hsplit, length_app, !mk_bytes_length. lia.
  - cbn [cur]. lia.
  - cbn [dst_pos]. lia.
  - cbn [cur]. rewrite Nat2Z.id, Hsplit. apply drop_app_length'.
    rewrite mk_bytes_length. reflexivity.
  - reflexivity.
  - cbn [dst_pos bytes_left dstBytes]. lia.
  - cbn [dst_pos bytes_left]. lia.
  - rewrite El. cbn [bind]. rewrite Hz. cbn [Z.eqb negb].
    exists s'. split; [reflexivity|].
    apply list_eq. intros i. rewrite lookup_take.
    destruct (decide (i < length (concat (c :: cs)))%nat) as [Hi|Hi].
    + rewrite <- (Hnew i Hi). cbn [dst_pos Z.to_nat]. reflexivity.
    + symmetry. apply lookup_ge_None. rewrite mk_bytes_length. lia.
Qed.

Lemma literals_round_trip_witness :
  exists s,
    Decompress_run (mk_bytes [0; 0; 0; 0; 0]) 5
      (mk_bytes (Encode.snappy_literals [[104; 105]; [33; 10; 0]]))
      (Z.of_nat (length (Encode.snappy_literals [[104; 105]; [33; 10; 0]])))
    = Ret (Z.of_nat (length (concat [[104; 105]; [33; 10; 0]])), Some s) /\
    take (length (concat [[104; 105]; [33; 10; 0]])) (dstBytes s)
    = mk_bytes (concat [[104; 105]; [33; 10; 0]]).
Proof.
  apply (literals_round_trip [[104; 105]; [33; 10; 0]] (mk_bytes [0; 0; 0; 0; 0]) 5).
  - discriminate.
  - repeat constructor; simpl; lia.
  - simpl. lia.
  - simpl. lia.
  - simpl. lia.
Defined.

End SnappyStored.


(** * Zip archives: locating the central directory *)

Module ZipOpen.
Import Zip ZipFacts.

Lemma read_eocd_of_loads (buf : list byte) (e v0 v1 v2 v3 v4 v5 v6 v7 : Z) :
  load32 buf (e + eocd.sig) = Ret v0 ->
  load16 buf (e + eocd.disk_id) = Ret v1 ->
  load16 buf (e + eocd.start_disk) = Ret v2 ->
  load16 buf (e + eocd.num_entries) = Ret v3 ->
  load16 buf (e + eocd.total_entries) = Ret v4 ->
  load32 buf (e + eocd.cdir_size) = Ret v5 ->
  load32 buf (e + eocd.cdir_offset) = Ret v6 ->
  load16 buf (e + sizeof_zip_eocd_s) = Ret v7 ->
  read_eocd buf e = Ret (mk_eocd v0 v1 v2 v3 v4 v5 v6 v7).
Proof.
  intros H0 H1 H2 H3 H4 H5 H6 H7. unfold read_eocd.
  rewrite H0, H1, H2, H3, H4, H5, H6, H7. reflexivity.
Qed.

(** One iteration of the scan: either no record is accepted at [i] and the
    archive record is unchanged, or the record at [i] is accepted, becomes
    [eocd], and its central directory becomes [cdfh] when it starts with the
    signature. *)
Lemma eocd_candidate_effect (buf : list byte) (raw len i : Z) (dst dst' : zip_archive_s) :
  0 <= i -> i + sizeof_zip_eocd_s + 2 <= len -> len <= i + sizeof_zip_eocd_s + 2 + 0xffff ->
  eocd_candidate buf raw len i dst = Ret dst' ->
  ((forall r, ~ eocd_accepted buf raw len i r) /\ dst' = dst) \/
  (exists r, eocd_accepted buf raw len i r /\ za_eocd dst' = Some (raw + i) /\
     ((load32 buf (raw + e_cdir_offset r) = Ret 0x02014b50 /\
       za_cdfh dst' = Some (raw + e_cdir_offset r)) \/
      (load32 buf (raw + e_cdir_offset r) <> Ret 0x02014b50 /\
       za_cdfh dst' = za_cdfh dst))).
Proof.
  intros Hi Hlo Hhi H. unfold eocd_candidate in H.
  apply bind_Ret_inv in H as (v0 & E0 & H). apply bind_Ret_inv in H as (v1 & E1 & H).
  apply bind_Ret_inv in H as (v2 & E2 & H). apply bind_Ret_inv in H as (v3 & E3 & H).
  apply bind_Ret_inv in H as (v4 & E4 & H). apply bind_Ret_inv in H as (v5 & E5 & H).
  apply bind_Ret_inv in H as (v6 & E6 & H). apply bind_Ret_inv in H as (v7 & E7 & H).
  pose proof (read_eocd_of_loads _ _ _ _ _ _ _ _ _ _ E0 E1 E2 E3 E4 E5 E6 E7) as Hr.
  set (r := mk_eocd v0 v1 v2 v3 v4 v5 v6 v7) in Hr.
  assert (Hdet : forall r', eocd_accepted buf raw len i r' -> r' = r).
  { intros r' (_ & _ & _ & Hr' & _). congruence. }
  destruct ((v0 =? 0x06054b50) && (v1 =? v2) && (v3 =? v4)
            && (sizeof_zip_cdfh_s * v3 <=? v5) && (v6 <? len) && (i + v7 <=? s64 len)) eqn:Econd.
  - right. exists r.
    repeat (apply andb_true_iff in Econd as [Econd ?]).
    assert (Hacc : eocd_accepted buf raw len i r).
    { unfold eocd_accepted. subst r. simpl. repeat split; try assumption; lia. }
    split; [exact Hacc|].
    apply bind_Ret_inv in H as (d1 & Hd1 & H).
    assert (Hd : za_eocd d1 = Some (raw + i) /\ za_cdfh d1 = za_cdfh dst).
    { destruct (sizeof_zip64_eocdl <=? i).
      - apply bind_Ret_inv in Hd1 as (lsig & _ & Hd1).
        destruct (lsig =? 0x07064b50); injection Hd1 as <-; split; reflexivity.
      - injection Hd1 as <-. split; reflexivity. }
    destruct Hd as (He & Hc).
    apply bind_Ret_inv in H as (csig & Ecs & H). change (e_cdir_offset r) with v6.
    unfold cdfh.sig in Ecs. rewrite Z.add_0_r in Ecs.
    destruct (Z.eqb_spec csig 0x02014b50) as [->|Hne]; injection H as <-.
    + split; [exact He|]. left. split; [exact Ecs|reflexivity].
    + split; [exact He|]. right. split; [|exact Hc]. rewrite Ecs. congruence.
  - left. injection H as <-. split; [|reflexivity].
    intros r' Hacc. pose proof (Hdet r' Hacc) as ->.
    destruct Hacc as (_ & _ & _ & _ & A1 & A2 & A3 & A4 & A5 & A6). subst r. simpl in *.
    assert (Htrue : (v0 =? 0x06054b50) && (v1 =? v2) && (v3 =? v4)
                    && (sizeof_zip_cdfh_s * v3 <=? v5) && (v6 <? len) && (i + v7 <=? s64 len) = true).
    { repeat (apply andb_true_iff; split); lia. }
    congruence.
Qed.

Section Scan.

Variables (buf : list byte) (raw len : Z).
Hypothesis Hlen : len + 0xffff < 2 ^ 64.

Lemma scanned_above_step (i : Z) (dst dst' : zip_archive_s) :
  0 <= i -> i + sizeof_zip_eocd_s + 2 <= len -> len <= i + sizeof_zip_eocd_s + 2 + 0xffff ->
  scanned_above buf raw len i dst ->
  eocd_candidate buf raw len i dst = Ret dst' ->
  scanned_above buf raw len (i - 1) dst'.
Proof.
  intros Hi Hlo Hhi (He & Hc) H.
  assert (Hread : forall r r', eocd_accepted buf raw len i r -> eocd_accepted buf raw len i r' ->
                               r' = r).
  { intros r r' (_ & _ & _ & A & _) (_ & _ & _ & B & _). congruence. }
  destruct (eocd_candidate_effect _ _ _ _ _ _ Hi Hlo Hhi H)
    as [(Hno & ->)|(r & Hacc & Ee & Hcd)]; unfold scanned_above.
  - split.
    + destruct (za_eocd dst) as [e|].
      * destruct He as (i0 & r0 & ? & ? & ? & Hmin). exists i0, r0.
        split; [lia|]. split; [assumption|]. split; [assumption|].
        intros i' r' Hi' Ha. destruct (Z.eq_dec i' i) as [->|]; [exfalso; eapply Hno; eauto|].
        apply (Hmin i' r'); [lia|assumption].
      * intros i' r' Hi' Ha. destruct (Z.eq_dec i' i) as [->|]; [eapply Hno; eauto|].
        apply (He i' r'); [lia|assumption].
    + destruct (za_cdfh dst) as [c|].
      * destruct Hc as (i0 & r0 & ? & ? & ? & Hmin). exists i0, r0.
        split; [lia|]. split; [assumption|]. split; [assumption|].
        intros i' r' Hi' Ha. destruct (Z.eq_dec i' i) as [->|];
          [exfalso; eapply Hno; apply Ha|].
        apply (Hmin i' r'); [lia|assumption].
      * intros i' r' Hi' Ha. destruct (Z.eq_dec i' i) as [->|]; [eapply Hno; apply Ha|].
        apply (Hc i' r'); [lia|assumption].
  - split.
    + rewrite Ee. exists i, r. split; [lia|]. split; [reflexivity|]. split; [assumption|].
      intros; lia.
    + destruct Hcd as [(Hsig & ->)|(Hnsig & ->)].
      * exists i, r. split; [lia|]. split; [reflexivity|]. split; [split; assumption|].
        intros; lia.
      * destruct (za_cdfh dst) as [c|].
        -- destruct Hc as (i0 & r0 & ? & ? & ? & Hmin). exists i0, r0.
           split; [lia|]. split; [assumption|]. split; [assumption|].
           intros i' r' Hi' Ha. destruct (Z.eq_dec i' i) as [->|].
           ++ exfalso. destruct Ha as (Ha & Hs). rewrite (Hread r r' Hacc Ha) in Hs.
              contradiction.
           ++ apply (Hmin i' r'); [lia|assumption].
        -- intros i' r' Hi' Ha. destruct (Z.eq_dec i' i) as [->|].
           ++ destruct Ha as (Ha & Hs). rewrite (Hread r r' Hacc Ha) in Hs. contradiction.
           ++ apply (Hc i' r'); [lia|assumption].
Qed.

(** Offsets at or below [i] are all outside the window once [i] is. *)
Lemma scanned_above_stop (i : Z) (dst : zip_archive_s) :
  i < 0 \/ i + sizeof_zip_eocd_s + 2 + 0xffff < len ->
  scanned_above buf raw len i dst -> scanned_above buf raw len (-1) dst.
Proof.
  intros Hstop (He & Hc).
  assert (Hout : forall i' r', i' <= i -> ~ eocd_accepted buf raw len i' r').
  { intros i' r' Hle (? & ? & ? & _). lia. }
  split.
  - destruct (za_eocd dst) as [e|].
    + destruct He as (i0 & r0 & ? & ? & ? & Hmin). exists i0, r0.
      assert (0 <= i0) by (destruct H1; assumption).
      split; [lia|]. split; [assumption|]. split; [assumption|].
      intros i' r' Hi' Ha. destruct (Z.le_gt_cases i' i); [exfalso; eapply Hout; eauto|].
      apply (Hmin i' r'); [lia|assumption].
    + intros i' r' Hi' Ha. destruct (Z.le_gt_cases i' i); [eapply Hout; eauto|].
      apply (He i' r'); [lia|assumption].
  - destruct (za_cdfh dst) as [c|].
    + destruct Hc as (i0 & r0 & ? & ? & ? & Hmin). exists i0, r0.
      assert (0 <= i0) by (destruct H1 as ((? & _) & _); assumption).
      split; [lia|]. split; [assumption|]. split; [assumption|].
      intros i' r' Hi' Ha. destruct (Z.le_gt_cases i' i); [exfalso; eapply Hout; [|apply Ha]; lia|].
      apply (Hmin i' r'); [lia|assumption].
    + intros i' r' Hi' Ha. destruct (Z.le_gt_cases i' i); [eapply Hout; [|apply Ha]; lia|].
      apply (Hc i' r'); [lia|assumption].
Qed.

Lemma eocd_scan_scanned (fuel : nat) : forall (i : Z) (dst dst' : zip_archive_s),
  -1 <= i -> i + sizeof_zip_eocd_s + 2 <= len ->
  scanned_above buf raw len i dst ->
  eocd_scan fuel buf raw len i dst = Ret dst' ->
  scanned_above buf raw len (-1) dst'.
Proof.
  induction fuel as [|fuel IH]; intros i dst dst' Hi Hlo Hs H; [discriminate|].
  cbn [eocd_scan] in H. unfold sizeof_zip_eocd_s in *.
  assert (Hu : u64 (i + 20 + 2 + 0xffff) = i + 20 + 2 + 0xffff).
  { unfold u64. apply Z.mod_small. lia. }
  rewrite Hu in H.
  destruct (Z.leb_spec len (i + 20 + 2 + 0xffff)) as [Hw|Hw];
    destruct (Z.leb_spec 0 i) as [H0|H0]; cbn [andb] in H.
  - apply bind_Ret_inv in H as (d1 & Hd1 & H).
    apply (IH (i - 1) d1 dst'); [lia|lia| |exact H].
    apply (scanned_above_step i dst d1); unfold sizeof_zip_eocd_s; auto.
  - injection H as <-. apply (scanned_above_stop i); [left; lia|exact Hs].
  - injection H as <-. apply (scanned_above_stop i); [right; unfold sizeof_zip_eocd_s; lia|exact Hs].
  - injection H as <-. apply (scanned_above_stop i); [left; lia|exact Hs].
Qed.

End Scan.

(** No record is taken when [len], as a [ptrdiff_t], is negative. *)
Lemma eocd_accepted_len (buf : list byte) (raw len i : Z) (r : zip_eocd_s) :
  0 <= len < 2 ^ 64 -> eocd_accepted buf raw len i r -> len < 2 ^ 63.
Proof.
  intros Hlen (Hi & _ & _ & Hr & _ & _ & _ & _ & _ & Hsix).
  unfold read_eocd in Hr.
  apply bind_Ret_inv in Hr as (v0 & _ & Hr). apply bind_Ret_inv in Hr as (v1 & _ & Hr).
  apply bind_Ret_inv in Hr as (v2 & _ & Hr). apply bind_Ret_inv in Hr as (v3 & _ & Hr).
  apply bind_Ret_inv in Hr as (v4 & _ & Hr). apply bind_Ret_inv in Hr as (v5 & _ & Hr).
  apply bind_Ret_inv in Hr as (v6 & _ & Hr). apply bind_Ret_inv in Hr as (v7 & E7 & Hr).
  injection Hr as <-. cbn [e_comment_len] in Hsix. apply load16_nonneg in E7.
  destruct (Z.lt_ge_cases len (2 ^ 63)) as [|Hbig]; [assumption|exfalso].
  assert (Hs : s64 len = len - 2 ^ 64).
  { unfold s64. replace (len + 2 ^ 63) with (len - 2 ^ 63 + 1 * 2 ^ 64) by lia.
    rewrite Z.mod_add by lia. rewrite Z.mod_small by lia. lia. }
  lia.
Qed.

(** X12: for every [size_t len], whenever [OpenZipArchive] returns, it
    returns [true] exactly when some end of central directory record that
    passes its tests, at an offset that leaves room for a comment of at most
    65535 bytes, points at a central directory signature; [eocd] is then the
    accepted record at the lowest offset (the loop runs downwards and does
    not stop at a match), and [cdfh] is the directory of the lowest accepted
    record that has one.  The loop index and the sixth test are signed: for
    [len] of 2^63 or more no record passes, and the result is [false]. *)
Theorem OpenZipArchive_takes_lowest_record
    (buf : list byte) (raw len : Z) (b : bool) (za : zip_archive_s) :
  0 <= len < 2 ^ 64 ->
  OpenZipArchive buf raw len = Ret (b, za) ->
  zip_opened buf raw len b za.
Proof.
  intros Hlen H. unfold OpenZipArchive in H.
  apply bind_Ret_inv in H as (dst & Hscan & [= <- <-]).
  assert (Hzero : scanned_above buf raw len (len - sizeof_zip_eocd_s - 2)
                    (mk_zip None None None)).
  { split; simpl.
    - intros i r Hi (? & ? & _). lia.
    - intros i r Hi ((? & ? & _) & _). lia. }
  assert (Hs : scanned_above buf raw len (-1) dst).
  { destruct (Z.leb_spec (sizeof_zip_eocd_s + 2) len) as [Hl|Hl].
    - unfold sizeof_zip_eocd_s in *.
      destruct (Z.lt_ge_cases (len - 20 - 2) (2 ^ 63)) as [Hsmall|Hbig].
      + assert (Es : s64 (len - 20 - 2) = len - 20 - 2).
        { unfold s64. rewrite Z.mod_small by lia. lia. }
        rewrite Es in Hscan.
        apply (eocd_scan_scanned buf raw len ltac:(lia) (S (Z.to_nat len)) (len - 20 - 2)
                 (mk_zip None None None) dst); [lia|unfold sizeof_zip_eocd_s; lia|exact Hzero
                 |exact Hscan].
      + assert (Es : s64 (len - 20 - 2) < 0).
        { unfold s64. replace (len - 20 - 2 + 2 ^ 63)
            with (len - 20 - 2 - 2 ^ 63 + 1 * 2 ^ 64) by lia.
          rewrite Z.mod_add by lia. rewrite Z.mod_small by lia. lia. }
        cbn [eocd_scan] in Hscan.
        destruct (Z.leb_spec 0 (s64 (len - 20 - 2))) as [|_]; [lia|].
        rewrite andb_false_r in Hscan. injection Hscan as <-.
        split; simpl.
        * intros i r _ Ha. pose proof (eocd_accepted_len _ _ _ _ _ Hlen Ha). lia.
        * intros i r _ (Ha & _). pose proof (eocd_accepted_len _ _ _ _ _ Hlen Ha). lia.
    - injection Hscan as <-. split; simpl.
      + intros i r Hi (? & ? & _). unfold sizeof_zip_eocd_s in *. lia.
      + intros i r Hi ((? & ? & _) & _). unfold sizeof_zip_eocd_s in *. lia. }
  destruct Hs as (He & Hc). unfold zip_opened.
  assert (Hpos : forall i r, eocd_accepted buf raw len i r -> -1 < i).
  { intros i r (? & _). lia. }
  split; [|split].
  - split.
    + intros Hb. apply andb_true_iff in Hb as (_ & Hb).
      destruct (za_cdfh dst) as [c|]; [|discriminate].
      destruct Hc as (i & r & _ & _ & Hf & _). eauto.
    + intros (i & r & Hf). apply andb_true_iff. split.
      * destruct (za_eocd dst); [reflexivity|]. exfalso.
        apply (He i r); [apply (Hpos i r), Hf|apply Hf].
      * destruct (za_cdfh dst); [reflexivity|]. exfalso.
        apply (Hc i r); [apply (Hpos i r), Hf|exact Hf].
  - destruct (za_eocd dst) as [e|].
    + destruct He as (i & r & _ & ? & ? & Hmin). exists i, r. split; [assumption|]. split; [assumption|].
      intros i' r' Ha. apply (Hmin i' r'); [apply (Hpos i' r'), Ha|exact Ha].
    + intros i r Ha. apply (He i r); [apply (Hpos i r), Ha|exact Ha].
  - destruct (za_cdfh dst) as [c|].
    + destruct Hc as (i & r & _ & ? & ? & Hmin). exists i, r. split; [assumption|]. split; [assumption|].
      intros i' r' Ha. apply (Hmin i' r'); [apply (Hpos i' r'), Ha|exact Ha].
    + intros i r Ha. apply (Hc i r); [apply (Hpos i r), Ha|exact Ha].
Qed.

Lemma OpenZipArchive_takes_lowest_record_witness :
  zip_opened ex_stored_stored_deflated 0 263 true (mk_zip (Some 241) None (Some 100)).
Proof.
  apply OpenZipArchive_takes_lowest_record; [lia|vm_compute; reflexivity].
Defined.

(** With two records in the buffer, [eocd] is the lower one and [cdfh] the
    directory that the upper one points at. *)
Example OpenZipArchive_mixes_records :
  OpenZipArchive ex_two_eocd 0 48 = Ret (true, mk_zip (Some 0) None (Some 44)).
Proof. vm_compute. reflexivity. Qed.

(** ** Reads of the scan *)

Lemma eocd_candidate_returns (buf : list byte) (raw len i : Z) (dst : zip_archive_s) :
  0 <= raw -> raw + len + 3 <= Z.of_nat (length buf) ->
  0 <= i -> i + sizeof_zip_eocd_s + 2 <= len ->
  exists dst', eocd_candidate buf raw len i dst = Ret dst'.
Proof.
  unfold sizeof_zip_eocd_s. intros Hraw Hbuf Hi Hlo. unfold eocd_candidate.
  unfold eocd.sig, eocd.disk_id, eocd.start_disk, eocd.num_entries, eocd.total_entries,
    eocd.cdir_size, eocd.cdir_offset, sizeof_zip_eocd_s, sizeof_zip64_eocdl, cdfh.sig.
  destruct (load32_in buf (raw + i + 0)) as (v0 & -> & _); [lia|lia|]. cbn [bind].
  destruct (load16_in buf (raw + i + 4)) as (v1 & -> & _); [lia|lia|]. cbn [bind].
  destruct (load16_in buf (raw + i + 6)) as (v2 & -> & _); [lia|lia|]. cbn [bind].
  destruct (load16_in buf (raw + i + 8)) as (v3 & -> & _); [lia|lia|]. cbn [bind].
  destruct (load16_in buf (raw + i + 10)) as (v4 & -> & _); [lia|lia|]. cbn [bind].
  destruct (load32_in buf (raw + i + 12)) as (v5 & -> & _); [lia|lia|]. cbn [bind].
  destruct (load32_in buf (raw + i + 16)) as (v6 & -> & Hv6); [lia|lia|]. cbn [bind].
  destruct (load16_in buf (raw + i + 20)) as (v7 & -> & _); [lia|lia|]. cbn [bind].
  destruct (_ && (v6 <? len) && _) eqn:Econd; [|eauto].
  apply andb_true_iff in Econd as (Econd & _). apply andb_true_iff in Econd as (_ & Hoff).
  apply Z.ltb_lt in Hoff.
  destruct (load32_in buf (raw + v6 + 0)) as (cs & Ecs & _); [lia|lia|].
  destruct (Z.leb_spec 20 i).
  - destruct (load32_in buf (raw + i - 20)) as (ls & -> & _); [lia|lia|]. cbn [bind].
    destruct (ls =? 0x07064b50); cbn [bind za_eocd za_eocdl za_cdfh]; rewrite Ecs; cbn [bind];
      destruct (cs =? 0x02014b50); eauto.
  - cbn [bind za_eocd za_eocdl za_cdfh]. rewrite Ecs. cbn [bind].
    destruct (cs =? 0x02014b50); eauto.
Qed.

Lemma eocd_scan_returns (buf : list byte) (raw len : Z) :
  0 <= raw -> raw + len + 3 <= Z.of_nat (length buf) ->
  forall (fuel : nat) (i : Z) (dst : zip_archive_s),
    (1 <= fuel)%nat -> i + sizeof_zip_eocd_s + 2 <= len -> i + 2 <= Z.of_nat fuel ->
    exists dst', eocd_scan fuel buf raw len i dst = Ret dst'.
Proof.
  intros Hraw Hbuf. induction fuel as [|fuel IH]; intros i dst H1 Hlo Hf; [lia|].
  cbn [eocd_scan].
  destruct ((len <=? u64 (i + sizeof_zip_eocd_s + 2 + 0xffff)) && (0 <=? i)) eqn:Ec; [|eauto].
  apply andb_true_iff in Ec as (_ & Hi). apply Z.leb_le in Hi.
  destruct (eocd_candidate_returns buf raw len i dst) as (d1 & ->); auto.
  cbn [bind]. apply IH; lia.
Qed.

(** A [size_t] read as a [ptrdiff_t] is not above its value. *)
Lemma s64_le (x : Z) : 0 <= x -> s64 x <= x.
Proof.
  intros Hx. unfold s64.
  pose proof (Z.mod_le (x + 2 ^ 63) (2 ^ 64) ltac:(lia) ltac:(lia)). lia.
Qed.

(** X13: on a buffer that extends three bytes past the [len] bytes at [raw],
    [OpenZipArchive] returns, whatever the bytes are: every load falls below
    [raw + len + 3].  The three bytes are those of the signature test on the
    central directory, whose offset is only compared with [len]. *)
Theorem OpenZipArchive_returns (buf : list byte) (raw len : Z) :
  0 <= raw -> raw + len + 3 <= Z.of_nat (length buf) ->
  exists b za, OpenZipArchive buf raw len = Ret (b, za).
Proof.
  intros Hraw Hbuf. unfold OpenZipArchive.
  destruct (Z.leb_spec (sizeof_zip_eocd_s + 2) len) as [Hl|Hl].
  - pose proof (s64_le (len - sizeof_zip_eocd_s - 2) ltac:(lia)) as Hle.
    destruct (eocd_scan_returns buf raw len Hraw Hbuf (S (Z.to_nat len))
                (s64 (len - sizeof_zip_eocd_s - 2)) (mk_zip None None None)) as (d & ->).
    + lia.
    + lia.
    + unfold sizeof_zip_eocd_s in *. lia.
    + cbn [bind]. eauto.
  - cbn [bind]. eauto.
Qed.

Lemma OpenZipArchive_returns_witness :
  exists b za, OpenZipArchive (ex_eocd_at_end ++ mk_bytes [0; 0; 0]) 0 22 = Ret (b, za).
Proof.
  apply OpenZipArchive_returns; [lia|vm_compute; discriminate].
Defined.

(** Without the three bytes the signature test reads past the buffer. *)
Example OpenZipArchive_reads_past_len :
  OpenZipArchive ex_eocd_at_end 0 22 = OutOfBounds.
Proof. vm_compute. reflexivity. Qed.

(** ** The payload handed out *)

Lemma zip_local_file_bounds (buf : list byte) (raw src_size lfh_ofs : Z) (s : stream) :
  0 <= lfh_ofs ->
  zip_local_file buf raw src_size lfh_ofs = Ret (Some s) ->
  raw <= comp_data s /\ comp_data s + comp_len s <= raw + src_size /\
  0 < comp_len s < 2 ^ 32 /\ 0 < uncomp_len s < 2 ^ 32.
Proof.
  intros Hofs H. unfold zip_local_file in H.
  destruct (Z.ltb_spec src_size (lfh_ofs + sizeof_zip_lfh_s)); [discriminate|].
  apply bind_Ret_inv in H as (sig & _ & H). destruct (negb _); [discriminate|].
  apply bind_Ret_inv in H as (fl & Hfl & H). apply bind_Ret_inv in H as (el & Hel & H).
  destruct (Z.ltb_spec src_size (lfh_ofs + sizeof_zip_lfh_s + fl + el)); [discriminate|].
  apply bind_Ret_inv in H as (m & _ & H). destruct (negb _); [discriminate|].
  apply bind_Ret_inv in H as (cs & Hcs & H).
  destruct (Z.ltb_spec 0 cs); cbn [negb] in H; [|discriminate].
  apply bind_Ret_inv in H as (us & Hus & H).
  destruct (Z.ltb_spec 0 us); cbn [negb] in H; [|discriminate].
  destruct (Z.leb_spec (lfh_ofs + sizeof_zip_lfh_s + fl + el + cs) src_size); [|discriminate].
  injection H as <-. simpl.
  apply load16_nonneg in Hfl, Hel. apply load32_nonneg in Hcs, Hus.
  unfold sizeof_zip_lfh_s in *. lia.
Qed.

Lemma zip_walk_takes_local_file (buf : list byte) (raw src_size c cdir_size : Z) (s : stream) :
  forall (n : nat) (ofs : Z),
    zip_walk n buf raw src_size c cdir_size ofs = Ret (Some s) ->
    exists lfh_ofs, 0 <= lfh_ofs /\ zip_local_file buf raw src_size lfh_ofs = Ret (Some s).
Proof.
  induction n as [|n IH]; intros ofs H; [discriminate|].
  cbn [zip_walk] in H.
  apply bind_Ret_inv in H as (fl & _ & H). apply bind_Ret_inv in H as (el & _ & H).
  apply bind_Ret_inv in H as (cl & _ & H).
  destruct (_ <? _); [discriminate|].
  apply bind_Ret_inv in H as (sig & _ & H). destruct (negb _); [discriminate|].
  apply bind_Ret_inv in H as (d & _ & H). apply bind_Ret_inv in H as (r & Hr & H).
  destruct r as [s'|].
  - injection H as ->. destruct d; [|discriminate].
    apply bind_Ret_inv in Hr as (lfh_ofs & Hl & Hr). apply load32_nonneg in Hl.
    exists lfh_ofs. split; [lia|exact Hr].
  - apply (IH _ H).
Qed.

Lemma zip_stream_bounds (buf : list byte) (raw src_size : Z) (s : stream) :
  io_uncompress_single_h2d_zip buf raw src_size = Ret (Some s) ->
  raw <= comp_data s /\ comp_data s + comp_len s <= raw + src_size /\
  0 < comp_len s < 2 ^ 32 /\ 0 < uncomp_len s < 2 ^ 32.
Proof.
  intros H. unfold io_uncompress_single_h2d_zip in H.
  apply bind_Ret_inv in H as ((b & za) & _ & H).
  destruct b; [|discriminate]. destruct za as [[e|] l [c|]]; try discriminate.
  apply bind_Ret_inv in H as (ne & _ & H). apply bind_Ret_inv in H as (cs & _ & H).
  apply zip_walk_takes_local_file in H as (lfh_ofs & Hofs & H).
  apply (zip_local_file_bounds buf raw src_size lfh_ofs s Hofs H).
Qed.

End ZipOpen.


(** * Choosing the stream to decompress: proofs *)

Module UncompFacts.
Import Uncomp.

(** An accepted gzip archive has a payload pointer and a non-empty payload. *)
Lemma ParseGZArchive_true (F : GZIPHeaderFlag.t) (buf : list byte) (raw len : Z)
    (gz : GZip.gz_archive_s) :
  GZip.ParseGZArchive F buf raw len = Ret (true, gz) ->
  exists p, GZip.comp_data gz = Some p /\ 0 < GZip.comp_len gz.
Proof.
  unfold GZip.ParseGZArchive. intros H.
  destruct (len <? _); [discriminate|].
  apply bind_Ret_inv in H as (id1 & _ & H). destruct (negb _); [discriminate|].
  apply bind_Ret_inv in H as (id2 & _ & H). destruct (negb _); [discriminate|].
  apply bind_Ret_inv in H as (flags & _ & H). apply bind_Ret_inv in H as (m & _ & H).
  apply bind_Ret_inv in H as ([p1|] & _ & H); [|discriminate].
  apply bind_Ret_inv in H as ([p2|] & _ & H); [|discriminate].
  apply bind_Ret_inv in H as ([p3|] & _ & H); [|discriminate].
  apply bind_Ret_inv in H as ([p4|] & _ & H); [|discriminate].
  unfold GZip.parse_trailer in H. destruct (_ <? 8); [discriminate|].
  apply bind_Ret_inv in H as (c & _ & H). apply bind_Ret_inv in H as (i & _ & H).
  injection H as Hb <-. simpl.
  apply andb_true_iff in Hb as (_ & Hb). apply Z.ltb_lt in Hb. eauto.
Qed.

(** The payload of an accepted gzip archive lies between the base header
    and the trailer. *)
Lemma ParseGZArchive_span (F : GZIPHeaderFlag.t) (buf : list byte) (raw len : Z)
    (gz : GZip.gz_archive_s) :
  0 <= raw -> raw + len <= Z.of_nat (length buf) ->
  GZip.ParseGZArchive F buf raw len = Ret (true, gz) ->
  exists p, GZip.comp_data gz = Some p /\
            raw + GZip.sizeof_gz_file_header_s <= p /\
            p + GZip.comp_len gz + 8 = raw + len /\ 0 < GZip.comp_len gz.
Proof.
  intros Hraw Hbuf H. unfold GZip.ParseGZArchive in H.
  destruct (Z.ltb_spec len (GZip.sizeof_gz_file_header_s + 8)); [discriminate|].
  apply bind_Ret_inv in H as (id1 & _ & H). destruct (negb _); [discriminate|].
  apply bind_Ret_inv in H as (id2 & _ & H). destruct (negb _); [discriminate|].
  apply bind_Ret_inv in H as (flags & _ & H). apply bind_Ret_inv in H as (m & _ & H).
  set (p0 := GZip.mk_parse _ _ _) in H.
  unfold GZip.sizeof_gz_file_header_s in *.
  assert (Hwf0 : GZip.parse_wf buf p0) by (unfold GZip.parse_wf; simpl; lia).
  destruct (GZipFacts.parse_fextra_spec F buf flags p0 Hwf0)
    as [(E & _)|(p1 & E & Hwf1 & Hend1 & Hiff1)]; rewrite E in H; cbn [bind] in H;
    [discriminate|].
  destruct (GZipFacts.parse_fname_spec F buf flags p1 Hwf1)
    as [(E2 & _)|(p2 & E2 & Hwf2 & Hend2 & Hiff2)]; rewrite E2 in H; cbn [bind] in H;
    [discriminate|].
  destruct (GZipFacts.parse_fcomment_spec F buf flags p2 Hwf2)
    as [(E3 & _)|(p3 & E3 & Hwf3 & Hend3 & Hiff3)]; rewrite E3 in H; cbn [bind] in H;
    [discriminate|].
  destruct (GZipFacts.parse_fhcrc_spec F buf flags p3 Hwf3)
    as [(E4 & _)|(p4 & E4 & Hwf4 & Hend4 & Hiff4)]; rewrite E4 in H; cbn [bind] in H;
    [discriminate|].
  assert (H01 : GZip.p_raw p0 <= GZip.p_raw p1).
  { apply (GZipFacts.fextra_field_mono F buf flags), Hiff1. reflexivity. }
  assert (H12 : GZip.p_raw p1 <= GZip.p_raw p2).
  { apply (GZipFacts.fname_field_mono F buf flags), Hiff2. reflexivity. }
  assert (H23 : GZip.p_raw p2 <= GZip.p_raw p3).
  { apply (GZipFacts.fcomment_field_mono F buf flags), Hiff3. reflexivity. }
  assert (H34 : GZip.p_raw p3 <= GZip.p_raw p4).
  { apply (GZipFacts.fhcrc_field_mono F buf flags), Hiff4. reflexivity. }
  unfold GZip.parse_trailer in H.
  destruct (Z.ltb_spec (GZip.p_len p4) 8); [discriminate|].
  apply bind_Ret_inv in H as (c & _ & H). apply bind_Ret_inv in H as (i & _ & H).
  injection H as Hb <-. cbn [GZip.comp_data GZip.comp_len].
  apply andb_true_iff in Hb as (_ & Hb). apply Z.ltb_lt in Hb.
  exists (GZip.p_raw p4). simpl in *. repeat split; lia.
Qed.

#[local] Abbreviation INFER := IO_UNCOMP_STREAM_TYPE_INFER (only parsing).
#[local] Abbreviation GZIP := IO_UNCOMP_STREAM_TYPE_GZIP (only parsing).
#[local] Abbreviation ZIP := IO_UNCOMP_STREAM_TYPE_ZIP (only parsing).
#[local] Abbreviation BZIP2 := IO_UNCOMP_STREAM_TYPE_BZIP2 (only parsing).

(** ** What the [switch] leaves in the locals *)

Lemma from_bzip2_inv (buf : list byte) (raw n : Z) (s0 s : selection) :
  from_bzip2 buf raw n s0 = Ret s ->
  s = s0 \/ (4 < n /\ s = mk_sel BZIP2 (Some raw) n 0).
Proof.
  unfold from_bzip2, case_bzip2. intros H.
  destruct (Z.ltb_spec 4 n); [|injection H as <-; auto].
  apply bind_Ret_inv in H as ([|] & _ & H); injection H as <-; auto.
Qed.

Lemma from_zip_inv (buf : list byte) (raw n : Z) (s0 s : selection) :
  from_zip buf raw n s0 = Ret s ->
  s = s0 \/
  (exists z, Zip.io_uncompress_single_h2d_zip buf raw n = Ret (Some z) /\
             s = mk_sel ZIP (Some (Zip.comp_data z)) (Zip.comp_len z) (Zip.uncomp_len z)) \/
  (is_infer (stream_type s0) = true /\ 4 < n /\ s = mk_sel BZIP2 (Some raw) n 0).
Proof.
  unfold from_zip, case_zip. intros H.
  apply bind_Ret_inv in H as (s1 & H1 & H).
  apply bind_Ret_inv in H1 as ([z|] & Hz & H1); injection H1 as <-.
  - cbn in H. injection H as <-. right. left. eauto.
  - destruct (is_infer (stream_type s0)) eqn:Ei.
    + apply from_bzip2_inv in H as [->|(? & ->)]; auto 8.
    + injection H as <-. auto.
Qed.

Lemma from_gzip_inv (F : GZIPHeaderFlag.t) (buf : list byte) (raw n : Z) (s0 s : selection) :
  from_gzip F buf raw n s0 = Ret s ->
  s = s0 \/
  (exists gz, GZip.ParseGZArchive F buf raw n = Ret (true, gz) /\
              s = mk_sel GZIP (GZip.comp_data gz) (GZip.comp_len gz) (GZip.isize gz)) \/
  (is_infer (stream_type s0) = true /\
   exists z, Zip.io_uncompress_single_h2d_zip buf raw n = Ret (Some z) /\
             s = mk_sel ZIP (Some (Zip.comp_data z)) (Zip.comp_len z) (Zip.uncomp_len z)) \/
  (is_infer (stream_type s0) = true /\ 4 < n /\ s = mk_sel BZIP2 (Some raw) n 0).
Proof.
  unfold from_gzip, case_gzip. intros H.
  apply bind_Ret_inv in H as (s1 & H1 & H).
  apply bind_Ret_inv in H1 as ((b & gz) & Hg & H1). destruct b; cbn in H1; injection H1 as <-.
  - cbn in H. injection H as <-. right. left. eauto.
  - destruct (is_infer (stream_type s0)) eqn:Ei.
    + apply from_zip_inv in H as [->|[(z & ? & ->)|(_ & ? & ->)]].
      * left. reflexivity.
      * right. right. left. split; [reflexivity|]. exists z. split; [assumption|reflexivity].
      * right. right. right. split; [reflexivity|]. split; [assumption|reflexivity].
    + injection H as <-. auto.
Qed.

(** The stream a request for type [t] ends with: none, or the payload of
    the gzip archive, of the first zip entry taken, or the whole source as a
    bzip2 stream, each only for a request of its type or an inferred one. *)
Lemma select_stream_inv (F : GZIPHeaderFlag.t) (buf : list byte) (raw n : Z)
    (t : stream_type_e) (s : selection) :
  select_stream F buf raw n t = Ret s ->
  s = mk_sel t None 0 0 \/
  ((t = INFER \/ t = GZIP) /\
   exists gz, GZip.ParseGZArchive F buf raw n = Ret (true, gz) /\
              s = mk_sel GZIP (GZip.comp_data gz) (GZip.comp_len gz) (GZip.isize gz)) \/
  ((t = INFER \/ t = ZIP) /\
   exists z, Zip.io_uncompress_single_h2d_zip buf raw n = Ret (Some z) /\
             s = mk_sel ZIP (Some (Zip.comp_data z)) (Zip.comp_len z) (Zip.uncomp_len z)) \/
  ((t = INFER \/ t = BZIP2) /\ 4 < n /\ s = mk_sel BZIP2 (Some raw) n 0).
Proof.
  unfold select_stream. intros H. destruct t.
  - apply from_gzip_inv in H as [->|[?|[(_ & ?)|(_ & ?)]]]; auto 10.
  - apply from_gzip_inv in H as [->|[?|[(? & _)|(? & _)]]]; auto 10; discriminate.
  - apply from_zip_inv in H as [->|[?|(? & _)]]; auto 10; discriminate.
  - apply from_bzip2_inv in H as [->|?]; auto 10.
  - injection H as <-. auto.
  - injection H as <-. auto.
  - injection H as <-. auto.
  - injection H as <-. auto.
Qed.

(** X14: whatever type is requested, the span that
    [io_uncompress_single_h2d] hands to zlib or to the bzip2 decoder is a
    non-empty part of the source, and the destination it allocates first is
    not empty. *)
Theorem selected_stream_within_source
    (F : GZIPHeaderFlag.t) (buf : list byte) (raw src_size : Z) (t : stream_type_e) (c : call) :
  0 <= raw -> raw + src_size <= Z.of_nat (length buf) -> src_size < 2 ^ 61 ->
  io_uncompress_single_h2d F buf (Some raw) src_size t = Ret c ->
  within_source raw src_size c.
Proof.
  intros Hraw Hbuf Hsz H. unfold io_uncompress_single_h2d in H.
  destruct (src_size =? 0); [injection H as <-; exact I|].
  apply bind_Ret_inv in H as (s & Hs & H).
  assert (Hgen : forall ty p l u,
            s = mk_sel ty (Some p) l u ->
            raw <= p -> 0 < l -> p + l <= raw + src_size -> 0 <= u -> within_source raw src_size c).
  { intros ty p l u -> Hp Hl Hpl Hu. cbn in H.
    destruct (Z.ltb_spec 0 l); [|lia]. cbn [negb] in H.
    assert (Hn : 0 < (if u <=? 0 then u64 (l * 4 + 4096) else u)).
    { destruct (Z.leb_spec u 0); [|lia]. unfold u64. rewrite Z.mod_small; lia. }
    destruct ty; injection H as <-; cbn; auto. }
  apply select_stream_inv in Hs
    as [->|[(_ & gz & Hg & Es)|[(_ & z & Hz & Es)|(_ & Hn & Es)]]].
  - cbn in H. injection H as <-. exact I.
  - destruct (ParseGZArchive_span F buf raw src_size gz Hraw Hbuf Hg) as (p & Ep & H1 & H2 & H3).
    rewrite Ep in Es. unfold GZip.sizeof_gz_file_header_s in H1.
    assert (Hi : 0 <= GZip.isize gz).
    { clear -Hg. unfold GZip.ParseGZArchive in Hg.
      destruct (_ <? _); [discriminate|].
      apply bind_Ret_inv in Hg as (id1 & _ & H). destruct (negb _); [discriminate|].
      apply bind_Ret_inv in H as (id2 & _ & H). destruct (negb _); [discriminate|].
      apply bind_Ret_inv in H as (flags & _ & H). apply bind_Ret_inv in H as (m & _ & H).
      apply bind_Ret_inv in H as ([p1|] & _ & H); [|discriminate].
      apply bind_Ret_inv in H as ([p2|] & _ & H); [|discriminate].
      apply bind_Ret_inv in H as ([p3|] & _ & H); [|discriminate].
      apply bind_Ret_inv in H as ([p4|] & _ & H); [|discriminate].
      unfold GZip.parse_trailer in H. destruct (_ <? 8); [discriminate|].
      apply bind_Ret_inv in H as (c & _ & H). apply bind_Ret_inv in H as (i & Hi & H).
      injection H as _ <-. simpl. unfold GZip.load_le32 in Hi.
      apply bind_Ret_inv in Hi as (b0 & _ & Hi). apply bind_Ret_inv in Hi as (b1 & _ & Hi).
      apply bind_Ret_inv in Hi as (b2 & _ & Hi). apply bind_Ret_inv in Hi as (b3 & _ & Hi).
      injection Hi as <-. apply u32_range. }
    apply (Hgen _ _ _ _ Es); lia.
  - destruct (ZipOpen.zip_stream_bounds buf raw src_size z Hz) as (H1 & H2 & H3 & H4).
    apply (Hgen _ _ _ _ Es); lia.
  - apply (Hgen _ _ _ _ Es); lia.
Qed.

Lemma selected_stream_within_source_witness :
  within_source 0 30 (call_cpu_inflate_vector 5 20 2).
Proof.
  apply (selected_stream_within_source GZIPHeaderFlag.rfc1952 GZip.ex_gz_all_fields 0 30
           IO_UNCOMP_STREAM_TYPE_INFER).
  - lia.
  - vm_compute. discriminate.
  - reflexivity.
  - vm_compute. reflexivity.
Defined.

(** Inference on a zip archive and on a bzip2 header. *)
Example infer_zip :
  io_uncompress_single_h2d GZIPHeaderFlag.rfc1952 Zip.ex_stored_stored_deflated (Some 0) 263
    IO_UNCOMP_STREAM_TYPE_INFER
  = Ret (call_cpu_inflate_vector 10 97 3).
Proof. vm_compute. reflexivity. Qed.

Example infer_bzip2 :
  io_uncompress_single_h2d GZIPHeaderFlag.rfc1952 ex_bz2 (Some 0) 6
    IO_UNCOMP_STREAM_TYPE_INFER
  = Ret (call_cpu_bz2_uncompress 0 6 4120).
Proof. vm_compute. reflexivity. Qed.

(** X15: a request with [IO_UNCOMP_STREAM_TYPE_INFER] behaves as the request
    for gzip, unless that finds no stream; then as the request for zip,
    unless that finds no stream; then as the request for bzip2. *)
Theorem infer_is_gzip_else_zip_else_bzip2
    (F : GZIPHeaderFlag.t) (buf : list byte) (src : option Z) (src_size : Z) :
  io_uncompress_single_h2d F buf src src_size IO_UNCOMP_STREAM_TYPE_INFER
  = or_else (io_uncompress_single_h2d F buf src src_size IO_UNCOMP_STREAM_TYPE_GZIP)
      (or_else (io_uncompress_single_h2d F buf src src_size IO_UNCOMP_STREAM_TYPE_ZIP)
               (io_uncompress_single_h2d F buf src src_size IO_UNCOMP_STREAM_TYPE_BZIP2)).
Proof.
  unfold io_uncompress_single_h2d. destruct src as [raw|]; [|reflexivity].
  destruct (src_size =? 0); [reflexivity|].
  unfold select_stream, from_gzip, case_gzip.
  destruct (GZip.ParseGZArchive F buf raw src_size) as [[[|] gz]| |] eqn:Eg;
    cbn [bind fst snd]; try reflexivity.
  { destruct (ParseGZArchive_true F buf raw src_size gz Eg) as (p & Ep & Hl).
    cbn. rewrite Ep. destruct (Z.ltb_spec 0 (GZip.comp_len gz)); [|lia]. reflexivity. }
  cbn [stream_type is_infer comp_data or_else].
  unfold from_zip, case_zip.
  destruct (Zip.io_uncompress_single_h2d_zip buf raw src_size) as [[z|]| |] eqn:Ez;
    cbn [bind]; try reflexivity.
  { cbn. destruct (0 <? Zip.comp_len z); reflexivity. }
  cbn [stream_type is_infer comp_data or_else].
  unfold from_bzip2, case_bzip2.
  destruct (4 <? src_size); [|reflexivity].
  destruct (bz2_signature buf raw) as [[|]| |]; cbn [bind]; reflexivity.
Qed.

(** X16: [io_uncompress_single_h2d] throws only for a null source, a zero
    size, or when no stream was found: once [comp_data] is set, [comp_len]
    is not zero and the type is one with a decompressor, so the check of
    [comp_len] and the final [CUDF_FAIL] are never reached.  zlib is called
    only for a gzip, zip or inferred request and the bzip2 decoder only for
    a bzip2 or inferred one; in particular [get_uncompressed_data] with
    [compression_type::XZ] throws on every input. *)
Theorem requests_get_fitting_call
    (F : GZIPHeaderFlag.t) (buf : list byte) (src : option Z) (src_size : Z) :
  (forall t c, io_uncompress_single_h2d F buf src src_size t = Ret c -> call_fits t c) /\
  exists e, get_uncompressed_data F buf src src_size compression_type.XZ = Ret (throws e).
Proof.
  split.
  - intros t c H. unfold io_uncompress_single_h2d in H.
    destruct src as [raw|]; [|injection H as <-; cbn; auto].
    destruct (src_size =? 0); [injection H as <-; cbn; auto|].
    apply bind_Ret_inv in H as (s & Hs & H).
    apply select_stream_inv in Hs
      as [->|[(Ht & gz & Hg & ->)|[(Ht & z & Hz & ->)|(Ht & Hn & ->)]]].
    + injection H as <-. cbn. auto.
    + destruct (ParseGZArchive_true F buf raw src_size gz Hg) as (p & Ep & Hl).
      cbn in H. rewrite Ep in H. destruct (Z.ltb_spec 0 (GZip.comp_len gz)); [|lia].
      injection H as <-. cbn. tauto.
    + destruct (ZipOpen.zip_stream_bounds buf raw src_size z Hz) as (_ & _ & Hl & _).
      cbn in H. destruct (Z.ltb_spec 0 (Zip.comp_len z)); [|lia].
      injection H as <-. cbn. tauto.
    + cbn in H. destruct (Z.ltb_spec 0 src_size); [|lia].
      injection H as <-. cbn. tauto.
  - unfold get_uncompressed_data, io_uncompress_single_h2d. cbn [comp_type].
    destruct src; [|eauto]. destruct (src_size =? 0); eauto.
Qed.

Lemma requests_get_fitting_call_witness :
  call_fits IO_UNCOMP_STREAM_TYPE_BZIP2 (call_cpu_bz2_uncompress 0 6 4120).
Proof.
  apply (proj1 (requests_get_fitting_call GZIPHeaderFlag.rfc1952 ex_bz2 (Some 0) 6)).
  vm_compute. reflexivity.
Defined.

End UncompFacts.

